(** * A MongoDB time-series benchmark harness: the script and its properties

    The development embeds the benchmark script ([main.ts] and its extended
    variant with repeated trials) and proves the properties its specification
    states about the statistics, the formatting helpers, the data generator,
    the repeated-trial runner and the orchestrator.

    Numbers.  A JavaScript [number] is represented by [number]: the IEEE-754
    special values [NaN], [+Infinity] and [-Infinity] are kept as such, and a
    finite value is the rational it denotes; the two zeros are not told apart
    (a zero behaves as [+0]).  The arithmetic comes in two layers.  In [JS]
    the operations on finite values are exact: this is what the engine
    computes wherever nothing is rounded, that is on the special values and
    on whole numbers below [2^53] such as time values, durations and counts.
    In [Double] every result is rounded to the nearest double (IEEE-754
    binary64, ties to even, overflow to an infinity), as the engine rounds
    it, and the helpers that compute with fractions ([calculateImprovement]
    and [calculateStats]) are embedded there as well.  Where a library
    function is left to the implementation ([Math.sqrt] of a non-square,
    [Math.pow], the shortest decimal of a value without a short expansion)
    the value comes from the engine, which is a parameter ([Host]). *)

From Stdlib Require Import QArith Qcanon Qround Qpower ZArith String Ascii List Lia Lqa.
From Stdlib Require Import Sorted Permutation DecimalString DecimalN Floats.
From stdpp Require Import gmap strings.

Open Scope Z_scope.

(* ================================================================== *)
(** * Numbers *)
(* ================================================================== *)

Module JS.

Inductive number : Type :=
  | NaN
  | PInf
  | NInf
  | Fin (q : Qc).

Definition ofZ (z : Z) : number := Fin (Q2Qc (inject_Z z)).
Definition ofNat (n : nat) : number := ofZ (Z.of_nat n).

Definition qzero : Qc := Q2Qc 0.

Definition Qc_ltb (a b : Qc) : bool := bool_decide (a < b)%Qc.
Definition Qc_leb (a b : Qc) : bool := bool_decide (a <= b)%Qc.
Definition Qc_eqb (a b : Qc) : bool := bool_decide (a = b).

(** [x < y], [x <= y], [x > y], [x === y]: every comparison with [NaN] is
    false. *)
Definition ltb (x y : number) : bool :=
  match x, y with
  | NaN, _ | _, NaN => false
  | PInf, _ => false
  | _, NInf => false
  | NInf, _ => true
  | _, PInf => true
  | Fin a, Fin b => Qc_ltb a b
  end.

Definition gtb (x y : number) : bool := ltb y x.

Definition eqb (x y : number) : bool :=
  match x, y with
  | PInf, PInf | NInf, NInf => true
  | Fin a, Fin b => Qc_eqb a b
  | _, _ => false
  end.

Definition leb (x y : number) : bool := ltb x y || eqb x y.

Definition neg (x : number) : number :=
  match x with
  | NaN => NaN
  | PInf => NInf
  | NInf => PInf
  | Fin a => Fin (- a)%Qc
  end.

Definition add (x y : number) : number :=
  match x, y with
  | NaN, _ | _, NaN => NaN
  | PInf, NInf | NInf, PInf => NaN
  | PInf, _ | _, PInf => PInf
  | NInf, _ | _, NInf => NInf
  | Fin a, Fin b => Fin (a + b)%Qc
  end.

Definition sub (x y : number) : number := add x (neg y).

(** The sign of a finite value: [Lt] negative, [Eq] zero, [Gt] positive. *)
Definition Qc_sign (a : Qc) : comparison := (a ?= qzero)%Qc.

Definition mul (x y : number) : number :=
  match x, y with
  | NaN, _ | _, NaN => NaN
  | Fin a, Fin b => Fin (a * b)%Qc
  | PInf, PInf | NInf, NInf => PInf
  | PInf, NInf | NInf, PInf => NInf
  | PInf, Fin a | Fin a, PInf =>
      match Qc_sign a with Eq => NaN | Gt => PInf | Lt => NInf end
  | NInf, Fin a | Fin a, NInf =>
      match Qc_sign a with Eq => NaN | Gt => NInf | Lt => PInf end
  end.

(** Division: [0/0] and [Infinity/Infinity] are [NaN], a non-zero finite
    value over zero is the infinity of its sign, a finite value over an
    infinity is zero. *)
Definition div (x y : number) : number :=
  match x, y with
  | NaN, _ | _, NaN => NaN
  | Fin a, Fin b =>
      match Qc_sign b with
      | Eq => match Qc_sign a with Eq => NaN | Gt => PInf | Lt => NInf end
      | _ => Fin (a / b)%Qc
      end
  | Fin _, (PInf | NInf) => Fin qzero
  | (PInf | NInf), (PInf | NInf) => NaN
  | PInf, Fin b => match Qc_sign b with Lt => NInf | _ => PInf end
  | NInf, Fin b => match Qc_sign b with Lt => PInf | _ => NInf end
  end.

Definition Math_abs (x : number) : number :=
  match x with
  | NaN => NaN
  | PInf | NInf => PInf
  | Fin a => Fin (if Qc_ltb a qzero then - a else a)%Qc
  end.

(** [Math.min(...values)] and [Math.max(...values)]: the identity is the
    opposite infinity and a [NaN] argument makes the result [NaN]. *)
Definition min2 (x y : number) : number :=
  match x, y with
  | NaN, _ | _, NaN => NaN
  | _, _ => if ltb y x then y else x
  end.

Definition max2 (x y : number) : number :=
  match x, y with
  | NaN, _ | _, NaN => NaN
  | _, _ => if ltb x y then y else x
  end.

Definition Math_min (values : list number) : number := fold_left min2 values PInf.
Definition Math_max (values : list number) : number := fold_left max2 values NInf.

(** ** The engine

    The results of library functions that the exact representation cannot
    express.  Each is consulted only where the model has no exact answer. *)
Record Host : Type := {
  (** [Math.sqrt] of a positive rational that is not a square *)
  host_sqrt : Qc -> number;
  (** [Math.pow] where Number::exponentiate leaves the result to the
      implementation: on exact values, a finite exponent that is not an
      integer; on doubles, every finite base and exponent other than zero *)
  host_pow : Qc -> Qc -> number;
  (** [Number::toString] of a positive finite value that has no decimal
      expansion of at most 15 significant digits in positional notation *)
  host_toString : Qc -> string;
  (** [Number.prototype.toLocaleString] *)
  host_toLocaleString : number -> string;
  (** [Date.prototype.toLocaleString], from the time value *)
  host_dateToLocaleString : number -> string
}.

(** ** Integer and rational helpers *)

Definition Qc_floor (a : Qc) : Z := Qfloor a.
Definition Qc_ofZ (z : Z) : Qc := Q2Qc (inject_Z z).
Definition Qc_is_integer (a : Qc) : bool := Qc_eqb (Qc_ofZ (Qc_floor a)) a.

(** [a ^ z] for an integer [z]; [a] is not zero when [z] is negative. *)
Definition Qc_powZ (a : Qc) (z : Z) : Qc :=
  match z with
  | Z0 => Q2Qc 1
  | Zpos p => (a ^ Pos.to_nat p)%Qc
  | Zneg p => (/ (a ^ Pos.to_nat p))%Qc
  end.

Definition Math_floor (x : number) : number :=
  match x with
  | Fin a => ofZ (Qc_floor a)
  | _ => x
  end.

(** [Math.pow(base, exponent)], by the cases of Number::exponentiate. *)
Definition Math_pow (H : Host) (base exponent : number) : number :=
  match exponent with
  | NaN => NaN
  | Fin e =>
      match Qc_sign e with
      | Eq => ofZ 1
      | se =>
          match base with
          | NaN => NaN
          | PInf => match se with Gt => PInf | _ => Fin qzero end
          | NInf =>
              match se with
              | Gt => if Qc_is_integer e && Z.odd (Qc_floor e) then NInf else PInf
              | _ => Fin qzero
              end
          | Fin b =>
              match Qc_sign b with
              | Eq => match se with Gt => Fin qzero | _ => PInf end
              | sb =>
                  if Qc_is_integer e then Fin (Qc_powZ b (Qc_floor e))
                  else match sb with Lt => NaN | _ => host_pow H b e end
              end
          end
      end
  | inf =>
      match base with
      | NaN => NaN
      | PInf | NInf => match inf with PInf => PInf | _ => Fin qzero end
      | Fin b =>
          let m := (if Qc_ltb b qzero then - b else b)%Qc in
          match (m ?= Q2Qc 1)%Qc, inf with
          | Eq, _ => NaN
          | Gt, PInf | Lt, NInf => PInf
          | _, _ => Fin qzero
          end
      end
  end.

(** The square root of a non-negative integer when it is one. *)
Definition Z_exact_sqrt (z : Z) : option Z :=
  let r := Z.sqrt z in if r * r =? z then Some r else None.

(** [Math.sqrt]: exact on the squares of rationals. *)
Definition Math_sqrt (H : Host) (x : number) : number :=
  match x with
  | NaN | NInf => NaN
  | PInf => PInf
  | Fin a =>
      match Qc_sign a with
      | Lt => NaN
      | Eq => Fin qzero
      | Gt =>
          match Z_exact_sqrt (Qnum a), Z_exact_sqrt (Zpos (Qden a)) with
          | Some n, Some d => Fin (Qc_ofZ n / Qc_ofZ d)%Qc
          | _, _ => host_sqrt H a
          end
      end
  end.

(** The largest [i >= 0] with [k ^ i <= n], for [n >= 1] and [k >= 2]. *)
Fixpoint ilog_up (fuel : nat) (k n : Z) : Z :=
  match fuel with
  | O => 0
  | S fuel' => if n <? k then 0 else 1 + ilog_up fuel' k (n / k)
  end.

(** The least [j >= 1] with [a * k ^ j >= 1], counted from [j], for
    [0 < a < 1] and [k >= 2]. *)
Fixpoint ilog_down (fuel : nat) (k : Z) (a : Qc) (j : Z) : Z :=
  match fuel with
  | O => j
  | S fuel' =>
      let a' := (a * Qc_ofZ k)%Qc in
      if Qc_leb (Q2Qc 1) a' then j else ilog_down fuel' k a' (j + 1)
  end.

(** The exact [floor (log_k a)] of a positive rational, [k >= 2]. *)
Definition Qc_floor_log (k : Z) (a : Qc) : Z :=
  if Qc_leb (Q2Qc 1) a
  then let n := Qc_floor a in ilog_up (S (Z.to_nat (Z.log2 n))) k n
  else - ilog_down (S (Z.to_nat (Z.log2 (Zpos (Qden a))))) k a 1.

(** [Math.floor(Math.log(x) / Math.log(k))] for a constant [k >= 2], with
    the two logarithms and their quotient exact: the logarithm of a negative
    number is [NaN], of zero [-Infinity], of [+Infinity] [+Infinity]. *)
Definition Math_floor_log_ratio (x : number) (k : Z) : number :=
  match x with
  | NaN | NInf => NaN
  | PInf => PInf
  | Fin a =>
      match Qc_sign a with
      | Lt => NaN
      | Eq => NInf
      | Gt => ofZ (Qc_floor_log k a)
      end
  end.

(** ** Numbers as text *)

Open Scope string_scope.

Definition digits_of_N (n : N) : string := NilZero.string_of_uint (N.to_uint n).
Definition digits_of_Z (z : Z) : string := digits_of_N (Z.to_N z).

Fixpoint zeros (k : nat) : string :=
  match k with
  | O => ""
  | S k' => String "0" (zeros k')
  end.

(** The digits of [n] with a point before the last [f] of them, padded with
    leading zeros so that a digit stands before the point. *)
Definition point_digits (n : N) (f : nat) : string :=
  let m := digits_of_N n in
  if (f =? 0)%nat then m
  else
    let k := String.length m in
    let m' := if (k <=? f)%nat then zeros (f + 1 - k) +:+ m else m in
    let k' := String.length m' in
    substring 0 (k' - f) m' +:+ "." +:+ substring (k' - f) f m'.

Definition Qc_pow10 (k : nat) : Qc := Qc_ofZ (10 ^ Z.of_nat k).

(** The integer nearest to [a * 10^f], the larger one in a tie ([a >= 0]). *)
Definition round_scaled (a : Qc) (f : nat) : Z :=
  Qc_floor (a * Qc_pow10 f + Q2Qc (1 # 2))%Qc.

(** [Number.prototype.toFixed(f)]. *)
Definition toFixed (H : Host) (x : number) (f : nat) : string :=
  match x with
  | NaN => "NaN"
  | PInf => "Infinity"
  | NInf => "-Infinity"
  | Fin a =>
      let neg := Qc_ltb a qzero in
      let a := (if neg then - a else a)%Qc in
      let s := if neg then "-" else "" in
      if Qc_leb (Qc_pow10 21) a then s +:+ host_toString H a
      else s +:+ point_digits (Z.to_N (round_scaled a f)) f
  end.

(** The least [k' >= k] within the fuel for which [a * 10^(k'-k)] is an
    integer, and that integer. *)
Fixpoint decimal_scale (fuel : nat) (a : Qc) (k : nat) : option (nat * Z) :=
  if Qc_is_integer a then Some (k, Qc_floor a)
  else
    match fuel with
    | O => None
    | S fuel' => decimal_scale fuel' (a * Qc_ofZ 10)%Qc (S k)
    end.

(** [Number::toString] of a positive finite value: a decimal of at most 15
    significant digits between [1e-6] and [1e21] is the shortest decimal of
    the double nearest to it and is written in positional notation. *)
Definition positive_toString (H : Host) (a : Qc) : string :=
  match decimal_scale 21 a 0 with
  | Some (k, n) =>
      if (n <? 10 ^ 15)%Z && Qc_leb (Q2Qc (1 # 1000000)) a && Qc_ltb a (Qc_pow10 21)
      then point_digits (Z.to_N n) k
      else host_toString H a
  | None => host_toString H a
  end.

Definition Number_toString (H : Host) (x : number) : string :=
  match x with
  | NaN => "NaN"
  | PInf => "Infinity"
  | NInf => "-Infinity"
  | Fin a =>
      match Qc_sign a with
      | Eq => "0"
      | Lt => "-" +:+ positive_toString H (- a)%Qc
      | Gt => positive_toString H a
      end
  end.

(** *** [parseFloat] *)

Definition is_digit (c : ascii) : bool :=
  let n := nat_of_ascii c in (48 <=? n)%nat && (n <=? 57)%nat.

Definition digit_value (c : ascii) : N := N.of_nat (nat_of_ascii c - 48).

(** The ASCII members of StrWhiteSpaceChar: TAB, LF, VT, FF, CR and SP. *)
Definition is_space (c : ascii) : bool :=
  let n := nat_of_ascii c in
  ((9 <=? n)%nat && (n <=? 13)%nat) || (n =? 32)%nat.

Fixpoint skip_spaces (s : string) : string :=
  match s with
  | String c s' => if is_space c then skip_spaces s' else s
  | EmptyString => s
  end.

(** The longest run of digits at the front of [s]: its value on top of
    [acc], the number of digits read on top of [cnt], and the rest. *)
Fixpoint take_digits (s : string) (acc : N) (cnt : nat) : N * nat * string :=
  match s with
  | String c s' =>
      if is_digit c
      then take_digits s' (10 * acc + digit_value c)%N (S cnt)
      else (acc, cnt, s)
  | EmptyString => (acc, cnt, s)
  end.

(** The ExponentPart at the front of [s], when there is one. *)
Definition take_exponent (s : string) : Z :=
  match s with
  | String c s' =>
      if Ascii.eqb c "e" || Ascii.eqb c "E" then
        let '(negative, s'') :=
          match s' with
          | String "-" t => (true, t)
          | String "+" t => (false, t)
          | _ => (false, s')
          end in
        let '(e, cnt, _) := take_digits s'' 0%N 0%nat in
        if (cnt =? 0)%nat then 0%Z
        else if negative then (- Z.of_N e)%Z else Z.of_N e
      else 0%Z
  | EmptyString => 0%Z
  end.

(** The unsigned StrDecimalLiteral at the front of [s]. *)
Definition parse_unsigned (s : string) : number :=
  if String.prefix "Infinity" s then PInf
  else
    let '(ip, ic, r1) := take_digits s 0%N 0%nat in
    let '(fp, fc, r2) :=
      match r1 with
      | String "." t => take_digits t 0%N 0%nat
      | _ => (0%N, 0%nat, r1)
      end in
    if ((ic + fc)%nat =? 0)%nat then NaN
    else
      let mantissa := (Qc_ofZ (Z.of_N ip) + Qc_ofZ (Z.of_N fp) / Qc_pow10 fc)%Qc in
      Fin (mantissa * Qc_powZ (Qc_ofZ 10) (take_exponent r2))%Qc.

(** [parseFloat(s)]: leading white space is dropped, the longest prefix that
    is a decimal literal is read, and the result is [NaN] when there is none. *)
Definition parseFloat (s : string) : number :=
  match skip_spaces s with
  | String "-" t => neg (parse_unsigned t)
  | String "+" t => parse_unsigned t
  | t => parse_unsigned t
  end.

End JS.

(* ================================================================== *)
(** * The helpers of the script *)
(* ================================================================== *)

Import JS.

(** An array element read at a computed index: [undefined] outside the
    array, for an index that is not an integer as well. *)
Definition array_get {A : Type} (arr : list A) (i : number) : option A :=
  match i with
  | Fin a =>
      if Qc_is_integer a && (0 <=? Qc_floor a)%Z
      then nth_error arr (Z.to_nat (Qc_floor a))
      else None
  | _ => None
  end.

(** A string operand of [+]: [undefined] is written out. *)
Definition string_or_undefined (o : option string) : string :=
  match o with
  | Some s => s
  | None => "undefined"
  end.

(** A numeric operand: [undefined] converts to [NaN]. *)
Definition number_or_undefined (o : option number) : number :=
  match o with
  | Some x => x
  | None => NaN
  end.

Definition formatNumber (H : Host) (num : number) : string :=
  host_toLocaleString H num.

Definition formatBytes (H : Host) (bytes : number) : string :=
  if eqb bytes (ofZ 0) then "0 Bytes"
  else
    let k := 1024%Z in
    let sizes := ["Bytes"; "KB"; "MB"; "GB"] in
    let i := Math_floor_log_ratio bytes k in
    Number_toString H (parseFloat (toFixed H (div bytes (Math_pow H (ofZ k) i)) 2))
      +:+ " " +:+ string_or_undefined (array_get sizes i).

Definition calculateImprovement (H : Host) (baseline comparison : number) : string :=
  let improvement := mul (div (sub baseline comparison) baseline) (ofZ 100) in
  if gtb improvement (ofZ 0) then
    "🟢 " +:+ toFixed H improvement 1 +:+ "% 更快"
  else if ltb improvement (ofZ 0) then
    "🔴 " +:+ toFixed H (Math_abs improvement) 1 +:+ "% 更慢"
  else "🟡 相同".

Record Stats : Type := {
  mean : number;
  min : number;
  max : number;
  stdDev : number;
  median : number
}.

(** [Array.prototype.sort(comparefn)].  An element stays behind the ones the
    comparison function does not put it strictly before, so the sort is
    stable; a comparison result of [NaN] counts as zero.  For a consistent
    comparison function this is the result of every conforming engine. *)
Fixpoint sort_insert (comparefn : number -> number -> number)
    (x : number) (l : list number) : list number :=
  match l with
  | [] => [x]
  | y :: l' =>
      if gtb (comparefn x y) (ofZ 0) then y :: sort_insert comparefn x l'
      else x :: l
  end.

Definition Array_sort (comparefn : number -> number -> number)
    (l : list number) : list number :=
  fold_right (sort_insert comparefn) [] l.

Definition calculateStats (H : Host) (values : list number) : Stats :=
  let sorted := Array_sort (fun a b => sub a b) values in
  let mean :=
    div (fold_left (fun sum val => add sum val) values (ofZ 0))
        (ofNat (length values)) in
  let variance :=
    div (fold_left (fun sum val => add sum (Math_pow H (sub val mean) (ofZ 2)))
           values (ofZ 0))
        (ofNat (length values)) in
  let stdDev := Math_sqrt H variance in
  let len := Z.of_nat (length sorted) in
  let median :=
    if (len mod 2 =? 0)%Z
    then div (add (number_or_undefined (array_get sorted (ofZ (len / 2 - 1))))
                  (number_or_undefined (array_get sorted (ofZ (len / 2)))))
             (ofZ 2)
    else number_or_undefined
           (array_get sorted (Math_floor (div (ofZ len) (ofZ 2)))) in
  {| mean := mean;
     min := Math_min values;
     max := Math_max values;
     stdDev := stdDev;
     median := median |}.

Definition formatStats (H : Host) (stats : Stats) (unit : string) : string :=
  "平均: " +:+ toFixed H (mean stats) 1 +:+ unit
  +:+ ", 中位數: " +:+ toFixed H (median stats) 1 +:+ unit
  +:+ ", 標準差: " +:+ toFixed H (stdDev stats) 1 +:+ unit.

(** ** The helpers on doubles

    The finite values of the engine are the doubles (IEEE-754 binary64).
    [+], [-], [*] and [/] return the double nearest to the exact result,
    the one with the even significand in a tie, and an infinity when the
    rounded magnitude reaches [2^1024].  A positive double is a multiple
    [n * 2^q] of the unit in the last place of its binade: [q] is 52 below
    the exponent of the binade and not below [-1074], the exponent of the
    least subnormal. *)
Module Double.

Definition pow2 (z : Z) : Q := (2 ^ z)%Q.

(** The binade of a positive rational: the [e] with [2^e <= a < 2^(e+1)]. *)
Definition binade (a : Q) : Z :=
  let e := Z.log2 (Qnum a) - Z.log2 (Zpos (Qden a)) in
  if Qle_bool (pow2 e) a then e else e - 1.

(** The integer nearest to [x], the even one in a tie. *)
Definition nearest_even (x : Q) : Z :=
  let f := Qfloor x in
  match (x - inject_Z f ?= 1 # 2)%Q with
  | Lt => f
  | Gt => f + 1
  | Eq => if Z.even f then f else f + 1
  end.

(** The exponent of the unit in the last place in the binade [e]. *)
Definition ulp_exponent (e : Z) : Z := Z.max e (-1022) - 52.

(** A positive rational rounded to a multiple of the unit in the last
    place of its binade. *)
Definition round_positive (a : Q) : Q :=
  let q := ulp_exponent (binade a) in
  (inject_Z (nearest_even (a / pow2 q)) * pow2 q)%Q.

(** The double nearest to a rational, or the infinity of its sign. *)
Definition round (a : Qc) : number :=
  match Qc_sign a with
  | Eq => Fin qzero
  | Gt =>
      let r := round_positive a in
      if Qle_bool (pow2 1024) r then PInf else Fin (Q2Qc r)
  | Lt =>
      let r := round_positive (- a) in
      if Qle_bool (pow2 1024) r then NInf else Fin (Q2Qc (- r))
  end.

Definition rounded (x : number) : number :=
  match x with
  | Fin a => round a
  | _ => x
  end.

Definition add (x y : number) : number := rounded (JS.add x y).
Definition sub (x y : number) : number := rounded (JS.sub x y).
Definition mul (x y : number) : number := rounded (JS.mul x y).
Definition div (x y : number) : number := rounded (JS.div x y).

(** The finite values that are doubles: rounding leaves them as they are. *)
Definition is_double (a : Qc) : Prop := round a = Fin a.

(** [Math.pow]: where Number::exponentiate fixes the result it is that of
    [JS.Math_pow]; a finite base other than zero raised to a finite
    exponent other than zero is approximated by the engine. *)
Definition Math_pow (H : Host) (base exponent : number) : number :=
  match base, exponent with
  | Fin b, Fin e =>
      match Qc_sign b, Qc_sign e with
      | Eq, _ | _, Eq => JS.Math_pow H base exponent
      | Lt, _ => if Qc_is_integer e then host_pow H b e else NaN
      | Gt, _ => host_pow H b e
      end
  | _, _ => JS.Math_pow H base exponent
  end.

Definition calculateImprovement (H : Host) (baseline comparison : number) : string :=
  let improvement := mul (div (sub baseline comparison) baseline) (ofZ 100) in
  if gtb improvement (ofZ 0) then
    "🟢 " +:+ toFixed H improvement 1 +:+ "% 更快"
  else if ltb improvement (ofZ 0) then
    "🔴 " +:+ toFixed H (Math_abs improvement) 1 +:+ "% 更慢"
  else "🟡 相同".

Definition calculateStats (H : Host) (values : list number) : Stats :=
  let sorted := Array_sort (fun a b => sub a b) values in
  let mean :=
    div (fold_left (fun sum val => add sum val) values (ofZ 0))
        (ofNat (length values)) in
  let variance :=
    div (fold_left (fun sum val => add sum (Math_pow H (sub val mean) (ofZ 2)))
           values (ofZ 0))
        (ofNat (length values)) in
  let stdDev := Math_sqrt H variance in
  let len := Z.of_nat (length sorted) in
  let median :=
    if (len mod 2 =? 0)%Z
    then div (add (number_or_undefined (array_get sorted (ofZ (len / 2 - 1))))
                  (number_or_undefined (array_get sorted (ofZ (len / 2)))))
             (ofZ 2)
    else number_or_undefined
           (array_get sorted (Math_floor (div (ofZ len) (ofZ 2)))) in
  {| mean := mean;
     min := Math_min values;
     max := Math_max values;
     stdDev := stdDev;
     median := median |}.

End Double.

(** ** The arithmetic in binary64

    The same expressions on the primitive floats, which are the doubles of
    the machine: they serve to evaluate instances exactly as an engine
    computes them, and to compare [Double] with the machine on samples. *)
Module Binary64.

Definition improvement (baseline comparison : float) : float :=
  ((baseline - comparison) / baseline * 100)%float.

Definition length_of (values : list float) : float :=
  PrimFloat.of_uint63 (Uint63.of_Z (Z.of_nat (length values))).

Definition mean_of (values : list float) : float :=
  (fold_left (fun sum val => sum + val) values 0 / length_of values)%float.

Definition variance_of (values : list float) : float :=
  (fold_left (fun sum val =>
                sum + (val - mean_of values) * (val - mean_of values))
     values 0 / length_of values)%float.

Definition stdDev_of (values : list float) : float :=
  PrimFloat.sqrt (variance_of values).

(** The number a float stands for. *)
Definition value (x : float) : number :=
  match Prim2SF x with
  | S754_zero _ => Fin qzero
  | S754_infinity false => PInf
  | S754_infinity true => NInf
  | S754_nan => NaN
  | S754_finite s m e =>
      Fin (Q2Qc (inject_Z (if s then Z.neg m else Z.pos m) * Double.pow2 e))
  end.

Definition same_number (x y : number) : bool :=
  match x, y with
  | NaN, NaN => true
  | _, _ => eqb x y
  end.

(** An operation of the machine and an operation on numbers give the same
    number on [x] and [y]. *)
Definition agree (f : float -> float -> float) (g : number -> number -> number)
    (x y : float) : bool :=
  same_number (value (f x y)) (g (value x) (value y)).

(** Doubles of every kind: zero, whole numbers, a fraction that is not
    exact in binary, the largest and the least double, and values whose
    sums, products and quotients overflow, underflow or are subnormal. *)
Definition samples : list float :=
  [0; 3; 29; 80; -7; 0x1.999999999999ap-4; 0x1p+53;
   0x1.fffffffffffffp+1023; 0x0.0000000000001p-1022; 0x1.5p-540]%float.

Definition sample_pairs : list (float * float) :=
  flat_map (fun x => map (fun y => (x, y)) samples) samples.

Definition agree_on_samples (f : float -> float -> float)
    (g : number -> number -> number) : bool :=
  forallb (fun p => agree f g (fst p) (snd p)) sample_pairs.

End Binary64.

(* ================================================================== *)
(** * The world of the script *)
(* ================================================================== *)

(** ** Documents and collections *)

(** [new Date(value)]: a date is its time value, which TimeClip makes [NaN]
    outside 8.64e15 milliseconds around the epoch and an integer inside. *)
Definition Date : Type := number.

Definition Date_new (value : number) : Date :=
  match value with
  | Fin a =>
      let m := (if Qc_ltb a qzero then - a else a)%Qc in
      if Qc_ltb (Qc_ofZ 8640000000000000) m then NaN
      else if Qc_ltb a qzero then ofZ (- Qc_floor m) else ofZ (Qc_floor m)
  | _ => NaN
  end.

Record Meta : Type := { sensor : string }.

Record SyntheticRecord : Type := {
  timestamp : Date;
  value : number;
  meta : Meta
}.

Record TimeSeriesOptions : Type := {
  timeField : string;
  metaField : string;
  granularity : string
}.

Record Collection : Type := {
  timeseries : option TimeSeriesOptions;
  docs : list SyntheticRecord
}.

(** The query documents the script uses: [{}], [{timestamp: {$gt: d}}] and
    [{value: {$gt: x}}]. *)
Inductive Filter : Type :=
  | MatchAll
  | TimestampGt (d : Date)
  | ValueGt (x : number).

Definition matches (f : Filter) (doc : SyntheticRecord) : bool :=
  match f with
  | MatchAll => true
  | TimestampGt d => gtb (timestamp doc) d
  | ValueGt x => gtb (value doc) x
  end.

(** ** Errors and engine calls *)

Inductive Error : Type :=
  | NamespaceNotFound (ns : string)
  | NamespaceExists (ns : string)
  | EmptyBatch
  | RangeError
  | EngineFailure (message : string).

(** The calls that leave the process: to the in-memory server, or through
    the driver to the database. *)
Inductive Op : Type :=
  | OpCreateHost
  | OpConnect
  | OpCommand
  | OpCreateCollection
  | OpInsertMany
  | OpFind
  | OpDeleteMany
  | OpDrop
  | OpClose
  | OpStop.

(** The state the script runs in.  The clock and the random source are
    sequences the script reads one element at a time; [faults] says which
    engine calls fail for a reason of the environment (a lost connection, a
    rejected command) and with what error; [calls] lists the engine calls
    made so far. *)
Record World : Type := {
  db : gmap string Collection;
  now : nat -> Z;
  clock_reads : nat;
  random : nat -> number;
  random_reads : nat;
  faults : nat -> option Error;
  calls : list Op;
  storage_size : string -> Collection -> number;
  server_version : string;
  client_version : string;
  stdout : list string;
  stderr : list Error;
  connected : bool;
  host_running : bool
}.

Definition set_db (f : gmap string Collection -> gmap string Collection)
    (w : World) : World :=
  {| db := f (db w); now := now w; clock_reads := clock_reads w;
     random := random w; random_reads := random_reads w;
     faults := faults w; calls := calls w; storage_size := storage_size w;
     server_version := server_version w; client_version := client_version w;
     stdout := stdout w; stderr := stderr w;
     connected := connected w; host_running := host_running w |}.

Definition tick_clock (w : World) : World :=
  {| db := db w; now := now w; clock_reads := S (clock_reads w);
     random := random w; random_reads := random_reads w;
     faults := faults w; calls := calls w; storage_size := storage_size w;
     server_version := server_version w; client_version := client_version w;
     stdout := stdout w; stderr := stderr w;
     connected := connected w; host_running := host_running w |}.

Definition tick_random (w : World) : World :=
  {| db := db w; now := now w; clock_reads := clock_reads w;
     random := random w; random_reads := S (random_reads w);
     faults := faults w; calls := calls w; storage_size := storage_size w;
     server_version := server_version w; client_version := client_version w;
     stdout := stdout w; stderr := stderr w;
     connected := connected w; host_running := host_running w |}.

Definition record_call (op : Op) (w : World) : World :=
  {| db := db w; now := now w; clock_reads := clock_reads w;
     random := random w; random_reads := random_reads w;
     faults := faults w; calls := calls w ++ [op];
     storage_size := storage_size w;
     server_version := server_version w; client_version := client_version w;
     stdout := stdout w; stderr := stderr w;
     connected := connected w; host_running := host_running w |}.

Definition put_stdout (s : string) (w : World) : World :=
  {| db := db w; now := now w; clock_reads := clock_reads w;
     random := random w; random_reads := random_reads w;
     faults := faults w; calls := calls w; storage_size := storage_size w;
     server_version := server_version w; client_version := client_version w;
     stdout := stdout w ++ [s]; stderr := stderr w;
     connected := connected w; host_running := host_running w |}.

Definition put_stderr (e : Error) (w : World) : World :=
  {| db := db w; now := now w; clock_reads := clock_reads w;
     random := random w; random_reads := random_reads w;
     faults := faults w; calls := calls w; storage_size := storage_size w;
     server_version := server_version w; client_version := client_version w;
     stdout := stdout w; stderr := stderr w ++ [e];
     connected := connected w; host_running := host_running w |}.

Definition set_connected (b : bool) (w : World) : World :=
  {| db := db w; now := now w; clock_reads := clock_reads w;
     random := random w; random_reads := random_reads w;
     faults := faults w; calls := calls w; storage_size := storage_size w;
     server_version := server_version w; client_version := client_version w;
     stdout := stdout w; stderr := stderr w;
     connected := b; host_running := host_running w |}.

Definition set_host_running (b : bool) (w : World) : World :=
  {| db := db w; now := now w; clock_reads := clock_reads w;
     random := random w; random_reads := random_reads w;
     faults := faults w; calls := calls w; storage_size := storage_size w;
     server_version := server_version w; client_version := client_version w;
     stdout := stdout w; stderr := stderr w;
     connected := connected w; host_running := b |}.

(** ** Asynchronous computations

    An [async] function is a computation on the world that settles with a
    value or rejects with an error; [await] is sequencing, so at most one
    computation runs at a time. *)

Inductive Settled (A : Type) : Type :=
  | Fulfilled (a : A)
  | Rejected (e : Error).
Arguments Fulfilled {A} a.
Arguments Rejected {A} e.

Definition Promise (A : Type) : Type := World -> Settled A * World.

Definition ret {A : Type} (a : A) : Promise A := fun w => (Fulfilled a, w).

Definition throw {A : Type} (e : Error) : Promise A := fun w => (Rejected e, w).

Definition bind {A B : Type} (m : Promise A) (k : A -> Promise B) : Promise B :=
  fun w =>
    match m w with
    | (Fulfilled a, w') => k a w'
    | (Rejected e, w') => (Rejected e, w')
    end.

(** [promise.catch(handler)] *)
Definition catch {A : Type} (m : Promise A) (handler : Error -> Promise A)
    : Promise A :=
  fun w =>
    match m w with
    | (Fulfilled a, w') => (Fulfilled a, w')
    | (Rejected e, w') => handler e w'
    end.

Declare Scope promise_scope.
Delimit Scope promise_scope with promise.
Notation "x <- m ;; k" := (bind m (fun x => k))
  (at level 100, m at next level, right associativity) : promise_scope.
Notation "m ;; k" := (bind m (fun _ => k))
  (at level 100, right associativity) : promise_scope.
Open Scope promise_scope.

Definition modify (f : World -> World) : Promise unit :=
  fun w => (Fulfilled tt, f w).

Definition Date_now : Promise number :=
  fun w => (Fulfilled (ofZ (now w (clock_reads w))), tick_clock w).

Definition Math_random : Promise number :=
  fun w => (Fulfilled (random w (random_reads w)), tick_random w).

Definition newline : string := String (ascii_of_nat 10) "".

Definition process_stdout_write (s : string) : Promise unit :=
  modify (put_stdout s).

Definition console_log (s : string) : Promise unit :=
  modify (put_stdout (s +:+ newline)).

Definition console_error (e : Error) : Promise unit :=
  modify (put_stderr e).

(** An engine call is recorded and fails when the environment says so. *)
Definition engine_call (op : Op) : Promise unit :=
  fun w =>
    match faults w (length (calls w)) with
    | Some e => (Rejected e, record_call op w)
    | None => (Fulfilled tt, record_call op w)
    end.

(** ** The database driver

    A collection object of the driver is the name of the collection it was
    made for; every operation goes to the database under that name.  The
    operations do what the server does: [createCollection] refuses a name
    that is taken, [drop] a name that is not, [insertMany] creates a missing
    collection and refuses an empty batch before it calls the server, and
    [deleteMany] and [find] treat a missing collection as an empty one.  The
    server is one that accepts, on a time-series collection, a delete by any
    field.  Besides, any engine call can fail for a reason of the
    environment ([faults]). *)

Abbreviation Handle := string (only parsing).

Definition db_collection (name : string) : Handle := name.

Definition createCollection (name : string) (options : option TimeSeriesOptions)
    : Promise Handle :=
  engine_call OpCreateCollection ;;
  fun w =>
    match db w !! name with
    | Some _ => (Rejected (NamespaceExists name), w)
    | None =>
        (Fulfilled name,
         set_db (insert name {| timeseries := options; docs := [] |}) w)
    end.

Definition append_docs (data : list SyntheticRecord) (c : option Collection)
    : Collection :=
  match c with
  | Some c => {| timeseries := timeseries c; docs := docs c ++ data |}
  | None => {| timeseries := None; docs := data |}
  end.

Definition insertMany (collection : Handle) (data : list SyntheticRecord)
    : Promise unit :=
  match data with
  | [] => throw EmptyBatch
  | _ =>
      engine_call OpInsertMany ;;
      modify (set_db (fun m => <[collection := append_docs data (m !! collection)]> m))
  end.

Definition find_toArray (collection : Handle) (query : Filter)
    : Promise (list SyntheticRecord) :=
  engine_call OpFind ;;
  fun w =>
    (Fulfilled (match db w !! collection with
                | Some c => List.filter (matches query) (docs c)
                | None => []
                end), w).

Definition remove_docs (query : Filter) (c : Collection) : Collection :=
  {| timeseries := timeseries c;
     docs := List.filter (fun doc => negb (matches query doc)) (docs c) |}.

Definition deleteMany (collection : Handle) (query : Filter) : Promise unit :=
  engine_call OpDeleteMany ;;
  modify (set_db (alter (remove_docs query) collection)).

Definition drop (collection : Handle) : Promise bool :=
  engine_call OpDrop ;;
  fun w =>
    match db w !! collection with
    | Some _ => (Fulfilled true, set_db (delete collection) w)
    | None => (Rejected (NamespaceNotFound collection), w)
    end.

(** The result of the [collStats] command, of which the script reads
    [size]. *)
Record CollStats : Type := { stats_size : number }.

Definition command_collStats (collectionName : string) : Promise CollStats :=
  engine_call OpCommand ;;
  fun w =>
    (Fulfilled {| stats_size :=
                    match db w !! collectionName with
                    | Some c => storage_size w collectionName c
                    | None => ofZ 0
                    end |}, w).

Record BuildInfo : Type := { version : string }.

Definition command_buildInfo : Promise BuildInfo :=
  engine_call OpCommand ;;
  fun w => (Fulfilled {| version := server_version w |}, w).

Definition MongoMemoryReplSet_create : Promise unit :=
  engine_call OpCreateHost ;; modify (set_host_running true).

Definition client_connect : Promise unit :=
  engine_call OpConnect ;; modify (set_connected true).

Definition client_close : Promise unit :=
  engine_call OpClose ;; modify (set_connected false).

Definition replSet_stop : Promise unit :=
  engine_call OpStop ;; modify (set_host_running false).

(* ================================================================== *)
(** * The script *)
(* ================================================================== *)

Definition measureInsertSpeed (collection : Handle) (data : list SyntheticRecord)
    : Promise number :=
  startTime <- Date_now ;;
  insertMany collection data ;;
  endTime <- Date_now ;;
  ret (sub endTime startTime).

Definition measureQuerySpeed (collection : Handle) (query : Filter)
    : Promise number :=
  startTime <- Date_now ;;
  find_toArray collection query ;;
  endTime <- Date_now ;;
  ret (sub endTime startTime).

Definition measureDeleteSpeed (collection : Handle) (query : Filter)
    : Promise number :=
  startTime <- Date_now ;;
  deleteMany collection query ;;
  endTime <- Date_now ;;
  ret (sub endTime startTime).

Definition getCollectionStats (collectionName : string) : Promise CollStats :=
  stats <- command_collStats collectionName ;;
  ret stats.

(** The loop of [runMultipleTests]: [i] counts the runs made, [remaining]
    the runs left. *)
Fixpoint runMultipleTests_loop {T : Type} (H : Host) (testFunction : Promise T)
    (remaining i : nat) (results : list T) : Promise (list T) :=
  match remaining with
  | O => ret results
  | S remaining' =>
      process_stdout_write (" " +:+ Number_toString H (ofNat (i + 1))) ;;
      result <- testFunction ;;
      runMultipleTests_loop H testFunction remaining' (S i) (results ++ [result])
  end.

Definition runMultipleTests {T : Type} (H : Host) (testFunction : Promise T)
    (runs : nat) (description : string) : Promise (list T) :=
  process_stdout_write ("   執行 " +:+ description +:+ "...") ;;
  results <- runMultipleTests_loop H testFunction runs 0 [] ;;
  console_log " ✅" ;;
  ret results.

Fixpoint String_repeat (s : string) (count : nat) : string :=
  match count with
  | O => ""
  | S count' => s +:+ String_repeat s count'
  end.

Definition padStart (s : string) (targetLength : nat) : string :=
  String_repeat " " (targetLength - String.length s) +:+ s.

Definition printSeparator (char : string) (length : nat) : Promise unit :=
  console_log (String_repeat char length).

Definition printTitle (title : string) : Promise unit :=
  printSeparator "=" 80 ;;
  console_log ("📊 " +:+ title) ;;
  printSeparator "=" 80.

(** [Array.from({ length: count }, mapFn)]: the elements are made in index
    order; a length above [2^32 - 1] is refused. *)
Fixpoint Array_from_loop {A : Type} (mapFn : nat -> Promise A)
    (remaining i : nat) : Promise (list A) :=
  match remaining with
  | O => ret []
  | S remaining' =>
      x <- mapFn i ;;
      xs <- Array_from_loop mapFn remaining' (S i) ;;
      ret (x :: xs)
  end.

Definition Array_from {A : Type} (count : nat) (mapFn : nat -> Promise A)
    : Promise (list A) :=
  if (4294967295 <? Z.of_nat count)%Z then throw RangeError
  else Array_from_loop mapFn count 0.

Definition generateData (H : Host) (count : nat) : Promise (list SyntheticRecord) :=
  Array_from count (fun i =>
    t <- Date_now ;;
    r <- Math_random ;;
    ret {| timestamp := Date_new (sub t (mul (ofNat i) (ofZ 1000)));
           value := Double.mul r (ofZ 100);
           meta := {| sensor := "sensor" +:+ Number_toString H (ofNat (i mod 5)) |} |}).

(** ** The orchestrator *)

Definition testRuns : nat := 5.
Definition dataSizes : list nat := map Z.to_nat [1000; 10000; 100000]%Z.

Definition timeSeriesOptions : option TimeSeriesOptions :=
  Some {| timeField := "timestamp"; metaField := "meta"; granularity := "seconds" |}.

(** [collection.drop().catch(() => { })] *)
Definition drop_ignoring_errors (collection : Handle) : Promise unit :=
  catch (drop collection ;; ret tt) (fun _ => ret tt).

Section Run.

Variable H : Host.

Definition generalCollection : Handle := db_collection "generalCollection".

(** The body of the loop over the data sizes, in the order of the script:
    the reset of both collections, the insert trials, the reload of both
    collections from one batch, the storage report, the query trials and
    the delete trials. *)

Definition reset_collections (size : nat) : Promise Handle :=
  printSeparator "-" 60 ;;
  console_log ("📈 測試資料量: " +:+ formatNumber H (ofNat size) +:+ " 筆 (執行 "
               +:+ Number_toString H (ofNat testRuns) +:+ " 次)") ;;
  printSeparator "-" 60 ;;
  deleteMany generalCollection MatchAll ;;
  drop_ignoring_errors "timeSeriesCollection" ;;
  createCollection "timeSeriesCollection" timeSeriesOptions.

Definition insert_trials (size : nat) (newTimeSeriesCollection : Handle)
    : Promise unit :=
  console_log (newline +:+ "✏️  寫入效能測試") ;;
  generalInsertTimes <-
    runMultipleTests H
      (deleteMany generalCollection MatchAll ;;
       data <- generateData H size ;;
       measureInsertSpeed generalCollection data)
      testRuns "一般 Collection 插入測試" ;;
  timeSeriesInsertTimes <-
    runMultipleTests H
      (drop_ignoring_errors newTimeSeriesCollection ;;
       recreatedCollection <-
         createCollection "timeSeriesCollection" timeSeriesOptions ;;
       data <- generateData H size ;;
       measureInsertSpeed recreatedCollection data)
      testRuns "Time Series Collection 插入測試" ;;
  let generalInsertStats := Double.calculateStats H generalInsertTimes in
  let timeSeriesInsertStats := Double.calculateStats H timeSeriesInsertTimes in
  console_log ("   一般 Collection       : "
               +:+ formatStats H generalInsertStats "毫秒") ;;
  console_log ("   Time Series Collection: "
               +:+ formatStats H timeSeriesInsertStats "毫秒") ;;
  console_log ("   效能比較 (平均): "
               +:+ Double.calculateImprovement H (mean generalInsertStats)
                     (mean timeSeriesInsertStats)).

Definition reload_collections (size : nat) (newTimeSeriesCollection : Handle)
    : Promise Handle :=
  finalData <- generateData H size ;;
  deleteMany generalCollection MatchAll ;;
  drop_ignoring_errors newTimeSeriesCollection ;;
  finalTimeSeriesCollection <-
    createCollection "timeSeriesCollection" timeSeriesOptions ;;
  insertMany generalCollection finalData ;;
  insertMany finalTimeSeriesCollection finalData ;;
  ret finalTimeSeriesCollection.

Definition storage_report : Promise unit :=
  generalStats <- getCollectionStats "generalCollection" ;;
  timeSeriesStats <- getCollectionStats "timeSeriesCollection" ;;
  console_log (newline +:+ "💾 儲存空間使用") ;;
  console_log ("   一般 Collection       : "
               +:+ padStart (formatBytes H (stats_size generalStats)) 12) ;;
  console_log ("   Time Series Collection: "
               +:+ padStart (formatBytes H (stats_size timeSeriesStats)) 12) ;;
  let spaceReduction :=
    Double.mul
      (Double.div (Double.sub (stats_size generalStats) (stats_size timeSeriesStats))
                  (stats_size generalStats))
      (ofZ 100) in
  if gtb spaceReduction (ofZ 0) then
    console_log ("   空間節省: 🟢 " +:+ toFixed H spaceReduction 1 +:+ "% (節省 "
                 +:+ formatBytes H (Double.sub (stats_size generalStats)
                                               (stats_size timeSeriesStats))
                 +:+ ")")
  else
    console_log ("   空間使用: 🔴 多使用 "
                 +:+ toFixed H (Math_abs spaceReduction) 1 +:+ "%").

Definition query_trials (finalTimeSeriesCollection : Handle) : Promise unit :=
  t <- Date_now ;;
  let query := TimestampGt (Date_new (sub t (mul (ofZ 1000) (ofZ 100)))) in
  console_log (newline +:+ "🔍 查詢效能測試") ;;
  generalQueryTimes <-
    runMultipleTests H (measureQuerySpeed generalCollection query)
      testRuns "一般 Collection 查詢測試" ;;
  timeSeriesQueryTimes <-
    runMultipleTests H (measureQuerySpeed finalTimeSeriesCollection query)
      testRuns "Time Series Collection 查詢測試" ;;
  let generalQueryStats := Double.calculateStats H generalQueryTimes in
  let timeSeriesQueryStats := Double.calculateStats H timeSeriesQueryTimes in
  console_log ("   一般 Collection       : "
               +:+ formatStats H generalQueryStats "毫秒") ;;
  console_log ("   Time Series Collection: "
               +:+ formatStats H timeSeriesQueryStats "毫秒") ;;
  console_log ("   效能比較 (平均): "
               +:+ Double.calculateImprovement H (mean generalQueryStats)
                     (mean timeSeriesQueryStats)).

Definition delete_trials (size : nat) (finalTimeSeriesCollection : Handle)
    : Promise unit :=
  let deleteQuery := ValueGt (ofZ 50) in
  console_log (newline +:+ "🗑️  刪除效能測試") ;;
  generalDeleteTimes <-
    runMultipleTests H
      (deleteMany generalCollection MatchAll ;;
       data <- generateData H size ;;
       insertMany generalCollection data ;;
       measureDeleteSpeed generalCollection deleteQuery)
      testRuns "一般 Collection 刪除測試" ;;
  timeSeriesDeleteTimes <-
    runMultipleTests H
      (drop_ignoring_errors finalTimeSeriesCollection ;;
       tempCollection <-
         createCollection "timeSeriesCollection" timeSeriesOptions ;;
       data <- generateData H size ;;
       insertMany tempCollection data ;;
       measureDeleteSpeed tempCollection deleteQuery)
      testRuns "Time Series Collection 刪除測試" ;;
  let generalDeleteStats := Double.calculateStats H generalDeleteTimes in
  let timeSeriesDeleteStats := Double.calculateStats H timeSeriesDeleteTimes in
  console_log ("   一般 Collection       : "
               +:+ formatStats H generalDeleteStats "毫秒") ;;
  console_log ("   Time Series Collection: "
               +:+ formatStats H timeSeriesDeleteStats "毫秒") ;;
  console_log ("   效能比較 (平均): "
               +:+ Double.calculateImprovement H (mean generalDeleteStats)
                     (mean timeSeriesDeleteStats)) ;;
  console_log "".

(** The script up to the point where the storage report begins. *)
Definition insert_phase (size : nat) : Promise Handle :=
  newTimeSeriesCollection <- reset_collections size ;;
  insert_trials size newTimeSeriesCollection ;;
  reload_collections size newTimeSeriesCollection.

Definition run_size (size : nat) : Promise unit :=
  finalTimeSeriesCollection <- insert_phase size ;;
  storage_report ;;
  query_trials finalTimeSeriesCollection ;;
  delete_trials size finalTimeSeriesCollection.

Fixpoint for_of {A : Type} (l : list A) (body : A -> Promise unit) : Promise unit :=
  match l with
  | [] => ret tt
  | x :: l' => body x ;; for_of l' body
  end.

Definition run : Promise unit :=
  MongoMemoryReplSet_create ;;
  client_connect ;;
  buildInfo <- command_buildInfo ;;
  printTitle "MongoDB Time Series Collection 效能測試" ;;
  clientVersion <- (fun w => (Fulfilled (client_version w), w)) ;;
  console_log ("🔧 MongoDB 版本: " +:+ version buildInfo
               +:+ " (Client: mongodb@" +:+ clientVersion +:+ ")") ;;
  t <- Date_now ;;
  console_log ("📅 測試時間: " +:+ host_dateToLocaleString H (Date_new t)) ;;
  console_log ("🔄 測試配置: 每項測試執行 "
               +:+ Number_toString H (ofNat testRuns) +:+ " 次") ;;
  console_log ("📊 測試資料量: "
               +:+ String.concat ", " (map (fun s => formatNumber H (ofNat s)) dataSizes)
               +:+ " 筆") ;;
  console_log "" ;;
  timeSeriesCollection <-
    createCollection "timeSeriesCollection" timeSeriesOptions ;;
  for_of dataSizes run_size ;;
  printSeparator "=" 80 ;;
  console_log "✅ 測試完成！" ;;
  client_close ;;
  replSet_stop.

(** The top level: [run().catch(err => console.error(err))]. *)
Definition top_level (body : Promise unit) : Promise unit :=
  catch body (fun err => console_error err).

Definition main : Promise unit := top_level run.

End Run.

(** ** The single-trial variant ([main.ts])

    The first version of the script times each operation once per data size
    and neither clears nor recreates the collections in between. *)
Module MainTs.

Section Run.

Variable H : Host.

Definition run_size (timeSeriesCollection : Handle) (size : nat) : Promise unit :=
  data <- generateData H size ;;
  printSeparator "-" 60 ;;
  console_log ("📈 測試資料量: " +:+ formatNumber H (ofNat size) +:+ " 筆") ;;
  printSeparator "-" 60 ;;
  console_log (newline +:+ "✏️  寫入") ;;
  generalInsertTime <- measureInsertSpeed generalCollection data ;;
  timeSeriesInsertTime <- measureInsertSpeed timeSeriesCollection data ;;
  console_log ("   一般 Collection       : "
               +:+ padStart (host_toLocaleString H generalInsertTime) 8 +:+ " 毫秒") ;;
  console_log ("   Time Series Collection: "
               +:+ padStart (host_toLocaleString H timeSeriesInsertTime) 8 +:+ " 毫秒") ;;
  console_log ("   效能比較: "
               +:+ Double.calculateImprovement H generalInsertTime timeSeriesInsertTime) ;;
  generalStats <- getCollectionStats "generalCollection" ;;
  timeSeriesStats <- getCollectionStats "timeSeriesCollection" ;;
  console_log (newline +:+ "💾 儲存") ;;
  console_log ("   一般 Collection       : "
               +:+ padStart (formatBytes H (stats_size generalStats)) 12) ;;
  console_log ("   Time Series Collection: "
               +:+ padStart (formatBytes H (stats_size timeSeriesStats)) 12) ;;
  (let spaceReduction :=
     Double.mul
       (Double.div (Double.sub (stats_size generalStats) (stats_size timeSeriesStats))
                   (stats_size generalStats))
       (ofZ 100) in
   if gtb spaceReduction (ofZ 0) then
     console_log ("   空間節省: 🟢 " +:+ toFixed H spaceReduction 1 +:+ "% (節省 "
                  +:+ formatBytes H (Double.sub (stats_size generalStats)
                                                (stats_size timeSeriesStats))
                  +:+ ")")
   else
     console_log ("   空間使用: 🔴 多使用 "
                  +:+ toFixed H (Math_abs spaceReduction) 1 +:+ "%")) ;;
  t <- Date_now ;;
  let query := TimestampGt (Date_new (sub t (mul (ofZ 1000) (ofZ 100)))) in
  console_log (newline +:+ "🔍 查詢") ;;
  generalQueryTime <- measureQuerySpeed generalCollection query ;;
  timeSeriesQueryTime <- measureQuerySpeed timeSeriesCollection query ;;
  console_log ("   一般 Collection       : "
               +:+ padStart (host_toLocaleString H generalQueryTime) 8 +:+ " 毫秒") ;;
  console_log ("   Time Series Collection: "
               +:+ padStart (host_toLocaleString H timeSeriesQueryTime) 8 +:+ " 毫秒") ;;
  console_log ("   效能比較: "
               +:+ Double.calculateImprovement H generalQueryTime timeSeriesQueryTime) ;;
  let deleteQuery := ValueGt (ofZ 50) in
  console_log (newline +:+ "🗑️  刪除") ;;
  generalDeleteTime <- measureDeleteSpeed generalCollection deleteQuery ;;
  timeSeriesDeleteTime <- measureDeleteSpeed timeSeriesCollection deleteQuery ;;
  console_log ("   一般 Collection       : "
               +:+ padStart (host_toLocaleString H generalDeleteTime) 8 +:+ " 毫秒") ;;
  console_log ("   Time Series Collection: "
               +:+ padStart (host_toLocaleString H timeSeriesDeleteTime) 8 +:+ " 毫秒") ;;
  console_log ("   效能比較: "
               +:+ Double.calculateImprovement H generalDeleteTime timeSeriesDeleteTime) ;;
  console_log "".

Definition run : Promise unit :=
  MongoMemoryReplSet_create ;;
  client_connect ;;
  buildInfo <- command_buildInfo ;;
  printTitle "MongoDB Time Series Collection 效能測試" ;;
  console_log ("🔧 MongoDB 版本: " +:+ version buildInfo) ;;
  console_log "" ;;
  timeSeriesCollection <-
    createCollection "timeSeriesCollection" timeSeriesOptions ;;
  for_of dataSizes (run_size timeSeriesCollection) ;;
  printSeparator "=" 80 ;;
  console_log "✅ 測試完成！" ;;
  client_close ;;
  replSet_stop.

Definition main : Promise unit := top_level run.

End Run.

End MainTs.

(** The exit code of the process once the top-level promise has settled: a
    rejection nobody handles ends the process with code 1, and nothing in
    the script sets another code. *)
Definition exit_code {A : Type} (outcome : Settled A) : Z :=
  match outcome with
  | Fulfilled _ => 0
  | Rejected _ => 1
  end.

(** ** The single-batch script

    The earliest version of the script: one batch of 10000 records, made in
    place, each operation timed once on each collection, and both
    collections emptied by the timed deletes. *)
Module SingleBatch.

Section Run.

Variable H : Host.

Definition MongoMemoryServer_create : Promise unit :=
  engine_call OpCreateHost ;; modify (set_host_running true).

Definition mongoServer_stop : Promise unit :=
  engine_call OpStop ;; modify (set_host_running false).

Definition run : Promise unit :=
  MongoMemoryServer_create ;;
  client_connect ;;
  timeSeriesCollection <-
    createCollection "timeSeriesCollection" timeSeriesOptions ;;
  data <- Array_from (Z.to_nat 10000) (fun i =>
    t <- Date_now ;;
    r <- Math_random ;;
    ret {| timestamp := Date_new (sub t (mul (ofNat i) (ofZ 1000)));
           value := Double.mul r (ofZ 100);
           meta := {| sensor := "sensor" +:+ Number_toString H (ofNat (i mod 5)) |} |}) ;;
  insertStartTime <- Date_now ;;
  insertMany generalCollection data ;;
  t <- Date_now ;;
  let generalInsertTime := sub t insertStartTime in
  console_log ("插入到一般 Collection 用時: "
               +:+ Number_toString H generalInsertTime +:+ " 毫秒") ;;
  timeSeriesInsertStartTime <- Date_now ;;
  insertMany timeSeriesCollection data ;;
  t <- Date_now ;;
  let timeSeriesInsertTime := sub t timeSeriesInsertStartTime in
  console_log ("插入到 Time Series Collection 用時: "
               +:+ Number_toString H timeSeriesInsertTime +:+ " 毫秒") ;;
  queryStartTime <- Date_now ;;
  t <- Date_now ;;
  find_toArray generalCollection
    (TimestampGt (Date_new (sub t (mul (ofZ 1000) (ofZ 1000))))) ;;
  t <- Date_now ;;
  let generalQueryTime := sub t queryStartTime in
  console_log ("查詢一般 Collection 用時: "
               +:+ Number_toString H generalQueryTime +:+ " 毫秒") ;;
  timeSeriesQueryStartTime <- Date_now ;;
  t <- Date_now ;;
  find_toArray timeSeriesCollection
    (TimestampGt (Date_new (sub t (mul (ofZ 1000) (ofZ 1000))))) ;;
  t <- Date_now ;;
  let timeSeriesQueryTime := sub t timeSeriesQueryStartTime in
  console_log ("查詢 Time Series Collection 用時: "
               +:+ Number_toString H timeSeriesQueryTime +:+ " 毫秒") ;;
  deleteStartTime <- Date_now ;;
  deleteMany generalCollection MatchAll ;;
  t <- Date_now ;;
  let generalDeleteTime := sub t deleteStartTime in
  console_log ("刪除一般 Collection 用時: "
               +:+ Number_toString H generalDeleteTime +:+ " 毫秒") ;;
  timeSeriesDeleteStartTime <- Date_now ;;
  deleteMany timeSeriesCollection MatchAll ;;
  t <- Date_now ;;
  let timeSeriesDeleteTime := sub t timeSeriesDeleteStartTime in
  console_log ("刪除 Time Series Collection 用時: "
               +:+ Number_toString H timeSeriesDeleteTime +:+ " 毫秒") ;;
  client_close ;;
  mongoServer_stop.

Definition main : Promise unit := top_level run.

End Run.

End SingleBatch.


(* ================================================================== *)
(** * The statistics in the words of the specification *)
(* ================================================================== *)

(** The summary is stated against these definitions: the arithmetic mean of
    rationals, the ascending arrangement and its central value, and the
    smaller and larger of two values. *)

Definition Qc_sum (qs : list Qc) : Qc := fold_right Qcplus qzero qs.
Definition arithmetic_mean (qs : list Qc) : Qc :=
  (Qc_sum qs / Qc_ofZ (Z.of_nat (length qs)))%Qc.
Definition central (sorted : list Qc) : Qc :=
  let n := length sorted in
  if (n mod 2 =? 0)%nat
  then ((nth (n / 2 - 1) sorted qzero + nth (n / 2) sorted qzero) / Q2Qc 2)%Qc
  else nth (n / 2) sorted qzero.


Fixpoint insert_ascending (x : Qc) (l : list Qc) : list Qc :=
  match l with
  | [] => [x]
  | y :: l' => if Qc_ltb y x then y :: insert_ascending x l' else x :: l
  end.
Definition sort_ascending (l : list Qc) : list Qc := fold_right insert_ascending [] l.


Definition Qc_min2 (a b : Qc) : Qc := if Qc_ltb b a then b else a.
Definition Qc_max2 (a b : Qc) : Qc := if Qc_ltb a b then b else a.


(** On doubles the sums are accumulated with a rounding at every step.
    [rounded_sum] is the sum of a list taken from left to right,
    [midpoint] the halved sum of two values, [rounded_variance] the sum of
    the squares of the deviations from [mean], as the engine squares them,
    divided by the length. *)
Definition rounded_sum (qs : list Qc) : number :=
  fold_left (fun sum q => Double.add sum (Fin q)) qs (ofZ 0).

Definition midpoint (x y : Qc) : number :=
  Double.div (Double.add (Fin x) (Fin y)) (ofZ 2).

Definition rounded_variance (H : Host) (qs : list Qc) (mean : number) : number :=
  Double.div
    (fold_left (fun sum q =>
                  Double.add sum (Double.Math_pow H (Double.sub (Fin q) mean) (ofZ 2)))
       qs (ofZ 0))
    (ofNat (length qs)).

(** The sum of whole numbers and the sum of their absolute values. *)
Definition Z_sum (zs : list Z) : Z := fold_right Z.add 0 zs.
Definition Z_sum_abs (zs : list Z) : Z := fold_right (fun z s => Z.abs z + s) 0 zs.

(** The double nearest to one tenth, and [2^1023]. *)
Definition tenth : Qc := Q2Qc (3602879701896397 # 36028797018963968).
Definition huge : Qc := Qc_ofZ (2 ^ 1023).

(* ================================================================== *)
(** * Repeated trials in the words of the specification *)
(* ================================================================== *)

(** [Trials H f i n w rs w']: from the world [w], [n] invocations of [f],
    numbered from [i + 1], one after the other: each invocation starts in
    the world the previous one ended in (after its number has been written)
    and is fulfilled there; [rs] lists the values in invocation order and
    [w'] is the world after the last one. *)
Inductive Trials {T : Type} (H : Host) (f : Promise T)
    : nat -> nat -> World -> list T -> World -> Prop :=
  | Trials_none (i : nat) (w : World) :
      Trials H f i 0 w [] w
  | Trials_next (i n : nat) (w w1 w2 : World) (r : T) (rs : list T) :
      f (put_stdout (" " +:+ Number_toString H (ofNat (i + 1))) w)
        = (Fulfilled r, w1) ->
      Trials H f (S i) n w1 rs w2 ->
      Trials H f i (S n) w (r :: rs) w2.

(** The values of [n] timed operations that each read the clock once
    before and once after their engine call: the differences of the two
    readings, from the next reading of the clock on. *)
Definition elapsed_times (w : World) (n : nat) : list number :=
  map (fun k => ofZ (now w (clock_reads w + 2 * k + 1) - now w (clock_reads w + 2 * k)))
    (seq 0 n).

(** No engine call fails for a reason of the environment. *)
Definition no_faults (w : World) : Prop :=
  forall k : nat, faults w k = None.

(* ================================================================== *)
(** * The generated records in the words of the specification *)
(* ================================================================== *)

(** The five sensor names. *)
Definition sensors : list string :=
  ["sensor0"; "sensor1"; "sensor2"; "sensor3"; "sensor4"].

(** The world after [n] more readings of the clock and of the random
    source. *)
Definition advance_reads (n : nat) (w : World) : World :=
  {| db := db w; now := now w; clock_reads := clock_reads w + n;
     random := random w; random_reads := random_reads w + n;
     faults := faults w; calls := calls w; storage_size := storage_size w;
     server_version := server_version w; client_version := client_version w;
     stdout := stdout w; stderr := stderr w;
     connected := connected w; host_running := host_running w |}.

(** The record made for index [i] from the [j]-th next readings of the
    clock and of the random source. *)
Definition record_at (H : Host) (w : World) (i j : nat) : SyntheticRecord :=
  {| timestamp := Date_new (sub (ofZ (now w (clock_reads w + j)))
                                (mul (ofNat i) (ofZ 1000)));
     value := Double.mul (random w (random_reads w + j)) (ofZ 100);
     meta := {| sensor := "sensor" +:+ Number_toString H (ofNat (i mod 5)) |} |}.

(* ================================================================== *)
(** * Sample hosts and worlds *)
(* ================================================================== *)

(** An engine and worlds on which the statements are exercised. *)

Definition plain_host : Host :=
  {| host_sqrt := fun _ => NaN; host_pow := fun _ _ => NaN;
     host_toString := fun _ => ""; host_toLocaleString := fun _ => "";
     host_dateToLocaleString := fun _ => "" |}.

Definition sample_world (clock : nat -> Z) (failing : nat -> option Error) : World :=
  {| db := ∅; now := clock; clock_reads := 0;
     random := fun k => Fin (Q2Qc (Z.of_nat (k mod 8) # 8)); random_reads := 0;
     faults := failing; calls := [];
     storage_size := fun _ c => ofNat (length (docs c));
     server_version := "7.0.0"; client_version := "6.3.0";
     stdout := []; stderr := [];
     connected := false; host_running := false |}.

Definition world_with_clock (clock : nat -> Z) : World :=
  sample_world clock (fun _ => None).

(** The world in which the engine call number [k] fails with [e]. *)
Definition world_failing_at (k : nat) (e : Error) : World :=
  sample_world (fun i => 1700000000000 + Z.of_nat i)%Z
    (fun j => if (j =? k)%nat then Some e else None).


(* ================================================================== *)
(** * Error propagation in the words of the specification *)
(* ================================================================== *)

(** [propagates w outcome w']: a computation that went from [w] to [w']
    with [outcome] wrote nothing to the standard error and, whenever one of
    the engine calls it made, other than a drop, failed, made no call after
    it and was rejected with the error of that call. *)
Definition propagates {A : Type} (w : World) (outcome : Settled A) (w' : World)
    : Prop :=
  faults w' = faults w
  /\ stderr w' = stderr w
  /\ (exists ops, calls w' = (calls w ++ ops)%list)
  /\ forall (j : nat) (op : Op) (e : Error),
       calls w' !! j = Some op -> (length (calls w) <= j)%nat ->
       op <> OpDrop -> faults w j = Some e ->
       outcome = Rejected e /\ S j = length (calls w').

Definition error_transparent {A : Type} (m : Promise A) : Prop :=
  forall w : World, propagates w (fst (m w)) (snd (m w)).

(** [fulfils m Q]: where no engine call fails, [m] is fulfilled, with a
    value satisfying [Q], and leaves such a world again. *)
Definition fulfils {A : Type} (m : Promise A) (Q : A -> Prop) : Prop :=
  forall w : World, no_faults w ->
  exists (a : A) (w' : World), m w = (Fulfilled a, w') /\ no_faults w' /\ Q a.

(* ================================================================== *)
(** * Digit strings *)
(* ================================================================== *)

(** The value of a string of digits read on top of [acc], and the test
    that a string consists of digits. *)
Fixpoint digits_value (s : string) (acc : N) : N :=
  match s with
  | String c s' => digits_value s' (10 * acc + digit_value c)%N
  | EmptyString => acc
  end.

Fixpoint all_digits (s : string) : bool :=
  match s with
  | String c s' => is_digit c && all_digits s'
  | EmptyString => true
  end.

(** A string at which a run of digits ends. *)
Definition no_digit_ahead (s : string) : bool :=
  match s with
  | String c _ => negb (is_digit c)
  | EmptyString => true
  end.

(** The value of a decimal numeral read on top of [acc]. *)
Fixpoint uint_value (d : Decimal.uint) (acc : N) : N :=
  match d with
  | Decimal.Nil => acc
  | Decimal.D0 d => uint_value d (10 * acc)%N
  | Decimal.D1 d => uint_value d (10 * acc + 1)%N
  | Decimal.D2 d => uint_value d (10 * acc + 2)%N
  | Decimal.D3 d => uint_value d (10 * acc + 3)%N
  | Decimal.D4 d => uint_value d (10 * acc + 4)%N
  | Decimal.D5 d => uint_value d (10 * acc + 5)%N
  | Decimal.D6 d => uint_value d (10 * acc + 6)%N
  | Decimal.D7 d => uint_value d (10 * acc + 7)%N
  | Decimal.D8 d => uint_value d (10 * acc + 8)%N
  | Decimal.D9 d => uint_value d (10 * acc + 9)%N
  end.
(* ================================================================== *)
(** * What a computation leaves as it is *)
(* ================================================================== *)

(** [keeps R m]: whatever its outcome, [m] takes a world to one related to
    it by [R]; [keeps_when_rejected R m]: so it does when it is rejected. *)
Definition keeps (R : World -> World -> Prop) {A : Type} (m : Promise A) : Prop :=
  forall w : World, R w (snd (m w)).

Definition keeps_when_rejected (R : World -> World -> Prop) {A : Type}
    (m : Promise A) : Prop :=
  forall (w : World) (e : Error) (w' : World), m w = (Rejected e, w') -> R w w'.

(** The database is the same. *)
Definition same_db (w w' : World) : Prop := db w' = db w.

(** Nothing was written to the standard output. *)
Definition same_stdout (w w' : World) : Prop := stdout w' = stdout w.

(** A host that was running is running still. *)
Definition host_stays_up (w w' : World) : Prop :=
  host_running w = true -> host_running w' = true.

(** The collection [name] holds documents of which [P] holds. *)
Definition holds_docs (w : World) (name : string)
    (P : list SyntheticRecord -> Prop) : Prop :=
  exists c : Collection, db w !! name = Some c /\ P (docs c).

(** The documents of the collection [name], none when there is no such
    collection. *)
Definition docs_of (w : World) (name : string) : list SyntheticRecord :=
  match db w !! name with
  | Some c => docs c
  | None => []
  end.

(** The documents a delete by [query] leaves. *)
Definition survivors (query : Filter) (l : list SyntheticRecord)
    : list SyntheticRecord :=
  List.filter (fun doc => negb (matches query doc)) l.

(** The marks [runMultipleTests] writes for [runs] runs: [" 1"], [" 2"],
    and so on. *)
Definition progress_marks (runs : nat) : list string :=
  map (fun i => " " +:+ digits_of_N (N.of_nat (S i))) (seq 0 runs).

(** The query for the records of the last [seconds] seconds before [t]. *)
Definition newer_than (t : Z) (seconds : Z) : Filter :=
  TimestampGt (Date_new (sub (ofZ t) (mul (ofZ 1000) (ofZ seconds)))).

(** A batch [generateData] has made for [size]. *)
Definition generated_batch (H : Host) (size : nat) (data : list SyntheticRecord)
    : Prop :=
  exists w0 w0' : World, generateData H size w0 = (Fulfilled data, w0').

(** The size the [collStats] command reports for the collection [name]. *)
Definition collection_size (w : World) (name : string) : number :=
  match db w !! name with
  | Some c => storage_size w name c
  | None => ofZ 0
  end.


(* ================================================================== *)
(** * Properties *)
(* ================================================================== *)

(** ** Finite values *)

Open Scope list_scope.
Open Scope Z_scope.

Lemma Qc_sign_Eq a : Qc_sign a = Eq <-> a = qzero.
Proof. unfold Qc_sign. symmetry. apply Qceq_alt. Qed.
Lemma Qc_sign_Lt a : Qc_sign a = Lt <-> (a < qzero)%Qc.
Proof. unfold Qc_sign. symmetry. apply Qclt_alt. Qed.
Lemma Qc_sign_Gt a : Qc_sign a = Gt <-> (qzero < a)%Qc.
Proof. unfold Qc_sign. symmetry. apply Qcgt_alt. Qed.

Lemma Qc_ltb_true a b : Qc_ltb a b = true <-> (a < b)%Qc.
Proof. unfold Qc_ltb. apply bool_decide_eq_true. Qed.
Lemma Qc_leb_true a b : Qc_leb a b = true <-> (a <= b)%Qc.
Proof. unfold Qc_leb. apply bool_decide_eq_true. Qed.
Lemma Qc_eqb_true a b : Qc_eqb a b = true <-> a = b.
Proof. unfold Qc_eqb. apply bool_decide_eq_true. Qed.
Lemma Qc_ltb_false a b : Qc_ltb a b = false <-> (b <= a)%Qc.
Proof. unfold Qc_ltb. rewrite bool_decide_eq_false. split. apply Qcnot_lt_le. apply Qcle_not_lt. Qed.

(** The operations of [Qc] seen in [Q], where [lra] decides linear goals. *)
Lemma this_plus a b : (this (a + b)%Qc == this a + this b)%Q.
Proof. simpl. apply Qred_correct. Qed.
Lemma this_mult a b : (this (a * b)%Qc == this a * this b)%Q.
Proof. simpl. apply Qred_correct. Qed.
Lemma this_opp a : (this (- a)%Qc == - this a)%Q.
Proof. simpl. apply Qred_correct. Qed.
Lemma this_inv a : (this (/ a)%Qc == / this a)%Q.
Proof. simpl. apply Qred_correct. Qed.
Lemma this_Q2Qc q : (this (Q2Qc q) == q)%Q.
Proof. simpl. apply Qred_correct. Qed.

Lemma Qc_eq_Qeq (a b : Qc) : a = b -> (this a == this b)%Q.
Proof. intros ->. reflexivity. Qed.

Ltac qc_to_q :=
  unfold Qcle, Qclt, Qcdiv, Qcminus, qzero, Qc_ofZ in *;
  repeat match goal with
  | H : ?a = ?b :> Qc |- _ => apply Qc_eq_Qeq in H
  | |- ?a = ?b :> Qc => apply Qc_is_canon
  end;
  rewrite ?this_plus, ?this_mult, ?this_opp, ?this_inv, ?this_Q2Qc in *;
  unfold inject_Z in *.


(** *** Arithmetic *)
Lemma add_Fin a b : add (Fin a) (Fin b) = Fin (a + b)%Qc.
Proof. reflexivity. Qed.
Lemma sub_Fin a b : sub (Fin a) (Fin b) = Fin (a - b)%Qc.
Proof. reflexivity. Qed.
Lemma mul_Fin a b : mul (Fin a) (Fin b) = Fin (a * b)%Qc.
Proof. reflexivity. Qed.
Lemma div_Fin a b : b <> qzero -> div (Fin a) (Fin b) = Fin (a / b)%Qc.
Proof.
  intros Hb. unfold div. destruct (Qc_sign b) eqn:E; try reflexivity.
  apply Qc_sign_Eq in E. contradiction.
Qed.

Lemma Qc_ofZ_lt a b : (a < b)%Z -> (Qc_ofZ a < Qc_ofZ b)%Qc.
Proof. intros. qc_to_q. fold (inject_Z a). fold (inject_Z b). rewrite <- Zlt_Qlt. assumption. Qed.
Lemma Qc_ofZ_le a b : (a <= b)%Z -> (Qc_ofZ a <= Qc_ofZ b)%Qc.
Proof. intros. qc_to_q. fold (inject_Z a). fold (inject_Z b). rewrite <- Zle_Qle. assumption. Qed.
Lemma Qc_ofZ_inj a b : Qc_ofZ a = Qc_ofZ b -> a = b.
Proof. intros. qc_to_q. apply inject_Z_injective. assumption. Qed.
Lemma Qc_ofZ_nonzero z : z <> 0 -> Qc_ofZ z <> qzero.
Proof. intros Hz E. apply Hz. apply Qc_ofZ_inj. exact E. Qed.

Lemma Qc_floor_ofZ z : Qc_floor (Qc_ofZ z) = z.
Proof.
  unfold Qc_floor, Qc_ofZ. rewrite (Qfloor_comp _ _ (this_Q2Qc _)). apply Qfloor_Z.
Qed.
Lemma Qc_is_integer_ofZ z : Qc_is_integer (Qc_ofZ z) = true.
Proof. unfold Qc_is_integer. rewrite Qc_floor_ofZ. apply Qc_eqb_true. reflexivity. Qed.

(** *** Sorting *)
Lemma gtb_sub_Fin x y : gtb (sub (Fin x) (Fin y)) (ofZ 0) = Qc_ltb y x.
Proof.
  unfold gtb, ofZ. simpl. apply eq_true_iff_eq.
  rewrite !Qc_ltb_true. split; intros; qc_to_q; lra.
Qed.

Lemma sort_insert_Fin x l :
  sort_insert (fun a b => sub a b) (Fin x) (map Fin l) = map Fin (insert_ascending x l).
Proof.
  induction l as [|y l IH]; [reflexivity|].
  cbn [map sort_insert insert_ascending].
  rewrite gtb_sub_Fin. destruct (Qc_ltb y x); cbn [map]; [rewrite IH|]; reflexivity.
Qed.

Lemma Array_sort_Fin l :
  Array_sort (fun a b => sub a b) (map Fin l) = map Fin (sort_ascending l).
Proof.
  induction l as [|x l IH]; [reflexivity|].
  unfold Array_sort in *. cbn [map fold_right sort_ascending]. rewrite IH.
  apply sort_insert_Fin.
Qed.

Lemma insert_ascending_perm x l : Permutation (insert_ascending x l) (x :: l).
Proof.
  induction l as [|y l IH]; simpl; [reflexivity|].
  destruct (Qc_ltb y x); [|reflexivity].
  rewrite IH. apply perm_swap.
Qed.

Lemma sort_ascending_perm l : Permutation (sort_ascending l) l.
Proof.
  induction l as [|x l IH]; simpl; [reflexivity|].
  rewrite insert_ascending_perm. constructor. exact IH.
Qed.

Lemma insert_ascending_sorted x l :
  StronglySorted Qcle l -> StronglySorted Qcle (insert_ascending x l).
Proof.
  induction 1 as [|y l Hs IH Hall]; simpl.
  - repeat constructor.
  - destruct (Qc_ltb y x) eqn:E.
    + constructor; [exact IH|].
      apply Qc_ltb_true in E.
      rewrite insert_ascending_perm.
      constructor; [apply Qclt_le_weak; exact E | exact Hall].
    + apply Qc_ltb_false in E. constructor; [constructor; assumption|].
      constructor; [exact E|].
      eapply Forall_impl; [exact Hall|]. intros z Hz. simpl in Hz.
      eapply Qcle_trans; eassumption.
Qed.

Lemma sort_ascending_sorted l : StronglySorted Qcle (sort_ascending l).
Proof.
  induction l as [|x l IH]; simpl; [constructor|].
  apply insert_ascending_sorted, IH.
Qed.

(** An ascending arrangement of a list is unique. *)
Lemma sorted_perm_unique (l1 l2 : list Qc) :
  StronglySorted Qcle l1 -> StronglySorted Qcle l2 -> Permutation l1 l2 -> l1 = l2.
Proof.
  intros H1. revert l2. induction H1 as [|x l1 Hs1 IH Hall1]; intros l2 H2 Hp.
  - apply Permutation_nil in Hp. congruence.
  - destruct H2 as [|y l2 Hs2 Hall2].
    + symmetry in Hp. apply Permutation_nil in Hp. discriminate.
    + assert (Hxy : x = y).
      { apply Qcle_antisym.
        - assert (Hin : In y (x :: l1)) by (eapply Permutation_in; [symmetry; exact Hp | left; reflexivity]).
          destruct Hin as [->|Hin]; [apply Qcle_refl|].
          rewrite Forall_forall in Hall1. apply Hall1. apply list_elem_of_In. exact Hin.
        - assert (Hin : In x (y :: l2)) by (eapply Permutation_in; [exact Hp | left; reflexivity]).
          destruct Hin as [->|Hin]; [apply Qcle_refl|].
          rewrite Forall_forall in Hall2. apply Hall2. apply list_elem_of_In. exact Hin. }
      subst y. f_equal. apply IH; [exact Hs2|].
      eapply Permutation_cons_inv. exact Hp.
Qed.

(** *** Indexing *)
Lemma array_get_ofZ {A} (arr : list A) z :
  0 <= z -> array_get arr (ofZ z) = nth_error arr (Z.to_nat z).
Proof.
  intros Hz. unfold array_get, ofZ. fold (Qc_ofZ z).
  rewrite Qc_is_integer_ofZ, Qc_floor_ofZ.
  destruct (0 <=? z) eqn:E; [reflexivity|]. apply Z.leb_gt in E. lia.
Qed.

Lemma array_get_Fin l z :
  0 <= z < Z.of_nat (length l) ->
  number_or_undefined (array_get (map Fin l) (ofZ z)) = Fin (nth (Z.to_nat z) l qzero).
Proof.
  intros Hz. rewrite array_get_ofZ by lia.
  rewrite nth_error_map.
  rewrite (nth_error_nth' l qzero) by lia. reflexivity.
Qed.

Lemma Qc_floor_half z : Qc_floor (Qc_ofZ z / Qc_ofZ 2)%Qc = z / 2.
Proof.
  unfold Qc_floor.
  assert (E : (this (Qc_ofZ z / Qc_ofZ 2)%Qc == z # 2)%Q).
  { qc_to_q. unfold Qeq; simpl. lia. }
  rewrite (Qfloor_comp _ _ E). reflexivity.
Qed.

Lemma Math_floor_half z : Math_floor (div (ofZ z) (ofZ 2)) = ofZ (z / 2).
Proof.
  unfold ofZ. fold (Qc_ofZ z) (Qc_ofZ 2) (Qc_ofZ (z / 2)).
  rewrite div_Fin by (apply Qc_ofZ_nonzero; lia).
  unfold Math_floor. rewrite Qc_floor_half. reflexivity.
Qed.

(** *** Extrema *)
Lemma fold_min2_Fin qs a :
  fold_left min2 (map Fin qs) (Fin a) = Fin (fold_left Qc_min2 qs a).
Proof.
  revert a. induction qs as [|q qs IH]; intros a; [reflexivity|].
  cbn [map fold_left]. unfold min2 at 2. cbn [ltb]. unfold Qc_min2 at 2.
  destruct (Qc_ltb q a); apply IH.
Qed.

Lemma fold_max2_Fin qs a :
  fold_left max2 (map Fin qs) (Fin a) = Fin (fold_left Qc_max2 qs a).
Proof.
  revert a. induction qs as [|q qs IH]; intros a; [reflexivity|].
  cbn [map fold_left]. unfold max2 at 2. cbn [ltb]. unfold Qc_max2 at 2.
  destruct (Qc_ltb a q); apply IH.
Qed.

Lemma fold_Qc_min2_spec qs a :
  let m := fold_left Qc_min2 qs a in
  In m (a :: qs) /\ forall q, In q (a :: qs) -> (m <= q)%Qc.
Proof.
  revert a. induction qs as [|q qs IH]; intros a; cbn [fold_left].
  - split; [left; reflexivity|]. intros q [<-|[]]. apply Qcle_refl.
  - destruct (IH (Qc_min2 a q)) as [Hin Hle]. cbv zeta. split.
    + destruct Hin as [E|Hin]; [|right; right; exact Hin].
      rewrite <- E. unfold Qc_min2. destruct (Qc_ltb q a); [right; left|left]; reflexivity.
    + assert (Hm : (Qc_min2 a q <= a /\ Qc_min2 a q <= q)%Qc).
      { unfold Qc_min2. destruct (Qc_ltb q a) eqn:E.
        - apply Qc_ltb_true in E. split; [apply Qclt_le_weak; exact E | apply Qcle_refl].
        - apply Qc_ltb_false in E. split; [apply Qcle_refl | exact E]. }
      intros z [<-|[<-|Hz]].
      * eapply Qcle_trans; [apply Hle; left; reflexivity | apply Hm].
      * eapply Qcle_trans; [apply Hle; left; reflexivity | apply Hm].
      * apply Hle. right. exact Hz.
Qed.

Lemma fold_Qc_max2_spec qs a :
  let m := fold_left Qc_max2 qs a in
  In m (a :: qs) /\ forall q, In q (a :: qs) -> (q <= m)%Qc.
Proof.
  revert a. induction qs as [|q qs IH]; intros a; cbn [fold_left].
  - split; [left; reflexivity|]. intros q [<-|[]]. apply Qcle_refl.
  - destruct (IH (Qc_max2 a q)) as [Hin Hle]. cbv zeta. split.
    + destruct Hin as [E|Hin]; [|right; right; exact Hin].
      rewrite <- E. unfold Qc_max2. destruct (Qc_ltb a q); [right; left|left]; reflexivity.
    + assert (Hm : (a <= Qc_max2 a q /\ q <= Qc_max2 a q)%Qc).
      { unfold Qc_max2. destruct (Qc_ltb a q) eqn:E.
        - apply Qc_ltb_true in E. split; [apply Qclt_le_weak; exact E | apply Qcle_refl].
        - apply Qc_ltb_false in E. split; [apply Qcle_refl | exact E]. }
      intros z [<-|[<-|Hz]].
      * eapply Qcle_trans; [apply Hm | apply Hle; left; reflexivity].
      * eapply Qcle_trans; [apply Hm | apply Hle; left; reflexivity].
      * apply Hle. right. exact Hz.
Qed.

Lemma Math_min_Fin q qs :
  exists lo, Math_min (map Fin (q :: qs)) = Fin lo /\ In lo (q :: qs)
             /\ forall x, In x (q :: qs) -> (lo <= x)%Qc.
Proof.
  exists (fold_left Qc_min2 qs q). split.
  - unfold Math_min. cbn [map fold_left]. change (min2 PInf (Fin q)) with (Fin q).
    apply fold_min2_Fin.
  - apply fold_Qc_min2_spec.
Qed.

Lemma Math_max_Fin q qs :
  exists hi, Math_max (map Fin (q :: qs)) = Fin hi /\ In hi (q :: qs)
             /\ forall x, In x (q :: qs) -> (x <= hi)%Qc.
Proof.
  exists (fold_left Qc_max2 qs q). split.
  - unfold Math_max. cbn [map fold_left]. change (max2 NInf (Fin q)) with (Fin q).
    apply fold_max2_Fin.
  - apply fold_Qc_max2_spec.
Qed.

Lemma leb_Fin a b : leb (Fin a) (Fin b) = true <-> (a <= b)%Qc.
Proof.
  unfold leb. cbn [ltb eqb]. rewrite orb_true_iff, Qc_ltb_true, Qc_eqb_true.
  split.
  - intros [Hlt | ->]; [apply Qclt_le_weak; exact Hlt | apply Qcle_refl].
  - apply Qcle_lt_or_eq.
Qed.

(** *** Integers as numbers *)

Lemma ofZ_eq a b : a = b -> ofZ a = ofZ b.
Proof. intros ->. reflexivity. Qed.

Lemma sub_ofZ a b : sub (ofZ a) (ofZ b) = ofZ (a - b).
Proof.
  unfold ofZ. rewrite sub_Fin. f_equal. apply Qc_is_canon.
  unfold Qcminus. rewrite this_plus, this_opp, !this_Q2Qc.
  unfold Z.sub. rewrite inject_Z_plus, inject_Z_opp. reflexivity.
Qed.

Lemma mul_ofZ a b : mul (ofZ a) (ofZ b) = ofZ (a * b).
Proof.
  unfold ofZ. rewrite mul_Fin. f_equal. apply Qc_is_canon.
  rewrite this_mult, !this_Q2Qc, inject_Z_mult. reflexivity.
Qed.

Lemma leb_ofZ a b : leb (ofZ a) (ofZ b) = true <-> a <= b.
Proof.
  unfold ofZ. rewrite leb_Fin. fold (Qc_ofZ a) (Qc_ofZ b). split.
  - intros Hle. destruct (Z_le_gt_dec a b) as [|Hgt]; [assumption|].
    exfalso. apply (Qclt_not_le (Qc_ofZ b) (Qc_ofZ a)); [apply Qc_ofZ_lt; lia | exact Hle].
  - apply Qc_ofZ_le.
Qed.

Lemma ltb_ofZ a b : ltb (ofZ a) (ofZ b) = true <-> a < b.
Proof.
  unfold ofZ. cbn [ltb]. rewrite Qc_ltb_true. fold (Qc_ofZ a) (Qc_ofZ b). split.
  - intros Hlt. destruct (Z_lt_ge_dec a b) as [|Hge]; [assumption|].
    exfalso. apply (Qclt_not_le _ _ Hlt). apply Qc_ofZ_le. lia.
  - apply Qc_ofZ_lt.
Qed.

Lemma Qc_opp_ofZ z : (- Qc_ofZ z)%Qc = Qc_ofZ (- z).
Proof.
  apply Qc_is_canon. unfold Qc_ofZ. rewrite this_opp, !this_Q2Qc, inject_Z_opp. reflexivity.
Qed.

Lemma Qc_ltb_ofZ a b : Qc_ltb (Qc_ofZ a) (Qc_ofZ b) = (a <? b).
Proof.
  apply eq_true_iff_eq. rewrite Z.ltb_lt. exact (ltb_ofZ a b).
Qed.

Lemma Qc_between_half (a b lo hi : Qc) :
  (lo <= a <= hi -> lo <= b <= hi ->
   lo <= (a + b) / Q2Qc 2 /\ (a + b) / Q2Qc 2 <= hi)%Qc.
Proof.
  intros [Ha1 Ha2] [Hb1 Hb2].
  set (x := ((a + b) / Q2Qc 2)%Qc).
  assert (Hx : (x * Q2Qc 2 = a + b)%Qc) by (unfold x; field; discriminate).
  clearbody x. qc_to_q. split; lra.
Qed.

Lemma even_mod2 n : (Z.of_nat n mod 2 =? 0) = (n mod 2 =? 0)%nat.
Proof.
  change 2 with (Z.of_nat 2). rewrite <- Nat2Z.inj_mod.
  destruct (n mod 2)%nat; reflexivity.
Qed.

Lemma median_central (S : list Qc) :
  S <> [] ->
  let sorted := map Fin S in
  let len := Z.of_nat (length sorted) in
  (if (len mod 2 =? 0)%Z
   then div (add (number_or_undefined (array_get sorted (ofZ (len / 2 - 1))))
                 (number_or_undefined (array_get sorted (ofZ (len / 2)))))
            (ofZ 2)
   else number_or_undefined (array_get sorted (Math_floor (div (ofZ len) (ofZ 2)))))
  = Fin (central S).
Proof.
  intros Hne sorted len. unfold central.
  assert (Hlen : len = Z.of_nat (length S)) by (unfold len, sorted; rewrite length_map; reflexivity).
  assert (Hpos : (0 < length S)%nat) by (destruct S; [congruence | simpl; lia]).
  rewrite Hlen, even_mod2.
  assert (Hhalf : Z.to_nat (Z.of_nat (length S) / 2) = (length S / 2)%nat).
  { change 2 with (Z.of_nat 2). rewrite <- Nat2Z.inj_div. apply Nat2Z.id. }
  assert (Hlt : (length S / 2 < length S)%nat) by (apply Nat.div_lt; lia).
  destruct (length S mod 2 =? 0)%nat eqn:E.
  - apply Nat.eqb_eq in E.
    assert (H2 : (2 <= length S)%nat).
    { destruct (length S) as [|[|k]]; [lia | discriminate | lia]. }
    assert (Hd : (1 <= length S / 2)%nat) by (apply Nat.div_le_lower_bound; lia).
    assert (Hz : Z.of_nat (length S) / 2 = Z.of_nat (length S / 2)).
    { change 2 with (Z.of_nat 2). rewrite <- Nat2Z.inj_div. reflexivity. }
    unfold sorted. rewrite !array_get_Fin by lia.
    rewrite add_Fin. unfold ofZ. fold (Qc_ofZ 2).
    rewrite div_Fin by (apply Qc_ofZ_nonzero; lia).
    rewrite Hhalf. replace (Z.to_nat (Z.of_nat (length S) / 2 - 1)) with (length S / 2 - 1)%nat by lia.
    reflexivity.
  - rewrite Math_floor_half. unfold sorted. rewrite array_get_Fin.
    + rewrite Hhalf. reflexivity.
    + split; [apply Z.div_pos; lia | apply Z.div_lt_upper_bound; lia].
Qed.


Section Rounding.

Import Double.

(** ** Rounding to the nearest double *)


Lemma pow2_pos z : (0 < pow2 z)%Q.
Proof. apply Qpower_0_lt. reflexivity. Qed.

Lemma pow2_add a b : (pow2 (a + b) == pow2 a * pow2 b)%Q.
Proof. apply Qpower_plus. intros E. discriminate E. Qed.

Lemma pow2_sub a b : (pow2 (a - b) == pow2 a / pow2 b)%Q.
Proof. apply Qpower_minus. intros E. discriminate E. Qed.

Lemma pow2_le a b : a <= b -> (pow2 a <= pow2 b)%Q.
Proof. intros Hab. apply Qpower_le_compat_l; [exact Hab | discriminate]. Qed.

Lemma pow2_lt a b : a < b -> (pow2 a < pow2 b)%Q.
Proof. intros Hab. apply Qpower_lt_compat_l; [exact Hab | reflexivity]. Qed.

Lemma pow2_lt_inv a b : (pow2 a < pow2 b)%Q -> a < b.
Proof. intros Hab. eapply Qpower_lt_compat_l_inv; [exact Hab | reflexivity]. Qed.

Lemma pow2_inject z : 0 <= z -> (pow2 z == inject_Z (2 ^ z))%Q.
Proof. intros Hz. symmetry. apply (Zpower_Qpower 2 z Hz). Qed.

Lemma inject_Z_lt a b : a < b -> (inject_Z a < inject_Z b)%Q.
Proof. intros Hab. rewrite <- Zlt_Qlt. exact Hab. Qed.

Lemma inject_Z_le a b : a <= b -> (inject_Z a <= inject_Z b)%Q.
Proof. intros Hab. rewrite <- Zle_Qle. exact Hab. Qed.

(** *** The binade *)

Lemma Qdiv_lt_cross (x y n d : Q) :
  (0 < y)%Q -> (0 < d)%Q -> (x * d < n * y)%Q -> (x / y < n / d)%Q.
Proof.
  intros Hy Hd Hlt. apply Qlt_shift_div_r; [exact Hy|].
  assert (E : (n / d * y == n * y / d)%Q) by (field; lra).
  rewrite E. apply Qlt_shift_div_l; [exact Hd | exact Hlt].
Qed.

Lemma binade_spec a :
  (0 < a)%Q -> (pow2 (binade a) <= a)%Q /\ (a < pow2 (binade a + 1))%Q.
Proof.
  intros Ha. destruct a as [n d].
  assert (Hn : 0 < n) by (unfold Qlt in Ha; cbn in Ha; lia).
  pose proof (Z.log2_spec n Hn) as [Hn1 Hn2].
  pose proof (Z.log2_spec (Zpos d) eq_refl) as [Hd1 Hd2].
  pose proof (Z.log2_nonneg n) as Hln. pose proof (Z.log2_nonneg (Zpos d)) as Hld.
  set (ln := Z.log2 n) in *. set (ld := Z.log2 (Zpos d)) in *.
  assert (En : (n # d == inject_Z n / inject_Z (Zpos d))%Q) by apply Qmake_Qdiv.
  assert (HN : (0 < inject_Z n)%Q) by (apply (inject_Z_lt 0); exact Hn).
  assert (HD : (0 < inject_Z (Zpos d))%Q) by (apply (inject_Z_lt 0); reflexivity).
  assert (Hlow : (pow2 (ln - ld - 1) < n # d)%Q).
  { replace (ln - ld - 1) with (ln - (ld + 1)) by lia.
    rewrite pow2_sub, En, !pow2_inject by lia.
    apply Qdiv_lt_cross; [apply (inject_Z_lt 0); lia | exact HD |].
    rewrite <- !inject_Z_mult. apply inject_Z_lt.
    replace (Z.succ ld) with (ld + 1) in Hd2 by lia. nia. }
  assert (Hhigh : (n # d < pow2 (ln - ld + 1))%Q).
  { replace (ln - ld + 1) with (ln + 1 - ld) by lia.
    rewrite pow2_sub, En, !pow2_inject by lia.
    apply Qdiv_lt_cross; [exact HD | apply (inject_Z_lt 0); lia |].
    rewrite <- !inject_Z_mult. apply inject_Z_lt.
    replace (Z.succ ln) with (ln + 1) in Hn2 by lia.
    assert (0 < 2 ^ ld) by lia. nia. }
  unfold binade. cbn [Qnum Qden]. fold ln ld.
  destruct (Qle_bool (pow2 (ln - ld)) (n # d)) eqn:E.
  - apply Qle_bool_iff in E. split; [exact E | exact Hhigh].
  - split; [apply Qlt_le_weak; exact Hlow|].
    replace (ln - ld - 1 + 1) with (ln - ld) by lia.
    apply Qnot_le_lt. intros Hle. apply Qle_bool_iff in Hle. congruence.
Qed.

Lemma binade_unique a e :
  (pow2 e <= a)%Q -> (a < pow2 (e + 1))%Q -> binade a = e.
Proof.
  intros H1 H2.
  assert (Ha : (0 < a)%Q) by (pose proof (pow2_pos e); lra).
  destruct (binade_spec a Ha) as [H3 H4].
  assert (e < binade a + 1) by (apply pow2_lt_inv; lra).
  assert (binade a < e + 1) by (apply pow2_lt_inv; lra).
  lia.
Qed.

Lemma binade_comp a b : (0 < a)%Q -> (a == b)%Q -> binade a = binade b.
Proof.
  intros Ha E. symmetry. destruct (binade_spec a Ha) as [H1 H2].
  apply binade_unique; rewrite <- E; assumption.
Qed.

Lemma binade_mono a b : (0 < a)%Q -> (a <= b)%Q -> binade a <= binade b.
Proof.
  intros Ha Hab.
  destruct (binade_spec a Ha) as [H1 _].
  destruct (binade_spec b ltac:(lra)) as [_ H2].
  assert (binade a < binade b + 1) by (apply pow2_lt_inv; lra).
  lia.
Qed.

(** *** The nearest integer *)

Lemma nearest_even_cases x :
  nearest_even x = Qfloor x \/ nearest_even x = Qfloor x + 1.
Proof.
  unfold nearest_even. destruct (_ ?= _)%Q; [destruct (Z.even _)| |]; auto.
Qed.

Lemma nearest_even_inject z : nearest_even (inject_Z z) = z.
Proof.
  unfold nearest_even. rewrite Qfloor_Z.
  assert (E : (inject_Z z - inject_Z z ?= 1 # 2)%Q = Lt).
  { apply (proj1 (Qlt_alt _ _)). lra. }
  rewrite E. reflexivity.
Qed.

Lemma nearest_even_comp x y : (x == y)%Q -> nearest_even x = nearest_even y.
Proof.
  intros E. unfold nearest_even. rewrite (Qfloor_comp _ _ E).
  assert (E' : (x - inject_Z (Qfloor y) == y - inject_Z (Qfloor y))%Q) by (rewrite E; reflexivity).
  rewrite (Qcompare_comp _ _ E' _ _ (Qeq_refl _)). reflexivity.
Qed.

Lemma nearest_even_mono x y : (x <= y)%Q -> nearest_even x <= nearest_even y.
Proof.
  intros Hxy. pose proof (Qfloor_resp_le _ _ Hxy) as Hf.
  destruct (Z.eq_dec (Qfloor x) (Qfloor y)) as [E|N].
  - unfold nearest_even. rewrite E.
    destruct (x - inject_Z (Qfloor y) ?= 1 # 2)%Q eqn:Cx;
      destruct (y - inject_Z (Qfloor y) ?= 1 # 2)%Q eqn:Cy;
      try (destruct (Z.even (Qfloor y))); try lia;
      first [apply (proj2 (Qeq_alt _ _)) in Cx | apply (proj2 (Qlt_alt _ _)) in Cx
            | apply (proj2 (Qgt_alt _ _)) in Cx];
      first [apply (proj2 (Qeq_alt _ _)) in Cy | apply (proj2 (Qlt_alt _ _)) in Cy
            | apply (proj2 (Qgt_alt _ _)) in Cy];
      exfalso; lra.
  - destruct (nearest_even_cases x) as [-> | ->];
      destruct (nearest_even_cases y) as [-> | ->]; lia.
Qed.

Lemma nearest_even_ge z x : (inject_Z z <= x)%Q -> z <= nearest_even x.
Proof. intros Hx. rewrite <- (nearest_even_inject z). apply nearest_even_mono, Hx. Qed.

Lemma nearest_even_le z x : (x <= inject_Z z)%Q -> nearest_even x <= z.
Proof. intros Hx. rewrite <- (nearest_even_inject z). apply nearest_even_mono, Hx. Qed.

(** *** Rounding a positive rational *)

Lemma ulp_exponent_ge e : -1074 <= ulp_exponent e.
Proof. unfold ulp_exponent. lia. Qed.

Lemma ulp_exponent_mono e e' : e <= e' -> ulp_exponent e <= ulp_exponent e'.
Proof. unfold ulp_exponent. lia. Qed.

Lemma Qdiv_pow2_le a b q : (a <= b)%Q -> (a / pow2 q <= b / pow2 q)%Q.
Proof.
  intros Hab. pose proof (pow2_pos q) as Hq.
  apply Qle_shift_div_l; [exact Hq|].
  assert (E : (a / pow2 q * pow2 q == a)%Q) by (field; lra).
  rewrite E. exact Hab.
Qed.

Lemma Qdiv_pow2 e q : (pow2 e / pow2 q == pow2 (e - q))%Q.
Proof. symmetry. apply pow2_sub. Qed.

Lemma round_positive_comp a b :
  (0 < a)%Q -> (a == b)%Q -> (round_positive a == round_positive b)%Q.
Proof.
  intros Ha E. unfold round_positive. rewrite <- (binade_comp a b Ha E).
  set (q := ulp_exponent (binade a)).
  rewrite (nearest_even_comp (a / pow2 q) (b / pow2 q)); [reflexivity|].
  rewrite E. reflexivity.
Qed.

(** A rounded value stays in the closure of the binade. *)
Lemma round_positive_upper a :
  (0 < a)%Q ->
  (round_positive a <= pow2 (ulp_exponent (binade a) + 53))%Q.
Proof.
  intros Ha. destruct (binade_spec a Ha) as [_ H2].
  unfold round_positive. set (q := ulp_exponent (binade a)).
  assert (Hq : binade a + 1 <= q + 53) by (unfold q, ulp_exponent; lia).
  replace (q + 53) with (53 + q) in * by lia. rewrite pow2_add.
  apply Qmult_le_compat_r; [|apply Qlt_le_weak, pow2_pos].
  rewrite (pow2_inject 53) by lia. apply inject_Z_le, nearest_even_le.
  rewrite <- (pow2_inject 53) by lia.
  replace 53 with (53 + q - q) at 1 by lia. rewrite <- Qdiv_pow2.
  apply Qdiv_pow2_le. pose proof (pow2_le _ _ Hq). lra.
Qed.

Lemma round_positive_lower a :
  (0 < a)%Q -> -1022 <= binade a -> (pow2 (binade a) <= round_positive a)%Q.
Proof.
  intros Ha He. destruct (binade_spec a Ha) as [H1 _].
  unfold round_positive. set (q := ulp_exponent (binade a)).
  assert (Hq : binade a = 52 + q) by (unfold q, ulp_exponent; lia).
  rewrite Hq at 1. rewrite pow2_add.
  apply Qmult_le_compat_r; [|apply Qlt_le_weak, pow2_pos].
  rewrite (pow2_inject 52) by lia. apply inject_Z_le, nearest_even_ge.
  rewrite <- (pow2_inject 52) by lia.
  replace 52 with (binade a - q) by lia. rewrite <- Qdiv_pow2.
  apply Qdiv_pow2_le. exact H1.
Qed.

Lemma round_positive_nonneg a : (0 < a)%Q -> (0 <= round_positive a)%Q.
Proof.
  intros Ha. unfold round_positive.
  apply Qmult_le_0_compat; [|apply Qlt_le_weak, pow2_pos].
  apply (inject_Z_le 0), nearest_even_ge.
  apply Qle_shift_div_l; [apply pow2_pos|].
  change (inject_Z 0) with 0%Q. lra.
Qed.

Lemma round_positive_mono a b :
  (0 < a)%Q -> (a <= b)%Q -> (round_positive a <= round_positive b)%Q.
Proof.
  intros Ha Hab. assert (Hb : (0 < b)%Q) by lra.
  pose proof (binade_mono a b Ha Hab) as He.
  destruct (Z.eq_dec (ulp_exponent (binade a)) (ulp_exponent (binade b))) as [E|N].
  - unfold round_positive. rewrite E.
    apply Qmult_le_compat_r; [|apply Qlt_le_weak, pow2_pos].
    apply inject_Z_le, nearest_even_mono, Qdiv_pow2_le, Hab.
  - pose proof (ulp_exponent_mono _ _ He) as Hq.
    assert (Hn : -1022 <= binade b) by (unfold ulp_exponent in *; lia).
    pose proof (round_positive_upper a Ha) as Hu.
    pose proof (round_positive_lower b Hb Hn) as Hl.
    assert (Hle : ulp_exponent (binade a) + 53 <= binade b)
      by (unfold ulp_exponent in *; lia).
    pose proof (pow2_le _ _ Hle). lra.
Qed.

(** *** Rounding a finite value *)

Lemma Qc_sign_pos (a : Qc) : Qc_sign a = Gt <-> (0 < a)%Q.
Proof. rewrite Qc_sign_Gt. unfold Qclt, qzero. reflexivity. Qed.

Lemma Qc_sign_neg (a : Qc) : Qc_sign a = Lt <-> (a < 0)%Q.
Proof. rewrite Qc_sign_Lt. unfold Qclt, qzero. reflexivity. Qed.

Lemma Qle_bool_false x y : Qle_bool x y = false <-> (y < x)%Q.
Proof.
  split.
  - intros E. apply Qnot_le_lt. intros Hle. apply Qle_bool_iff in Hle. congruence.
  - intros Hlt. destruct (Qle_bool x y) eqn:E; [|reflexivity].
    apply Qle_bool_iff in E. lra.
Qed.

(** The outcome of rounding a positive value: an overflow to [+Infinity] or
    the nearest double. *)
Lemma round_pos (a : Qc) :
  (0 < a)%Q ->
  (round a = PInf /\ (pow2 1024 <= round_positive a)%Q)
  \/ (exists r : Qc, round a = Fin r /\ (r == round_positive a)%Q
                     /\ (round_positive a < pow2 1024)%Q).
Proof.
  intros Ha. unfold round. rewrite (proj2 (Qc_sign_pos a) Ha). cbv zeta.
  destruct (Qle_bool _ _) eqn:E.
  - left. split; [reflexivity | apply Qle_bool_iff, E].
  - right. eexists. split; [reflexivity|]. split; [apply this_Q2Qc|].
    apply Qle_bool_false, E.
Qed.

Lemma round_neg (a : Qc) :
  (a < 0)%Q ->
  (round a = NInf /\ (pow2 1024 <= round_positive (- a))%Q)
  \/ (exists r : Qc, round a = Fin r /\ (r == - round_positive (- a))%Q
                     /\ (round_positive (- a) < pow2 1024)%Q).
Proof.
  intros Ha. unfold round. rewrite (proj2 (Qc_sign_neg a) Ha). cbv zeta.
  destruct (Qle_bool _ _) eqn:E.
  - left. split; [reflexivity | apply Qle_bool_iff, E].
  - right. eexists. split; [reflexivity|]. split; [apply this_Q2Qc|].
    apply Qle_bool_false, E.
Qed.

Lemma round_zero : round qzero = Fin qzero.
Proof. reflexivity. Qed.

Lemma Qc_sign_cases (a : Qc) : a = qzero \/ (0 < a)%Q \/ (a < 0)%Q.
Proof.
  destruct (Qc_sign a) eqn:E.
  - left. apply Qc_sign_Eq, E.
  - right. right. apply Qc_sign_neg, E.
  - right. left. apply Qc_sign_pos, E.
Qed.

Lemma leb_refl_Fin a : leb (Fin a) (Fin a) = true.
Proof. apply leb_Fin. apply Qcle_refl. Qed.

Lemma leb_Fin_Q (a b : Qc) : leb (Fin a) (Fin b) = true <-> (a <= b)%Q.
Proof. rewrite leb_Fin. reflexivity. Qed.

Lemma leb_Fin_PInf a : leb (Fin a) PInf = true.
Proof. reflexivity. Qed.

Lemma leb_NInf_Fin a : leb NInf (Fin a) = true.
Proof. reflexivity. Qed.

(** Rounding is monotone. *)
Theorem round_mono (a b : Qc) : (a <= b)%Qc -> leb (round a) (round b) = true.
Proof.
  intros Hab. unfold Qcle in Hab.
  destruct (Qc_sign_cases a) as [-> | [Ha | Ha]];
    destruct (Qc_sign_cases b) as [-> | [Hb | Hb]];
    try (change (this qzero) with 0%Q in *); try (exfalso; lra).
  - reflexivity.
  - rewrite round_zero.
    destruct (round_pos b Hb) as [[-> _] | (r & -> & Er & _)]; [reflexivity|].
    apply leb_Fin_Q. rewrite Er. change (this qzero) with 0%Q.
    apply round_positive_nonneg, Hb.
  - pose proof (round_positive_mono a b Ha Hab) as Hm.
    destruct (round_pos a Ha) as [[-> Oa] | (r & -> & Er & Ua)];
      destruct (round_pos b Hb) as [[-> Ob] | (s & -> & Es & Ub)];
      try reflexivity; [exfalso; lra|].
    apply leb_Fin_Q. rewrite Er, Es. exact Hm.
  - rewrite round_zero.
    destruct (round_neg a Ha) as [[-> _] | (r & -> & Er & _)]; [reflexivity|].
    apply leb_Fin_Q. rewrite Er. change (this qzero) with 0%Q.
    pose proof (round_positive_nonneg (- a) ltac:(lra)). lra.
  - destruct (round_neg a Ha) as [[-> _] | (r & -> & Er & _)];
      destruct (round_pos b Hb) as [[-> _] | (s & -> & Es & _)]; try reflexivity.
    apply leb_Fin_Q. rewrite Er, Es.
    pose proof (round_positive_nonneg (- a) ltac:(lra)).
    pose proof (round_positive_nonneg b Hb). lra.
  - pose proof (round_positive_mono (- b) (- a) ltac:(lra) ltac:(lra)) as Hm.
    destruct (round_neg a Ha) as [[-> Oa] | (r & -> & Er & Ua)];
      destruct (round_neg b Hb) as [[-> Ob] | (s & -> & Es & Ub)];
      try reflexivity; [exfalso; lra|].
    apply leb_Fin_Q. rewrite Er, Es. lra.
Qed.

(** *** The doubles *)

Lemma is_double_zero : is_double qzero.
Proof. reflexivity. Qed.

Lemma is_double_pos (a : Qc) :
  (0 < a)%Q ->
  (is_double a <-> (round_positive a == a)%Q /\ (a < pow2 1024)%Q).
Proof.
  intros Ha. unfold is_double. split.
  - intros E. destruct (round_pos a Ha) as [[E' _] | (r & E' & Er & Hr)]; [congruence|].
    rewrite E in E'. injection E' as <-. split; [symmetry; exact Er | lra].
  - intros [E Hlt]. destruct (round_pos a Ha) as [[_ O] | (r & -> & Er & _)]; [exfalso; lra|].
    f_equal. apply Qc_is_canon. lra.
Qed.

Lemma is_double_neg (a : Qc) :
  (a < 0)%Q ->
  (is_double a <-> (round_positive (- a) == - a)%Q /\ (- a < pow2 1024)%Q).
Proof.
  intros Ha. unfold is_double. split.
  - intros E. destruct (round_neg a Ha) as [[E' _] | (r & E' & Er & Hr)]; [congruence|].
    rewrite E in E'. injection E' as <-. split; lra.
  - intros [E Hlt]. destruct (round_neg a Ha) as [[_ O] | (r & -> & Er & _)]; [exfalso; lra|].
    f_equal. apply Qc_is_canon. lra.
Qed.

Lemma is_double_opp (a : Qc) : is_double a -> is_double (- a)%Qc.
Proof.
  intros Hd. pose proof (this_opp a) as Eo.
  destruct (Qc_sign_cases a) as [-> | [Ha | Ha]]; [exact Hd | |].
  - apply (is_double_pos a Ha) in Hd. destruct Hd as [E Hlt].
    apply is_double_neg; [lra|].
    assert (E2 : (- (- a)%Qc == a)%Q) by lra.
    rewrite (round_positive_comp _ a) by lra. lra.
  - apply (is_double_neg a Ha) in Hd. destruct Hd as [E Hlt].
    apply is_double_pos; [lra|].
    rewrite (round_positive_comp _ (- a)%Q) by lra. lra.
Qed.

(** A value [m * 2^q] with [m] of at most 53 bits, [q] not below the
    exponent of the least subnormal and below the overflow threshold is a
    double. *)
Lemma round_positive_dyadic m q :
  0 < m < 2 ^ 53 -> -1074 <= q ->
  (round_positive (inject_Z m * pow2 q) == inject_Z m * pow2 q)%Q.
Proof.
  intros Hm Hq. set (a := (inject_Z m * pow2 q)%Q).
  pose proof (pow2_pos q) as Hp.
  assert (Hm0 : (0 < inject_Z m)%Q) by (apply (inject_Z_lt 0); lia).
  assert (Ha : (0 < a)%Q) by (apply Qmult_lt_0_compat; assumption).
  destruct (binade_spec a Ha) as [H1 H2].
  assert (Hlt : (a < pow2 (53 + q))%Q).
  { rewrite pow2_add, (pow2_inject 53) by lia. unfold a.
    apply Qmult_lt_compat_r; [exact Hp | apply inject_Z_lt; lia]. }
  assert (He : binade a < 53 + q) by (apply pow2_lt_inv; lra).
  unfold round_positive. set (u := ulp_exponent (binade a)).
  assert (Hu : u <= q) by (unfold u, ulp_exponent; lia).
  assert (E : (a / pow2 u == inject_Z (m * 2 ^ (q - u)))%Q).
  { unfold a. rewrite inject_Z_mult, <- (pow2_inject (q - u)) by lia.
    rewrite pow2_sub. pose proof (pow2_pos u). field. lra. }
  rewrite (nearest_even_comp _ _ E), nearest_even_inject.
  rewrite <- E. pose proof (pow2_pos u). field. lra.
Qed.

Lemma is_double_dyadic m q :
  Z.abs m < 2 ^ 53 -> -1074 <= q -> q <= 971 ->
  is_double (Q2Qc (inject_Z m * pow2 q)).
Proof.
  intros Hm Hq Hq'.
  assert (Hpos : forall k, 0 < k < 2 ^ 53 -> is_double (Q2Qc (inject_Z k * pow2 q))).
  { intros k Hk. pose proof (pow2_pos q) as Hp.
    assert (Hk0 : (0 < inject_Z k)%Q) by (apply (inject_Z_lt 0); lia).
    pose proof (this_Q2Qc (inject_Z k * pow2 q)) as Et.
    assert (Hkq : (0 < inject_Z k * pow2 q)%Q) by (apply Qmult_lt_0_compat; assumption).
    apply is_double_pos; [rewrite Et; exact Hkq|].
    split.
    - rewrite (round_positive_comp _ (inject_Z k * pow2 q)%Q); [|rewrite Et; exact Hkq | exact Et].
      rewrite Et. apply round_positive_dyadic; assumption.
    - rewrite Et.
      assert (Hlt : (inject_Z k * pow2 q < pow2 (53 + q))%Q).
      { rewrite pow2_add, (pow2_inject 53) by lia.
        apply Qmult_lt_compat_r; [exact Hp | apply inject_Z_lt; lia]. }
      pose proof (pow2_le (53 + q) 1024 ltac:(lia)). lra. }
  destruct (Z.lt_trichotomy m 0) as [Hneg | [-> | Hp]].
  - assert (E : Q2Qc (inject_Z m * pow2 q) = (- Q2Qc (inject_Z (- m) * pow2 q))%Qc).
    { apply Qc_is_canon. rewrite this_opp, !this_Q2Qc, inject_Z_opp. ring. }
    rewrite E. apply is_double_opp, Hpos. lia.
  - assert (E : Q2Qc (inject_Z 0 * pow2 q) = qzero).
    { apply Qc_is_canon. rewrite this_Q2Qc. change (inject_Z 0) with 0%Q.
      change (this qzero) with 0%Q. ring. }
    rewrite E. apply is_double_zero.
  - apply Hpos. lia.
Qed.

(** The whole numbers up to [2^53] are doubles. *)
Lemma is_double_ofZ z : Z.abs z <= 2 ^ 53 -> is_double (Qc_ofZ z).
Proof.
  intros Hz.
  destruct (Z.eq_dec (Z.abs z) (2 ^ 53)) as [E|N].
  - assert (Ez : Qc_ofZ z = Q2Qc (inject_Z (Z.sgn z) * pow2 53)).
    { apply Qc_is_canon. unfold Qc_ofZ. rewrite !this_Q2Qc, (pow2_inject 53) by lia.
      rewrite <- inject_Z_mult.
      replace (Z.sgn z * 2 ^ 53) with z; [reflexivity|].
      change (2 ^ 53) with 9007199254740992 in *. destruct z; cbn [Z.sgn Z.abs] in *; lia. }
    rewrite Ez. change (2 ^ 53) with 9007199254740992 in *.
    apply is_double_dyadic; destruct z; cbn [Z.sgn Z.abs] in *; lia.
  - assert (Ez : Qc_ofZ z = Q2Qc (inject_Z z * pow2 0)).
    { apply Qc_is_canon. unfold Qc_ofZ. rewrite !this_Q2Qc.
      change (pow2 0) with 1%Q. ring. }
    rewrite Ez. apply is_double_dyadic; lia.
Qed.

Lemma round_ofZ z : Z.abs z <= 2 ^ 53 -> round (Qc_ofZ z) = ofZ z.
Proof. intros Hz. apply (is_double_ofZ z Hz). Qed.

(** Every double is a whole multiple of the least subnormal. *)
Lemma double_grid (a : Qc) :
  is_double a -> exists k : Z, (a == inject_Z k * pow2 (-1074))%Q.
Proof.
  assert (Hpos : forall b : Q, (0 < b)%Q -> (round_positive b == b)%Q ->
            exists k : Z, (b == inject_Z k * pow2 (-1074))%Q).
  { intros b Hb E. unfold round_positive in E.
    set (u := ulp_exponent (binade b)) in *. set (n := nearest_even _) in *.
    pose proof (ulp_exponent_ge (binade b)) as Hu. fold u in Hu.
    exists (n * 2 ^ (u + 1074)).
    rewrite inject_Z_mult, <- (pow2_inject (u + 1074)) by lia.
    rewrite <- Qmult_assoc, <- pow2_add.
    replace (u + 1074 + -1074) with u by lia. symmetry. exact E. }
  intros Hd. destruct (Qc_sign_cases a) as [-> | [Ha | Ha]].
  - exists 0. reflexivity.
  - apply (is_double_pos a Ha) in Hd. apply Hpos; [exact Ha | apply Hd].
  - apply (is_double_neg a Ha) in Hd. destruct Hd as [E _].
    destruct (Hpos (- a)%Q ltac:(lra) E) as (k & Ek).
    exists (- k). rewrite inject_Z_opp. lra.
Qed.

(** A rounded value does not leave an interval between two doubles. *)
Lemma round_ge (lo x : Qc) :
  is_double lo -> (lo <= x)%Qc -> leb (Fin lo) (round x) = true.
Proof. intros Hd Hx. rewrite <- Hd. apply round_mono, Hx. Qed.

Lemma round_le (hi x : Qc) :
  is_double hi -> (x <= hi)%Qc -> leb (round x) (Fin hi) = true.
Proof. intros Hd Hx. rewrite <- Hd. apply round_mono, Hx. Qed.

Lemma leb_Fin_inv x b : leb x (Fin b) = true -> x = NInf \/ exists a, x = Fin a /\ (a <= b)%Qc.
Proof.
  destruct x as [| | |a]; try discriminate; [left; reflexivity|].
  intros Hl. right. exists a. split; [reflexivity | apply leb_Fin, Hl].
Qed.

Lemma Fin_leb_inv a x : leb (Fin a) x = true -> x = PInf \/ exists b, x = Fin b /\ (a <= b)%Qc.
Proof.
  destruct x as [| | |b]; try discriminate; [left; reflexivity|].
  intros Hl. right. exists b. split; [reflexivity | apply leb_Fin, Hl].
Qed.

Lemma round_between (lo hi x : Qc) :
  is_double lo -> is_double hi -> (lo <= x)%Qc -> (x <= hi)%Qc ->
  exists r, round x = Fin r /\ (lo <= r)%Qc /\ (r <= hi)%Qc.
Proof.
  intros Hlo Hhi H1 H2.
  pose proof (round_ge lo x Hlo H1) as Hg. pose proof (round_le hi x Hhi H2) as Hl.
  destruct (leb_Fin_inv _ _ Hl) as [E | (r & E & Hr)]; rewrite E in *; [discriminate Hg|].
  exists r. split; [reflexivity|]. split; [apply leb_Fin, Hg | exact Hr].
Qed.

(** The difference of two doubles has the sign of their order: it does not
    round to zero. *)
Lemma gtb_sub_double x y :
  is_double x -> is_double y ->
  gtb (Double.sub (Fin x) (Fin y)) (ofZ 0) = Qc_ltb y x.
Proof.
  intros Hx Hy. unfold Double.sub. rewrite sub_Fin. cbn [rounded].
  destruct (Qc_ltb y x) eqn:E.
  - apply Qc_ltb_true in E.
    destruct (double_grid x Hx) as (kx & Ex). destruct (double_grid y Hy) as (ky & Ey).
    pose proof (pow2_pos (-1074)) as Hp.
    assert (Hk : ky < kx).
    { unfold Qclt in E. rewrite Ex, Ey in E.
      destruct (Z_lt_le_dec ky kx) as [Hlt|Hle]; [exact Hlt|exfalso].
      apply inject_Z_le in Hle. nra. }
    assert (Hs : is_double (Q2Qc (inject_Z 1 * pow2 (-1074)))) by (apply is_double_dyadic; lia).
    pose proof (round_ge _ (x - y)%Qc Hs) as Hg.
    assert (Hle : (Q2Qc (inject_Z 1 * pow2 (-1074)) <= x - y)%Qc).
    { unfold Qcle, Qcminus. rewrite this_plus, this_opp, this_Q2Qc, Ex, Ey.
      assert (Hk' : (inject_Z (ky + 1) <= inject_Z kx)%Q) by (apply inject_Z_le; lia).
      rewrite inject_Z_plus in Hk'. change (inject_Z 1) with 1%Q in *. nra. }
    specialize (Hg Hle).
    destruct (Fin_leb_inv _ _ Hg) as [-> | (r & -> & Hr)]; [reflexivity|].
    unfold gtb, ofZ. cbn [ltb]. apply Qc_ltb_true.
    unfold Qcle in Hr. unfold Qclt. rewrite this_Q2Qc in *.
    change (inject_Z 1) with 1%Q in *. change (inject_Z 0) with 0%Q. lra.
  - apply Qc_ltb_false in E.
    assert (Hle : (x - y <= qzero)%Qc).
    { unfold Qcle, Qcminus in *. rewrite this_plus, this_opp.
      change (this qzero) with 0%Q. lra. }
    pose proof (round_le _ _ is_double_zero Hle) as Hl.
    destruct (leb_Fin_inv _ _ Hl) as [-> | (r & -> & Hr)]; [reflexivity|].
    unfold gtb, ofZ. cbn [ltb]. apply Qc_ltb_false. exact Hr.
Qed.

(** A double below 1 is at most [1 - 2^-53]. *)
Lemma double_below_one (r : Qc) :
  is_double r -> (r < 1)%Q -> (r <= 1 - (1 # 9007199254740992))%Q.
Proof.
  intros Hd Hr.
  destruct (Qlt_le_dec r (1 # 2)) as [Hs|Hh]; [lra|].
  assert (Hpos : (0 < r)%Q) by lra.
  apply (is_double_pos r Hpos) in Hd. destruct Hd as [E _].
  assert (He : binade r = -1).
  { apply binade_unique; [change (pow2 (-1)) with (1 # 2)%Q; lra|].
    change (pow2 (-1 + 1)) with 1%Q. exact Hr. }
  unfold round_positive in E. rewrite He in E.
  change (ulp_exponent (-1)) with (-53) in E.
  set (n := nearest_even (r / pow2 (-53))) in *.
  assert (Ep : (pow2 (-53) == 1 # 9007199254740992)%Q) by reflexivity.
  rewrite Ep in E.
  assert (Hn : n < 9007199254740992).
  { destruct (Z_lt_le_dec n 9007199254740992) as [Hlt|Hge]; [exact Hlt|exfalso].
    apply inject_Z_le in Hge. change (inject_Z 9007199254740992) with 9007199254740992%Q in Hge.
    lra. }
  assert (Hn' : (inject_Z n <= inject_Z 9007199254740991)%Q) by (apply inject_Z_le; lia).
  change (inject_Z 9007199254740991) with 9007199254740991%Q in Hn'. lra.
Qed.

(** The product of a double below 1 and 100 rounds to a double below 100. *)
Lemma scaled_below_hundred (r : Qc) :
  is_double r -> (Q2Qc 0 <= r)%Qc -> (r < Q2Qc 1)%Qc ->
  exists v, Double.mul (Fin r) (ofZ 100) = Fin v /\ (Q2Qc 0 <= v)%Qc /\ (v < Q2Qc 100)%Qc.
Proof.
  intros Hd H0 H1. unfold Double.mul, ofZ. rewrite mul_Fin. cbn [rounded].
  fold (Qc_ofZ 100).
  set (top := Q2Qc (inject_Z 7036874417766399 * pow2 (-46))).
  assert (Htop : is_double top) by (apply is_double_dyadic; lia).
  assert (Et : (top == 7036874417766399 # 70368744177664)%Q).
  { unfold top. rewrite this_Q2Qc. reflexivity. }
  assert (Hr : (r <= 1 - (1 # 9007199254740992))%Q) by (apply double_below_one; assumption).
  assert (Elim : round (Q2Qc (100 - (100 # 9007199254740992))) = Fin top).
  { vm_compute. first [reflexivity | f_equal; apply Qc_is_canon; reflexivity]. }
  assert (Hle : (r * Qc_ofZ 100 <= Q2Qc (100 - (100 # 9007199254740992)))%Qc).
  { unfold Qcle. rewrite this_mult, this_Q2Qc. unfold Qc_ofZ. rewrite this_Q2Qc.
    change (inject_Z 100) with 100%Q. lra. }
  pose proof (round_mono _ _ Hle) as Hm. rewrite Elim in Hm.
  assert (Hge : (qzero <= r * Qc_ofZ 100)%Qc).
  { unfold Qcle in *. rewrite this_mult. unfold Qc_ofZ. rewrite this_Q2Qc.
    change (this qzero) with 0%Q. change (this (Q2Qc 0)) with 0%Q in H0.
    change (inject_Z 100) with 100%Q. lra. }
  pose proof (round_ge _ _ is_double_zero Hge) as Hg.
  destruct (leb_Fin_inv _ _ Hm) as [E | (v & E & Hv)]; rewrite E in *; [discriminate Hg|].
  exists v. split; [reflexivity|]. split; [apply leb_Fin, Hg|].
  unfold Qclt. unfold Qcle in Hv. rewrite Et in Hv.
  change (this (Q2Qc 100)) with 100%Q. lra.
Qed.

End Rounding.

(** ** [calculateStats] on the empty list *)

(** C9.  On the empty list [calculateStats] has no guard and raises
    nothing: the sum [0] is divided by the length [0], which is [NaN], and
    the summary it returns carries that [NaN] as its mean (with it the
    standard deviation and the median are [NaN], and the extrema are the
    infinities [Math.min()] and [Math.max()] give without arguments). *)
Theorem calculateStats_empty (H : Host) :
  div (fold_left (fun sum val => add sum val) [] (ofZ 0))
      (ofNat (length (@nil number))) = NaN
  /\ calculateStats H []
     = {| mean := NaN; min := PInf; max := NInf; stdDev := NaN; median := NaN |}.
Proof. split; reflexivity. Qed.


(** ** Numbers written and read back *)

(** *** Digit strings *)

Lemma append_nil_l s : "" +:+ s = s.
Proof. reflexivity. Qed.

Lemma append_cons c s1 s2 : String c s1 +:+ s2 = String c (s1 +:+ s2).
Proof. reflexivity. Qed.

Lemma take_digits_app s1 s2 acc cnt :
  all_digits s1 = true -> no_digit_ahead s2 = true ->
  take_digits (s1 +:+ s2) acc cnt = (digits_value s1 acc, (cnt + String.length s1)%nat, s2).
Proof.
  revert acc cnt. induction s1 as [|c s1 IH]; intros acc cnt Hd Hn.
  - rewrite ?append_nil_l, ?append_cons. cbn [digits_value String.length]. rewrite Nat.add_0_r.
    destruct s2 as [|c s2]; [reflexivity|]. cbn [take_digits].
    cbn [no_digit_ahead] in Hn. apply negb_true_iff in Hn. rewrite Hn. reflexivity.
  - cbn [all_digits] in Hd. apply andb_true_iff in Hd. destruct Hd as [Hc Hd].
    rewrite ?append_nil_l, ?append_cons. cbn [take_digits digits_value String.length]. rewrite Hc.
    rewrite IH by assumption. f_equal. f_equal. lia.
Qed.

Lemma digits_value_app s1 s2 acc :
  digits_value (s1 +:+ s2) acc = digits_value s2 (digits_value s1 acc).
Proof.
  revert acc. induction s1 as [|c s1 IH]; intros acc; [reflexivity|].
  rewrite ?append_nil_l, ?append_cons. cbn [digits_value]. apply IH.
Qed.

Lemma digits_value_acc s acc :
  digits_value s acc = (acc * 10 ^ N.of_nat (String.length s) + digits_value s 0)%N.
Proof.
  revert acc. induction s as [|c s IH]; intros acc.
  - cbn. lia.
  - cbn [digits_value String.length]. rewrite IH. rewrite (IH (10 * 0 + digit_value c)%N).
    rewrite Nat2N.inj_succ, N.pow_succ_r'. lia.
Qed.

Lemma all_digits_app s1 s2 :
  all_digits (s1 +:+ s2) = all_digits s1 && all_digits s2.
Proof.
  induction s1 as [|c s1 IH]; [reflexivity|].
  rewrite ?append_nil_l, ?append_cons. cbn [all_digits]. rewrite IH, andb_assoc. reflexivity.
Qed.

Lemma length_append s1 s2 :
  String.length (s1 +:+ s2) = (String.length s1 + String.length s2)%nat.
Proof.
  induction s1 as [|c s1 IH]; [reflexivity|].
  rewrite append_cons. cbn [String.length]. rewrite IH. reflexivity.
Qed.

Lemma all_digits_zeros k : all_digits (zeros k) = true.
Proof. induction k; [reflexivity|]. cbn [zeros all_digits]. rewrite IHk. reflexivity. Qed.

Lemma length_zeros k : String.length (zeros k) = k.
Proof. induction k; [reflexivity|]. cbn. rewrite IHk. reflexivity. Qed.

Lemma digits_value_zeros k : digits_value (zeros k) 0 = 0%N.
Proof. induction k; [reflexivity|]. cbn [zeros digits_value]. exact IHk. Qed.

(** The decimal numerals of the library. *)
Lemma all_digits_uint d : all_digits (NilEmpty.string_of_uint d) = true.
Proof. induction d; cbn [NilEmpty.string_of_uint all_digits]; try rewrite IHd; reflexivity. Qed.

Lemma digits_value_uint d acc :
  digits_value (NilEmpty.string_of_uint d) acc = uint_value d acc.
Proof.
  revert acc. induction d; intros acc; cbn [NilEmpty.string_of_uint digits_value uint_value];
    try reflexivity; rewrite IHd; f_equal;
    first [reflexivity | change (digit_value "0") with 0%N; lia].
Qed.

Lemma uint_value_acc d p :
  uint_value d (Npos p) = Npos (Pos.of_uint_acc d p).
Proof.
  revert p. induction d; intros p; cbn [uint_value Pos.of_uint_acc]; try reflexivity;
    rewrite <- IHd; f_equal; lia.
Qed.

Lemma uint_value_of_uint d : uint_value d 0 = N.of_uint d.
Proof.
  unfold N.of_uint. induction d; cbn [uint_value Pos.of_uint]; try reflexivity;
    try exact IHd; apply uint_value_acc.
Qed.

Lemma digits_of_N_spec n :
  all_digits (digits_of_N n) = true
  /\ digits_value (digits_of_N n) 0 = n
  /\ (1 <= String.length (digits_of_N n))%nat.
Proof.
  unfold digits_of_N, NilZero.string_of_uint.
  destruct (N.to_uint n) eqn:E.
  1: { split; [reflexivity|]. split; [|cbn; lia].
       rewrite <- (DecimalN.Unsigned.of_to n), E. reflexivity. }
  all: rewrite <- E; split; [apply all_digits_uint|]; split;
    [rewrite digits_value_uint, uint_value_of_uint; apply DecimalN.Unsigned.of_to
    | rewrite E; cbn; lia].
Qed.

(** *** Substrings *)

Lemma append_nil_r s : s +:+ "" = s.
Proof. induction s as [|c s IH]; [reflexivity|]. rewrite append_cons, IH. reflexivity. Qed.

Lemma substring_all s : substring 0 (String.length s) s = s.
Proof. induction s as [|c s IH]; [reflexivity|]. cbn [String.length substring]. rewrite IH. reflexivity. Qed.

Lemma substring_split s n :
  (n <= String.length s)%nat ->
  substring 0 n s +:+ substring n (String.length s - n) s = s.
Proof.
  revert s. induction n as [|n IH]; intros s Hn.
  - rewrite Nat.sub_0_r, substring_all. destruct s; reflexivity.
  - destruct s as [|c s]; [cbn in Hn; lia|]. cbn [String.length] in *.
    cbn [substring]. rewrite append_cons. replace (S (String.length s) - S n)%nat
      with (String.length s - n)%nat by lia.
    rewrite IH by lia. reflexivity.
Qed.

Lemma length_substring_prefix s n :
  (n <= String.length s)%nat -> String.length (substring 0 n s) = n.
Proof.
  revert s. induction n as [|n IH]; intros s Hn.
  - destruct s; reflexivity.
  - destruct s as [|c s]; [cbn in Hn; lia|]. cbn [String.length substring] in *.
    rewrite IH by lia. reflexivity.
Qed.

(** *** The digits with a point *)

Lemma point_digits_shape n f :
  (0 < f)%nat ->
  exists s1 s2,
    point_digits n f = s1 +:+ "." +:+ s2
    /\ all_digits s1 = true /\ all_digits s2 = true
    /\ (1 <= String.length s1)%nat /\ String.length s2 = f
    /\ (digits_value s1 0 * 10 ^ N.of_nat f + digits_value s2 0 = n)%N.
Proof.
  intros Hf. unfold point_digits.
  destruct (f =? 0)%nat eqn:E; [apply Nat.eqb_eq in E; lia|]. clear E.
  destruct (digits_of_N_spec n) as (Hd & Hv & Hl).
  set (m := digits_of_N n) in *.
  set (m' := if (String.length m <=? f)%nat then zeros (f + 1 - String.length m) +:+ m else m).
  assert (Hm' : all_digits m' = true /\ digits_value m' 0 = n
                /\ (f + 1 <= String.length m')%nat).
  { unfold m'. destruct (String.length m <=? f)%nat eqn:E.
    - apply Nat.leb_le in E. rewrite all_digits_app, all_digits_zeros, Hd.
      rewrite digits_value_app, digits_value_zeros, Hv, length_append, length_zeros.
      repeat split; lia.
    - apply Nat.leb_gt in E. repeat split; try assumption; lia. }
  destruct Hm' as (Hd' & Hv' & Hl'). cbv zeta.
  set (k := String.length m') in *.
  exists (substring 0 (k - f) m'), (substring (k - f) f m').
  assert (Hsplit : substring 0 (k - f) m' +:+ substring (k - f) f m' = m').
  { pose proof (substring_split m' (k - f) ltac:(fold k; lia)) as Hs.
    fold k in Hs. replace (k - (k - f))%nat with f in Hs by lia. exact Hs. }
  assert (Hl1 : String.length (substring 0 (k - f) m') = (k - f)%nat).
  { apply length_substring_prefix. fold k. lia. }
  assert (Hl2 : String.length (substring (k - f) f m') = f).
  { pose proof (f_equal String.length Hsplit) as Hlen.
    rewrite length_append, Hl1 in Hlen. fold k in Hlen. lia. }
  split; [reflexivity|].
  rewrite <- Hsplit, all_digits_app in Hd'. apply andb_true_iff in Hd'.
  destruct Hd' as [Hd1 Hd2].
  split; [exact Hd1|]. split; [exact Hd2|]. split; [lia|]. split; [exact Hl2|].
  transitivity (digits_value (substring 0 (k - f) m' +:+ substring (k - f) f m') 0);
    [|rewrite Hsplit; exact Hv'].
  rewrite digits_value_app.
  rewrite (digits_value_acc (substring (k - f) f m') (digits_value _ 0)), Hl2.
  reflexivity.
Qed.

(** *** Reading back what [toFixed] wrote *)

Lemma parseFloat_digit_start c s :
  is_digit c = true ->
  parseFloat (String c s) = parse_unsigned (String c s)
  /\ String.prefix "Infinity" (String c s) = false.
Proof.
  destruct c as [[] [] [] [] [] [] [] []]; intros Hc;
    try discriminate Hc; split; reflexivity.
Qed.

Lemma Qc_pow10_nonzero k : Qc_pow10 k <> qzero.
Proof. unfold Qc_pow10. apply Qc_ofZ_nonzero. apply Z.pow_nonzero; lia. Qed.

Lemma Qc_ofZ_add a b : Qc_ofZ (a + b) = (Qc_ofZ a + Qc_ofZ b)%Qc.
Proof. apply Qc_is_canon. unfold Qc_ofZ. rewrite this_plus, !this_Q2Qc, inject_Z_plus. reflexivity. Qed.

Lemma Qc_ofZ_mul a b : Qc_ofZ (a * b) = (Qc_ofZ a * Qc_ofZ b)%Qc.
Proof. apply Qc_is_canon. unfold Qc_ofZ. rewrite this_mult, !this_Q2Qc, inject_Z_mult. reflexivity. Qed.

Lemma parseFloat_decimal s1 s2 :
  all_digits s1 = true -> all_digits s2 = true -> (1 <= String.length s1)%nat ->
  parseFloat (s1 +:+ "." +:+ s2)
  = Fin (Qc_ofZ (Z.of_N (digits_value s1 0 * 10 ^ N.of_nat (String.length s2)
                         + digits_value s2 0))
         / Qc_pow10 (String.length s2))%Qc.
Proof.
  intros Hd1 Hd2 Hl1.
  destruct s1 as [|c s1]; [cbn in Hl1; lia|].
  pose proof Hd1 as Hc. cbn [all_digits] in Hc. apply andb_true_iff in Hc. destruct Hc as [Hc _].
  rewrite append_cons.
  destruct (parseFloat_digit_start c (s1 +:+ "." +:+ s2) Hc) as [-> Hinf].
  unfold parse_unsigned. rewrite Hinf. rewrite <- append_cons.
  rewrite take_digits_app by (assumption || reflexivity).
  change ("." +:+ s2) with (String "." s2). cbv iota beta.
  rewrite <- (append_nil_r s2) at 1.
  rewrite take_digits_app by (assumption || reflexivity).
  cbn [take_exponent Qc_powZ].
  destruct ((0 + String.length (String c s1) + (0 + String.length s2))%nat =? 0)%nat eqn:E;
    [apply Nat.eqb_eq in E; lia|].
  f_equal. rewrite !Nat.add_0_l.
  rewrite N2Z.inj_add, N2Z.inj_mul, N2Z.inj_pow, nat_N_Z.
  rewrite Qc_ofZ_add, Qc_ofZ_mul. change (Z.of_N 10) with 10. fold (Qc_pow10 (String.length s2)).
  field. apply Qc_pow10_nonzero.
Qed.

Theorem parseFloat_point_digits n f :
  (0 < f)%nat -> parseFloat (point_digits n f) = Fin (Qc_ofZ (Z.of_N n) / Qc_pow10 f)%Qc.
Proof.
  intros Hf. destruct (point_digits_shape n f Hf) as (s1 & s2 & -> & Hd1 & Hd2 & Hl1 & Hl2 & Hv).
  rewrite parseFloat_decimal by assumption. rewrite Hl2, Hv. reflexivity.
Qed.

Lemma Qc_floor_spec a : (Qc_ofZ (Qc_floor a) <= a)%Qc /\ (a < Qc_ofZ (Qc_floor a + 1))%Qc.
Proof.
  unfold Qc_floor. split; qc_to_q.
  - fold (inject_Z (Qfloor a)). apply Qfloor_le.
  - fold (inject_Z (Qfloor a + 1)). apply Qlt_floor.
Qed.

Lemma Qc_floor_nonneg a : (qzero <= a)%Qc -> 0 <= Qc_floor a.
Proof.
  intros Ha. destruct (Qc_floor_spec a) as [_ Hlt].
  destruct (Z_le_gt_dec 0 (Qc_floor a)) as [|Hneg]; [assumption|]. exfalso.
  assert (Hle : (Qc_ofZ (Qc_floor a + 1) <= Qc_ofZ 0)%Qc) by (apply Qc_ofZ_le; lia).
  apply (Qclt_not_le _ _ Hlt). eapply Qcle_trans; [exact Hle | exact Ha].
Qed.

Lemma round_scaled_nonneg a f : (qzero <= a)%Qc -> 0 <= round_scaled a f.
Proof.
  intros Ha. unfold round_scaled. apply Qc_floor_nonneg.
  assert (Hp : (qzero <= Qc_pow10 f)%Qc).
  { unfold Qc_pow10. change qzero with (Qc_ofZ 0). apply Qc_ofZ_le. apply Z.pow_nonneg. lia. }
  assert (Hm : (qzero <= a * Qc_pow10 f)%Qc).
  { pose proof (Qcmult_le_compat_r _ _ _ Ha Hp) as Hmul.
    unfold qzero in Hmul at 1. rewrite Qcmult_0_l in Hmul. exact Hmul. }
  set (x := (a * Qc_pow10 f)%Qc) in *. clearbody x. qc_to_q. lra.
Qed.

Lemma toFixed_nonneg H a f :
  (qzero <= a)%Qc -> (a < Qc_pow10 21)%Qc ->
  toFixed H (Fin a) f = point_digits (Z.to_N (round_scaled a f)) f.
Proof.
  intros H0 H21. unfold toFixed.
  assert (E1 : Qc_ltb a qzero = false) by (apply Qc_ltb_false; exact H0).
  rewrite E1.
  assert (E2 : Qc_leb (Qc_pow10 21) a = false).
  { destruct (Qc_leb (Qc_pow10 21) a) eqn:E; [|reflexivity].
    apply Qc_leb_true in E. exfalso. exact (Qclt_not_le _ _ H21 E). }
  rewrite E2. reflexivity.
Qed.

(** [parseFloat(x.toFixed(f))] is [x] rounded to [f] decimals. *)
Lemma parseFloat_toFixed H a f :
  (0 < f)%nat -> (qzero <= a)%Qc -> (a < Qc_pow10 21)%Qc ->
  parseFloat (toFixed H (Fin a) f) = Fin (Qc_ofZ (round_scaled a f) / Qc_pow10 f)%Qc.
Proof.
  intros Hf H0 H21. rewrite toFixed_nonneg by assumption.
  rewrite parseFloat_point_digits by exact Hf.
  rewrite Z2N.id by (apply round_scaled_nonneg; exact H0). reflexivity.
Qed.

(** *** The unit index *)

Lemma ilog_up_spec fuel : forall k n,
  2 <= k -> 1 <= n -> n < 2 ^ Z.of_nat fuel ->
  0 <= ilog_up fuel k n /\ k ^ ilog_up fuel k n <= n < k ^ (ilog_up fuel k n + 1).
Proof.
  induction fuel as [|fuel IH]; intros k n Hk Hn Hfuel.
  - cbn in Hfuel. lia.
  - cbn [ilog_up]. destruct (n <? k) eqn:E.
    + apply Z.ltb_lt in E. cbn. lia.
    + apply Z.ltb_ge in E.
      assert (Hq1 : 1 <= n / k) by (apply Z.div_le_lower_bound; lia).
      assert (Hq2 : n / k < 2 ^ Z.of_nat fuel).
      { apply Z.div_lt_upper_bound; [lia|].
        rewrite Nat2Z.inj_succ, Z.pow_succ_r in Hfuel by lia. nia. }
      destruct (IH k (n / k) Hk Hq1 Hq2) as (Hi & Hlo & Hhi).
      set (i := ilog_up fuel k (n / k)) in *.
      split; [lia|].
      replace (1 + i) with (Z.succ i) by lia.
      replace (Z.succ i + 1) with (Z.succ (i + 1)) by lia.
      rewrite !Z.pow_succ_r by lia.
      pose proof (Z.mul_div_le n k ltac:(lia)) as Hd1.
      pose proof (Z.mul_succ_div_gt n k ltac:(lia)) as Hd2.
      split; nia.
Qed.

Lemma Qc_floor_log_spec k a :
  2 <= k -> (Q2Qc 1 <= a)%Qc ->
  let i := Qc_floor_log k a in
  0 <= i /\ (Qc_ofZ (k ^ i) <= a)%Qc /\ (a < Qc_ofZ (k ^ (i + 1)))%Qc.
Proof.
  intros Hk Ha. unfold Qc_floor_log.
  assert (E : Qc_leb (Q2Qc 1) a = true) by (apply Qc_leb_true; exact Ha).
  rewrite E. cbv zeta.
  destruct (Qc_floor_spec a) as [Hlo Hhi].
  assert (Hn : 1 <= Qc_floor a).
  { destruct (Z_le_gt_dec 1 (Qc_floor a)) as [|Hlt]; [assumption|]. exfalso.
    assert (Hle : (Qc_ofZ (Qc_floor a + 1) <= Qc_ofZ 1)%Qc) by (apply Qc_ofZ_le; lia).
    apply (Qclt_not_le _ _ Hhi). eapply Qcle_trans; [exact Hle | exact Ha]. }
  set (n := Qc_floor a) in *.
  destruct (ilog_up_spec (S (Z.to_nat (Z.log2 n))) k n Hk Hn) as (Hi & Hlo' & Hhi').
  { rewrite Nat2Z.inj_succ, Z2Nat.id by apply Z.log2_nonneg.
    apply Z.log2_spec. lia. }
  split; [exact Hi|]. split.
  - eapply Qcle_trans; [apply Qc_ofZ_le; exact Hlo' | exact Hlo].
  - eapply Qclt_le_trans; [exact Hhi | apply Qc_ofZ_le; lia].
Qed.


(** [toFixed] writes digits, a point and exactly [f] more digits, the
    digits being those of the rounded value. *)
Lemma toFixed_shape H a f :
  (0 < f)%nat -> (qzero <= a)%Qc -> (a < Qc_pow10 21)%Qc ->
  exists s1 s2,
    toFixed H (Fin a) f = s1 +:+ "." +:+ s2
    /\ all_digits s1 = true /\ all_digits s2 = true
    /\ (1 <= String.length s1)%nat /\ String.length s2 = f
    /\ Z.of_N (digits_value s1 0 * 10 ^ N.of_nat f + digits_value s2 0)
       = round_scaled a f.
Proof.
  intros Hf H0 H21. rewrite toFixed_nonneg by assumption.
  destruct (point_digits_shape (Z.to_N (round_scaled a f)) f Hf)
    as (s1 & s2 & E & Hd1 & Hd2 & Hl1 & Hl2 & Hv).
  exists s1, s2. repeat split; try assumption.
  rewrite Hv. apply Z2N.id. apply round_scaled_nonneg. exact H0.
Qed.

(** ** [calculateImprovement] *)

Lemma eqb_zero_not_lt p :
  eqb p (ofZ 0) = true -> gtb p (ofZ 0) = false /\ ltb p (ofZ 0) = false.
Proof.
  destruct p as [| | |a]; try discriminate.
  unfold gtb, ofZ. cbn [eqb ltb]. intros E. apply Qc_eqb_true in E. subst a.
  split; reflexivity.
Qed.

(** C10.  With a zero baseline [calculateImprovement] does not fail.  For
    [(0, 0)] the percentage is [NaN], which is neither above nor below zero,
    and the result is the "equal" label; for a zero baseline and a positive
    comparison the percentage is [-Infinity] and the result is the "slower"
    label with the magnitude [Infinity]. *)
Theorem calculateImprovement_zero_baseline (H : Host) :
  (mul (div (sub (ofZ 0) (ofZ 0)) (ofZ 0)) (ofZ 100) = NaN
   /\ gtb NaN (ofZ 0) = false /\ ltb NaN (ofZ 0) = false
   /\ calculateImprovement H (ofZ 0) (ofZ 0) = "🟡 相同")
  /\ forall comparison : number,
       gtb comparison (ofZ 0) = true ->
       mul (div (sub (ofZ 0) comparison) (ofZ 0)) (ofZ 100) = NInf
       /\ Math_abs NInf = PInf
       /\ calculateImprovement H (ofZ 0) comparison = "🔴 Infinity% 更慢".
Proof.
  split; [repeat split; reflexivity|].
  intros comparison Hpos.
  assert (Hp : mul (div (sub (ofZ 0) comparison) (ofZ 0)) (ofZ 100) = NInf).
  { destruct comparison as [| | |c]; try discriminate; [reflexivity|].
    unfold gtb, ofZ in Hpos. cbn [ltb] in Hpos. apply Qc_ltb_true in Hpos.
    unfold ofZ. rewrite sub_Fin. unfold div.
    change (Qc_sign (Q2Qc (inject_Z 0))) with Eq.
    assert (Hs : Qc_sign (Q2Qc (inject_Z 0) - c) = Lt).
    { apply Qc_sign_Lt. qc_to_q. lra. }
    rewrite Hs. reflexivity. }
  repeat split; [exact Hp|].
  unfold calculateImprovement. rewrite Hp. reflexivity.
Qed.

Lemma calculateImprovement_zero_baseline_witness :
  let H := plain_host in
  gtb (ofZ 7) (ofZ 0) = true
  /\ calculateImprovement H (ofZ 0) (ofZ 7) = "🔴 Infinity% 更慢".
Proof.
  intros H. split; [reflexivity|].
  apply (proj2 (calculateImprovement_zero_baseline H) (ofZ 7)). reflexivity.
Defined.

(** ** [formatBytes] *)

(** The four renderings the specification lists. *)
Lemma formatBytes_examples (H : Host) :
  formatBytes H (ofZ 0) = "0 Bytes"
  /\ formatBytes H (ofZ 1024) = "1 KB"
  /\ formatBytes H (ofZ 1536) = "1.5 KB"
  /\ formatBytes H (ofZ 1048576) = "1 MB".
Proof. repeat split; reflexivity. Qed.

(** *** [formatBytes] below a terabyte *)

Lemma Qc_ofZ_lt_inv a b : (Qc_ofZ a < Qc_ofZ b)%Qc -> a < b.
Proof. intros Hlt. apply ltb_ofZ. unfold ofZ. cbn [ltb]. apply Qc_ltb_true. exact Hlt. Qed.

Lemma Qc_div_bounds a c lo hi :
  (qzero < c)%Qc -> (lo * c <= a)%Qc -> (a < hi * c)%Qc ->
  (lo <= a / c)%Qc /\ (a / c < hi)%Qc.
Proof.
  intros Hc Hlo Hhi.
  assert (Hne : c <> qzero) by (intros ->; exact (Qclt_not_eq _ _ Hc eq_refl)).
  set (x := (a / c)%Qc).
  assert (Hx : a = (x * c)%Qc) by (unfold x; field; exact Hne).
  clearbody x. subst a. split.
  - destruct (Qclt_le_dec x lo) as [Hlt|]; [|assumption]. exfalso.
    apply (Qclt_not_le (x * c) (lo * c)); [|exact Hlo].
    apply Qcmult_lt_compat_r; assumption.
  - destruct (Qclt_le_dec x hi) as [|Hge]; [assumption|]. exfalso.
    apply (Qclt_not_le _ _ Hhi). apply Qcmult_le_compat_r; [exact Hge|].
    apply Qclt_le_weak. exact Hc.
Qed.

Lemma formatBytes_with_index H a i :
  (Q2Qc 1 <= a)%Qc -> 0 <= i <= 3 ->
  Math_floor_log_ratio (Fin a) 1024 = ofZ i ->
  (Qc_ofZ (1024 ^ i) <= a)%Qc -> (a < Qc_ofZ (1024 ^ (i + 1)))%Qc ->
  exists unit,
    nth_error ["Bytes"; "KB"; "MB"; "GB"] (Z.to_nat i) = Some unit
    /\ formatBytes H (Fin a)
       = Number_toString H
           (Fin (Qc_ofZ (round_scaled (a / Qc_ofZ (1024 ^ i)) 2) / Qc_pow10 2)%Qc)
         +:+ " " +:+ unit.
Proof.
  intros Ha Hi Hlog Hlo Hhi. unfold formatBytes.
  assert (E0 : eqb (Fin a) (ofZ 0) = false).
  { unfold ofZ. cbn [eqb]. destruct (Qc_eqb _ _) eqn:E; [|reflexivity].
    apply Qc_eqb_true in E. subst a. exfalso. revert Ha. apply Qclt_not_le. reflexivity. }
  rewrite E0. cbv zeta. rewrite Hlog.
  assert (Hpow : Math_pow H (ofZ 1024) (ofZ i) = Fin (Qc_ofZ (1024 ^ i)) ).
  { assert (Hc : i = 0 \/ i = 1 \/ i = 2 \/ i = 3) by lia.
    destruct Hc as [-> | [-> | [-> | ->]]]; reflexivity. }
  rewrite Hpow.
  assert (Hc : (qzero < Qc_ofZ (1024 ^ i))%Qc).
  { change qzero with (Qc_ofZ 0). apply Qc_ofZ_lt. apply Z.pow_pos_nonneg; lia. }
  rewrite div_Fin by (intros E; rewrite E in Hc; exact (Qclt_not_eq _ _ Hc eq_refl)).
  assert (Hb : (Q2Qc 1 <= a / Qc_ofZ (1024 ^ i))%Qc /\ (a / Qc_ofZ (1024 ^ i) < Qc_ofZ 1024)%Qc).
  { apply Qc_div_bounds; [exact Hc | rewrite Qcmult_1_l; exact Hlo |].
    rewrite <- Qc_ofZ_mul. replace (1024 * 1024 ^ i) with (1024 ^ (i + 1)); [exact Hhi|].
    rewrite Z.pow_add_r by lia. lia. }
  destruct Hb as [Hb1 Hb2].
  rewrite parseFloat_toFixed.
  - rewrite array_get_ofZ by lia.
    assert (Hcase : i = 0 \/ i = 1 \/ i = 2 \/ i = 3) by lia.
    destruct Hcase as [-> | [-> | [-> | ->]]]; eexists; (split; [reflexivity|]); reflexivity.
  - lia.
  - eapply Qcle_trans; [|exact Hb1]. discriminate.
  - eapply Qclt_trans; [exact Hb2|]. reflexivity.
Qed.

(** For a whole number of bytes below a terabyte the rendering is in the
    largest unit that leaves a value of at least one, with that value
    rounded to two decimals. *)
Theorem formatBytes_in_range (H : Host) (n : Z) :
  1 <= n < 1024 ^ 4 ->
  exists (i : Z) (unit : string),
    0 <= i <= 3
    /\ nth_error ["Bytes"; "KB"; "MB"; "GB"] (Z.to_nat i) = Some unit
    /\ 1024 ^ i <= n < 1024 ^ (i + 1)
    /\ Math_floor_log_ratio (ofZ n) 1024 = ofZ i
    /\ formatBytes H (ofZ n)
       = Number_toString H
           (Fin (Qc_ofZ (round_scaled (Qc_ofZ n / Qc_ofZ (1024 ^ i)) 2) / Qc_pow10 2)%Qc)
         +:+ " " +:+ unit.
Proof.
  intros Hn. set (a := Qc_ofZ n).
  assert (Ha : (Q2Qc 1 <= a)%Qc) by (apply (Qc_ofZ_le 1 n); lia).
  assert (Hmax : (a < Qc_ofZ (1024 ^ 4))%Qc) by (apply Qc_ofZ_lt; lia).
  destruct (Qc_floor_log_spec 1024 a ltac:(lia) Ha) as (Hi & Hlo & Hhi).
  set (i := Qc_floor_log 1024 a) in *.
  assert (Hi3 : i <= 3).
  { assert (Hlt : 1024 ^ i < 1024 ^ 4).
    { apply Qc_ofZ_lt_inv. eapply Qcle_lt_trans; [exact Hlo | exact Hmax]. }
    apply Z.pow_lt_mono_r_iff in Hlt; lia. }
  assert (Hlog : Math_floor_log_ratio (Fin a) 1024 = ofZ i).
  { unfold Math_floor_log_ratio.
    assert (Hs : Qc_sign a = Gt).
    { apply Qc_sign_Gt. eapply Qclt_le_trans; [|exact Ha]. reflexivity. }
    rewrite Hs. reflexivity. }
  destruct (formatBytes_with_index H a i Ha (conj Hi Hi3) Hlog Hlo Hhi) as (unit & Hu & Hf).
  exists i, unit. repeat split; try assumption; try lia.
  - destruct (Z_lt_le_dec n (1024 ^ i)) as [Hlt|Hge]; [|exact Hge].
    exfalso. apply Qc_ofZ_lt in Hlt. exact (Qclt_not_le _ _ Hlt Hlo).
  - apply Qc_ofZ_lt_inv. exact Hhi.
Qed.

(** C4.  At [bytes = 1024^4] the unit index [floor (log_1024 bytes)] is 4,
    one past the last of the four unit names: [sizes[4]] is [undefined] and
    the rendering is ["1 undefined"], not a value in one of the units
    Bytes, KB, MB, GB. *)
Theorem formatBytes_terabyte (H : Host) :
  Math_floor_log_ratio (ofZ (1024 ^ 4)) 1024 = ofZ 4
  /\ array_get ["Bytes"; "KB"; "MB"; "GB"] (ofZ 4) = None
  /\ formatBytes H (ofZ (1024 ^ 4)) = "1 undefined".
Proof. repeat split; reflexivity. Qed.

(** ** The special values in binary64 *)

Lemma binary64_positive (c : float) :
  (0 <? c)%float = true ->
  Prim2SF c = S754_infinity false \/ exists m e, Prim2SF c = S754_finite false m e.
Proof.
  rewrite ltb_spec. unfold SFltb. change (Prim2SF 0) with (S754_zero false).
  destruct (Prim2SF c) as [s|s| |s m e]; cbn; try discriminate.
  - destruct s; [discriminate|]. auto.
  - destruct s; [discriminate|]. eauto.
Qed.

(** On doubles too a zero baseline with a positive comparison gives
    [-Infinity], whatever the comparison. *)
Lemma binary64_zero_baseline (c : float) :
  (0 <? c)%float = true -> Binary64.improvement 0 c = neg_infinity.
Proof.
  intros Hc. apply Prim2SF_inj. unfold Binary64.improvement.
  rewrite mul_spec, div_spec, sub_spec.
  change (Prim2SF 0) with (S754_zero false).
  change (Prim2SF neg_infinity) with (S754_infinity true).
  change (Prim2SF 100) with (S754_finite false 7036874417766400 (-46)).
  destruct (binary64_positive c Hc) as [-> | (m & e & ->)]; reflexivity.
Qed.

(** The instances of the specification, as the doubles give them. *)
Lemma binary64_improvement_instances :
  Binary64.improvement 100 80 = 20%float
  /\ Binary64.improvement 80 100 = (-25)%float
  /\ Binary64.improvement 50 50 = 0%float
  /\ PrimFloat.is_nan (Binary64.improvement 0 0) = true
  /\ (0 <? Binary64.improvement 0 0)%float = false
  /\ (Binary64.improvement 0 0 <? 0)%float = false.
Proof. repeat split; reflexivity. Qed.

Lemma binary64_stats_instances :
  Binary64.mean_of [5%float] = 5%float
  /\ Binary64.variance_of [5%float] = 0%float
  /\ Binary64.stdDev_of [5%float] = 0%float
  /\ PrimFloat.is_nan (Binary64.mean_of []) = true
  /\ PrimFloat.is_nan (Binary64.stdDev_of []) = true.
Proof. repeat split; reflexivity. Qed.

(** ** The doubles of the machine and their model *)

(** On samples of every kind the four operations of [Double] give the
    value of the machine's operation on the same doubles, and the values of
    the samples are doubles in the sense of [Double.is_double]. *)
Lemma Double_agrees_with_binary64 :
  Binary64.agree_on_samples PrimFloat.add Double.add = true
  /\ Binary64.agree_on_samples PrimFloat.sub Double.sub = true
  /\ Binary64.agree_on_samples PrimFloat.mul Double.mul = true
  /\ Binary64.agree_on_samples PrimFloat.div Double.div = true
  /\ forallb (fun x => Binary64.same_number (Double.rounded (Binary64.value x))
                         (Binary64.value x))
       Binary64.samples = true.
Proof.
  split; [vm_compute; reflexivity|]. split; [vm_compute; reflexivity|].
  split; [vm_compute; reflexivity|]. split; vm_compute; reflexivity.
Qed.

(** The instances where rounding shows, on the machine and in [Double]:
    the mean of three times [0.1] is above [0.1], the halved sum of twice
    [2^1023] is [Infinity], and the percentage for [(80, 29)] is just
    below [63.75]. *)
Lemma binary64_rounding_instances :
  let tenth64 := 0x1.999999999999ap-4%float in
  let huge64 := 0x1p+1023%float in
  Binary64.same_number (Binary64.value tenth64) (Fin tenth) = true
  /\ (Binary64.mean_of [tenth64; tenth64; tenth64] <=? tenth64)%float = false
  /\ Binary64.same_number
       (Binary64.value (Binary64.mean_of [tenth64; tenth64; tenth64]))
       (mean (Double.calculateStats plain_host (map Fin [tenth; tenth; tenth]))) = true
  /\ Binary64.same_number (Binary64.value huge64) (Fin huge) = true
  /\ ((huge64 + huge64) / 2)%float = infinity
  /\ Binary64.same_number
       (Binary64.value (Binary64.improvement 80 29))
       (Double.mul (Double.div (Double.sub (ofZ 80) (ofZ 29)) (ofZ 80)) (ofZ 100)) = true
  /\ (Binary64.improvement 80 29 <? 63.75)%float = true.
Proof.
  intros tenth64 huge64.
  split; [vm_compute; reflexivity|]. split; [vm_compute; reflexivity|].
  split; [vm_compute; reflexivity|]. split; [vm_compute; reflexivity|].
  split; [vm_compute; reflexivity|]. split; vm_compute; reflexivity.
Qed.

(** ** The world and the promises *)

Lemma engine_call_ok op w :
  faults w (length (calls w)) = None -> engine_call op w = (Fulfilled tt, record_call op w).
Proof. intros E. unfold engine_call. rewrite E. reflexivity. Qed.

Lemma engine_call_fault op w e :
  faults w (length (calls w)) = Some e -> engine_call op w = (Rejected e, record_call op w).
Proof. intros E. unfold engine_call. rewrite E. reflexivity. Qed.

(** ** Dropping a collection that is not there *)

(** C8.  A cleanup step that drops the time-series collection is
    [collection.drop().catch(() => { })].  When the collection does not
    exist the drop is rejected with "ns not found", the rejection is caught
    and nothing is written: the step is fulfilled and leaves the very world
    it leaves when the collection did exist and was dropped, so whatever
    follows behaves the same in both cases.  (The engine call itself is
    assumed to go through.) *)
Theorem drop_of_missing_collection_is_ignored (w : World) (name : string) (c : Collection) :
  faults w (length (calls w)) = None ->
  db w !! name = None ->
  drop name w = (Rejected (NamespaceNotFound name), record_call OpDrop w)
  /\ drop_ignoring_errors name w = (Fulfilled tt, record_call OpDrop w)
  /\ drop_ignoring_errors name (set_db (insert name c) w)
     = (Fulfilled tt, record_call OpDrop w)
  /\ forall (B : Type) (rest : Promise B),
       (drop_ignoring_errors name ;; rest) w
       = (drop_ignoring_errors name ;; rest) (set_db (insert name c) w).
Proof.
  intros Hf Hnone.
  assert (H1 : drop name w = (Rejected (NamespaceNotFound name), record_call OpDrop w)).
  { unfold drop, bind. rewrite engine_call_ok by exact Hf.
    change (db (record_call OpDrop w)) with (db w). rewrite Hnone. reflexivity. }
  assert (H2 : drop_ignoring_errors name w = (Fulfilled tt, record_call OpDrop w)).
  { unfold drop_ignoring_errors, catch, bind at 1. rewrite H1. reflexivity. }
  assert (H3 : drop_ignoring_errors name (set_db (insert name c) w)
               = (Fulfilled tt, record_call OpDrop w)).
  { unfold drop_ignoring_errors, catch, drop, bind.
    rewrite engine_call_ok by exact Hf.
    change (db (record_call OpDrop (set_db (insert name c) w))) with (<[name:=c]> (db w)).
    rewrite lookup_insert_eq. unfold record_call, set_db. cbn [db now clock_reads random random_reads faults calls storage_size server_version client_version stdout stderr connected host_running].
    rewrite delete_insert_eq, delete_id by exact Hnone. reflexivity. }
  repeat split; try assumption.
  intros B rest. unfold bind. rewrite H2, H3. reflexivity.
Qed.

Lemma drop_of_missing_collection_is_ignored_witness :
  let w := {| db := ∅; now := fun _ => 0; clock_reads := 0;
              random := fun _ => ofZ 0; random_reads := 0;
              faults := fun _ => None; calls := [];
              storage_size := fun _ _ => ofZ 0;
              server_version := ""; client_version := "";
              stdout := []; stderr := [];
              connected := true; host_running := true |} in
  let c := {| timeseries := timeSeriesOptions; docs := [] |} in
  faults w (length (calls w)) = None
  /\ db w !! "timeSeriesCollection" = None
  /\ drop_ignoring_errors "timeSeriesCollection" w
     = drop_ignoring_errors "timeSeriesCollection"
         (set_db (insert "timeSeriesCollection" c) w).
Proof.
  intros w c. split; [reflexivity|]. split; [reflexivity|].
  destruct (drop_of_missing_collection_is_ignored w "timeSeriesCollection" c)
    as (_ & H2 & H3 & _); [reflexivity | reflexivity |].
  rewrite H2, H3. reflexivity.
Defined.

(** ** Repeated trials *)

Lemma bind_fulfilled {A B} (m : Promise A) (k : A -> Promise B) w a w1 :
  m w = (Fulfilled a, w1) -> bind m k w = k a w1.
Proof. intros E. unfold bind. rewrite E. reflexivity. Qed.

Lemma bind_rejected {A B} (m : Promise A) (k : A -> Promise B) w e w1 :
  m w = (Rejected e, w1) -> bind m k w = (Rejected e, w1).
Proof. intros E. unfold bind. rewrite E. reflexivity. Qed.

Lemma bind_fulfilled_inv {A B} (m : Promise A) (k : A -> Promise B) w b w2 :
  bind m k w = (Fulfilled b, w2) ->
  exists a w1, m w = (Fulfilled a, w1) /\ k a w1 = (Fulfilled b, w2).
Proof.
  unfold bind. destruct (m w) as [[a|e] w1]; intros E; [eauto | discriminate].
Qed.

(** The loop of [runMultipleTests] and the trials of the specification. *)
Lemma runMultipleTests_loop_Trials {T} H (f : Promise T) n i acc w rs w' :
  runMultipleTests_loop H f n i acc w = (Fulfilled rs, w') <->
  exists rs', rs = acc ++ rs' /\ Trials H f i n w rs' w'.
Proof.
  revert i acc w rs. induction n as [|n IH]; intros i acc w rs; cbn [runMultipleTests_loop].
  - unfold ret. split.
    + intros E. injection E as <- <-. exists []. split; [symmetry; apply app_nil_r | constructor].
    + intros (rs' & -> & Ht). inversion Ht; subst. rewrite app_nil_r. reflexivity.
  - unfold process_stdout_write, modify. unfold bind at 1. split.
    + intros E. apply bind_fulfilled_inv in E. destruct E as (r & w1 & Hf & E).
      apply IH in E. destruct E as (rs' & -> & Ht).
      exists (r :: rs'). split; [rewrite <- app_assoc; reflexivity|].
      econstructor; eassumption.
    + intros (rs' & -> & Ht).
      inversion Ht as [|? ? ? w1 ? r rs1 Hf Ht']; subst.
      rewrite (bind_fulfilled _ _ _ _ _ Hf). apply IH.
      eexists. split; [|eassumption]. rewrite <- app_assoc. reflexivity.
Qed.

Lemma Trials_length {T} H (f : Promise T) i n w rs w' :
  Trials H f i n w rs w' -> length rs = n.
Proof. induction 1; simpl; congruence. Qed.

Lemma runMultipleTests_Trials {T} H (f : Promise T) runs description w rs w' :
  runMultipleTests H f runs description w = (Fulfilled rs, w') <->
  exists w1,
    Trials H f 0 runs (put_stdout ("   執行 " +:+ description +:+ "...") w) rs w1
    /\ w' = put_stdout (" ✅" +:+ newline) w1.
Proof.
  unfold runMultipleTests, process_stdout_write, console_log, modify.
  unfold bind at 1. split.
  - intros E. apply bind_fulfilled_inv in E. destruct E as (rs0 & w1 & Hl & E).
    unfold bind, ret in E. injection E as <- <-.
    apply runMultipleTests_loop_Trials in Hl. destruct Hl as (rs' & -> & Ht).
    exists w1. split; [exact Ht | reflexivity].
  - intros (w1 & Ht & ->).
    assert (Hl : runMultipleTests_loop H f runs 0 []
                   (put_stdout ("   執行 " +:+ description +:+ "...") w) = (Fulfilled rs, w1)).
    { apply runMultipleTests_loop_Trials. exists rs. split; [reflexivity | exact Ht]. }
    rewrite (bind_fulfilled _ _ _ _ _ Hl). reflexivity.
Qed.

Lemma measureInsertSpeed_fulfilled collection data w :
  data <> [] -> faults w (length (calls w)) = None ->
  measureInsertSpeed collection data w
  = (Fulfilled (ofZ (now w (S (clock_reads w)) - now w (clock_reads w))),
     tick_clock
       (set_db (fun m => <[collection := append_docs data (m !! collection)]> m)
          (record_call OpInsertMany (tick_clock w)))).
Proof.
  intros Hd Hf. unfold measureInsertSpeed, Date_now, insertMany.
  destruct data as [|d data]; [congruence|].
  unfold bind, engine_call, modify, ret.
  cbn [faults calls tick_clock]. rewrite Hf.
  cbn [now clock_reads tick_clock set_db record_call]. rewrite sub_ofZ. reflexivity.
Qed.

(** The world after [n] timed inserts: the clock has been read twice for
    each. *)
Lemma measure_trials H collection data n :
  data <> [] ->
  forall i acc w, no_faults w ->
  exists w',
    runMultipleTests_loop H (measureInsertSpeed collection data) n i acc w
      = (Fulfilled (acc ++ elapsed_times w n), w')
    /\ calls w' = calls w ++ repeat OpInsertMany n
    /\ no_faults w'.
Proof.
  intros Hd. induction n as [|n IH]; intros i acc w Hnf.
  - exists w. cbn. rewrite !app_nil_r. repeat split; auto.
  - cbn [runMultipleTests_loop]. unfold process_stdout_write, modify. unfold bind at 1.
    set (w0 := put_stdout _ w).
    rewrite (bind_fulfilled _ _ _ _ _ (measureInsertSpeed_fulfilled collection data w0 Hd (Hnf _))).
    match goal with |- context [runMultipleTests_loop _ _ n (S i) ?a ?w1] =>
      destruct (IH (S i) a w1) as (w' & E & Hcalls & Hnf'); [exact Hnf|]
    end.
    exists w'. rewrite E, <- app_assoc. split.
    + f_equal. f_equal. f_equal. unfold elapsed_times.
      change (seq 0 (S n)) with (0%nat :: seq 1 n). cbn [map app].
      f_equal.
      * subst w0. cbn [now clock_reads put_stdout]. f_equal.
        rewrite Nat.mul_0_r, Nat.add_0_r, Nat.add_1_r. reflexivity.
      * rewrite <- seq_shift, map_map. apply map_ext. intros k.
        subst w0. cbn [now clock_reads put_stdout tick_clock set_db record_call].
        f_equal. f_equal; f_equal; lia.
    + split; [|exact Hnf']. rewrite Hcalls. cbn [calls tick_clock set_db record_call].
      subst w0. cbn [calls put_stdout]. rewrite <- app_assoc. reflexivity.
Qed.

Lemma elapsed_times_nonneg w n :
  (forall k, (k < n)%nat ->
     now w (clock_reads w + 2 * k) <= now w (clock_reads w + 2 * k + 1)) ->
  Forall (fun d => leb (ofZ 0) d = true) (elapsed_times w n).
Proof.
  intros Hclock. unfold elapsed_times. apply List.Forall_forall. intros d Hd.
  apply in_map_iff in Hd. destruct Hd as (k & <- & Hk). apply in_seq in Hk.
  apply leb_ofZ. specialize (Hclock k ltac:(lia)). lia.
Qed.

(** C5, as amended.  [runMultipleTests(testFunction, runs, description)] is
    fulfilled with [results] exactly when [runs] invocations of the
    operation, made one after the other from the world left by the heading,
    each starting where the previous one ended, are all fulfilled and
    [results] lists their values in invocation order; the results are
    [runs] many.  With the timed insert of a batch as the operation and
    [runs = 5], when no engine call fails, it is fulfilled after exactly 5
    [insertMany] calls with exactly 5 values, the one of each trial being
    the clock reading taken after its insert minus the one taken before
    it; each value is [>= 0] provided the clock did not run backwards
    between the two readings of its trial. *)
Theorem runMultipleTests_sequential (H : Host) :
  (forall (T : Type) (testFunction : Promise T) (runs : nat) (description : string)
          (w : World) (results : list T) (w' : World),
     (runMultipleTests H testFunction runs description w = (Fulfilled results, w')
      <-> exists w1,
            Trials H testFunction 0 runs
              (put_stdout ("   執行 " +:+ description +:+ "...") w) results w1
            /\ w' = put_stdout (" ✅" +:+ newline) w1)
     /\ (runMultipleTests H testFunction runs description w = (Fulfilled results, w')
         -> length results = runs))
  /\ (forall (collection : string) (data : list SyntheticRecord)
             (description : string) (w : World),
        data <> [] -> no_faults w ->
        exists results w',
          runMultipleTests H (measureInsertSpeed collection data) 5 description w
            = (Fulfilled results, w')
          /\ length results = 5%nat
          /\ results
             = map (fun k => ofZ (now w (clock_reads w + 2 * k + 1)
                                  - now w (clock_reads w + 2 * k)))
                 (seq 0 5)
          /\ calls w' = calls w ++ repeat OpInsertMany 5
          /\ ((forall k, (k < 5)%nat ->
                 now w (clock_reads w + 2 * k) <= now w (clock_reads w + 2 * k + 1)) ->
              Forall (fun d => leb (ofZ 0) d = true) results)).
Proof.
  split.
  - intros T f runs description w results w'. split.
    + apply runMultipleTests_Trials.
    + intros E. apply runMultipleTests_Trials in E. destruct E as (w1 & Ht & _).
      eapply Trials_length. exact Ht.
  - intros collection data description w Hd Hnf.
    unfold runMultipleTests, process_stdout_write, console_log, modify. unfold bind at 1.
    destruct (measure_trials H collection data 5 Hd 0%nat []
                (put_stdout ("   執行 " +:+ description +:+ "...") w) Hnf)
      as (w1 & E & Hcalls & _).
    exists (elapsed_times w 5), (put_stdout (" ✅" +:+ newline) w1).
    rewrite (bind_fulfilled _ _ _ _ _ E).
    split; [reflexivity|]. split; [reflexivity|]. split; [reflexivity|].
    split; [exact Hcalls|]. apply elapsed_times_nonneg.
Qed.

(** The claim without the amendment fails: when the clock is set back while
    the trials run, here by 7 milliseconds between any two readings, the
    five values are negative. *)
Lemma runMultipleTests_clock_set_back :
  let w := world_with_clock (fun k => 1700000000000 - 7 * Z.of_nat k) in
  let data := [{| timestamp := ofZ 1700000000000; value := ofZ 42;
                  meta := {| sensor := "sensor0" |} |}] in
  no_faults w
  /\ fst (runMultipleTests plain_host (measureInsertSpeed "generalCollection" data)
            5 "insert" w)
     = Fulfilled (repeat (ofZ (-7)) 5)
  /\ leb (ofZ 0) (ofZ (-7)) = false.
Proof.
  intros w data. split; [intros k; reflexivity|].
  split; [vm_compute; reflexivity | reflexivity].
Qed.

Lemma runMultipleTests_sequential_witness :
  let H := plain_host in
  let w := world_with_clock (fun k => 1700000000000 + 7 * Z.of_nat k) in
  let data := [{| timestamp := ofZ 1700000000000; value := ofZ 42;
                  meta := {| sensor := "sensor0" |} |}] in
  (data <> [] /\ no_faults w)
  /\ exists results w',
       runMultipleTests H (measureInsertSpeed "generalCollection" data) 5 "insert" w
         = (Fulfilled results, w')
       /\ results = repeat (ofZ 7) 5
       /\ Forall (fun d => leb (ofZ 0) d = true) results.
Proof.
  intros H w data.
  assert (Hd : data <> []) by discriminate.
  assert (Hnf : no_faults w) by (intros k; reflexivity).
  split; [split; assumption|].
  destruct (proj2 (runMultipleTests_sequential H) "generalCollection" data "insert" w
              Hd Hnf) as (results & w' & E & _ & Hres & _ & Hnonneg).
  exists results, w'. split; [exact E|]. split.
  - rewrite Hres. cbn [seq map repeat]. repeat f_equal.
  - apply Hnonneg. intros k Hk.
    subst w. cbn [now clock_reads world_with_clock sample_world]. lia.
Defined.

(** ** The data generator *)

Lemma advance_reads_0 w : advance_reads 0 w = w.
Proof. destruct w. unfold advance_reads. cbn. rewrite !Nat.add_0_r. reflexivity. Qed.

Lemma advance_reads_S n w :
  advance_reads n (tick_random (tick_clock w)) = advance_reads (S n) w.
Proof.
  unfold advance_reads, tick_random, tick_clock. cbn.
  rewrite !Nat.add_succ_r. reflexivity.
Qed.

Lemma generateData_loop H n : forall i w,
  Array_from_loop (fun i =>
    t <- Date_now ;;
    r <- Math_random ;;
    ret {| timestamp := Date_new (sub t (mul (ofNat i) (ofZ 1000)));
           value := Double.mul r (ofZ 100);
           meta := {| sensor := "sensor" +:+ Number_toString H (ofNat (i mod 5)) |} |})
    n i w
  = (Fulfilled (map (fun j => record_at H w (i + j) j) (seq 0 n)), advance_reads n w).
Proof.
  induction n as [|n IH]; intros i w.
  - cbn. rewrite advance_reads_0. reflexivity.
  - cbn [Array_from_loop]. unfold bind at 1. unfold bind at 1.
    unfold Date_now at 1. unfold bind at 1. unfold Math_random at 1. unfold ret at 1.
    cbn [now clock_reads random random_reads tick_clock tick_random].
    unfold bind at 1. rewrite IH. unfold ret. rewrite advance_reads_S.
    f_equal. f_equal. cbn [seq map]. f_equal.
    + unfold record_at. rewrite !Nat.add_0_r. reflexivity.
    + rewrite <- seq_shift, map_map. apply map_ext. intros j.
      unfold record_at. cbn [now clock_reads random random_reads tick_clock tick_random].
      rewrite !Nat.add_succ_r. reflexivity.
Qed.

Lemma generateData_closed_form H count w :
  Z.of_nat count <= 4294967295 ->
  generateData H count w
  = (Fulfilled (map (fun j => record_at H w j j) (seq 0 count)), advance_reads count w).
Proof.
  intros Hc. unfold generateData, Array_from.
  destruct (4294967295 <? Z.of_nat count) eqn:E; [apply Z.ltb_lt in E; lia|].
  apply generateData_loop.
Qed.

Lemma generateData_too_long H count w :
  4294967295 < Z.of_nat count -> generateData H count w = (Rejected RangeError, w).
Proof.
  intros Hc. unfold generateData, Array_from.
  destruct (4294967295 <? Z.of_nat count) eqn:E; [reflexivity | apply Z.ltb_ge in E; lia].
Qed.

Lemma Date_new_ofZ z :
  - 8640000000000000 <= z <= 8640000000000000 -> Date_new (ofZ z) = ofZ z.
Proof.
  intros Hz. unfold Date_new, ofZ. fold (Qc_ofZ z). unfold qzero.
  change (Q2Qc 0) with (Qc_ofZ 0). rewrite Qc_ltb_ofZ.
  destruct (z <? 0) eqn:E.
  - apply Z.ltb_lt in E. rewrite Qc_opp_ofZ, Qc_ltb_ofZ, Qc_floor_ofZ.
    destruct (8640000000000000 <? - z) eqn:E'; [apply Z.ltb_lt in E'; lia|].
    rewrite Z.opp_involutive. reflexivity.
  - apply Z.ltb_ge in E. rewrite Qc_ltb_ofZ, Qc_floor_ofZ.
    destruct (8640000000000000 <? z) eqn:E'; [apply Z.ltb_lt in E'; lia|].
    reflexivity.
Qed.

Lemma timestamp_record_at H w i j :
  0 <= now w (clock_reads w + j) <= 8640000000000000 ->
  Z.of_nat i <= 4294967295 ->
  timestamp (record_at H w i j) = ofZ (now w (clock_reads w + j) - 1000 * Z.of_nat i).
Proof.
  intros Hn Hi. unfold record_at. cbn [timestamp]. unfold ofNat.
  rewrite mul_ofZ, sub_ofZ, Date_new_ofZ by lia. apply ofZ_eq. lia.
Qed.

Lemma clock_drift w count :
  (forall i, (S i < count)%nat ->
     now w (clock_reads w + S i) - now w (clock_reads w + i) < 1000) ->
  forall d i, (0 < d)%nat -> (i + d < count)%nat ->
  now w (clock_reads w + (i + d)) - now w (clock_reads w + i) < 1000 * Z.of_nat d.
Proof.
  intros Hstep d i Hd. induction d as [|d IH]; [lia|]. intros Hlt.
  destruct d as [|d'].
  - replace (i + 1)%nat with (S i) by lia. specialize (Hstep i ltac:(lia)). lia.
  - specialize (IH ltac:(lia) ltac:(lia)). specialize (Hstep (i + S d')%nat ltac:(lia)).
    replace (i + S (S d'))%nat with (S (i + S d')) by lia. lia.
Qed.

Lemma value_record_at H w i j r :
  random w (random_reads w + j) = Fin r -> Double.is_double r ->
  (Q2Qc 0 <= r)%Qc -> (r < Q2Qc 1)%Qc ->
  exists v, value (record_at H w i j) = Fin v /\ (Q2Qc 0 <= v)%Qc /\ (v < Q2Qc 100)%Qc.
Proof.
  intros Hr Hd H0 H1. unfold record_at. cbn [value]. rewrite Hr.
  apply scaled_below_hundred; assumption.
Qed.

Lemma sensor_record_at H w i j :
  sensor (meta (record_at H w i j)) = nth (i mod 5) sensors "".
Proof.
  unfold record_at. cbn [sensor meta].
  assert (Hm : (i mod 5 < 5)%nat) by (apply Nat.mod_upper_bound; lia).
  destruct (i mod 5)%nat as [|[|[|[|[|k]]]]]; try reflexivity. lia.
Qed.

Lemma nth_error_generated H w count i :
  (i < count)%nat ->
  nth_error (map (fun j => record_at H w j j) (seq 0 count)) i = Some (record_at H w i i).
Proof.
  intros Hi. rewrite nth_error_map.
  rewrite (nth_error_nth' (seq 0 count) 0%nat) by (rewrite length_seq; exact Hi).
  rewrite seq_nth by exact Hi. reflexivity.
Qed.

(** C2, as amended.  For a count that is a valid array length (at most
    [2^32 - 1]) [generateData(count)] is fulfilled with exactly [count]
    records [{timestamp, value, meta: {sensor}}], after [count] readings of
    the clock and of the random source.  The record at index [i] has the
    sensor [sensors[i mod 5]]; its timestamp is [i] seconds before the
    clock reading taken for it, when that reading is a time value after the
    epoch; and its value, the random number times 100 rounded to a double,
    lies in [[0, 100)] when the random source yields a double in [[0, 1)].  Provided each clock reading is a time value after
    the epoch and less than one second after the one before, the timestamps
    strictly decrease as the index grows and are pairwise distinct. *)
Theorem generateData_records (H : Host) (w : World) (count : nat) :
  Z.of_nat count <= 4294967295 ->
  exists data w',
    generateData H count w = (Fulfilled data, w')
    /\ length data = count
    /\ clock_reads w' = (clock_reads w + count)%nat
    /\ random_reads w' = (random_reads w + count)%nat
    /\ (forall i, (i < count)%nat ->
          exists d, nth_error data i = Some d
            /\ sensor (meta d) = nth (i mod 5) sensors ""
            /\ (0 <= now w (clock_reads w + i) <= 8640000000000000 ->
                timestamp d = ofZ (now w (clock_reads w + i) - 1000 * Z.of_nat i))
            /\ (forall r, random w (random_reads w + i) = Fin r ->
                  Double.is_double r -> (Q2Qc 0 <= r)%Qc -> (r < Q2Qc 1)%Qc ->
                  value d = Double.mul (Fin r) (ofZ 100)
                  /\ exists v, value d = Fin v /\ (Q2Qc 0 <= v)%Qc /\ (v < Q2Qc 100)%Qc))
    /\ ((forall i, (i < count)%nat ->
           0 <= now w (clock_reads w + i) <= 8640000000000000) ->
        (forall i, (S i < count)%nat ->
           now w (clock_reads w + S i) - now w (clock_reads w + i) < 1000) ->
        forall i j di dj, (i < j)%nat ->
          nth_error data i = Some di -> nth_error data j = Some dj ->
          ltb (timestamp dj) (timestamp di) = true
          /\ eqb (timestamp dj) (timestamp di) = false).
Proof.
  intros Hmax.
  exists (map (fun j => record_at H w j j) (seq 0 count)), (advance_reads count w).
  split; [apply generateData_closed_form; exact Hmax|].
  split; [rewrite length_map, length_seq; reflexivity|].
  split; [reflexivity|]. split; [reflexivity|].
  split.
  - intros i Hi. exists (record_at H w i i).
    split; [apply nth_error_generated; exact Hi|].
    split; [apply sensor_record_at|].
    split; [intros Hclock; apply timestamp_record_at; [exact Hclock | lia]|].
    intros r Hr Hd H0 H1.
    split; [unfold record_at; cbn [value]; rewrite Hr; reflexivity|].
    eapply value_record_at; eassumption.
  - intros Hclock Hstep i j di dj Hij Hdi Hdj.
    assert (Hj : (j < count)%nat).
    { assert (Hs : nth_error (map (fun j => record_at H w j j) (seq 0 count)) j <> None) by congruence.
      apply nth_error_Some in Hs. rewrite length_map, length_seq in Hs. exact Hs. }
    rewrite nth_error_generated in Hdi, Hdj by lia.
    injection Hdi as <-. injection Hdj as <-.
    rewrite !timestamp_record_at by (try (apply Hclock; lia); lia).
    assert (Hlt : now w (clock_reads w + j) - 1000 * Z.of_nat j
                  < now w (clock_reads w + i) - 1000 * Z.of_nat i).
    { pose proof (clock_drift w count Hstep (j - i) i ltac:(lia) ltac:(lia)) as Hd.
      replace (i + (j - i))%nat with j in Hd by lia. lia. }
    split; [apply ltb_ofZ; exact Hlt|].
    destruct (eqb _ _) eqn:E; [|reflexivity].
    unfold ofZ in E. cbn [eqb] in E. apply Qc_eqb_true, Qc_ofZ_inj in E. lia.
Qed.

(** The claim without the amendments fails: when the clock advances by a
    full second between the two readings, the two records carry the same
    timestamp; and a count above [2^32 - 1] is refused. *)
Lemma generateData_clock_jump :
  let w := world_with_clock (fun k => 1700000000000 + 1000 * Z.of_nat k) in
  (exists d0 d1 w',
     generateData plain_host 2 w = (Fulfilled [d0; d1], w')
     /\ eqb (timestamp d1) (timestamp d0) = true
     /\ ltb (timestamp d1) (timestamp d0) = false)
  /\ generateData plain_host (Z.to_nat 4294967296) w = (Rejected RangeError, w).
Proof.
  intros w. split.
  - eexists _, _, _. split; [reflexivity|]. split; reflexivity.
  - apply generateData_too_long. rewrite Z2Nat.id; lia.
Qed.

Lemma generateData_records_witness :
  let w := world_with_clock (fun k => 1700000000000 + 3 * Z.of_nat k) in
  Z.of_nat 7 <= 4294967295
  /\ exists data w',
       generateData plain_host 7 w = (Fulfilled data, w') /\ length data = 7%nat
       /\ (exists d v, nth_error data 3 = Some d /\ value d = Fin v /\ (v < Q2Qc 100)%Qc)
       /\ (forall i j di dj, (i < j)%nat ->
             nth_error data i = Some di -> nth_error data j = Some dj ->
             ltb (timestamp dj) (timestamp di) = true).
Proof.
  intros w. assert (Hmax : Z.of_nat 7 <= 4294967295) by (cbn; lia).
  split; [exact Hmax|].
  destruct (generateData_records plain_host w 7 Hmax)
    as (data & w' & E & Hlen & _ & _ & Hrec & Hord).
  exists data, w'. split; [exact E|]. split; [exact Hlen|]. split.
  - destruct (Hrec 3%nat ltac:(lia)) as (d & Hd & _ & _ & Hval).
    destruct (Hval (Q2Qc (3 # 8))) as (_ & v & Hv & _ & Hlt).
    + reflexivity.
    + unfold Double.is_double. vm_compute.
      first [reflexivity | f_equal; apply Qc_is_canon; reflexivity].
    + discriminate.
    + reflexivity.
    + exists d, v. repeat split; assumption.
  - intros i j di dj Hij Hdi Hdj.
    refine (proj1 (Hord _ _ i j di dj Hij Hdi Hdj)).
    + intros k Hk. subst w. cbn [now clock_reads world_with_clock sample_world]. lia.
    + intros k Hk. subst w. cbn [now clock_reads world_with_clock sample_world]. lia.
Defined.

(** ** Errors and the top-level handler *)

Create HintDb promise discriminated.

Lemma propagates_local {A} w (r : Settled A) w' :
  faults w' = faults w -> stderr w' = stderr w -> calls w' = calls w ->
  propagates w r w'.
Proof.
  intros Hf He Hc. split; [exact Hf|]. split; [exact He|]. split.
  - exists []. rewrite Hc, app_nil_r. reflexivity.
  - intros j op e Hj Hle. rewrite Hc in Hj.
    apply lookup_lt_Some in Hj. lia.
Qed.

Lemma et_ret {A} (a : A) : error_transparent (ret a).
Proof. intros w. apply propagates_local; reflexivity. Qed.

Lemma et_throw {A} e : error_transparent (@throw A e).
Proof. intros w. apply propagates_local; reflexivity. Qed.

Lemma propagates_rejected {A B} w e w1 :
  propagates w (@Rejected A e) w1 -> propagates w (@Rejected B e) w1.
Proof.
  intros (Hf & He & Hc & Hp). split; [exact Hf|]. split; [exact He|]. split; [exact Hc|].
  intros j op e' Hj Hle Hop Hfault. destruct (Hp j op e' Hj Hle Hop Hfault) as [E Hlen].
  injection E as ->. split; [reflexivity | exact Hlen].
Qed.

Lemma et_bind {A B} (m : Promise A) (k : A -> Promise B) :
  error_transparent m -> (forall a, error_transparent (k a)) ->
  error_transparent (bind m k).
Proof.
  intros Hm Hk w. specialize (Hm w). unfold bind.
  destruct (m w) as [[a|e] w1]; cbn [fst snd] in *;
    [|apply (propagates_rejected _ _ _ Hm)].
  specialize (Hk a w1). destruct (k a w1) as [r w2]. cbn [fst snd] in *.
  destruct Hm as (Hf1 & He1 & (ops1 & Hc1) & Hp1).
  destruct Hk as (Hf2 & He2 & (ops2 & Hc2) & Hp2).
  split; [congruence|]. split; [congruence|]. split.
  - exists (ops1 ++ ops2). rewrite Hc2, Hc1, app_assoc. reflexivity.
  - intros j op e Hj Hle Hop Hfault.
    destruct (Nat.lt_ge_cases j (length (calls w1))) as [Hlt|Hge].
    + exfalso. rewrite Hc2, lookup_app_l in Hj by exact Hlt.
      destruct (Hp1 j op e Hj Hle Hop Hfault) as [E _]. discriminate.
    + rewrite <- Hf1 in Hfault. apply (Hp2 j op e Hj Hge Hop Hfault).
Qed.

Lemma et_modify f :
  (forall w, faults (f w) = faults w) -> (forall w, stderr (f w) = stderr w) ->
  (forall w, calls (f w) = calls w) ->
  error_transparent (modify f).
Proof. intros Hf He Hc w. apply propagates_local; cbn; auto. Qed.

Lemma et_read {A} (f : World -> Settled A) :
  error_transparent (fun w => (f w, w)).
Proof. intros w. apply propagates_local; reflexivity. Qed.

Lemma et_engine_call op : error_transparent (engine_call op).
Proof.
  intros w. unfold engine_call.
  assert (Hlast : forall j o, (calls w ++ [op]) !! j = Some o -> (length (calls w) <= j)%nat ->
                  j = length (calls w) /\ o = op).
  { intros j o Hj Hle. apply lookup_app_Some in Hj. destruct Hj as [Hj|[_ Hj]].
    - apply lookup_lt_Some in Hj. lia.
    - destruct (j - length (calls w))%nat as [|n] eqn:E; cbn in Hj; [|discriminate].
      injection Hj as <-. split; [lia | reflexivity]. }
  destruct (faults w (length (calls w))) as [e|] eqn:Hf; cbn [fst snd];
    (split; [reflexivity|]; split; [reflexivity|]; split; [exists [op]; reflexivity|]);
    cbn [calls record_call]; intros j o e' Hj Hle Hop Hfault;
    destruct (Hlast _ _ Hj Hle) as [-> ->];
    (split; [congruence | rewrite length_app; cbn; lia]).
Qed.


Ltac transparency_step :=
  lazymatch goal with
  | |- error_transparent (bind _ _) => apply et_bind; [|intros ?]
  | |- error_transparent (ret _) => apply et_ret
  | |- error_transparent (throw _) => apply et_throw
  | |- error_transparent (engine_call _) => apply et_engine_call
  | |- error_transparent (modify _) => apply et_modify; reflexivity
  | |- error_transparent (if ?b then _ else _) => destruct b
  | |- error_transparent (match ?x with _ => _ end) => destruct x
  | |- error_transparent (let _ := _ in _) => cbv zeta
  | |- error_transparent (fun w => (_, w)) => apply et_read
  | |- _ => solve [auto 2 with promise]
  end.

Ltac transparency := repeat transparency_step.

Lemma et_Date_now : error_transparent Date_now.
Proof. intros w. apply propagates_local; reflexivity. Qed.

Lemma et_Math_random : error_transparent Math_random.
Proof. intros w. apply propagates_local; reflexivity. Qed.

Lemma et_process_stdout_write s : error_transparent (process_stdout_write s).
Proof. unfold process_stdout_write. transparency. Qed.

Lemma et_console_log s : error_transparent (console_log s).
Proof. unfold console_log. transparency. Qed.

#[local] Hint Resolve et_Date_now et_Math_random et_process_stdout_write
  et_console_log : promise.

Lemma et_createCollection name options :
  error_transparent (createCollection name options).
Proof.
  unfold createCollection. apply et_bind; [apply et_engine_call|]. intros _ w.
  destruct (db w !! name); apply propagates_local; reflexivity.
Qed.

Lemma et_insertMany collection data : error_transparent (insertMany collection data).
Proof. unfold insertMany. destruct data; transparency. Qed.

Lemma et_find_toArray collection query :
  error_transparent (find_toArray collection query).
Proof.
  unfold find_toArray. apply et_bind; [apply et_engine_call|]. intros _ w.
  apply propagates_local; reflexivity.
Qed.

Lemma et_deleteMany collection query : error_transparent (deleteMany collection query).
Proof. unfold deleteMany. transparency. Qed.

Lemma et_command_collStats name : error_transparent (command_collStats name).
Proof.
  unfold command_collStats. apply et_bind; [apply et_engine_call|]. intros _ w.
  apply propagates_local; reflexivity.
Qed.

Lemma et_command_buildInfo : error_transparent command_buildInfo.
Proof.
  unfold command_buildInfo. apply et_bind; [apply et_engine_call|]. intros _ w.
  apply propagates_local; reflexivity.
Qed.

Lemma et_MongoMemoryReplSet_create : error_transparent MongoMemoryReplSet_create.
Proof. unfold MongoMemoryReplSet_create. transparency. Qed.

Lemma et_client_connect : error_transparent client_connect.
Proof. unfold client_connect. transparency. Qed.

Lemma et_client_close : error_transparent client_close.
Proof. unfold client_close. transparency. Qed.

Lemma et_replSet_stop : error_transparent replSet_stop.
Proof. unfold replSet_stop. transparency. Qed.

(** A drop whose rejection is ignored: whatever happens to its engine call,
    the step is fulfilled; the call it makes is a drop. *)
Lemma et_drop_ignoring_errors collection :
  error_transparent (drop_ignoring_errors collection).
Proof.
  intros w. unfold drop_ignoring_errors, catch, drop, bind, engine_call, ret.
  assert (Hgoal : forall (r : Settled unit) w',
            faults w' = faults w -> stderr w' = stderr w ->
            calls w' = calls w ++ [OpDrop] -> propagates w r w').
  { intros r w' Hf He Hc. split; [exact Hf|]. split; [exact He|]. split; [eauto|].
    intros j op e Hj Hle Hop _. exfalso. rewrite Hc in Hj.
    apply lookup_app_Some in Hj. destruct Hj as [Hj|[_ Hj]].
    - apply lookup_lt_Some in Hj. lia.
    - destruct (j - length (calls w))%nat; cbn in Hj; [congruence | discriminate]. }
  destruct (faults w (length (calls w))); cbn [fst snd];
    [apply Hgoal; reflexivity|].
  change (db (record_call OpDrop w)) with (db w).
  destruct (db w !! collection); cbn [fst snd]; apply Hgoal; reflexivity.
Qed.

#[local] Hint Resolve et_createCollection et_insertMany et_find_toArray et_deleteMany
  et_command_collStats et_command_buildInfo et_MongoMemoryReplSet_create
  et_client_connect et_client_close et_replSet_stop et_drop_ignoring_errors : promise.

Lemma et_measureInsertSpeed c d : error_transparent (measureInsertSpeed c d).
Proof. unfold measureInsertSpeed. transparency. Qed.
Lemma et_measureQuerySpeed c q : error_transparent (measureQuerySpeed c q).
Proof. unfold measureQuerySpeed. transparency. Qed.
Lemma et_measureDeleteSpeed c q : error_transparent (measureDeleteSpeed c q).
Proof. unfold measureDeleteSpeed. transparency. Qed.
Lemma et_getCollectionStats n : error_transparent (getCollectionStats n).
Proof. unfold getCollectionStats. transparency. Qed.

Lemma et_runMultipleTests_loop {T} H (f : Promise T) n :
  error_transparent f -> forall i acc, error_transparent (runMultipleTests_loop H f n i acc).
Proof.
  intros Hf. induction n as [|n IH]; intros i acc; cbn [runMultipleTests_loop].
  - apply et_ret.
  - transparency; auto.
Qed.

Lemma et_runMultipleTests {T} H (f : Promise T) runs description :
  error_transparent f -> error_transparent (runMultipleTests H f runs description).
Proof.
  intros Hf. unfold runMultipleTests. transparency.
  all: try (apply et_runMultipleTests_loop; exact Hf).
Qed.

Lemma et_printSeparator c n : error_transparent (printSeparator c n).
Proof. unfold printSeparator. transparency. Qed.

Lemma et_printTitle t : error_transparent (printTitle t).
Proof. unfold printTitle, printSeparator. transparency. Qed.

Lemma et_Array_from_loop {A} (mapFn : nat -> Promise A) n :
  (forall i, error_transparent (mapFn i)) ->
  forall i, error_transparent (Array_from_loop mapFn n i).
Proof.
  intros Hf. induction n as [|n IH]; intros i; cbn [Array_from_loop].
  - apply et_ret.
  - transparency; auto.
Qed.

Lemma et_generateData H count : error_transparent (generateData H count).
Proof.
  unfold generateData, Array_from. transparency.
  all: try (apply et_Array_from_loop; intros i; transparency).
Qed.

Lemma et_for_of {A} (l : list A) body :
  (forall x, error_transparent (body x)) -> error_transparent (for_of l body).
Proof.
  intros Hb. induction l as [|x l IH]; cbn [for_of]; transparency; auto.
Qed.

#[local] Hint Resolve et_measureInsertSpeed et_measureQuerySpeed et_measureDeleteSpeed
  et_getCollectionStats et_printSeparator et_printTitle et_generateData : promise.

Lemma et_run_size H size : error_transparent (run_size H size).
Proof.
  unfold run_size, insert_phase, reset_collections, insert_trials,
    reload_collections, storage_report, query_trials, delete_trials.
  transparency; try (apply et_runMultipleTests; transparency).
Qed.

Lemma et_run H : error_transparent (run H).
Proof.
  unfold run. transparency.
  all: try (apply et_for_of; intros size; apply et_run_size).
Qed.

Lemma et_MainTs_run_size H c size : error_transparent (MainTs.run_size H c size).
Proof. unfold MainTs.run_size. transparency. Qed.

Lemma et_MainTs_run H : error_transparent (MainTs.run H).
Proof.
  unfold MainTs.run. transparency.
  all: try (apply et_for_of; intros size; apply et_MainTs_run_size).
Qed.

Lemma client_close_then_stop w u w' :
  (client_close ;; replSet_stop) w = (Fulfilled u, w') ->
  connected w' = false /\ host_running w' = false.
Proof.
  intros E. unfold client_close, replSet_stop in E.
  apply bind_fulfilled_inv in E. destruct E as (? & w1 & E1 & E).
  apply bind_fulfilled_inv in E1. destruct E1 as (? & w0 & _ & E1).
  apply bind_fulfilled_inv in E. destruct E as (? & w2 & E2 & E).
  unfold modify in E1, E. inversion E1. inversion E. subst.
  unfold engine_call in E2. destruct (faults _ _); inversion E2.
  split; reflexivity.
Qed.

Ltac peel_to_close E :=
  repeat lazymatch type of E with
  | bind client_close _ _ = _ => fail
  | bind _ _ _ = _ =>
      apply bind_fulfilled_inv in E; destruct E as (? & ? & _ & E)
  end.

Lemma run_fulfilled_released H w u w' :
  run H w = (Fulfilled u, w') -> connected w' = false /\ host_running w' = false.
Proof.
  intros E. unfold run in E. peel_to_close E.
  eapply client_close_then_stop. exact E.
Qed.

Lemma MainTs_run_fulfilled_released H w u w' :
  MainTs.run H w = (Fulfilled u, w') -> connected w' = false /\ host_running w' = false.
Proof.
  intros E. unfold MainTs.run in E. peel_to_close E.
  eapply client_close_then_stop. exact E.
Qed.

Lemma top_level_outcome (body : Promise unit) w :
  (forall e w1, body w = (Rejected e, w1) ->
     top_level body w = (Fulfilled tt, put_stderr e w1))
  /\ (forall w1, body w = (Fulfilled tt, w1) -> top_level body w = (Fulfilled tt, w1)).
Proof.
  unfold top_level, catch, console_error, modify. split.
  - intros e w1 ->. reflexivity.
  - intros w1 ->. reflexivity.
Qed.


(** ** The insert phase *)

(** *** What a fulfilled step has done to the database *)

Lemma engine_call_fulfilled_inv op w u w' :
  engine_call op w = (Fulfilled u, w') -> w' = record_call op w.
Proof. unfold engine_call. destruct (faults _ _); intros E; inversion E. reflexivity. Qed.

Lemma generateData_fulfilled_inv H count w data w' :
  generateData H count w = (Fulfilled data, w') ->
  data = map (fun j => record_at H w j j) (seq 0 count)
  /\ w' = advance_reads count w /\ length data = count.
Proof.
  intros E. destruct (Z_le_gt_dec (Z.of_nat count) 4294967295) as [Hle|Hgt].
  - rewrite generateData_closed_form in E by exact Hle. inversion E.
    repeat split. rewrite length_map, length_seq. reflexivity.
  - rewrite generateData_too_long in E by lia. discriminate.
Qed.

Lemma deleteMany_fulfilled_inv collection query w u w' :
  deleteMany collection query w = (Fulfilled u, w') ->
  db w' = alter (remove_docs query) collection (db w).
Proof.
  unfold deleteMany. intros E. apply bind_fulfilled_inv in E.
  destruct E as (? & w1 & E1 & E). apply engine_call_fulfilled_inv in E1. subst w1.
  unfold modify in E. inversion E. reflexivity.
Qed.

Lemma createCollection_fulfilled_inv name options w h w' :
  createCollection name options w = (Fulfilled h, w') ->
  h = name /\ db w' = <[name := {| timeseries := options; docs := [] |}]> (db w).
Proof.
  unfold createCollection. intros E. apply bind_fulfilled_inv in E.
  destruct E as (? & w1 & E1 & E). apply engine_call_fulfilled_inv in E1. subst w1.
  change (db (record_call OpCreateCollection w)) with (db w) in E.
  destruct (db w !! name); inversion E. split; reflexivity.
Qed.

Lemma insertMany_fulfilled_inv collection data w u w' :
  insertMany collection data w = (Fulfilled u, w') ->
  data <> [] /\ db w' = <[collection := append_docs data (db w !! collection)]> (db w).
Proof.
  unfold insertMany. destruct data as [|d data]; [intros E; discriminate E|].
  intros E. apply bind_fulfilled_inv in E.
  destruct E as (? & w1 & E1 & E). apply engine_call_fulfilled_inv in E1. subst w1.
  unfold modify in E. inversion E. split; [discriminate | reflexivity].
Qed.

Lemma drop_ignoring_errors_other collection other w r w' :
  drop_ignoring_errors collection w = (r, w') -> other <> collection ->
  db w' !! other = db w !! other.
Proof.
  unfold drop_ignoring_errors, catch, drop, bind, engine_call, ret.
  destruct (faults w (length (calls w))).
  - intros E. inversion E. reflexivity.
  - change (db (record_call OpDrop w)) with (db w).
    destruct (db w !! collection); intros E Hne; inversion E; [|reflexivity].
    cbn [db set_db record_call]. apply lookup_delete_ne. congruence.
Qed.

Lemma remove_docs_all c : docs (remove_docs MatchAll c) = [].
Proof.
  unfold remove_docs. cbn [docs matches negb]. induction (docs c); [reflexivity | assumption].
Qed.

Lemma reload_collections_populates H size h w hf w' :
  h = "timeSeriesCollection" ->
  reload_collections H size h w = (Fulfilled hf, w') ->
  exists w0 finalData,
    generateData H size w0 = (Fulfilled finalData, advance_reads size w0)
    /\ length finalData = size
    /\ docs <$> (db w' !! "generalCollection") = Some finalData
    /\ docs <$> (db w' !! "timeSeriesCollection") = Some finalData
    /\ hf = "timeSeriesCollection".
Proof.
  unfold reload_collections. intros -> E.
  apply bind_fulfilled_inv in E. destruct E as (finalData & w1 & Eg & E).
  apply bind_fulfilled_inv in E. destruct E as (? & w2 & Ed & E).
  apply bind_fulfilled_inv in E. destruct E as (? & w3 & Edrop & E).
  apply bind_fulfilled_inv in E. destruct E as (h' & w4 & Ec & E).
  apply bind_fulfilled_inv in E. destruct E as (? & w5 & Ei1 & E).
  apply bind_fulfilled_inv in E. destruct E as (? & w6 & Ei2 & E).
  unfold ret in E. inversion E. subst hf w6. clear E.
  pose proof Eg as Eg'. apply generateData_fulfilled_inv in Eg'. destruct Eg' as (_ & Hw1 & Hlen).
  apply deleteMany_fulfilled_inv in Ed.
  apply createCollection_fulfilled_inv in Ec. destruct Ec as [-> Ec].
  apply insertMany_fulfilled_inv in Ei1. destruct Ei1 as [_ Ei1].
  apply insertMany_fulfilled_inv in Ei2. destruct Ei2 as [_ Ei2].
  assert (Hg3 : db w3 !! "generalCollection" = db w2 !! "generalCollection").
  { eapply drop_ignoring_errors_other; [exact Edrop | discriminate]. }
  exists w, finalData. subst w1.
  split; [exact Eg|]. split; [exact Hlen|].
  unfold generalCollection, db_collection in *.
  change (db (advance_reads size w)) with (db w) in Ed.
  assert (Hg4 : docs <$> (db w5 !! "generalCollection") = Some finalData).
  { rewrite Ei1, lookup_insert_eq, Ec, lookup_insert_ne by discriminate.
    rewrite Hg3, Ed, lookup_alter_eq.
    destruct (db w !! "generalCollection") as [c|]; [|reflexivity].
    cbn [fmap option_fmap option_map append_docs docs]. rewrite remove_docs_all. reflexivity. }
  assert (Ht5 : db w5 !! "timeSeriesCollection"
                = Some {| timeseries := timeSeriesOptions; docs := [] |}).
  { rewrite Ei1, lookup_insert_ne by discriminate. rewrite Ec, lookup_insert_eq. reflexivity. }
  split; [|split; [|reflexivity]].
  - rewrite Ei2, lookup_insert_ne by discriminate. exact Hg4.
  - rewrite Ei2, lookup_insert_eq, Ht5. reflexivity.
Qed.

(** *** Where no engine call fails, every step is fulfilled *)

Lemma fulfils_ret {A} (a : A) (Q : A -> Prop) : Q a -> fulfils (ret a) Q.
Proof. intros HQ w Hnf. exists a, w. repeat split; assumption. Qed.

Lemma fulfils_bind {A B} (m : Promise A) (k : A -> Promise B) Q R :
  fulfils m Q -> (forall a, Q a -> fulfils (k a) R) -> fulfils (bind m k) R.
Proof.
  intros Hm Hk w Hnf. destruct (Hm w Hnf) as (a & w1 & E1 & Hnf1 & HQ).
  destruct (Hk a HQ w1 Hnf1) as (b & w2 & E2 & Hnf2 & HR).
  exists b, w2. rewrite (bind_fulfilled _ _ _ _ _ E1). repeat split; assumption.
Qed.

Lemma fulfils_weaken {A} (m : Promise A) (Q R : A -> Prop) :
  fulfils m Q -> (forall a, Q a -> R a) -> fulfils m R.
Proof.
  intros Hm HQR w Hnf. destruct (Hm w Hnf) as (a & w1 & E1 & Hnf1 & HQ).
  exists a, w1. repeat split; auto.
Qed.

Lemma fulfils_any {A} (m : Promise A) (Q : A -> Prop) :
  fulfils m Q -> fulfils m (fun _ => True).
Proof. intros Hm. eapply fulfils_weaken; [exact Hm | auto]. Qed.

Lemma fulfils_modify f :
  (forall w, faults (f w) = faults w) -> fulfils (modify f) (fun _ => True).
Proof.
  intros Hf w Hnf. exists tt, (f w). repeat split. intros k. rewrite Hf. apply Hnf.
Qed.

Lemma fulfils_engine_call op : fulfils (engine_call op) (fun _ => True).
Proof.
  intros w Hnf. exists tt, (record_call op w). unfold engine_call. rewrite Hnf.
  repeat split. exact Hnf.
Qed.

Lemma fulfils_read {A} (f : World -> A) : fulfils (fun w => (Fulfilled (f w), w)) (fun _ => True).
Proof. intros w Hnf. exists (f w), w. repeat split. exact Hnf. Qed.

Lemma fulfils_Date_now : fulfils Date_now (fun _ => True).
Proof. intros w Hnf. eexists _, _. repeat split. exact Hnf. Qed.

Lemma fulfils_Math_random : fulfils Math_random (fun _ => True).
Proof. intros w Hnf. eexists _, _. repeat split. exact Hnf. Qed.

Create HintDb fulfilment discriminated.

Ltac fulfilment_step :=
  lazymatch goal with
  | |- fulfils (bind _ _) _ => eapply fulfils_bind; [|intros ? ?]
  | |- fulfils (ret _) _ => apply fulfils_ret
  | |- fulfils (engine_call _) _ => apply fulfils_engine_call
  | |- fulfils (modify _) _ => apply fulfils_modify; reflexivity
  | |- fulfils (if ?b then _ else _) _ => destruct b
  | |- fulfils (let _ := _ in _) _ => cbv zeta
  | |- fulfils (fun w => (Fulfilled _, w)) _ => apply fulfils_read
  | |- fulfils _ (fun _ => True) => solve [eauto 3 using fulfils_any with fulfilment]
  | |- _ => solve [eauto 2 with fulfilment]
  end.

Ltac fulfilment := repeat fulfilment_step.

Lemma fulfils_process_stdout_write s : fulfils (process_stdout_write s) (fun _ => True).
Proof. unfold process_stdout_write. fulfilment. Qed.

Lemma fulfils_console_log s : fulfils (console_log s) (fun _ => True).
Proof. unfold console_log. fulfilment. Qed.

Lemma fulfils_deleteMany collection query :
  fulfils (deleteMany collection query) (fun _ => True).
Proof. unfold deleteMany. fulfilment. Qed.

Lemma fulfils_insertMany collection data :
  data <> [] -> fulfils (insertMany collection data) (fun _ => True).
Proof. intros Hd. unfold insertMany. destruct data; [congruence|]. fulfilment. Qed.

#[local] Hint Resolve fulfils_Date_now fulfils_Math_random fulfils_process_stdout_write
  fulfils_console_log fulfils_deleteMany fulfils_insertMany : fulfilment.

Lemma fulfils_printSeparator c n : fulfils (printSeparator c n) (fun _ => True).
Proof. unfold printSeparator. fulfilment. Qed.

Lemma fulfils_measureInsertSpeed collection data :
  data <> [] -> fulfils (measureInsertSpeed collection data) (fun _ => True).
Proof. intros Hd. unfold measureInsertSpeed. fulfilment. Qed.

(** A drop whose errors are ignored, followed by the creation of the
    collection it dropped. *)
Lemma drop_then_create name options w :
  no_faults w ->
  exists w1 w2,
    drop_ignoring_errors name w = (Fulfilled tt, w1)
    /\ createCollection name options w1 = (Fulfilled name, w2)
    /\ no_faults w2.
Proof.
  intros Hnf.
  assert (E1 : exists w1, drop_ignoring_errors name w = (Fulfilled tt, w1)
                          /\ no_faults w1 /\ db w1 !! name = None).
  { unfold drop_ignoring_errors, catch, drop, bind, engine_call, ret. rewrite Hnf.
    change (db (record_call OpDrop w)) with (db w).
    destruct (db w !! name) eqn:El.
    - eexists. split; [reflexivity|]. split; [exact Hnf|].
      cbn [db set_db record_call]. apply lookup_delete_eq.
    - eexists. split; [reflexivity|]. split; [exact Hnf | exact El]. }
  destruct E1 as (w1 & E1 & Hnf1 & Habsent).
  exists w1. eexists. split; [exact E1|]. split.
  - unfold createCollection, bind, engine_call. rewrite Hnf1.
    change (db (record_call OpCreateCollection w1)) with (db w1). rewrite Habsent.
    reflexivity.
  - exact Hnf1.
Qed.

Lemma fulfils_drop_then_create name options :
  fulfils (drop_ignoring_errors name ;; createCollection name options)
          (fun h => h = name).
Proof.
  intros w Hnf. destruct (drop_then_create name options w Hnf) as (w1 & w2 & E1 & E2 & Hnf2).
  exists name, w2. rewrite (bind_fulfilled _ _ _ _ _ E1). repeat split; assumption.
Qed.

Lemma fulfils_drop_then_create_bind {B} name options (k : string -> Promise B) Q :
  fulfils (k name) Q ->
  fulfils (drop_ignoring_errors name ;; h <- createCollection name options ;; k h) Q.
Proof.
  intros Hk w Hnf. destruct (drop_then_create name options w Hnf) as (w1 & w2 & E1 & E2 & Hnf2).
  rewrite (bind_fulfilled _ _ _ _ _ E1), (bind_fulfilled _ _ _ _ _ E2). apply Hk. exact Hnf2.
Qed.

Lemma fulfils_runMultipleTests_loop {T} H (f : Promise T) n :
  fulfils f (fun _ => True) ->
  forall i acc, fulfils (runMultipleTests_loop H f n i acc) (fun _ => True).
Proof.
  intros Hf. induction n as [|n IH]; intros i acc; cbn [runMultipleTests_loop]; fulfilment.
  all: try exact I; try apply IH.
Qed.

Lemma fulfils_runMultipleTests {T} H (f : Promise T) runs description :
  fulfils f (fun _ => True) ->
  fulfils (runMultipleTests H f runs description) (fun _ => True).
Proof.
  intros Hf. unfold runMultipleTests. fulfilment.
  all: try exact I; try (apply fulfils_runMultipleTests_loop; exact Hf).
Qed.

Lemma fulfils_generateData H size :
  (0 < size)%nat -> Z.of_nat size <= 4294967295 ->
  fulfils (generateData H size) (fun data => data <> []).
Proof.
  intros Hpos Hmax w Hnf. eexists _, _.
  split; [apply generateData_closed_form; exact Hmax|]. split; [exact Hnf|].
  destruct size; [lia|]. cbn [seq map]. discriminate.
Qed.

#[local] Hint Resolve fulfils_printSeparator fulfils_measureInsertSpeed
  fulfils_generateData : fulfilment.

(** The steps of the orchestrator: a drop is taken together with the
    creation that follows it. *)
Ltac fulfilment_step ::=
  lazymatch goal with
  | |- fulfils (bind (drop_ignoring_errors _) (fun _ => bind (createCollection _ _) _)) _ =>
      apply fulfils_drop_then_create_bind
  | |- fulfils (bind (drop_ignoring_errors _) (fun _ => createCollection _ _)) _ =>
      apply fulfils_drop_then_create
  | |- fulfils (runMultipleTests _ _ _ _) _ => apply fulfils_runMultipleTests
  | |- fulfils (bind _ _) _ => eapply fulfils_bind; [|cbv beta; intros ? ?]
  | |- fulfils (ret _) _ => apply fulfils_ret
  | |- fulfils (engine_call _) _ => apply fulfils_engine_call
  | |- fulfils (modify _) _ => apply fulfils_modify; reflexivity
  | |- fulfils (if ?b then _ else _) _ => destruct b
  | |- fulfils (let _ := _ in _) _ => cbv zeta
  | |- fulfils (fun w => (Fulfilled _, w)) _ => apply fulfils_read
  | |- fulfils _ (fun _ => True) => solve [eauto 3 using fulfils_any with fulfilment]
  | |- _ => solve [eauto 2 with fulfilment]
  end.

Lemma fulfils_insert_phase H size :
  (0 < size)%nat -> Z.of_nat size <= 4294967295 ->
  fulfils (insert_phase H size) (fun _ => True).
Proof.
  intros Hpos Hmax.
  unfold insert_phase, reset_collections.
  eapply fulfils_bind with (Q := fun h => h = "timeSeriesCollection").
  - fulfilment.
  - intros h ->. unfold insert_trials, reload_collections.
    fulfilment.
Qed.

Lemma reset_collections_handle H size w h w' :
  reset_collections H size w = (Fulfilled h, w') -> h = "timeSeriesCollection".
Proof.
  unfold reset_collections. intros E.
  repeat (apply bind_fulfilled_inv in E; destruct E as (? & ? & _ & E)).
  destruct (db _ !! _); inversion E. reflexivity.
Qed.

Lemma dataSizes_are_lengths :
  Forall (fun size => (0 < size)%nat /\ Z.of_nat size <= 4294967295) dataSizes.
Proof.
  unfold dataSizes. cbn [map].
  repeat (apply List.Forall_cons; [split; lia|]). apply List.Forall_nil.
Qed.

(** The storage report reads the database and leaves it as it is. *)
Lemma storage_report_keeps_db H w u w' :
  storage_report H w = (Fulfilled u, w') -> db w' = db w.
Proof.
  unfold storage_report, getCollectionStats, command_collStats. intros E.
  apply bind_fulfilled_inv in E. destruct E as (s1 & w1 & E1 & E).
  apply bind_fulfilled_inv in E1. destruct E1 as (? & w1' & E1 & E1').
  apply bind_fulfilled_inv in E1. destruct E1 as (? & w0 & E0 & E1).
  apply engine_call_fulfilled_inv in E0. inversion E1. unfold ret in E1'. inversion E1'.
  subst. clear E1 E1'.
  apply bind_fulfilled_inv in E. destruct E as (s2 & w2 & E2 & E).
  apply bind_fulfilled_inv in E2. destruct E2 as (? & w2' & E2 & E2').
  apply bind_fulfilled_inv in E2. destruct E2 as (? & w3 & E3 & E2).
  apply engine_call_fulfilled_inv in E3. inversion E2. unfold ret in E2'. inversion E2'.
  subst. clear E2 E2'.
  unfold console_log, modify in E.
  repeat (apply bind_fulfilled_inv in E; destruct E as (? & ? & Ec & E);
          inversion Ec; subst; clear Ec).
  cbv zeta in E. destruct (gtb _ _); inversion E; reflexivity.
Qed.

(** C6.  For a data size that is a valid non-zero array length, as the
    sizes of the loop are: whenever the script reaches the point where the
    insert phase is over and the storage report begins, the general
    collection and the time-series collection each hold exactly the [size]
    documents of one and the same freshly generated batch, and the storage
    report leaves them so for the query phase; and where no engine call
    fails the script does reach that point. *)
Theorem insert_phase_populates_both_collections (H : Host) (size : nat) (w : World) :
  (0 < size)%nat -> Z.of_nat size <= 4294967295 ->
  (forall h w',
     insert_phase H size w = (Fulfilled h, w') ->
     exists w0 finalData,
       generateData H size w0 = (Fulfilled finalData, advance_reads size w0)
       /\ length finalData = size
       /\ docs <$> (db w' !! "generalCollection") = Some finalData
       /\ docs <$> (db w' !! "timeSeriesCollection") = Some finalData)
  /\ (forall h w' u w'',
        insert_phase H size w = (Fulfilled h, w') ->
        storage_report H w' = (Fulfilled u, w'') -> db w'' = db w')
  /\ (no_faults w -> exists h w', insert_phase H size w = (Fulfilled h, w'))
  /\ run_size H size
     = (finalTimeSeriesCollection <- insert_phase H size ;;
        storage_report H ;;
        query_trials H finalTimeSeriesCollection ;;
        delete_trials H size finalTimeSeriesCollection)
  /\ Forall (fun size => (0 < size)%nat /\ Z.of_nat size <= 4294967295) dataSizes.
Proof.
  intros Hpos Hmax.
  split; [|split; [|split; [|split; [reflexivity | apply dataSizes_are_lengths]]]].
  2: { intros h w' u w'' _ E. eapply storage_report_keeps_db. exact E. }
  - intros h w' E. unfold insert_phase in E.
    apply bind_fulfilled_inv in E. destruct E as (h1 & w1 & Er & E).
    apply bind_fulfilled_inv in E. destruct E as (? & w2 & _ & E).
    apply reset_collections_handle in Er.
    destruct (reload_collections_populates H size h1 w2 h w' Er E)
      as (w0 & finalData & Hg & Hlen & Hgen & Hts & _).
    exists w0, finalData. repeat split; assumption.
  - intros Hnf. destruct (fulfils_insert_phase H size Hpos Hmax w Hnf) as (h & w' & E & _).
    exists h, w'. exact E.
Qed.

Lemma insert_phase_populates_both_collections_witness :
  let w := world_with_clock (fun k => 1700000000000 + Z.of_nat k) in
  (0 < 1000)%nat /\ no_faults w
  /\ exists h w', insert_phase plain_host (Z.to_nat 1000) w = (Fulfilled h, w').
Proof.
  intros w. split; [lia|]. assert (Hnf : no_faults w) by (intros k; reflexivity).
  split; [exact Hnf|].
  apply (insert_phase_populates_both_collections plain_host (Z.to_nat 1000) w); [lia | lia | exact Hnf].
Defined.
Lemma Qcpower_ofZ k n : (Qc_ofZ k ^ n)%Qc = Qc_ofZ (k ^ Z.of_nat n).
Proof.
  induction n as [|n IH].
  - reflexivity.
  - rewrite Nat2Z.inj_succ, Z.pow_succ_r by lia. rewrite Qc_ofZ_mul, <- IH. reflexivity.
Qed.

Lemma Qc_powZ_ofZ k i : 0 <= i -> Qc_powZ (Qc_ofZ k) i = Qc_ofZ (k ^ i).
Proof.
  intros Hi. destruct i as [|p|p]; [reflexivity| |lia].
  unfold Qc_powZ. rewrite Qcpower_ofZ, positive_nat_Z. reflexivity.
Qed.

Lemma Math_pow_ofZ H k i :
  0 < k -> 0 <= i -> Math_pow H (ofZ k) (ofZ i) = Fin (Qc_ofZ (k ^ i)).
Proof.
  intros Hk Hi. unfold Math_pow, ofZ. fold (Qc_ofZ i) (Qc_ofZ k).
  assert (Hb : Qc_sign (Qc_ofZ k) = Gt).
  { apply Qc_sign_Gt. change qzero with (Qc_ofZ 0). apply Qc_ofZ_lt. exact Hk. }
  rewrite Hb, Qc_is_integer_ofZ, Qc_floor_ofZ, Qc_powZ_ofZ by exact Hi.
  destruct (Qc_sign (Qc_ofZ i)) eqn:E; try reflexivity.
  apply Qc_sign_Eq in E. change qzero with (Qc_ofZ 0) in E. apply Qc_ofZ_inj in E.
  subst i. reflexivity.
Qed.

Lemma formatBytes_scaled H a i :
  (Q2Qc 1 <= a)%Qc -> 0 <= i ->
  Math_floor_log_ratio (Fin a) 1024 = ofZ i ->
  (Qc_ofZ (1024 ^ i) <= a)%Qc -> (a < Qc_ofZ (1024 ^ (i + 1)))%Qc ->
  formatBytes H (Fin a)
  = Number_toString H
      (Fin (Qc_ofZ (round_scaled (a / Qc_ofZ (1024 ^ i)) 2) / Qc_pow10 2)%Qc)
    +:+ " " +:+ string_or_undefined (array_get ["Bytes"; "KB"; "MB"; "GB"]%string (ofZ i)).
Proof.
  intros Ha Hi Hlog Hlo Hhi. unfold formatBytes.
  assert (E0 : eqb (Fin a) (ofZ 0) = false).
  { unfold ofZ. cbn [eqb]. destruct (Qc_eqb _ _) eqn:E; [|reflexivity].
    apply Qc_eqb_true in E. subst a. exfalso. revert Ha. apply Qclt_not_le. reflexivity. }
  rewrite E0. cbv zeta. rewrite Hlog, Math_pow_ofZ by lia.
  assert (Hc : (qzero < Qc_ofZ (1024 ^ i))%Qc).
  { change qzero with (Qc_ofZ 0). apply Qc_ofZ_lt. apply Z.pow_pos_nonneg; lia. }
  rewrite div_Fin by (intros E; rewrite E in Hc; exact (Qclt_not_eq _ _ Hc eq_refl)).
  assert (Hb : (Q2Qc 1 <= a / Qc_ofZ (1024 ^ i))%Qc /\ (a / Qc_ofZ (1024 ^ i) < Qc_ofZ 1024)%Qc).
  { apply Qc_div_bounds; [exact Hc | rewrite Qcmult_1_l; exact Hlo |].
    rewrite <- Qc_ofZ_mul. replace (1024 * 1024 ^ i) with (1024 ^ (i + 1)); [exact Hhi|].
    rewrite Z.pow_add_r by lia. lia. }
  destruct Hb as [Hb1 Hb2].
  rewrite parseFloat_toFixed; [reflexivity | lia | |].
  - eapply Qcle_trans; [|exact Hb1]. discriminate.
  - eapply Qclt_trans; [exact Hb2|]. reflexivity.
Qed.

Lemma Qc_ofZ_le_inv a b : (Qc_ofZ a <= Qc_ofZ b)%Qc -> a <= b.
Proof.
  intros Hle. destruct (Z_lt_le_dec b a) as [Hlt|Hge]; [|exact Hge].
  exfalso. apply Qc_ofZ_lt in Hlt. exact (Qclt_not_le _ _ Hlt Hle).
Qed.

(** The value rounded to two decimals is within half a hundredth of the
    value, and stays between the bounds of the value. *)
Lemma round_scaled_close v :
  (Q2Qc 1 <= v)%Qc -> (v < Qc_ofZ 1024)%Qc ->
  let q := (Qc_ofZ (round_scaled v 2) / Qc_pow10 2)%Qc in
  (Q2Qc 1 <= q)%Qc /\ (q <= Qc_ofZ 1024)%Qc
  /\ (q - v <= Q2Qc (1 # 200))%Qc /\ (v - q < Q2Qc (1 # 200))%Qc.
Proof.
  intros H1 H2 q. unfold round_scaled in q.
  change (Qc_pow10 2) with (Q2Qc 100) in *.
  set (x := (v * Q2Qc 100 + Q2Qc (1 # 2))%Qc) in *.
  destruct (Qc_floor_spec x) as [Hlo Hhi].
  set (n := Qc_floor x) in *.
  assert (Hn1 : 100 <= n).
  { assert (Hlt : (Qc_ofZ 100 < Qc_ofZ (n + 1))%Qc).
    { eapply Qclt_trans; [|exact Hhi]. unfold x. unfold Qc_ofZ. qc_to_q. lra. }
    apply Qc_ofZ_lt_inv in Hlt. lia. }
  assert (Hn2 : n <= 102400).
  { assert (Hlt : (Qc_ofZ n < Qc_ofZ 102401)%Qc).
    { eapply Qcle_lt_trans; [exact Hlo|]. unfold x. unfold Qc_ofZ in *. qc_to_q. lra. }
    apply Qc_ofZ_lt_inv in Hlt. lia. }
  assert (Hq : (q * Q2Qc 100)%Qc = Qc_ofZ n) by (unfold q; field; discriminate).
  rewrite Qc_ofZ_add in Hhi. rewrite <- Hq in Hlo, Hhi.
  apply Qc_ofZ_le in Hn1, Hn2. rewrite <- Hq in Hn1, Hn2.
  clearbody q. unfold x in *. unfold Qc_ofZ in *.
  repeat split; qc_to_q; lra.
Qed.

(** X1.  For a whole number of bytes [n] with [1 <= n < 1024^4], which is
    what [collStats] reports, [formatBytes] writes a number and one of the
    units Bytes, KB, MB, GB: the unit has the index [i] with
    [1024^i <= n < 1024^(i+1)], and the number is [n / 1024^i] rounded to
    two decimals, so it is within [0.005] of that quotient and lies between
    1 and 1024.  (For these sizes the quotient is exact in doubles, a power
    of two being the divisor, and the floor of the ratio of the logarithms
    is the exact one.)  The upper end is reached: [formatBytes(1048575)] is
    ["1024 KB"], not ["1 MB"]; and [formatBytes(1023)] is ["1023 Bytes"]. *)
Theorem formatBytes_rounding (H : Host) :
  (forall n : Z, 1 <= n < 1024 ^ 4 ->
     exists (i : Z) (unit : string) (q : Qc),
       0 <= i <= 3
       /\ nth_error ["Bytes"; "KB"; "MB"; "GB"]%string (Z.to_nat i) = Some unit
       /\ 1024 ^ i <= n < 1024 ^ (i + 1)
       /\ formatBytes H (ofZ n) = Number_toString H (Fin q) +:+ " " +:+ unit
       /\ q = (Qc_ofZ (round_scaled (Qc_ofZ n / Qc_ofZ (1024 ^ i)) 2) / Qc_pow10 2)%Qc
       /\ (Q2Qc 1 <= q)%Qc /\ (q <= Qc_ofZ 1024)%Qc
       /\ (q - Qc_ofZ n / Qc_ofZ (1024 ^ i) <= Q2Qc (1 # 200))%Qc
       /\ (Qc_ofZ n / Qc_ofZ (1024 ^ i) - q < Q2Qc (1 # 200))%Qc)
  /\ formatBytes H (ofZ 1048575) = "1024 KB"%string
  /\ formatBytes H (ofZ 1023) = "1023 Bytes"%string.
Proof.
  split; [|split; reflexivity].
  intros n Hn. set (a := Qc_ofZ n).
  assert (Ha : (Q2Qc 1 <= a)%Qc) by (apply (Qc_ofZ_le 1 n); lia).
  assert (Hmax : (a < Qc_ofZ (1024 ^ 4))%Qc) by (apply Qc_ofZ_lt; lia).
  destruct (Qc_floor_log_spec 1024 a ltac:(lia) Ha) as (Hi & Hlo & Hhi).
  set (i := Qc_floor_log 1024 a) in *.
  assert (Hi3 : i <= 3).
  { assert (Hlt : 1024 ^ i < 1024 ^ 4).
    { apply Qc_ofZ_lt_inv. eapply Qcle_lt_trans; [exact Hlo | exact Hmax]. }
    apply Z.pow_lt_mono_r_iff in Hlt; lia. }
  assert (Hlog : Math_floor_log_ratio (Fin a) 1024 = ofZ i).
  { unfold Math_floor_log_ratio.
    assert (Hs : Qc_sign a = Gt).
    { apply Qc_sign_Gt. eapply Qclt_le_trans; [|exact Ha]. reflexivity. }
    rewrite Hs. reflexivity. }
  assert (Hc : (qzero < Qc_ofZ (1024 ^ i))%Qc).
  { change qzero with (Qc_ofZ 0). apply Qc_ofZ_lt. apply Z.pow_pos_nonneg; lia. }
  assert (Hb : (Q2Qc 1 <= a / Qc_ofZ (1024 ^ i))%Qc /\ (a / Qc_ofZ (1024 ^ i) < Qc_ofZ 1024)%Qc).
  { apply Qc_div_bounds; [exact Hc | rewrite Qcmult_1_l; exact Hlo |].
    rewrite <- Qc_ofZ_mul. replace (1024 * 1024 ^ i) with (1024 ^ (i + 1)); [exact Hhi|].
    rewrite Z.pow_add_r by lia. lia. }
  destruct (round_scaled_close _ (proj1 Hb) (proj2 Hb)) as (Hq1 & Hq2 & Hq3 & Hq4).
  pose proof (formatBytes_scaled H a i Ha Hi Hlog Hlo Hhi) as Hf.
  rewrite array_get_ofZ in Hf by lia.
  assert (Hu : exists unit, nth_error ["Bytes"; "KB"; "MB"; "GB"]%string (Z.to_nat i) = Some unit).
  { assert (Hcase : i = 0 \/ i = 1 \/ i = 2 \/ i = 3) by lia.
    destruct Hcase as [-> | [-> | [-> | ->]]]; eexists; reflexivity. }
  destruct Hu as (unit & Hu). rewrite Hu in Hf. cbn [string_or_undefined] in Hf.
  exists i, unit, (Qc_ofZ (round_scaled (a / Qc_ofZ (1024 ^ i)) 2) / Qc_pow10 2)%Qc.
  split; [lia|]. split; [exact Hu|].
  split; [split; [apply Qc_ofZ_le_inv; exact Hlo | apply Qc_ofZ_lt_inv; exact Hhi]|].
  split; [exact Hf|]. split; [reflexivity|].
  split; [exact Hq1|]. split; [exact Hq2|]. split; [exact Hq3 | exact Hq4].
Qed.

Lemma formatBytes_rounding_witness :
  1 <= 1572864 < 1024 ^ 4
  /\ exists (i : Z) (unit : string) (q : Qc),
       formatBytes plain_host (ofZ 1572864)
       = Number_toString plain_host (Fin q) +:+ " " +:+ unit
       /\ (q <= Qc_ofZ 1024)%Qc.
Proof.
  assert (Hn : 1 <= 1572864 < 1024 ^ 4) by (cbn; lia).
  split; [exact Hn|].
  destruct (proj1 (formatBytes_rounding plain_host) _ Hn)
    as (i & unit & q & _ & _ & _ & Hf & _ & _ & Hq & _).
  exists i, unit, q. split; [exact Hf | exact Hq].
Defined.

Lemma ilog_down_ge fuel : forall k a j, j <= ilog_down fuel k a j.
Proof.
  induction fuel as [|fuel IH]; intros k a j; cbn [ilog_down]; [lia|].
  destruct (Qc_leb _ _); [lia|]. specialize (IH k (a * Qc_ofZ k)%Qc (j + 1)). lia.
Qed.

Lemma array_get_outside {A} (arr : list A) i :
  i < 0 \/ Z.of_nat (length arr) <= i -> array_get arr (ofZ i) = None.
Proof.
  intros Hi. unfold array_get, ofZ. fold (Qc_ofZ i).
  rewrite Qc_is_integer_ofZ, Qc_floor_ofZ. cbn [andb].
  destruct (0 <=? i) eqn:E; [|reflexivity].
  apply Z.leb_le in E. apply nth_error_None. lia.
Qed.

(** X2.  Outside [[1, 1024^4)] and apart from [0], [formatBytes] names no
    unit.  For [NaN], the infinities and every negative size the result is
    ["NaN undefined"]; for a size strictly between 0 and 1, where the unit
    index is negative, and for every finite size from [1024^4] on, where it
    is 4 or more, the result ends in [" undefined"]: [formatBytes(0.5)] is
    ["512 undefined"] and [formatBytes(3 * 1024^4)] is ["3 undefined"]. *)
Theorem formatBytes_out_of_range (H : Host) :
  formatBytes H NaN = "NaN undefined"%string
  /\ formatBytes H PInf = "NaN undefined"%string
  /\ formatBytes H NInf = "NaN undefined"%string
  /\ formatBytes H (Fin (Q2Qc (1 # 2))) = "512 undefined"%string
  /\ formatBytes H (ofZ (3 * 1024 ^ 4)) = "3 undefined"%string
  /\ (forall a : Qc, (a < qzero)%Qc -> formatBytes H (Fin a) = "NaN undefined"%string)
  /\ (forall a : Qc, (qzero < a)%Qc -> (a < Q2Qc 1)%Qc ->
        exists s : string, formatBytes H (Fin a) = s +:+ " undefined")
  /\ (forall a : Qc, (Qc_ofZ (1024 ^ 4) <= a)%Qc ->
        exists s : string, formatBytes H (Fin a) = s +:+ " undefined").
Proof.
  split; [reflexivity|]. split; [reflexivity|]. split; [reflexivity|].
  split; [reflexivity|]. split; [reflexivity|]. split; [|split].
  - intros a Ha. unfold formatBytes.
    assert (E0 : eqb (Fin a) (ofZ 0) = false).
    { unfold ofZ. cbn [eqb]. destruct (Qc_eqb _ _) eqn:E; [|reflexivity].
      apply Qc_eqb_true in E. subst a. exfalso. exact (Qclt_not_eq _ _ Ha eq_refl). }
    rewrite E0. cbv zeta. unfold Math_floor_log_ratio.
    rewrite (proj2 (Qc_sign_Lt a) Ha). reflexivity.
  - intros a H0 H1.
    assert (E1 : Qc_leb (Q2Qc 1) a = false).
    { destruct (Qc_leb (Q2Qc 1) a) eqn:E; [|reflexivity].
      apply Qc_leb_true in E. exfalso. exact (Qclt_not_le _ _ H1 E). }
    set (j := ilog_down (S (Z.to_nat (Z.log2 (Zpos (Qden a))))) 1024 a 1).
    assert (Hj : 1 <= j) by apply ilog_down_ge.
    assert (Hlog : Math_floor_log_ratio (Fin a) 1024 = ofZ (- j)).
    { unfold Math_floor_log_ratio. rewrite (proj2 (Qc_sign_Gt a) H0).
      unfold Qc_floor_log. rewrite E1. reflexivity. }
    eexists. unfold formatBytes.
    assert (E0 : eqb (Fin a) (ofZ 0) = false).
    { unfold ofZ. cbn [eqb]. destruct (Qc_eqb _ _) eqn:E; [|reflexivity].
      apply Qc_eqb_true in E. subst a. exfalso. exact (Qclt_not_eq _ _ H0 eq_refl). }
    rewrite E0. cbv zeta. rewrite Hlog, array_get_outside by lia. reflexivity.
  - intros a Ha.
    assert (Ha1 : (Q2Qc 1 <= a)%Qc) by (eapply Qcle_trans; [|exact Ha]; discriminate).
    destruct (Qc_floor_log_spec 1024 a ltac:(lia) Ha1) as (Hi & Hlo & Hhi).
    set (i := Qc_floor_log 1024 a) in *.
    assert (Hi4 : 4 <= i).
    { assert (Hlt : 1024 ^ 4 < 1024 ^ (i + 1)).
      { apply Qc_ofZ_lt_inv. eapply Qcle_lt_trans; [exact Ha | exact Hhi]. }
      apply Z.pow_lt_mono_r_iff in Hlt; lia. }
    assert (Hlog : Math_floor_log_ratio (Fin a) 1024 = ofZ i).
    { unfold Math_floor_log_ratio.
      assert (Hs : Qc_sign a = Gt).
      { apply Qc_sign_Gt. eapply Qclt_le_trans; [|exact Ha1]. reflexivity. }
      rewrite Hs. reflexivity. }
    eexists.
    rewrite (formatBytes_scaled H a i Ha1 Hi Hlog Hlo Hhi).
    rewrite array_get_outside by (cbn [length]; lia). reflexivity.
Qed.

Lemma formatBytes_out_of_range_witness :
  (Qc_ofZ (-5) < qzero)%Qc
  /\ formatBytes plain_host (ofZ (-5)) = "NaN undefined"%string
  /\ (Qc_ofZ (1024 ^ 4) <= Qc_ofZ (5 * 1024 ^ 4))%Qc
  /\ exists s : string, formatBytes plain_host (ofZ (5 * 1024 ^ 4)) = s +:+ " undefined".
Proof.
  assert (H1 : (Qc_ofZ (-5) < qzero)%Qc) by reflexivity.
  assert (H2 : (Qc_ofZ (1024 ^ 4) <= Qc_ofZ (5 * 1024 ^ 4))%Qc) by discriminate.
  destruct (formatBytes_out_of_range plain_host) as (_ & _ & _ & _ & _ & Hneg & _ & Hbig).
  split; [exact H1|]. split; [exact (Hneg _ H1)|]. split; [exact H2|].
  exact (Hbig _ H2).
Defined.



(** ** More on the statistics *)

(** [qc_to_q], with the operations rewritten at every depth. *)
Ltac qc_to_q_deep :=
  unfold Qcle, Qclt, Qcdiv, Qcminus, qzero, Qc_ofZ in *;
  repeat match goal with
  | H : ?a = ?b :> Qc |- _ => apply Qc_eq_Qeq in H
  | |- ?a = ?b :> Qc => apply Qc_is_canon
  end;
  repeat (rewrite this_plus in * || rewrite this_mult in * || rewrite this_opp in *
          || rewrite this_inv in * || rewrite this_Q2Qc in *);
  unfold inject_Z in *.

Lemma calculateStats_median_Fin H qs :
  qs <> [] ->
  median (calculateStats H (map Fin qs)) = Fin (central (sort_ascending qs)).
Proof.
  intros Hne. unfold calculateStats. cbn [median]. rewrite Array_sort_Fin.
  apply median_central.
  intros E. apply Hne. apply Permutation_nil. rewrite <- E. apply sort_ascending_perm.
Qed.

Lemma Qc_sum_bounds (qs : list Qc) lo hi :
  (forall q, In q qs -> (lo <= q <= hi)%Qc) ->
  (lo * Qc_ofZ (Z.of_nat (length qs)) <= Qc_sum qs)%Qc
  /\ (Qc_sum qs <= hi * Qc_ofZ (Z.of_nat (length qs)))%Qc.
Proof.
  induction qs as [|q qs IH]; intros Hall.
  - cbn. change (Qc_ofZ 0) with qzero. unfold qzero. rewrite !Qcmult_0_r.
    split; apply Qcle_refl.
  - destruct IH as [IH1 IH2]; [intros x Hx; apply Hall; right; exact Hx|].
    destruct (Hall q (or_introl eq_refl)) as [Hq1 Hq2].
    cbn [length Qc_sum fold_right]. fold (Qc_sum qs).
    rewrite Nat2Z.inj_succ. unfold Z.succ. rewrite Qc_ofZ_add.
    set (L := Qc_ofZ (Z.of_nat (length qs))) in *. clearbody L.
    set (S := Qc_sum qs) in *. clearbody S.
    split; qc_to_q_deep; nra.
Qed.

Lemma Qc_quotient_bounds a c lo hi :
  (qzero < c)%Qc -> (lo * c <= a)%Qc -> (a <= hi * c)%Qc ->
  (lo <= a / c)%Qc /\ (a / c <= hi)%Qc.
Proof.
  intros Hc Hlo Hhi.
  assert (Hne : c <> qzero) by (intros ->; exact (Qclt_not_eq _ _ Hc eq_refl)).
  set (x := (a / c)%Qc).
  assert (Hx : a = (x * c)%Qc) by (unfold x; field; exact Hne).
  clearbody x. subst a. split; qc_to_q; nra.
Qed.

(** *** Equal measurements *)

Lemma stats_eq (s : Stats) a b c d e :
  mean s = a -> min s = b -> max s = c -> stdDev s = d -> median s = e ->
  s = {| mean := a; min := b; max := c; stdDev := d; median := e |}.
Proof. destruct s. cbn. intros -> -> -> -> ->. reflexivity. Qed.

(** *** The order of the measurements *)

(** X6.  The [min], the [max] and the [median] that [calculateStats]
    returns for finite values do not depend on the order of the values: the
    function sorts a copy of its argument. *)
Theorem calculateStats_order_independent (H : Host) (qs qs' : list Qc) :
  Permutation qs qs' ->
  let s := calculateStats H (map Fin qs) in
  let s' := calculateStats H (map Fin qs') in
  min s = min s' /\ max s = max s' /\ median s = median s'.
Proof.
  intros Hp s s'. destruct qs as [|q0 qs].
  - apply Permutation_nil in Hp. subst qs'. repeat split; reflexivity.
  - destruct qs' as [|q0' qs'];
      [apply Permutation_sym, Permutation_nil in Hp; discriminate|].
    destruct (Math_min_Fin q0 qs) as (lo & Hmin & Hlo_in & Hlo).
    destruct (Math_min_Fin q0' qs') as (lo' & Hmin' & Hlo_in' & Hlo').
    destruct (Math_max_Fin q0 qs) as (hi & Hmax & Hhi_in & Hhi).
    destruct (Math_max_Fin q0' qs') as (hi' & Hmax' & Hhi_in' & Hhi').
    split; [|split].
    + change (min s) with (Math_min (map Fin (q0 :: qs))).
      change (min s') with (Math_min (map Fin (q0' :: qs'))).
      rewrite Hmin, Hmin'. f_equal. apply Qcle_antisym.
      * apply Hlo. eapply Permutation_in; [symmetry; exact Hp | exact Hlo_in'].
      * apply Hlo'. eapply Permutation_in; [exact Hp | exact Hlo_in].
    + change (max s) with (Math_max (map Fin (q0 :: qs))).
      change (max s') with (Math_max (map Fin (q0' :: qs'))).
      rewrite Hmax, Hmax'. f_equal. apply Qcle_antisym.
      * apply Hhi'. eapply Permutation_in; [exact Hp | exact Hhi_in].
      * apply Hhi. eapply Permutation_in; [symmetry; exact Hp | exact Hhi_in'].
    + unfold s, s'. rewrite !calculateStats_median_Fin by discriminate.
      f_equal. f_equal.
      apply sorted_perm_unique; try apply sort_ascending_sorted.
      rewrite !sort_ascending_perm. exact Hp.
Qed.

Lemma calculateStats_order_independent_witness :
  let qs := [Qc_ofZ 7; Qc_ofZ 3; Qc_ofZ 12] in
  let qs' := [Qc_ofZ 3; Qc_ofZ 12; Qc_ofZ 7] in
  Permutation qs qs'
  /\ median (calculateStats plain_host (map Fin qs))
     = median (calculateStats plain_host (map Fin qs')).
Proof.
  intros qs qs'.
  assert (Hp : Permutation qs qs').
  { unfold qs, qs'. apply Permutation_cons_app with (l1 := [Qc_ofZ 3; Qc_ofZ 12]) (l2 := []).
    reflexivity. }
  split; [exact Hp|].
  exact (proj2 (proj2 (calculateStats_order_independent plain_host qs qs' Hp))).
Defined.

(** *** A measurement that is not a number *)

Lemma add_NaN_r x : add x NaN = NaN.
Proof. destruct x; reflexivity. Qed.

Lemma fold_add_NaN (f : number -> number) l :
  fold_left (fun sum val => add sum (f val)) l NaN = NaN.
Proof. induction l as [|x l IH]; [reflexivity|]. cbn [fold_left]. exact IH. Qed.

Lemma fold_add_reaches_NaN (f : number -> number) l :
  (exists x, In x l /\ f x = NaN) ->
  forall a, fold_left (fun sum val => add sum (f val)) l a = NaN.
Proof.
  induction l as [|y l IH]; intros (x & Hin & Hx) a; [destruct Hin|].
  cbn [fold_left]. destruct Hin as [->|Hin].
  - rewrite Hx, add_NaN_r. apply fold_add_NaN.
  - apply IH. exists x. split; assumption.
Qed.

Lemma min2_NaN_r x : min2 x NaN = NaN.
Proof. destruct x; reflexivity. Qed.
Lemma max2_NaN_r x : max2 x NaN = NaN.
Proof. destruct x; reflexivity. Qed.

Lemma fold_min2_reaches_NaN l : In NaN l -> forall a, fold_left min2 l a = NaN.
Proof.
  induction l as [|y l IH]; intros Hin a; [destruct Hin|].
  cbn [fold_left]. destruct Hin as [->|Hin]; [|apply IH; exact Hin].
  rewrite min2_NaN_r. clear. induction l as [|x l IH]; [reflexivity | exact IH].
Qed.

Lemma fold_max2_reaches_NaN l : In NaN l -> forall a, fold_left max2 l a = NaN.
Proof.
  induction l as [|y l IH]; intros Hin a; [destruct Hin|].
  cbn [fold_left]. destruct Hin as [->|Hin]; [|apply IH; exact Hin].
  rewrite max2_NaN_r. clear. induction l as [|x l IH]; [reflexivity | exact IH].
Qed.

(** X7.  One [NaN] among the values makes [mean], [min], [max] and
    [stdDev] of [calculateStats] all [NaN]: the function does not filter its
    input. *)
Theorem calculateStats_NaN (H : Host) (values : list number) :
  In NaN values ->
  let s := calculateStats H values in
  mean s = NaN /\ min s = NaN /\ max s = NaN /\ stdDev s = NaN.
Proof.
  intros Hin s.
  assert (Hmean : mean s = NaN).
  { unfold s, calculateStats. cbn [mean].
    rewrite (fold_add_reaches_NaN (fun v => v)); [reflexivity|].
    exists NaN. split; [exact Hin | reflexivity]. }
  split; [exact Hmean|]. split; [|split].
  - apply fold_min2_reaches_NaN. exact Hin.
  - apply fold_max2_reaches_NaN. exact Hin.
  - unfold s, calculateStats in *. cbn [mean stdDev] in *. rewrite Hmean.
    rewrite (fold_add_reaches_NaN (fun val => Math_pow H (sub val NaN) (ofZ 2))); [reflexivity|].
    exists NaN. split; [exact Hin | reflexivity].
Qed.

Lemma calculateStats_NaN_witness :
  In NaN [ofZ 12; NaN; ofZ 7]
  /\ mean (calculateStats plain_host [ofZ 12; NaN; ofZ 7]) = NaN.
Proof.
  assert (Hin : In NaN [ofZ 12; NaN; ofZ 7]) by (right; left; reflexivity).
  split; [exact Hin|]. exact (proj1 (calculateStats_NaN plain_host _ Hin)).
Defined.

Section StatisticsOnDoubles.

Import Double.

(** ** The statistics on doubles *)

Lemma round_not_NaN a : round a <> NaN.
Proof.
  destruct (Qc_sign_cases a) as [-> | [Ha | Ha]]; [discriminate | |].
  - destruct (round_pos a Ha) as [[-> _] | (r & -> & _)]; discriminate.
  - destruct (round_neg a Ha) as [[-> _] | (r & -> & _)]; discriminate.
Qed.

Lemma round_overflow (x : Qc) : (pow2 1024 <= x)%Q -> round x = PInf.
Proof.
  intros Hx. pose proof (pow2_pos 1024) as Hp.
  assert (Hpos : (0 < x)%Q) by lra.
  destruct (binade_spec x Hpos) as [H1 H2].
  assert (He : 1024 < binade x + 1) by (apply pow2_lt_inv; lra).
  pose proof (round_positive_lower x Hpos ltac:(lia)) as Hl.
  pose proof (pow2_le 1024 (binade x) ltac:(lia)) as Hle.
  destruct (round_pos x Hpos) as [[E _] | (r & _ & _ & Hr)]; [exact E | exfalso; lra].
Qed.

Lemma round_underflow (x : Qc) : (x <= - pow2 1024)%Q -> round x = NInf.
Proof.
  intros Hx. pose proof (pow2_pos 1024) as Hp.
  assert (Hneg : (x < 0)%Q) by lra.
  assert (Hpos : (0 < - x)%Q) by lra.
  destruct (binade_spec (- x)%Q Hpos) as [H1 H2].
  assert (He : 1024 < binade (- x)%Q + 1) by (apply pow2_lt_inv; lra).
  pose proof (round_positive_lower (- x)%Q Hpos ltac:(lia)) as Hl.
  pose proof (pow2_le 1024 (binade (- x)%Q) ltac:(lia)) as Hle.
  destruct (round_neg x Hneg) as [[E _] | (r & _ & _ & Hr)]; [exact E | exfalso; lra].
Qed.

Lemma round_finite (x t : Qc) :
  round x = Fin t -> (- pow2 1024 < t)%Q /\ (t < pow2 1024)%Q.
Proof.
  intros E. pose proof (pow2_pos 1024) as Hp.
  destruct (Qc_sign_cases x) as [-> | [Hx | Hx]].
  - injection E as <-. change (this qzero) with 0%Q. lra.
  - destruct (round_pos x Hx) as [[E' _] | (r & E' & Er & Hr)]; [congruence|].
    rewrite E in E'. injection E' as <-.
    pose proof (round_positive_nonneg x Hx). lra.
  - destruct (round_neg x Hx) as [[E' _] | (r & E' & Er & Hr)]; [congruence|].
    rewrite E in E'. injection E' as <-.
    pose proof (round_positive_nonneg (- x)%Q ltac:(lra)). lra.
Qed.

Lemma round_positive_multiple b k :
  (0 < b)%Q -> (b == inject_Z k * pow2 (ulp_exponent (binade b)))%Q ->
  (round_positive b == b)%Q.
Proof.
  intros Hb E. unfold round_positive. set (u := ulp_exponent (binade b)) in *.
  pose proof (pow2_pos u) as Hu.
  assert (Ek : (b / pow2 u == inject_Z k)%Q) by (rewrite E; field; lra).
  rewrite (nearest_even_comp _ _ Ek), nearest_even_inject. symmetry. exact E.
Qed.

Lemma pow2_succ e : (pow2 (e + 1) == 2 * pow2 e)%Q.
Proof. rewrite pow2_add. change (pow2 1) with 2%Q. ring. Qed.

(** Twice a double is a double, short of an overflow. *)
Lemma round_positive_twice (a : Q) :
  (0 < a)%Q -> (round_positive a == a)%Q -> (round_positive (2 * a) == 2 * a)%Q.
Proof.
  intros Ha E. destruct (binade_spec a Ha) as [H1 H2].
  assert (He : binade (2 * a)%Q = binade a + 1).
  { apply binade_unique; rewrite !pow2_succ in *; lra. }
  unfold round_positive in E. set (u := ulp_exponent (binade a)) in *.
  set (k := nearest_even (a / pow2 u)) in *.
  destruct (Z_lt_le_dec (binade a) (-1022)) as [Hs|Hn].
  - apply (round_positive_multiple _ (2 * k)); [lra|].
    rewrite He. replace (ulp_exponent (binade a + 1)) with u
      by (unfold u, ulp_exponent; lia).
    rewrite inject_Z_mult. change (inject_Z 2) with 2%Q. lra.
  - apply (round_positive_multiple _ k); [lra|].
    rewrite He. replace (ulp_exponent (binade a + 1)) with (u + 1)
      by (unfold u, ulp_exponent; lia).
    rewrite pow2_succ. lra.
Qed.

Lemma is_double_twice (a : Qc) :
  is_double a -> (- pow2 1024 < 2 * a)%Q -> (2 * a < pow2 1024)%Q ->
  is_double (a + a)%Qc.
Proof.
  intros Hd Hlo Hhi. pose proof (this_plus a a) as Es.
  destruct (Qc_sign_cases a) as [-> | [Ha | Ha]].
  - exact Hd.
  - apply (is_double_pos a Ha) in Hd. destruct Hd as [E _].
    apply is_double_pos; [lra|]. split; [|lra].
    rewrite (round_positive_comp _ (2 * a)%Q) by lra.
    rewrite round_positive_twice by assumption. lra.
  - apply (is_double_neg a Ha) in Hd. destruct Hd as [E _].
    apply is_double_neg; [lra|]. split; [|lra].
    rewrite (round_positive_comp _ (2 * - a)%Q) by lra.
    rewrite round_positive_twice by (try lra; assumption). lra.
Qed.

Lemma half_sum_ge (x y t : Qc) :
  is_double x -> (x <= y)%Qc -> round (x + y) = Fin t -> (2 * x <= t)%Q.
Proof.
  intros Hx Hxy E. pose proof (round_finite _ _ E) as [Ht1 Ht2].
  unfold Qcle in Hxy. pose proof (this_plus x y) as Es.
  destruct (Qlt_le_dec (- pow2 1024) (2 * x)) as [Hlo|Hlo]; [|lra].
  destruct (Qlt_le_dec (2 * x) (pow2 1024)) as [Hhi|Hhi].
  - pose proof (is_double_twice x Hx Hlo Hhi) as Hd.
    assert (Hle : (x + x <= x + y)%Qc).
    { unfold Qcle. rewrite !this_plus. lra. }
    pose proof (round_ge _ _ Hd Hle) as Hg. rewrite E in Hg.
    apply leb_Fin_Q in Hg. rewrite this_plus in Hg. lra.
  - rewrite round_overflow in E by lra. discriminate.
Qed.

Lemma half_sum_le (x y t : Qc) :
  is_double y -> (x <= y)%Qc -> round (x + y) = Fin t -> (t <= 2 * y)%Q.
Proof.
  intros Hy Hxy E. pose proof (round_finite _ _ E) as [Ht1 Ht2].
  unfold Qcle in Hxy. pose proof (this_plus x y) as Es.
  destruct (Qlt_le_dec (2 * y) (pow2 1024)) as [Hhi|Hhi]; [|lra].
  destruct (Qlt_le_dec (- pow2 1024) (2 * y)) as [Hlo|Hlo].
  - pose proof (is_double_twice y Hy Hlo Hhi) as Hd.
    assert (Hle : (x + y <= y + y)%Qc).
    { unfold Qcle. rewrite !this_plus. lra. }
    pose proof (round_le _ _ Hd Hle) as Hg. rewrite E in Hg.
    apply leb_Fin_Q in Hg. rewrite this_plus in Hg. lra.
  - rewrite round_underflow in E by lra. discriminate.
Qed.

Lemma div_by_two t : JS.div (Fin t) (ofZ 2) = Fin (t / Qc_ofZ 2)%Qc.
Proof. unfold ofZ. fold (Qc_ofZ 2). apply div_Fin. apply Qc_ofZ_nonzero. lia. Qed.

Lemma this_half (t : Qc) : ((t / Qc_ofZ 2)%Qc == t * (1 # 2))%Q.
Proof.
  unfold Qcdiv. rewrite this_mult, this_inv. unfold Qc_ofZ. rewrite this_Q2Qc.
  reflexivity.
Qed.

(** The halved sum of two doubles lies between them when it is finite. *)
Lemma midpoint_between (x y m : Qc) :
  is_double x -> is_double y -> (x <= y)%Qc -> midpoint x y = Fin m ->
  (x <= m)%Qc /\ (m <= y)%Qc.
Proof.
  intros Hx Hy Hxy E. unfold midpoint, Double.div, Double.add in E.
  rewrite add_Fin in E. cbn [rounded] in E.
  destruct (round (x + y)) as [| | |t] eqn:Et;
    try discriminate E.
  rewrite div_by_two in E. cbn [rounded] in E.
  pose proof (half_sum_ge x y t Hx Hxy Et) as H1.
  pose proof (half_sum_le x y t Hy Hxy Et) as H2.
  pose proof (this_half t) as Eh.
  split.
  - assert (Hle : (x <= t / Qc_ofZ 2)%Qc) by (unfold Qcle; lra).
    pose proof (round_ge _ _ Hx Hle) as Hg. rewrite E in Hg. apply leb_Fin, Hg.
  - assert (Hle : (t / Qc_ofZ 2 <= y)%Qc) by (unfold Qcle; lra).
    pose proof (round_le _ _ Hy Hle) as Hg. rewrite E in Hg. apply leb_Fin, Hg.
Qed.

(** *** Sorting doubles *)

Lemma sort_insert_double x l :
  is_double x -> Forall is_double l ->
  sort_insert (fun a b => Double.sub a b) (Fin x) (map Fin l)
  = map Fin (insert_ascending x l).
Proof.
  intros Hx Hl. induction Hl as [|y l Hy Hl IH]; [reflexivity|].
  cbn [map sort_insert insert_ascending].
  rewrite gtb_sub_double by assumption.
  destruct (Qc_ltb y x); cbn [map]; [rewrite IH|]; reflexivity.
Qed.

Lemma insert_ascending_Forall (P : Qc -> Prop) x l :
  P x -> Forall P l -> Forall P (insert_ascending x l).
Proof.
  intros Hx Hl. induction Hl as [|y l Hy Hl IH]; cbn [insert_ascending].
  - constructor; [exact Hx | constructor].
  - destruct (Qc_ltb y x); constructor; try assumption. constructor; assumption.
Qed.

Lemma sort_ascending_Forall (P : Qc -> Prop) l :
  Forall P l -> Forall P (sort_ascending l).
Proof.
  intros Hl. induction Hl as [|x l Hx Hl IH]; [constructor|].
  unfold sort_ascending in *. cbn [fold_right].
  apply insert_ascending_Forall; assumption.
Qed.

Lemma Array_sort_double l :
  Forall is_double l ->
  Array_sort (fun a b => Double.sub a b) (map Fin l) = map Fin (sort_ascending l).
Proof.
  intros Hl. induction Hl as [|x l Hx Hl IH]; [reflexivity|].
  unfold Array_sort in *. cbn [map fold_right sort_ascending]. rewrite IH.
  apply sort_insert_double; [exact Hx | apply sort_ascending_Forall, Hl].
Qed.

(** *** The central index *)

Lemma Math_floor_half_double z :
  0 <= z < 2 ^ 53 -> Math_floor (Double.div (ofZ z) (ofZ 2)) = ofZ (z / 2).
Proof.
  intros Hz. unfold Double.div. unfold ofZ at 1. fold (Qc_ofZ z).
  rewrite div_by_two. cbn [rounded].
  assert (E : (Qc_ofZ z / Qc_ofZ 2)%Qc = Q2Qc (inject_Z z * pow2 (-1))).
  { apply Qc_is_canon. rewrite this_half, this_Q2Qc. unfold Qc_ofZ.
    rewrite this_Q2Qc. reflexivity. }
  assert (Hd : is_double (Qc_ofZ z / Qc_ofZ 2)%Qc).
  { rewrite E. apply is_double_dyadic; lia. }
  rewrite Hd. unfold Math_floor. rewrite Qc_floor_half. reflexivity.
Qed.

Lemma median_of_sorted (S : list Qc) :
  S <> [] -> Z.of_nat (length S) < 2 ^ 53 ->
  let sorted := map Fin S in
  let len := Z.of_nat (length sorted) in
  let n := length S in
  (if (len mod 2 =? 0)%Z
   then Double.div
          (Double.add (number_or_undefined (array_get sorted (ofZ (len / 2 - 1))))
                      (number_or_undefined (array_get sorted (ofZ (len / 2)))))
          (ofZ 2)
   else number_or_undefined
          (array_get sorted (Math_floor (Double.div (ofZ len) (ofZ 2)))))
  = if (n mod 2 =? 0)%nat
    then midpoint (nth (n / 2 - 1) S qzero) (nth (n / 2) S qzero)
    else Fin (nth (n / 2) S qzero).
Proof.
  intros Hne Hbound sorted len n.
  assert (Hlen : len = Z.of_nat (length S)) by (unfold len, sorted; rewrite length_map; reflexivity).
  assert (Hpos : (0 < length S)%nat) by (destruct S; [congruence | simpl; lia]).
  rewrite Hlen, even_mod2. fold n.
  assert (Hhalf : Z.to_nat (Z.of_nat n / 2) = (n / 2)%nat).
  { change 2 with (Z.of_nat 2). rewrite <- Nat2Z.inj_div. apply Nat2Z.id. }
  assert (Hlt : (n / 2 < n)%nat) by (apply Nat.div_lt; unfold n; lia).
  destruct (n mod 2 =? 0)%nat eqn:E.
  - apply Nat.eqb_eq in E.
    assert (H2 : (2 <= n)%nat).
    { unfold n in *. destruct (length S) as [|[|k]]; [lia | discriminate | lia]. }
    assert (Hd : (1 <= n / 2)%nat) by (apply Nat.div_le_lower_bound; lia).
    assert (Hz : Z.of_nat n / 2 = Z.of_nat (n / 2)).
    { change 2 with (Z.of_nat 2). rewrite <- Nat2Z.inj_div. reflexivity. }
    unfold sorted. rewrite !array_get_Fin by (fold n; lia).
    rewrite Hhalf. replace (Z.to_nat (Z.of_nat n / 2 - 1)) with (n / 2 - 1)%nat by lia.
    reflexivity.
  - rewrite Math_floor_half_double by (fold n in Hbound; lia).
    unfold sorted. rewrite array_get_Fin.
    + rewrite Hhalf. reflexivity.
    + fold n. split; [apply Z.div_pos; lia | apply Z.div_lt_upper_bound; lia].
Qed.

(** *** Whole numbers *)

Lemma add_whole a z :
  Z.abs (a + z) <= 2 ^ 53 -> Double.add (ofZ a) (ofZ z) = ofZ (a + z).
Proof.
  intros Hb. unfold Double.add, ofZ. rewrite add_Fin. cbn [rounded].
  fold (Qc_ofZ a) (Qc_ofZ z) (Qc_ofZ (a + z)).
  rewrite <- Qc_ofZ_add. apply round_ofZ, Hb.
Qed.

Lemma fold_add_whole zs : forall a,
  Z.abs a + Z_sum_abs zs <= 2 ^ 53 ->
  fold_left (fun sum val => Double.add sum val) (map ofZ zs) (ofZ a) = ofZ (a + Z_sum zs).
Proof.
  induction zs as [|z zs IH]; intros a Hb; cbn [map fold_left Z_sum Z_sum_abs fold_right] in *.
  - f_equal. lia.
  - assert (Hnn : 0 <= Z_sum_abs zs).
    { clear. induction zs as [|y ys IHy]; cbn; [lia|]. unfold Z_sum_abs in IHy. lia. }
    fold (Z_sum_abs zs) in Hb. fold (Z_sum zs).
    rewrite add_whole by lia. rewrite IH by lia. f_equal. lia.
Qed.

Lemma Qc_sum_whole zs : Qc_sum (map Qc_ofZ zs) = Qc_ofZ (Z_sum zs).
Proof.
  induction zs as [|z zs IH]; [reflexivity|].
  cbn [map Qc_sum fold_right Z_sum]. fold (Qc_sum (map Qc_ofZ zs)) (Z_sum zs).
  rewrite IH, Qc_ofZ_add. reflexivity.
Qed.

Lemma Z_sum_abs_bound zs z : In z zs -> Z.abs z <= Z_sum_abs zs.
Proof.
  induction zs as [|y ys IH]; [intros []|].
  assert (Hnn : forall l, 0 <= Z_sum_abs l).
  { clear. induction l as [|y ys IHy]; cbn; [lia|]. unfold Z_sum_abs in IHy. lia. }
  cbn [Z_sum_abs fold_right]. fold (Z_sum_abs ys). pose proof (Hnn ys).
  intros [-> | Hin]; [lia | specialize (IH Hin); lia].
Qed.

Lemma whole_are_doubles zs :
  Z_sum_abs zs <= 2 ^ 53 -> Forall is_double (map Qc_ofZ zs).
Proof.
  intros Hb. apply List.Forall_forall. intros q Hq. apply in_map_iff in Hq.
  destruct Hq as (z & <- & Hz). apply is_double_ofZ.
  pose proof (Z_sum_abs_bound zs z Hz). lia.
Qed.

Lemma mean_of_whole H zs :
  zs <> [] -> Z_sum_abs zs <= 2 ^ 53 ->
  mean (Double.calculateStats H (map ofZ zs))
  = round (arithmetic_mean (map Qc_ofZ zs)).
Proof.
  intros Hne Hb. unfold Double.calculateStats. cbn [mean].
  rewrite (fold_add_whole zs 0) by (cbn; lia).
  rewrite length_map. unfold Double.div, ofNat, ofZ.
  fold (Qc_ofZ (0 + Z_sum zs)) (Qc_ofZ (Z.of_nat (length zs))).
  rewrite div_Fin by (apply Qc_ofZ_nonzero; destruct zs; [congruence | cbn; lia]).
  cbn [rounded]. unfold arithmetic_mean. rewrite Qc_sum_whole, length_map. reflexivity.
Qed.

Lemma fold_left_map_Fin (f : number -> number -> number) qs a :
  fold_left f (map Fin qs) a = fold_left (fun sum q => f sum (Fin q)) qs a.
Proof. revert a. induction qs as [|q qs IH]; intros a; [reflexivity|]. cbn. apply IH. Qed.

Lemma Fin_eq (a b : Qc) : (a == b)%Q -> Fin a = Fin b.
Proof. intros E. f_equal. apply Qc_is_canon, E. Qed.

Lemma midpoint_of_whole x y :
  Z.abs x <= 2 ^ 53 -> Z.abs y <= 2 ^ 53 ->
  exists m, midpoint (Qc_ofZ x) (Qc_ofZ y) = Fin m.
Proof.
  intros Hx Hy. unfold midpoint, Double.add, Double.div. rewrite add_Fin. cbn [rounded].
  change (2 ^ 53) with 9007199254740992 in *.
  assert (Hlo : is_double (Qc_ofZ (- 2 ^ 53))) by (apply is_double_ofZ; cbn; lia).
  assert (Hhi : is_double (Qc_ofZ (2 ^ 53))) by (apply is_double_ofZ; cbn; lia).
  assert (Hlo2 : is_double (Qc_ofZ (- 2 ^ 53) + Qc_ofZ (- 2 ^ 53))%Qc).
  { rewrite <- Qc_ofZ_add.
    replace (Qc_ofZ (- 2 ^ 53 + - 2 ^ 53)) with (Q2Qc (inject_Z (-1) * pow2 54)).
    - apply is_double_dyadic; lia.
    - apply Qc_is_canon. reflexivity. }
  assert (Hhi2 : is_double (Qc_ofZ (2 ^ 53) + Qc_ofZ (2 ^ 53))%Qc).
  { rewrite <- Qc_ofZ_add.
    replace (Qc_ofZ (2 ^ 53 + 2 ^ 53)) with (Q2Qc (inject_Z 1 * pow2 54)).
    - apply is_double_dyadic; lia.
    - apply Qc_is_canon. reflexivity. }
  rewrite <- !Qc_ofZ_add in Hlo2, Hhi2.
  change (- 2 ^ 53 + - 2 ^ 53) with (-18014398509481984) in Hlo2.
  change (2 ^ 53 + 2 ^ 53) with 18014398509481984 in Hhi2.
  rewrite <- Qc_ofZ_add.
  destruct (round_between _ _ (Qc_ofZ (x + y)) Hlo2 Hhi2) as (t & Et & Ht1 & Ht2);
    [apply Qc_ofZ_le; lia | apply Qc_ofZ_le; lia |].
  rewrite Et, div_by_two. cbn [rounded].
  pose proof (this_half t) as Eh.
  destruct (round_between _ _ (t / Qc_ofZ 2)%Qc Hlo2 Hhi2) as (m & Em & _).
  - unfold Qcle in *. rewrite Eh. unfold Qc_ofZ in *. rewrite this_Q2Qc in *.
    unfold inject_Z in *. lra.
  - unfold Qcle in *. rewrite Eh. unfold Qc_ofZ in *. rewrite this_Q2Qc in *.
    unfold inject_Z in *. lra.
  - exists m. exact Em.
Qed.

Section Summary.

Variable H : Host.

(** What [calculateStats] returns for doubles, field by field. *)
Lemma median_of_doubles (qs : list Qc) :
  qs <> [] -> Forall is_double qs -> Z.of_nat (length qs) <= 4294967295 ->
  let n := length qs in
  let sorted := sort_ascending qs in
  median (Double.calculateStats H (map Fin qs))
  = if (n mod 2 =? 0)%nat
    then midpoint (nth (n / 2 - 1) sorted qzero) (nth (n / 2) sorted qzero)
    else Fin (nth (n / 2) sorted qzero).
Proof.
  intros Hne Hd Hlen n sorted. unfold Double.calculateStats. cbn [median].
  rewrite Array_sort_double by exact Hd.
  assert (Hl : length (sort_ascending qs) = length qs)
    by (apply Permutation_length, sort_ascending_perm).
  pose proof (median_of_sorted (sort_ascending qs)) as Hm. cbv zeta in Hm.
  rewrite Hl in Hm. apply Hm.
  - intros E. apply Hne. apply Permutation_nil. rewrite <- E. apply sort_ascending_perm.
  - change (2 ^ 53) with 9007199254740992. lia.
Qed.

Lemma median_between_extrema (qs : list Qc) lo hi :
  qs <> [] -> Forall is_double qs -> Z.of_nat (length qs) <= 4294967295 ->
  (forall q, In q qs -> (lo <= q <= hi)%Qc) ->
  let s := Double.calculateStats H (map Fin qs) in
  ((length qs mod 2 = 1)%nat \/ exists m, median s = Fin m) ->
  exists m, median s = Fin m /\ (lo <= m <= hi)%Qc.
Proof.
  intros Hne Hd Hlen Hall s Hfin. unfold s in *.
  rewrite median_of_doubles in * by assumption. cbv zeta in *.
  set (n := length qs) in *. set (sorted := sort_ascending qs) in *.
  assert (Hp : Permutation sorted qs) by apply sort_ascending_perm.
  assert (Hl : length sorted = n) by (apply Permutation_length, Hp).
  assert (Hpos : (0 < n)%nat) by (unfold n; destruct qs; [congruence | simpl; lia]).
  assert (Hlt : (n / 2 < n)%nat) by (apply Nat.div_lt; lia).
  assert (Hin : forall i, (i < n)%nat ->
            is_double (nth i sorted qzero) /\ (lo <= nth i sorted qzero <= hi)%Qc).
  { intros i Hi. assert (Hi' : In (nth i sorted qzero) qs).
    { apply (Permutation_in _ Hp). apply nth_In. lia. }
    split; [|apply Hall, Hi'].
    rewrite List.Forall_forall in Hd. apply Hd, Hi'. }
  destruct (n mod 2 =? 0)%nat eqn:E.
  - apply Nat.eqb_eq in E.
    destruct Hfin as [Hodd | (m & Em)]; [lia|].
    assert (H2 : (2 <= n)%nat) by (destruct n as [|[|k]]; [lia | discriminate | lia]).
    assert (Hd2 : (1 <= n / 2)%nat) by (apply Nat.div_le_lower_bound; lia).
    destruct (Hin (n / 2 - 1)%nat ltac:(lia)) as (Hx & Hx1 & Hx2).
    destruct (Hin (n / 2)%nat Hlt) as (Hy & Hy1 & Hy2).
    assert (Hxy : (nth (n / 2 - 1) sorted qzero <= nth (n / 2) sorted qzero)%Qc).
    { pose proof (sort_ascending_sorted qs) as Hs. fold sorted in Hs.
      clear - Hs Hl Hlt Hd2.
      assert (G : forall (l : list Qc) i j, StronglySorted Qcle l -> (i <= j)%nat ->
                    (j < length l)%nat -> (nth i l qzero <= nth j l qzero)%Qc).
      { clear. induction l as [|a l IH]; intros i j Hs Hij Hj; [cbn in Hj; lia|].
        apply StronglySorted_inv in Hs. destruct Hs as [Hs Ha].
        destruct i as [|i]; destruct j as [|j]; cbn [nth]; try lia.
        - apply Qcle_refl.
        - rewrite List.Forall_forall in Ha. apply Ha, nth_In. cbn in Hj. lia.
        - apply IH; [exact Hs | lia | cbn in Hj; lia]. }
      apply G; [exact Hs | lia | lia]. }
    exists m. split; [exact Em|].
    destruct (midpoint_between _ _ m Hx Hy Hxy Em) as [Hm1 Hm2].
    split; [exact (Qcle_trans _ _ _ Hx1 Hm1) | exact (Qcle_trans _ _ _ Hm2 Hy2)].
  - eexists. split; [reflexivity|]. apply (Hin (n / 2)%nat Hlt).
Qed.

End Summary.

Lemma extrema_of_doubles H (qs : list Qc) :
  qs <> [] ->
  exists lo hi,
    min (Double.calculateStats H (map Fin qs)) = Fin lo
    /\ max (Double.calculateStats H (map Fin qs)) = Fin hi
    /\ In lo qs /\ In hi qs /\ forall q, In q qs -> (lo <= q <= hi)%Qc.
Proof.
  intros Hne. destruct qs as [|q0 qs]; [congruence|].
  destruct (Math_min_Fin q0 qs) as (lo & Hmin & Hlo_in & Hlo).
  destruct (Math_max_Fin q0 qs) as (hi & Hmax & Hhi_in & Hhi).
  exists lo, hi. repeat split; try assumption; [apply Hlo | apply Hhi]; assumption.
Qed.

(** The median of whole numbers is finite. *)
Lemma median_of_whole_finite H zs :
  zs <> [] -> Z_sum_abs zs <= 2 ^ 53 -> Z.of_nat (length zs) <= 4294967295 ->
  exists m, median (Double.calculateStats H (map Fin (map Qc_ofZ zs))) = Fin m.
Proof.
  intros Hne Hb Hlen.
  assert (Hne' : map Qc_ofZ zs <> []) by (destruct zs; [congruence | discriminate]).
  pose proof (whole_are_doubles zs Hb) as Hd.
  assert (Hlen' : Z.of_nat (length (map Qc_ofZ zs)) <= 4294967295)
    by (rewrite length_map; exact Hlen).
  rewrite median_of_doubles by assumption. cbv zeta.
  destruct (_ mod 2 =? 0)%nat; [|eexists; reflexivity].
  set (n := length (map Qc_ofZ zs)). set (sorted := sort_ascending (map Qc_ofZ zs)).
  assert (Hw : forall i, exists z, nth i sorted qzero = Qc_ofZ z /\ Z.abs z <= 2 ^ 53).
  { intros i. destruct (nth_in_or_default i sorted qzero) as [Hin | ->].
    - apply (Permutation_in _ (sort_ascending_perm _)) in Hin.
      apply in_map_iff in Hin. destruct Hin as (z & <- & Hz).
      exists z. split; [reflexivity|]. pose proof (Z_sum_abs_bound zs z Hz). lia.
    - exists 0. split; [reflexivity | cbn; lia]. }
  destruct (Hw (n / 2 - 1)%nat) as (x & -> & Hx).
  destruct (Hw (n / 2)%nat) as (y & -> & Hy).
  apply midpoint_of_whole; assumption.
Qed.

(** C1, as amended.  For a non-empty array of doubles [calculateStats]
    returns a summary in which [min] and [max] are the extrema; [median] is
    taken from the ascending arrangement of the values: the central one for
    an odd length, and for an even length the sum of the two central ones,
    rounded, then halved and rounded; [min <= median <= max] for an odd
    length and whenever the median is finite, that is unless the sum of the
    two central values overflows; [mean] is the sum of the values
    accumulated from left to right, each partial sum rounded, divided by
    the length and rounded; and [stdDev] is [Math.sqrt] of the variance,
    which is the rounded sum of the squares [Math.pow(v - mean, 2)] divided
    by the length.  For whole numbers whose absolute values add up to at
    most [2^53] the sum is exact: [mean] is the arithmetic mean rounded to
    the nearest double, and both [mean] and [median] lie between [min] and
    [max].  And [calculateStats([5])] is
    [{mean: 5, min: 5, max: 5, median: 5, stdDev: 0}]. *)
Theorem calculateStats_summary (H : Host) :
  (forall qs : list Qc,
     qs <> [] -> Forall is_double qs -> Z.of_nat (length qs) <= 4294967295 ->
     let s := Double.calculateStats H (map Fin qs) in
     let n := length qs in
     (exists lo hi, min s = Fin lo /\ max s = Fin hi /\ In lo qs /\ In hi qs
        /\ forall q, In q qs -> (lo <= q <= hi)%Qc)
     /\ (forall sorted, StronglySorted Qcle sorted -> Permutation sorted qs ->
           median s
           = if (n mod 2 =? 0)%nat
             then midpoint (nth (n / 2 - 1) sorted qzero) (nth (n / 2) sorted qzero)
             else Fin (nth (n / 2) sorted qzero))
     /\ ((n mod 2 = 1)%nat \/ (exists m, median s = Fin m) ->
           leb (min s) (median s) = true /\ leb (median s) (max s) = true)
     /\ mean s = Double.div (rounded_sum qs) (ofNat n)
     /\ stdDev s = Math_sqrt H (rounded_variance H qs (mean s)))
  /\ (forall zs : list Z,
        zs <> [] -> Z_sum_abs zs <= 2 ^ 53 -> Z.of_nat (length zs) <= 4294967295 ->
        let s := Double.calculateStats H (map ofZ zs) in
        mean s = round (arithmetic_mean (map Qc_ofZ zs))
        /\ leb (min s) (mean s) = true /\ leb (mean s) (max s) = true
        /\ leb (min s) (median s) = true /\ leb (median s) (max s) = true)
  /\ Double.calculateStats H [ofZ 5]
     = {| mean := ofZ 5; min := ofZ 5; max := ofZ 5; stdDev := ofZ 0; median := ofZ 5 |}.
Proof.
  split; [|split].
  - intros qs Hne Hd Hlen s n.
    destruct (extrema_of_doubles H qs Hne) as (lo & hi & Hmin & Hmax & Hlo & Hhi & Hall).
    fold s in Hmin, Hmax.
    split; [exists lo, hi; repeat split; try assumption; apply Hall; assumption|].
    split; [|split; [|split]].
    + intros sorted Hs Hp. unfold s. rewrite median_of_doubles by assumption. cbv zeta.
      fold n. replace sorted with (sort_ascending qs); [reflexivity|].
      apply sorted_perm_unique; [apply sort_ascending_sorted | exact Hs |].
      rewrite Hp. apply sort_ascending_perm.
    + intros Hfin.
      destruct (median_between_extrema H qs lo hi Hne Hd Hlen Hall Hfin) as (m & Em & Hm1 & Hm2).
      fold s in Em. rewrite Em, Hmin, Hmax. split; apply leb_Fin; assumption.
    + unfold s, Double.calculateStats. cbn [mean]. rewrite fold_left_map_Fin, length_map.
      reflexivity.
    + unfold s, Double.calculateStats. cbn [mean stdDev].
      rewrite !fold_left_map_Fin, length_map. reflexivity.
  - intros zs Hne Hb Hlen s.
    assert (Hmap : map ofZ zs = map Fin (map Qc_ofZ zs)) by (rewrite map_map; reflexivity).
    assert (Hne' : map Qc_ofZ zs <> []) by (destruct zs; [congruence | discriminate]).
    pose proof (whole_are_doubles zs Hb) as Hd.
    assert (Hlen' : Z.of_nat (length (map Qc_ofZ zs)) <= 4294967295)
      by (rewrite length_map; exact Hlen).
    destruct (extrema_of_doubles H _ Hne') as (lo & hi & Hmin & Hmax & Hlo & Hhi & Hall).
    rewrite <- Hmap in Hmin, Hmax. fold s in Hmin, Hmax.
    assert (Hmean : mean s = round (arithmetic_mean (map Qc_ofZ zs)))
      by (apply mean_of_whole; assumption).
    split; [exact Hmean|].
    assert (Hdlo : is_double lo) by (rewrite List.Forall_forall in Hd; apply Hd, Hlo).
    assert (Hdhi : is_double hi) by (rewrite List.Forall_forall in Hd; apply Hd, Hhi).
    assert (Hbetween : (lo <= arithmetic_mean (map Qc_ofZ zs)
                        /\ arithmetic_mean (map Qc_ofZ zs) <= hi)%Qc).
    { destruct (Qc_sum_bounds (map Qc_ofZ zs) lo hi Hall) as [Hs1 Hs2].
      unfold arithmetic_mean. apply Qc_quotient_bounds; [|exact Hs1 | exact Hs2].
      change qzero with (Qc_ofZ 0). apply Qc_ofZ_lt. rewrite length_map.
      destruct zs; [congruence | cbn [length]; lia]. }
    rewrite Hmean, Hmin, Hmax.
    split; [apply round_ge; [exact Hdlo | apply Hbetween]|].
    split; [apply round_le; [exact Hdhi | apply Hbetween]|].
    assert (Hfin : (length (map Qc_ofZ zs) mod 2 = 1)%nat
                   \/ exists m, median (Double.calculateStats H (map Fin (map Qc_ofZ zs))) = Fin m).
    { right. apply median_of_whole_finite; assumption. }
    destruct (median_between_extrema H _ lo hi Hne' Hd Hlen' Hall Hfin) as (m & Em & Hm1 & Hm2).
    rewrite <- Hmap in Em. fold s in Em. rewrite Em. split; apply leb_Fin; assumption.
  - apply stats_eq; vm_compute; first [reflexivity | apply Fin_eq; reflexivity].
Qed.

Lemma calculateStats_summary_witness :
  let H := plain_host in
  let qs := [Qc_ofZ 7; tenth; Qc_ofZ 12; Qc_ofZ 4] in
  (qs <> [] /\ Forall is_double qs /\ Z.of_nat (length qs) <= 4294967295)
  /\ leb (min (Double.calculateStats H (map Fin qs)))
         (median (Double.calculateStats H (map Fin qs))) = true.
Proof.
  intros H qs.
  assert (Hne : qs <> []) by discriminate.
  assert (Hd : Forall is_double qs).
  { repeat constructor; unfold is_double; vm_compute; apply Fin_eq; reflexivity. }
  assert (Hlen : Z.of_nat (length qs) <= 4294967295) by (cbn; lia).
  split; [repeat split; assumption|].
  destruct (proj1 (calculateStats_summary H) qs Hne Hd Hlen) as (_ & _ & Hle & _).
  apply Hle. right. vm_compute. eexists. reflexivity.
Defined.

(** The claim without the amendments fails on doubles.  The mean of three
    times [0.1] is not their arithmetic mean, [0.1]: the sum rounds up, and
    the mean is above the maximum.  The median of twice [2^1023] is
    [Infinity], above the maximum: the sum overflows. *)
Lemma calculateStats_rounds_and_overflows :
  (let s := Double.calculateStats plain_host (map Fin [tenth; tenth; tenth]) in
   Forall is_double [tenth; tenth; tenth]
   /\ arithmetic_mean [tenth; tenth; tenth] = tenth
   /\ eqb (mean s) (Fin tenth) = false
   /\ max s = Fin tenth
   /\ leb (mean s) (max s) = false)
  /\ (let s := Double.calculateStats plain_host (map Fin [huge; huge]) in
      Forall is_double [huge; huge]
      /\ max s = Fin huge
      /\ median s = PInf
      /\ leb (median s) (max s) = false).
Proof.
  split; cbv zeta.
  - split; [repeat constructor; unfold is_double; vm_compute; apply Fin_eq; reflexivity|].
    split; [apply Qc_is_canon; vm_compute; reflexivity|].
    split; [vm_compute; reflexivity|].
    split; [vm_compute; apply Fin_eq; reflexivity|].
    vm_compute; reflexivity.
  - split; [repeat constructor; unfold is_double; vm_compute; apply Fin_eq; reflexivity|].
    split; [vm_compute; apply Fin_eq; reflexivity|].
    split; vm_compute; reflexivity.
Qed.

End StatisticsOnDoubles.

Section LabelsOnDoubles.

Import Double.

(** ** [calculateImprovement] on doubles *)

Lemma gtb_not_ltb p : gtb p (ofZ 0) = true -> ltb p (ofZ 0) = false.
Proof.
  unfold gtb. destruct p as [| | |a]; try discriminate; try reflexivity.
  unfold ofZ. cbn [ltb]. intros Hgt. apply Qc_ltb_true in Hgt.
  apply Qc_ltb_false. apply Qclt_le_weak, Hgt.
Qed.

(** The one decimal that [toFixed(1)] writes is the nearest one, the larger
    in a tie. *)
Lemma round_scaled_nearest (a : Qc) :
  (inject_Z (round_scaled a 1) - (1 # 2) <= a * 10)%Q
  /\ (a * 10 < inject_Z (round_scaled a 1) + (1 # 2))%Q.
Proof.
  unfold round_scaled. change (Qc_pow10 1) with (Q2Qc 10).
  set (x := (a * Q2Qc 10 + Q2Qc (1 # 2))%Qc).
  destruct (Qc_floor_spec x) as [Hlo Hhi]. set (n := Qc_floor x) in *.
  assert (Ex : (x == a * 10 + (1 # 2))%Q).
  { unfold x. rewrite this_plus, this_mult, !this_Q2Qc. reflexivity. }
  unfold Qcle, Qclt, Qc_ofZ in Hlo, Hhi. rewrite this_Q2Qc in Hlo, Hhi.
  rewrite inject_Z_plus in Hhi. change (inject_Z 1) with 1%Q in Hhi.
  split; lra.
Qed.

(** C3.  [calculateImprovement(baseline, comparison)] computes
    [p = (baseline - comparison) / baseline * 100] in doubles, every
    operation rounded; when [p > 0] it returns the "faster" label with
    [p.toFixed(1)], when [p < 0] the "slower" label with
    [Math.abs(p).toFixed(1)], and when [p == 0] the "equal" label;
    [toFixed(1)] writes a magnitude below [1e21] as digits, a point and one
    more digit, which read as the number of tenths nearest to the
    magnitude.  In particular [(100, 80)] gives "faster" with [20.0],
    [(80, 100)] "slower" with [25.0], and [(50, 50)] the "equal" label; and
    [(80, 29)], where the percentage is not exact, "faster" with [63.7]. *)
Theorem calculateImprovement_labels (H : Host) :
  (forall baseline comparison : number,
     let p := Double.mul (Double.div (Double.sub baseline comparison) baseline) (ofZ 100) in
     (gtb p (ofZ 0) = true ->
      Double.calculateImprovement H baseline comparison
      = "🟢 " +:+ toFixed H p 1 +:+ "% 更快")
     /\ (ltb p (ofZ 0) = true ->
         Double.calculateImprovement H baseline comparison
         = "🔴 " +:+ toFixed H (Math_abs p) 1 +:+ "% 更慢")
     /\ (eqb p (ofZ 0) = true ->
         Double.calculateImprovement H baseline comparison = "🟡 相同"))
  /\ (forall a : Qc,
        (qzero <= a)%Qc -> (a < Qc_pow10 21)%Qc ->
        exists (s1 s2 : string) (n : Z),
          toFixed H (Fin a) 1 = s1 +:+ "." +:+ s2
          /\ all_digits s1 = true /\ all_digits s2 = true
          /\ (1 <= String.length s1)%nat /\ String.length s2 = 1%nat
          /\ Z.of_N (digits_value s1 0 * 10 + digits_value s2 0) = n
          /\ (inject_Z n - (1 # 2) <= a * 10)%Q /\ (a * 10 < inject_Z n + (1 # 2))%Q)
  /\ Double.calculateImprovement H (ofZ 100) (ofZ 80) = "🟢 20.0% 更快"
  /\ Double.calculateImprovement H (ofZ 80) (ofZ 100) = "🔴 25.0% 更慢"
  /\ Double.calculateImprovement H (ofZ 50) (ofZ 50) = "🟡 相同"
  /\ Double.calculateImprovement H (ofZ 80) (ofZ 29) = "🟢 63.7% 更快".
Proof.
  split; [|split; [|repeat split; vm_compute; reflexivity]].
  2: { intros a H0 H21.
       destruct (toFixed_shape H a 1 ltac:(lia) H0 H21)
         as (s1 & s2 & E & Hd1 & Hd2 & Hl1 & Hl2 & Hv).
       exists s1, s2, (round_scaled a 1).
       repeat split; try assumption; apply round_scaled_nearest. }
  intros baseline comparison p. unfold Double.calculateImprovement. fold p.
  repeat split.
  - intros ->. reflexivity.
  - intros Hlt. destruct (gtb p (ofZ 0)) eqn:Hgt.
    + apply gtb_not_ltb in Hgt. congruence.
    + rewrite Hlt. reflexivity.
  - intros Heq. destruct (eqb_zero_not_lt p Heq) as [-> ->]. reflexivity.
Qed.

Lemma calculateImprovement_labels_witness :
  let H := plain_host in
  let p := Double.mul (Double.div (Double.sub (ofZ 8) (ofZ 3)) (ofZ 8)) (ofZ 100) in
  gtb p (ofZ 0) = true
  /\ Double.calculateImprovement H (ofZ 8) (ofZ 3) = "🟢 62.5% 更快".
Proof.
  intros H p. assert (Hp : gtb p (ofZ 0) = true) by (vm_compute; reflexivity).
  split; [exact Hp|].
  destruct (proj1 (calculateImprovement_labels H) (ofZ 8) (ofZ 3)) as (Hf & _ & _).
  rewrite (Hf Hp). vm_compute. reflexivity.
Defined.

(** ** Whole numbers of milliseconds *)

Lemma sub_whole b c :
  Z.abs (b - c) <= 2 ^ 53 -> Double.sub (ofZ b) (ofZ c) = ofZ (b - c).
Proof.
  intros Hb. unfold Double.sub. rewrite sub_ofZ. unfold ofZ. cbn [rounded].
  apply round_ofZ, Hb.
Qed.

Lemma Qc_le_Q (a b : Qc) : (a <= b)%Q -> (a <= b)%Qc.
Proof. intros Hab. exact Hab. Qed.

(** The percentage of a saving between whole numbers: a double between
    [2^-53] and [100]. *)
Lemma improvement_of_saving (b c : Z) :
  0 < b <= 2 ^ 53 -> 0 <= c < b ->
  exists p : Qc,
    Double.mul (Double.div (Double.sub (ofZ b) (ofZ c)) (ofZ b)) (ofZ 100) = Fin p
    /\ (qzero < p)%Qc /\ (p <= Qc_ofZ 100)%Qc.
Proof.
  intros Hb Hc. change (2 ^ 53) with 9007199254740992 in *.
  rewrite sub_whole by (change (2 ^ 53) with 9007199254740992; lia).
  set (tiny := Q2Qc (inject_Z 1 * pow2 (-53))).
  assert (Htiny : is_double tiny) by (apply is_double_dyadic; lia).
  assert (Hone : is_double (Qc_ofZ 1)) by (apply is_double_ofZ; cbn; lia).
  assert (Hhundred : is_double (Qc_ofZ 100)) by (apply is_double_ofZ; cbn; lia).
  assert (Et : (tiny == 1 # 9007199254740992)%Q) by (unfold tiny; rewrite this_Q2Qc; reflexivity).
  assert (Hb0 : Qc_ofZ b <> qzero) by (apply Qc_ofZ_nonzero; lia).
  unfold Double.div, ofZ at 1 2. fold (Qc_ofZ (b - c)) (Qc_ofZ b).
  rewrite div_Fin by exact Hb0. cbn [rounded].
  set (x := (Qc_ofZ (b - c) / Qc_ofZ b)%Qc).
  assert (Hx : (x * Qc_ofZ b)%Qc = Qc_ofZ (b - c)) by (unfold x; field; exact Hb0).
  assert (Hbq : (1 <= Qc_ofZ b)%Q /\ (Qc_ofZ b <= 9007199254740992)%Q).
  { unfold Qc_ofZ. rewrite this_Q2Qc. split.
    - apply (inject_Z_le 1). lia.
    - apply (inject_Z_le b 9007199254740992). lia. }
  assert (Hdq : (1 <= Qc_ofZ (b - c))%Q /\ (Qc_ofZ (b - c) <= Qc_ofZ b)%Q).
  { unfold Qc_ofZ. rewrite !this_Q2Qc. split.
    - apply (inject_Z_le 1). lia.
    - apply inject_Z_le. lia. }
  apply Qc_eq_Qeq in Hx. rewrite this_mult in Hx.
  clearbody x. destruct Hbq as [Hb1 Hb2]. destruct Hdq as [Hd1 Hd2].
  set (B := this (Qc_ofZ b)) in *. set (D := this (Qc_ofZ (b - c))) in *.
  clearbody B D.
  assert (Hx1 : (tiny <= x)%Q) by (rewrite Et; nra).
  assert (Hx2 : (x <= 1)%Q) by nra.
  destruct (round_between tiny (Qc_ofZ 1) x Htiny Hone) as (q & Eq & Hq1 & Hq2);
    [exact Hx1 | unfold Qcle, Qc_ofZ; rewrite this_Q2Qc; exact Hx2 |].
  rewrite Eq. unfold Double.mul, ofZ. rewrite mul_Fin. cbn [rounded].
  fold (Qc_ofZ 100).
  unfold Qcle in Hq1, Hq2. unfold Qc_ofZ in Hq2. rewrite this_Q2Qc in Hq2.
  change (inject_Z 1) with 1%Q in Hq2.
  destruct (round_between tiny (Qc_ofZ 100) (q * Qc_ofZ 100)%Qc Htiny Hhundred) as (p & Ep & Hp1 & Hp2).
  - unfold Qcle. rewrite this_mult. unfold Qc_ofZ. rewrite this_Q2Qc.
    change (inject_Z 100) with 100%Q. lra.
  - unfold Qcle. rewrite this_mult. unfold Qc_ofZ. rewrite this_Q2Qc.
    change (inject_Z 100) with 100%Q. lra.
  - exists p. split; [exact Ep|]. split; [|exact Hp2].
    unfold Qclt. unfold Qcle in Hp1. change (this qzero) with 0%Q. lra.
Qed.

(** The percentage of a loss between whole numbers: a negative double. *)
Lemma improvement_of_loss (b c : Z) :
  0 < b -> b < c <= 2 ^ 53 ->
  exists p : Qc,
    Double.mul (Double.div (Double.sub (ofZ b) (ofZ c)) (ofZ b)) (ofZ 100) = Fin p
    /\ (p < qzero)%Qc.
Proof.
  intros Hb Hc. change (2 ^ 53) with 9007199254740992 in *.
  rewrite sub_whole by (change (2 ^ 53) with 9007199254740992; lia).
  set (tiny := Q2Qc (inject_Z (-1) * pow2 (-53))).
  assert (Htiny : is_double tiny) by (apply is_double_dyadic; lia).
  set (low := Qc_ofZ (- 2 ^ 53)).
  assert (Hlow : is_double low) by (apply is_double_ofZ; cbn; lia).
  set (lower := Q2Qc (inject_Z (-25) * pow2 55)).
  assert (Hlower : is_double lower) by (apply is_double_dyadic; lia).
  assert (Et : (tiny == -1 # 9007199254740992)%Q) by (unfold tiny; rewrite this_Q2Qc; reflexivity).
  assert (El : (low == - 9007199254740992)%Q) by (unfold low, Qc_ofZ; rewrite this_Q2Qc; reflexivity).
  assert (Er : (lower == - 900719925474099200)%Q) by (unfold lower; rewrite this_Q2Qc; reflexivity).
  assert (Hb0 : Qc_ofZ b <> qzero) by (apply Qc_ofZ_nonzero; lia).
  unfold Double.div, ofZ at 1 2. fold (Qc_ofZ (b - c)) (Qc_ofZ b).
  rewrite div_Fin by exact Hb0. cbn [rounded].
  set (x := (Qc_ofZ (b - c) / Qc_ofZ b)%Qc).
  assert (Hx : (x * Qc_ofZ b)%Qc = Qc_ofZ (b - c)) by (unfold x; field; exact Hb0).
  assert (Hbq : (1 <= Qc_ofZ b)%Q /\ (Qc_ofZ b <= 9007199254740992)%Q).
  { unfold Qc_ofZ. rewrite this_Q2Qc. split.
    - apply (inject_Z_le 1). lia.
    - apply (inject_Z_le b 9007199254740992). lia. }
  assert (Hdq : (Qc_ofZ (b - c) <= - 1)%Q /\ (- 9007199254740992 <= Qc_ofZ (b - c))%Q).
  { unfold Qc_ofZ. rewrite !this_Q2Qc. split.
    - apply (inject_Z_le (b - c) (-1)). lia.
    - apply (inject_Z_le (-9007199254740992)). lia. }
  apply Qc_eq_Qeq in Hx. rewrite this_mult in Hx.
  clearbody x. destruct Hbq as [Hb1 Hb2]. destruct Hdq as [Hd1 Hd2].
  set (B := this (Qc_ofZ b)) in *. set (D := this (Qc_ofZ (b - c))) in *.
  clearbody B D.
  assert (Hx1 : (x <= tiny)%Q) by (rewrite Et; nra).
  assert (Hx2 : (low <= x)%Q) by (rewrite El; nra).
  destruct (round_between low tiny x Hlow Htiny Hx2 Hx1) as (q & Eq & Hq1 & Hq2).
  rewrite Eq. unfold Double.mul, ofZ. rewrite mul_Fin. cbn [rounded].
  fold (Qc_ofZ 100). unfold Qcle in Hq1, Hq2.
  destruct (round_between lower tiny (q * Qc_ofZ 100)%Qc Hlower Htiny) as (p & Ep & Hp1 & Hp2).
  - unfold Qcle. rewrite this_mult. unfold Qc_ofZ. rewrite this_Q2Qc.
    change (inject_Z 100) with 100%Q. lra.
  - unfold Qcle. rewrite this_mult. unfold Qc_ofZ. rewrite this_Q2Qc.
    change (inject_Z 100) with 100%Q. lra.
  - exists p. split; [exact Ep|].
    unfold Qclt. unfold Qcle in Hp2. change (this qzero) with 0%Q. lra.
Qed.

(** X3.  For whole numbers of milliseconds (up to [2^53]) and a positive
    baseline the label follows the order of the two measurements: a smaller
    comparison gives the "faster" label, with a percentage that is at most
    100, a larger one the "slower" label, and an equal one the "equal"
    label; the percentage written is the one the doubles give. *)
Theorem calculateImprovement_by_order (H : Host) (b c : Z) :
  0 < b <= 2 ^ 53 -> 0 <= c <= 2 ^ 53 ->
  let p := Double.mul (Double.div (Double.sub (ofZ b) (ofZ c)) (ofZ b)) (ofZ 100) in
  (c < b ->
     gtb p (ofZ 0) = true /\ leb p (ofZ 100) = true
     /\ Double.calculateImprovement H (ofZ b) (ofZ c)
        = "🟢 " +:+ toFixed H p 1 +:+ "% 更快")
  /\ (b < c ->
        ltb p (ofZ 0) = true
        /\ Double.calculateImprovement H (ofZ b) (ofZ c)
           = "🔴 " +:+ toFixed H (Math_abs p) 1 +:+ "% 更慢")
  /\ (c = b -> Double.calculateImprovement H (ofZ b) (ofZ c) = "🟡 相同").
Proof.
  intros Hb Hc p. split; [|split].
  - intros Hlt. destruct (improvement_of_saving b c Hb ltac:(lia)) as (q & Eq & Hq1 & Hq2).
    fold p in Eq.
    assert (Hgt : gtb p (ofZ 0) = true).
    { rewrite Eq. unfold gtb, ofZ. cbn [ltb]. apply Qc_ltb_true. exact Hq1. }
    split; [exact Hgt|]. split.
    + rewrite Eq. unfold ofZ. apply leb_Fin. exact Hq2.
    + unfold Double.calculateImprovement. fold p. rewrite Hgt. reflexivity.
  - intros Hlt. destruct (improvement_of_loss b c ltac:(lia) ltac:(lia)) as (q & Eq & Hq).
    fold p in Eq.
    assert (Hl : ltb p (ofZ 0) = true).
    { rewrite Eq. unfold ofZ. cbn [ltb]. apply Qc_ltb_true. exact Hq. }
    split; [exact Hl|].
    unfold Double.calculateImprovement. fold p. rewrite Hl.
    destruct (gtb p (ofZ 0)) eqn:Hgt; [|reflexivity].
    apply gtb_not_ltb in Hgt. congruence.
  - intros ->. unfold Double.calculateImprovement.
    rewrite sub_whole by (rewrite Z.sub_diag; cbn; lia). rewrite Z.sub_diag.
    assert (E : Double.div (ofZ 0) (ofZ b) = ofZ 0).
    { unfold Double.div, ofZ. fold (Qc_ofZ 0) (Qc_ofZ b).
      rewrite div_Fin by (apply Qc_ofZ_nonzero; lia). cbn [rounded].
      replace (Qc_ofZ 0 / Qc_ofZ b)%Qc with qzero; [reflexivity|].
      change (Qc_ofZ 0) with qzero. unfold qzero. field. apply Qc_ofZ_nonzero. lia. }
    rewrite E. reflexivity.
Qed.

Lemma calculateImprovement_by_order_witness :
  (0 < 80 <= 2 ^ 53 /\ 0 <= 29 <= 2 ^ 53)
  /\ Double.calculateImprovement plain_host (ofZ 80) (ofZ 29) = "🟢 63.7% 更快".
Proof.
  assert (Hb : 0 < 80 <= 2 ^ 53) by (cbn; lia).
  assert (Hc : 0 <= 29 <= 2 ^ 53) by (cbn; lia).
  split; [split; assumption|].
  destruct (calculateImprovement_by_order plain_host 80 29 Hb Hc) as (Hf & _ & _).
  destruct (Hf ltac:(lia)) as (_ & _ & ->). vm_compute. reflexivity.
Defined.

(** *** Equal measurements *)

Lemma Z_sum_repeat t k : Z_sum (repeat t k) = Z.of_nat k * t.
Proof.
  induction k as [|k IH]; [reflexivity|].
  cbn [repeat Z_sum fold_right]. fold (Z_sum (repeat t k)). rewrite IH. lia.
Qed.

Lemma Z_sum_abs_repeat t k : Z_sum_abs (repeat t k) = Z.of_nat k * Z.abs t.
Proof.
  induction k as [|k IH]; [reflexivity|].
  cbn [repeat Z_sum_abs fold_right]. fold (Z_sum_abs (repeat t k)). rewrite IH. lia.
Qed.

Lemma fold_add_zero (f : number -> number) v k :
  f v = ofZ 0 ->
  fold_left (fun sum val => Double.add sum (f val)) (repeat v k) (ofZ 0) = ofZ 0.
Proof.
  intros Hf. induction k as [|k IH]; [reflexivity|].
  cbn [repeat fold_left]. rewrite Hf.
  replace (Double.add (ofZ 0) (ofZ 0)) with (ofZ 0); [exact IH|].
  symmetry. apply (add_whole 0 0). cbn. lia.
Qed.

Lemma div_zero_whole b : b <> 0 -> Double.div (ofZ 0) (ofZ b) = ofZ 0.
Proof.
  intros Hb. unfold Double.div, ofZ. fold (Qc_ofZ 0) (Qc_ofZ b).
  rewrite div_Fin by (apply Qc_ofZ_nonzero; exact Hb). cbn [rounded].
  replace (Qc_ofZ 0 / Qc_ofZ b)%Qc with qzero; [reflexivity|].
  change (Qc_ofZ 0) with qzero. unfold qzero. field. apply Qc_ofZ_nonzero. exact Hb.
Qed.

(** X5.  When all of one or more measurements are the same whole number
    [t] of milliseconds, and their total stays within [2^53], so that every
    sum is exact, [calculateStats] returns [t] as [mean], [min], [max] and
    [median], and 0 as [stdDev]. *)
Theorem calculateStats_constant (H : Host) (t : Z) (n : nat) :
  Z.of_nat (S n) * Z.abs t <= 2 ^ 53 -> Z.of_nat (S n) <= 4294967295 ->
  Double.calculateStats H (repeat (ofZ t) (S n))
  = {| mean := ofZ t; min := ofZ t; max := ofZ t; stdDev := ofZ 0; median := ofZ t |}.
Proof.
  intros Hb Hlen. set (zs := repeat t (S n)).
  assert (Hzs : repeat (ofZ t) (S n) = map ofZ zs) by (unfold zs; rewrite map_repeat; reflexivity).
  assert (Hmap : map ofZ zs = map Fin (map Qc_ofZ zs)) by (rewrite map_map; reflexivity).
  assert (Hne : zs <> []) by discriminate.
  assert (Hne' : map Qc_ofZ zs <> []) by discriminate.
  assert (Hsum : Z_sum_abs zs <= 2 ^ 53) by (unfold zs; rewrite Z_sum_abs_repeat; exact Hb).
  assert (Ht : Z.abs t <= 2 ^ 53) by (change (2 ^ 53) with 9007199254740992 in *; nia).
  assert (Hlen' : Z.of_nat (length (map Qc_ofZ zs)) <= 4294967295).
  { unfold zs. rewrite length_map, repeat_length. exact Hlen. }
  pose proof (whole_are_doubles zs Hsum) as Hd.
  assert (Hall : forall q, In q (map Qc_ofZ zs) -> q = Qc_ofZ t).
  { intros q Hq. unfold zs in Hq. rewrite map_repeat in Hq. apply repeat_spec in Hq. exact Hq. }
  assert (Hmean : mean (Double.calculateStats H (map ofZ zs)) = ofZ t).
  { rewrite mean_of_whole by assumption.
    replace (arithmetic_mean (map Qc_ofZ zs)) with (Qc_ofZ t); [apply round_ofZ, Ht|].
    unfold arithmetic_mean. rewrite Qc_sum_whole, length_map. unfold zs.
    rewrite Z_sum_repeat, repeat_length, Qc_ofZ_mul. field.
    apply Qc_ofZ_nonzero. lia. }
  destruct (extrema_of_doubles H _ Hne') as (lo & hi & Hmin & Hmax & Hlo & Hhi & Hbetween).
  rewrite <- Hmap in Hmin, Hmax.
  rewrite Hzs. apply stats_eq.
  - exact Hmean.
  - rewrite Hmin, (Hall lo Hlo). reflexivity.
  - rewrite Hmax, (Hall hi Hhi). reflexivity.
  - unfold Double.calculateStats in *. cbn [stdDev mean] in *. rewrite Hmean.
    rewrite <- Hzs, repeat_length.
    rewrite (fold_add_zero (fun val => Double.Math_pow H (Double.sub val (ofZ t)) (ofZ 2))).
    + unfold ofNat. rewrite div_zero_whole by lia. reflexivity.
    + rewrite sub_whole by (rewrite Z.sub_diag; cbn; lia). rewrite Z.sub_diag. reflexivity.
  - destruct (median_of_whole_finite H zs Hne Hsum) as (m0 & Em0).
    { unfold zs. rewrite repeat_length. exact Hlen. }
    destruct (median_between_extrema H _ lo hi Hne' Hd Hlen' Hbetween (or_intror (ex_intro _ m0 Em0)))
      as (m & Em & Hm1 & Hm2).
    rewrite <- Hmap in Em. rewrite Em. unfold ofZ. fold (Qc_ofZ t). f_equal.
    rewrite (Hall lo Hlo) in Hm1. rewrite (Hall hi Hhi) in Hm2.
    apply Qcle_antisym; assumption.
Qed.

Lemma calculateStats_constant_witness :
  (Z.of_nat 5 * Z.abs 12 <= 2 ^ 53 /\ Z.of_nat 5 <= 4294967295)
  /\ mean (Double.calculateStats plain_host (repeat (ofZ 12) 5)) = ofZ 12.
Proof.
  assert (Hb : Z.of_nat 5 * Z.abs 12 <= 2 ^ 53) by (cbn; lia).
  assert (Hl : Z.of_nat 5 <= 4294967295) by (cbn; lia).
  split; [split; assumption|].
  rewrite (calculateStats_constant plain_host 12 4 Hb Hl). reflexivity.
Defined.

End LabelsOnDoubles.

(** ** The special cases on doubles

    What the exact helpers give on the empty list, on a zero baseline, on a
    reordered list and on a list with a [NaN] does not involve a rounding:
    the helpers on doubles give the same. *)

Lemma calculateStats_empty_on_doubles (H : Host) :
  Double.calculateStats H []
  = {| mean := NaN; min := PInf; max := NInf; stdDev := NaN; median := NaN |}.
Proof. reflexivity. Qed.

Lemma calculateImprovement_zero_baseline_on_doubles (H : Host) :
  Double.calculateImprovement H (ofZ 0) (ofZ 0) = "🟡 相同"
  /\ Double.calculateImprovement H (ofZ 0) PInf = "🔴 Infinity% 更慢"
  /\ forall c : Qc,
       Double.is_double c -> (qzero < c)%Qc ->
       Double.calculateImprovement H (ofZ 0) (Fin c) = "🔴 Infinity% 更慢".
Proof.
  split; [reflexivity|]. split; [reflexivity|].
  intros c Hd Hc. unfold Double.calculateImprovement.
  assert (Hp : Double.mul (Double.div (Double.sub (ofZ 0) (Fin c)) (ofZ 0)) (ofZ 100) = NInf).
  { unfold Double.sub, ofZ. rewrite sub_Fin. cbn [Double.rounded].
    replace (Q2Qc (inject_Z 0) - c)%Qc with (- c)%Qc by (change (Q2Qc (inject_Z 0)) with (Q2Qc 0); ring).
    rewrite (is_double_opp c Hd).
    unfold Double.div, div. change (Qc_sign (Q2Qc (inject_Z 0))) with Eq.
    assert (Hs : Qc_sign (- c) = Lt).
    { apply Qc_sign_Lt. qc_to_q. lra. }
    rewrite Hs. reflexivity. }
  rewrite Hp. reflexivity.
Qed.

Lemma calculateStats_order_independent_on_doubles (H : Host) (qs qs' : list Qc) :
  Forall Double.is_double qs -> Z.of_nat (length qs) <= 4294967295 ->
  Permutation qs qs' ->
  let s := Double.calculateStats H (map Fin qs) in
  let s' := Double.calculateStats H (map Fin qs') in
  min s = min s' /\ max s = max s' /\ median s = median s'.
Proof.
  intros Hd Hlen Hp s s'.
  assert (Hd' : Forall Double.is_double qs').
  { rewrite List.Forall_forall in *. intros q Hq. apply Hd.
    eapply Permutation_in; [symmetry; exact Hp | exact Hq]. }
  assert (Hlen' : Z.of_nat (length qs') <= 4294967295)
    by (rewrite <- (Permutation_length Hp); exact Hlen).
  destruct qs as [|q0 qs].
  - apply Permutation_nil in Hp. subst qs'. repeat split; reflexivity.
  - destruct qs' as [|q0' qs'];
      [apply Permutation_sym, Permutation_nil in Hp; discriminate|].
    destruct (Math_min_Fin q0 qs) as (lo & Hmin & Hlo_in & Hlo).
    destruct (Math_min_Fin q0' qs') as (lo' & Hmin' & Hlo_in' & Hlo').
    destruct (Math_max_Fin q0 qs) as (hi & Hmax & Hhi_in & Hhi).
    destruct (Math_max_Fin q0' qs') as (hi' & Hmax' & Hhi_in' & Hhi').
    split; [|split].
    + change (min s) with (Math_min (map Fin (q0 :: qs))).
      change (min s') with (Math_min (map Fin (q0' :: qs'))).
      rewrite Hmin, Hmin'. f_equal. apply Qcle_antisym.
      * apply Hlo. eapply Permutation_in; [symmetry; exact Hp | exact Hlo_in'].
      * apply Hlo'. eapply Permutation_in; [exact Hp | exact Hlo_in].
    + change (max s) with (Math_max (map Fin (q0 :: qs))).
      change (max s') with (Math_max (map Fin (q0' :: qs'))).
      rewrite Hmax, Hmax'. f_equal. apply Qcle_antisym.
      * apply Hhi'. eapply Permutation_in; [exact Hp | exact Hhi_in].
      * apply Hhi. eapply Permutation_in; [symmetry; exact Hp | exact Hhi_in'].
    + unfold s, s'. rewrite !median_of_doubles by (try assumption; discriminate).
      cbv zeta. rewrite <- (Permutation_length Hp).
      replace (sort_ascending (q0' :: qs')) with (sort_ascending (q0 :: qs)); [reflexivity|].
      apply sorted_perm_unique; try apply sort_ascending_sorted.
      rewrite !sort_ascending_perm. exact Hp.
Qed.

Lemma add_NaN_on_doubles x : Double.add x NaN = NaN.
Proof. unfold Double.add. rewrite add_NaN_r. reflexivity. Qed.

Lemma fold_add_reaches_NaN_on_doubles (f : number -> number) l :
  (exists x, In x l /\ f x = NaN) ->
  forall a, fold_left (fun sum val => Double.add sum (f val)) l a = NaN.
Proof.
  assert (Hfix : forall l', fold_left (fun sum val => Double.add sum (f val)) l' NaN = NaN).
  { induction l' as [|x l' IH]; [reflexivity|]. cbn [fold_left]. exact IH. }
  induction l as [|y l IH]; intros (x & Hin & Hx) a; [destruct Hin|].
  cbn [fold_left]. destruct Hin as [->|Hin].
  - rewrite Hx, add_NaN_on_doubles. apply Hfix.
  - apply IH. exists x. split; assumption.
Qed.

Lemma calculateStats_NaN_on_doubles (H : Host) (values : list number) :
  In NaN values ->
  let s := Double.calculateStats H values in
  mean s = NaN /\ min s = NaN /\ max s = NaN /\ stdDev s = NaN.
Proof.
  intros Hin s.
  assert (Hmean : mean s = NaN).
  { unfold s, Double.calculateStats. cbn [mean].
    rewrite (fold_add_reaches_NaN_on_doubles (fun v => v)); [reflexivity|].
    exists NaN. split; [exact Hin | reflexivity]. }
  split; [exact Hmean|]. split; [|split].
  - apply fold_min2_reaches_NaN. exact Hin.
  - apply fold_max2_reaches_NaN. exact Hin.
  - unfold s, Double.calculateStats in *. cbn [mean stdDev] in *. rewrite Hmean.
    rewrite (fold_add_reaches_NaN_on_doubles
               (fun val => Double.Math_pow H (Double.sub val NaN) (ofZ 2))); [reflexivity|].
    exists NaN. split; [exact Hin | reflexivity].
Qed.

(** ** What the steps of the script leave as it is *)

(** The batch of the single-batch script is made as [generateData] makes
    one. *)
Lemma batch_is_generateData H (count : nat) :
  Array_from count (fun i =>
    t <- Date_now ;;
    r <- Math_random ;;
    ret {| timestamp := Date_new (sub t (mul (ofNat i) (ofZ 1000)));
           value := Double.mul r (ofZ 100);
           meta := {| sensor := "sensor" +:+ Number_toString H (ofNat (i mod 5)) |} |})
  = generateData H count.
Proof. reflexivity. Qed.

Section Frame.

Variable R : World -> World -> Prop.
Hypothesis R_refl : forall w, R w w.
Hypothesis R_trans : forall w1 w2 w3, R w1 w2 -> R w2 w3 -> R w1 w3.

Lemma keeps_ret {A} (a : A) : keeps R (ret a).
Proof. intros w. apply R_refl. Qed.

Lemma keeps_throw {A} e : keeps R (@throw A e).
Proof. intros w. apply R_refl. Qed.

Lemma keeps_read {A} (f : World -> Settled A) : keeps R (fun w => (f w, w)).
Proof. intros w. apply R_refl. Qed.

Lemma keeps_bind {A B} (m : Promise A) (k : A -> Promise B) :
  keeps R m -> (forall a, keeps R (k a)) -> keeps R (bind m k).
Proof.
  intros Hm Hk w. specialize (Hm w). unfold bind.
  destruct (m w) as [[a|e] w1]; cbn [snd] in *; [|exact Hm].
  eapply R_trans; [exact Hm | apply Hk].
Qed.

Lemma keeps_catch {A} (m : Promise A) handler :
  keeps R m -> (forall e, keeps R (handler e)) -> keeps R (catch m handler).
Proof.
  intros Hm Hh w. specialize (Hm w). unfold catch.
  destruct (m w) as [[a|e] w1]; cbn [snd] in *; [exact Hm|].
  eapply R_trans; [exact Hm | apply Hh].
Qed.

Lemma keeps_modify f : (forall w, R w (f w)) -> keeps R (modify f).
Proof. intros Hf w. apply Hf. Qed.

Lemma keeps_engine_call op :
  (forall w, R w (record_call op w)) -> keeps R (engine_call op).
Proof. intros Hf w. unfold engine_call. destruct (faults _ _); apply Hf. Qed.

Lemma keeps_Date_now : (forall w, R w (tick_clock w)) -> keeps R Date_now.
Proof. intros Hf w. apply Hf. Qed.

Lemma keeps_Math_random : (forall w, R w (tick_random w)) -> keeps R Math_random.
Proof. intros Hf w. apply Hf. Qed.

Lemma keeps_Array_from_loop {A} (mapFn : nat -> Promise A) n :
  (forall i, keeps R (mapFn i)) -> forall i, keeps R (Array_from_loop mapFn n i).
Proof.
  intros Hf. induction n as [|n IH]; intros i; cbn [Array_from_loop].
  - apply keeps_ret.
  - apply keeps_bind; [apply Hf|]. intros x.
    apply keeps_bind; [apply IH|]. intros xs. apply keeps_ret.
Qed.

Lemma keeps_runMultipleTests_loop {T} H (f : Promise T) n :
  (forall s, keeps R (process_stdout_write s)) -> keeps R f ->
  forall i acc, keeps R (runMultipleTests_loop H f n i acc).
Proof.
  intros Hw Hf. induction n as [|n IH]; intros i acc; cbn [runMultipleTests_loop].
  - apply keeps_ret.
  - apply keeps_bind; [apply Hw|]. intros _.
    apply keeps_bind; [apply Hf|]. intros r. apply IH.
Qed.

Lemma keeps_for_of {A} (l : list A) body :
  (forall x, keeps R (body x)) -> keeps R (for_of l body).
Proof.
  intros Hb. induction l as [|x l IH]; cbn [for_of].
  - apply keeps_ret.
  - apply keeps_bind; [apply Hb | intros _; exact IH].
Qed.

(** A rejection of a sequence is a rejection of its first step or of what
    follows it. *)
Lemma keeps_when_rejected_bind {A B} (m : Promise A) (k : A -> Promise B) :
  keeps R m -> (forall a, keeps_when_rejected R (k a)) ->
  keeps_when_rejected R (bind m k).
Proof.
  intros Hm Hk w e w' E. specialize (Hm w). unfold bind in E.
  destruct (m w) as [[a|e1] w1]; cbn [snd] in *.
  - eapply R_trans; [exact Hm | eapply Hk; exact E].
  - injection E as _ <-. exact Hm.
Qed.

Lemma keeps_any_rejected {A} (m : Promise A) : keeps R m -> keeps_when_rejected R m.
Proof. intros Hm w e w' E. specialize (Hm w). rewrite E in Hm. exact Hm. Qed.

End Frame.

(** The structure of a computation, taken apart one step at a time;
    [refl] and [trans] are the proofs that the relation is a preorder. *)
Ltac frame_step refl trans :=
  lazymatch goal with
  | |- keeps _ (bind _ _) => eapply keeps_bind; [exact trans | | intros ?]
  | |- keeps _ (catch _ _) => eapply keeps_catch; [exact trans | | intros ?]
  | |- keeps _ (ret _) => apply keeps_ret; exact refl
  | |- keeps _ (throw _) => apply keeps_throw; exact refl
  | |- keeps _ (engine_call _) => apply keeps_engine_call
  | |- keeps _ (modify _) => apply keeps_modify
  | |- keeps _ Date_now => apply keeps_Date_now
  | |- keeps _ Math_random => apply keeps_Math_random
  | |- keeps _ (if ?b then _ else _) => destruct b
  | |- keeps _ (match ?x with _ => _ end) => destruct x
  | |- keeps _ (let _ := _ in _) => cbv zeta
  | |- keeps _ (fun w => (_, w)) => apply keeps_read; exact refl
  | |- keeps _ (Array_from_loop _ _ _) =>
      apply keeps_Array_from_loop; [exact refl | exact trans | intros ?]
  | |- keeps _ (for_of _ _) => apply keeps_for_of; [exact refl | exact trans | intros ?]
  end.

(** *** Steps that write, read the clock and call the engine *)

Section FrameOfReports.

Variable R : World -> World -> Prop.
Hypothesis R_refl : forall w, R w w.
Hypothesis R_trans : forall w1 w2 w3, R w1 w2 -> R w2 w3 -> R w1 w3.
Hypothesis R_stdout : forall s w, R w (put_stdout s w).
Hypothesis R_call : forall op w, R w (record_call op w).
Hypothesis R_clock : forall w, R w (tick_clock w).
Hypothesis R_random : forall w, R w (tick_random w).

Ltac report_frame :=
  repeat (frame_step R_refl R_trans);
  lazymatch goal with
  | |- keeps _ _ => idtac
  | |- _ => first [apply R_stdout | apply R_call | apply R_clock | apply R_random]
  end.

Lemma keeps_process_stdout_write s : keeps R (process_stdout_write s).
Proof. unfold process_stdout_write. report_frame. Qed.

Lemma keeps_console_log s : keeps R (console_log s).
Proof. unfold console_log. report_frame. Qed.

Lemma keeps_printSeparator c n : keeps R (printSeparator c n).
Proof. unfold printSeparator. apply keeps_console_log. Qed.

Lemma keeps_printTitle t : keeps R (printTitle t).
Proof.
  unfold printTitle. report_frame;
    first [apply keeps_printSeparator | apply keeps_console_log].
Qed.

Lemma keeps_find_toArray collection query : keeps R (find_toArray collection query).
Proof. unfold find_toArray. report_frame. Qed.

Lemma keeps_command_collStats name : keeps R (command_collStats name).
Proof. unfold command_collStats. report_frame. Qed.

Lemma keeps_command_buildInfo : keeps R command_buildInfo.
Proof. unfold command_buildInfo. report_frame. Qed.

Lemma keeps_getCollectionStats name : keeps R (getCollectionStats name).
Proof. unfold getCollectionStats. report_frame. apply keeps_command_collStats. Qed.

Lemma keeps_measureQuerySpeed collection query :
  keeps R (measureQuerySpeed collection query).
Proof. unfold measureQuerySpeed. report_frame. apply keeps_find_toArray. Qed.

Lemma keeps_generateData H count : keeps R (generateData H count).
Proof. unfold generateData, Array_from. report_frame. Qed.

Lemma keeps_runMultipleTests {T} H (f : Promise T) runs description :
  keeps R f -> keeps R (runMultipleTests H f runs description).
Proof.
  intros Hf. unfold runMultipleTests. report_frame;
    try first [apply keeps_process_stdout_write | apply keeps_console_log].
  apply keeps_runMultipleTests_loop; try assumption.
Qed.

Lemma keeps_storage_report H : keeps R (storage_report H).
Proof.
  unfold storage_report. report_frame;
    first [apply keeps_getCollectionStats | apply keeps_console_log].
Qed.

Lemma keeps_query_trials H collection : keeps R (query_trials H collection).
Proof.
  unfold query_trials. report_frame;
    try first [apply keeps_console_log
              | apply keeps_runMultipleTests; apply keeps_measureQuerySpeed].
Qed.

End FrameOfReports.

Create HintDb frame discriminated.

(** *** Steps that change the database and the connection *)

Section FrameOfSteps.

Variable R : World -> World -> Prop.
Hypothesis R_refl : forall w, R w w.
Hypothesis R_trans : forall w1 w2 w3, R w1 w2 -> R w2 w3 -> R w1 w3.
Hypothesis R_stdout : forall s w, R w (put_stdout s w).
Hypothesis R_call : forall op w, R w (record_call op w).
Hypothesis R_clock : forall w, R w (tick_clock w).
Hypothesis R_random : forall w, R w (tick_random w).
Hypothesis R_db : forall f w, R w (set_db f w).
Hypothesis R_connected : forall b w, R w (set_connected b w).
Hypothesis R_started : forall w, R w (set_host_running true w).

#[local] Hint Resolve keeps_process_stdout_write keeps_console_log keeps_printSeparator
  keeps_printTitle keeps_find_toArray keeps_command_collStats keeps_command_buildInfo
  keeps_getCollectionStats keeps_measureQuerySpeed keeps_generateData
  keeps_storage_report keeps_query_trials : frame.

Ltac step_frame :=
  repeat (frame_step R_refl R_trans);
  lazymatch goal with
  | |- keeps _ (runMultipleTests _ _ _ _) => apply keeps_runMultipleTests; try assumption
  | |- keeps _ (generateData _ _) => apply keeps_generateData; assumption
  | |- keeps _ _ => try solve [auto 2 with frame]
  | |- _ => first [apply R_stdout | apply R_call | apply R_clock | apply R_random
                  | apply R_db | apply R_connected | apply R_started]
  end.

Lemma keeps_createCollection name options : keeps R (createCollection name options).
Proof.
  unfold createCollection. eapply keeps_bind; [exact R_trans | step_frame |].
  intros _ w. cbn [snd]. destruct (db w !! name); cbn [snd]; [apply R_refl | apply R_db].
Qed.

Lemma keeps_insertMany collection data : keeps R (insertMany collection data).
Proof. unfold insertMany. step_frame. Qed.

Lemma keeps_deleteMany collection query : keeps R (deleteMany collection query).
Proof. unfold deleteMany. step_frame. Qed.

Lemma keeps_drop_ignoring_errors collection : keeps R (drop_ignoring_errors collection).
Proof.
  unfold drop_ignoring_errors, drop. step_frame.
  intros w. destruct (db w !! collection); cbn [snd]; [apply R_db | apply R_refl].
Qed.

Lemma keeps_MongoMemoryReplSet_create : keeps R MongoMemoryReplSet_create.
Proof. unfold MongoMemoryReplSet_create. step_frame. Qed.

Lemma keeps_MongoMemoryServer_create : keeps R SingleBatch.MongoMemoryServer_create.
Proof. unfold SingleBatch.MongoMemoryServer_create. step_frame. Qed.

Lemma keeps_client_connect : keeps R client_connect.
Proof. unfold client_connect. step_frame. Qed.

Lemma keeps_client_close : keeps R client_close.
Proof. unfold client_close. step_frame. Qed.

#[local] Hint Resolve keeps_createCollection keeps_insertMany keeps_deleteMany
  keeps_drop_ignoring_errors keeps_MongoMemoryReplSet_create
  keeps_MongoMemoryServer_create keeps_client_connect keeps_client_close : frame.

Lemma keeps_measureInsertSpeed collection data :
  keeps R (measureInsertSpeed collection data).
Proof. unfold measureInsertSpeed. step_frame. Qed.

Lemma keeps_measureDeleteSpeed collection query :
  keeps R (measureDeleteSpeed collection query).
Proof. unfold measureDeleteSpeed. step_frame. Qed.

#[local] Hint Resolve keeps_measureInsertSpeed keeps_measureDeleteSpeed : frame.

Lemma keeps_run_size H size : keeps R (run_size H size).
Proof.
  unfold run_size, insert_phase, reset_collections, insert_trials,
    reload_collections, delete_trials.
  step_frame; step_frame.
Qed.

Lemma keeps_MainTs_run_size H c size : keeps R (MainTs.run_size H c size).
Proof. unfold MainTs.run_size. step_frame. Qed.

#[local] Hint Resolve keeps_run_size keeps_MainTs_run_size : frame.

(** A rejected stop has changed nothing but the list of calls. *)
Lemma keeps_when_rejected_stop : keeps_when_rejected R replSet_stop.
Proof.
  intros w e w' E. unfold replSet_stop, bind, engine_call, modify in E.
  destruct (faults w (length (calls w))); inversion E. apply R_call.
Qed.

Lemma keeps_when_rejected_mongoServer_stop :
  keeps_when_rejected R SingleBatch.mongoServer_stop.
Proof. exact keeps_when_rejected_stop. Qed.

Ltac rejected_frame :=
  repeat lazymatch goal with
  | |- keeps_when_rejected _ (bind _ _) =>
      eapply keeps_when_rejected_bind; [exact R_trans | step_frame | intros ?]
  | |- keeps_when_rejected _ (let _ := _ in _) => cbv zeta
  end.

Lemma rejected_after_first {A B} (m : Promise A) (k : A -> Promise B) w a w1 e w' :
  m w = (Fulfilled a, w1) -> keeps_when_rejected R (k a) ->
  bind m k w = (Rejected e, w') -> R w1 w'.
Proof. intros E1 Hk E. rewrite (bind_fulfilled _ _ _ _ _ E1) in E. eapply Hk. exact E. Qed.

Lemma host_started w :
  faults w (length (calls w)) = None ->
  MongoMemoryReplSet_create w
  = (Fulfilled tt, set_host_running true (record_call OpCreateHost w)).
Proof.
  intros Hf. unfold MongoMemoryReplSet_create, bind, engine_call, modify.
  rewrite Hf. reflexivity.
Qed.

(** The scripts after the start of the host. *)
Lemma run_rejected_after_start H w e w' :
  faults w (length (calls w)) = None ->
  run H w = (Rejected e, w') ->
  R (set_host_running true (record_call OpCreateHost w)) w'.
Proof.
  intros Hf. unfold run. apply rejected_after_first with (a := tt).
  - apply host_started. exact Hf.
  - rejected_frame. apply keeps_when_rejected_stop.
Qed.

Lemma MainTs_run_rejected_after_start H w e w' :
  faults w (length (calls w)) = None ->
  MainTs.run H w = (Rejected e, w') ->
  R (set_host_running true (record_call OpCreateHost w)) w'.
Proof.
  intros Hf. unfold MainTs.run. apply rejected_after_first with (a := tt).
  - apply host_started. exact Hf.
  - rejected_frame. apply keeps_when_rejected_stop.
Qed.

Lemma SingleBatch_run_rejected_after_start H w e w' :
  faults w (length (calls w)) = None ->
  SingleBatch.run H w = (Rejected e, w') ->
  R (set_host_running true (record_call OpCreateHost w)) w'.
Proof.
  intros Hf. unfold SingleBatch.run. rewrite batch_is_generateData.
  apply rejected_after_first with (a := tt).
  - apply host_started. exact Hf.
  - rejected_frame. apply keeps_when_rejected_mongoServer_stop.
Qed.

End FrameOfSteps.

(** *** The database during the reports and the queries *)

Lemma same_db_refl w : same_db w w.
Proof. reflexivity. Qed.

Lemma same_db_trans w1 w2 w3 : same_db w1 w2 -> same_db w2 w3 -> same_db w1 w3.
Proof. unfold same_db. congruence. Qed.

Ltac db_frame :=
  first [exact same_db_refl | exact same_db_trans | intros; reflexivity].

(** X8.  The timed query, the storage report and the query trials never
    change the database, whether they are fulfilled or rejected: they only
    read it, write to the standard output, read the clock and call the
    engine. *)
Theorem query_phase_keeps_db (H : Host) (w : World) :
  (forall collection query, db (snd (measureQuerySpeed collection query w)) = db w)
  /\ db (snd (storage_report H w)) = db w
  /\ (forall collection, db (snd (query_trials H collection w)) = db w).
Proof.
  split; [|split].
  - intros collection query. apply (keeps_measureQuerySpeed same_db); db_frame.
  - apply (keeps_storage_report same_db); db_frame.
  - intros collection. apply (keeps_query_trials same_db); db_frame.
Qed.

(** *** The host after a failure *)

Lemma host_stays_up_refl w : host_stays_up w w.
Proof. intros Hh. exact Hh. Qed.

Lemma host_stays_up_trans w1 w2 w3 :
  host_stays_up w1 w2 -> host_stays_up w2 w3 -> host_stays_up w1 w3.
Proof. unfold host_stays_up. auto. Qed.

Ltac host_frame lemma :=
  eapply (lemma host_stays_up);
  first [ exact host_stays_up_refl | exact host_stays_up_trans | eassumption
        | unfold host_stays_up; intros; first [assumption | reflexivity] ].

(** X9.  In all three versions of the script, once the in-memory host has
    been started, a rejection of [run] leaves it running: [client.close()]
    and the stop of the host are the last two steps of [run] and nothing
    runs them on failure; the top-level handler only logs, so the host is
    still running when [main] has settled. *)
Theorem failed_run_leaves_host_running (H : Host) (w : World) :
  faults w (length (calls w)) = None ->
  (forall e w', run H w = (Rejected e, w') ->
     host_running w' = true /\ host_running (snd (main H w)) = true)
  /\ (forall e w', MainTs.run H w = (Rejected e, w') ->
        host_running w' = true /\ host_running (snd (MainTs.main H w)) = true)
  /\ (forall e w', SingleBatch.run H w = (Rejected e, w') ->
        host_running w' = true /\ host_running (snd (SingleBatch.main H w)) = true).
Proof.
  intros Hf.
  assert (Hup : forall (body : Promise unit) e w',
            body w = (Rejected e, w') ->
            host_stays_up (set_host_running true (record_call OpCreateHost w)) w' ->
            host_running w' = true /\ host_running (snd (top_level body w)) = true).
  { intros body e w' E Hs. specialize (Hs eq_refl). split; [exact Hs|].
    unfold top_level, catch. rewrite E. exact Hs. }
  split; [|split]; intros e w' E; apply (Hup _ e w' E).
  - host_frame run_rejected_after_start.
  - host_frame MainTs_run_rejected_after_start.
  - host_frame SingleBatch_run_rejected_after_start.
Qed.

Lemma failed_run_leaves_host_running_witness :
  let refused := EngineFailure "connection refused" in
  let w := world_failing_at 1 refused in
  faults w (length (calls w)) = None
  /\ fst (run plain_host w) = Rejected refused
  /\ host_running (snd (run plain_host w)) = true.
Proof.
  intros refused w.
  assert (Hf : faults w (length (calls w)) = None) by reflexivity.
  assert (E : run plain_host w = (Rejected refused, snd (run plain_host w))).
  { rewrite (surjective_pairing (run plain_host w)) at 1. f_equal. }
  split; [exact Hf|]. split; [vm_compute; reflexivity|].
  exact (proj1 (proj1 (failed_run_leaves_host_running plain_host w Hf) _ _ E)).
Defined.

(** ** Errors at the top level *)

(** A failing drop is ignored, whatever the failure. *)
Lemma drop_ignoring_errors_fulfilled collection w :
  exists w1,
    drop_ignoring_errors collection w = (Fulfilled tt, w1)
    /\ stderr w1 = stderr w
    /\ calls w1 = calls w ++ [OpDrop].
Proof.
  unfold drop_ignoring_errors, drop, catch, bind, engine_call, ret.
  destruct (faults w (length (calls w))) as [e|].
  - eexists. split; [reflexivity|]. split; reflexivity.
  - cbn [db record_call]. destruct (db w !! collection);
      eexists; (split; [reflexivity|]); split; reflexivity.
Qed.

(** C7, as amended.  In both versions of the script, whenever an engine
    call other than a drop fails (a lost connection, a rejected command, a
    failure inside a timed operation), no call is made after it and [run]
    is rejected with the error of that call; nothing inside [run] writes to
    the standard error.  A rejection of [run] reaches the one top-level
    handler, which writes the error to the standard error and is fulfilled:
    the exit code stays 0; and the host, once it has been started, is then
    left running.  A drop call never rejects the run: whatever makes it
    fail, the error is ignored and the run goes on.  When [run] is
    fulfilled the connection has been closed and the host stopped, and the
    exit code is 0. *)
Theorem errors_reach_the_top_level_handler (H : Host) (w : World) :
  (propagates w (fst (run H w)) (snd (run H w))
   /\ propagates w (fst (MainTs.run H w)) (snd (MainTs.run H w)))
  /\ (forall (body : Promise unit) e w1,
        body w = (Rejected e, w1) ->
        top_level body w = (Fulfilled tt, put_stderr e w1)
        /\ exit_code (fst (top_level body w)) = 0)
  /\ (faults w (length (calls w)) = None ->
      (forall e w1, run H w = (Rejected e, w1) ->
         host_running w1 = true /\ host_running (snd (main H w)) = true)
      /\ (forall e w1, MainTs.run H w = (Rejected e, w1) ->
            host_running w1 = true /\ host_running (snd (MainTs.main H w)) = true))
  /\ (forall collection,
        exists w1,
          drop_ignoring_errors collection w = (Fulfilled tt, w1)
          /\ stderr w1 = stderr w
          /\ calls w1 = calls w ++ [OpDrop])
  /\ (forall w1,
        run H w = (Fulfilled tt, w1) ->
        main H w = (Fulfilled tt, w1)
        /\ exit_code (fst (main H w)) = 0
        /\ connected w1 = false /\ host_running w1 = false)
  /\ (forall w1,
        MainTs.run H w = (Fulfilled tt, w1) ->
        MainTs.main H w = (Fulfilled tt, w1)
        /\ exit_code (fst (MainTs.main H w)) = 0
        /\ connected w1 = false /\ host_running w1 = false).
Proof.
  split; [split; [apply et_run | apply et_MainTs_run]|].
  split; [|split; [|split; [|split]]].
  - intros body e w1 E. destruct (top_level_outcome body w) as [Hr _].
    rewrite (Hr e w1 E). split; reflexivity.
  - intros Hf.
    assert (Hup : forall (body : Promise unit) e w',
              body w = (Rejected e, w') ->
              host_stays_up (set_host_running true (record_call OpCreateHost w)) w' ->
              host_running w' = true /\ host_running (snd (top_level body w)) = true).
    { intros body e w' E Hs. specialize (Hs eq_refl). split; [exact Hs|].
      unfold top_level, catch. rewrite E. exact Hs. }
    split; intros e w1 E; apply (Hup _ e w1 E).
    + host_frame run_rejected_after_start.
    + host_frame MainTs_run_rejected_after_start.
  - intros collection. apply drop_ignoring_errors_fulfilled.
  - intros w1 E. unfold main. destruct (top_level_outcome (run H) w) as [_ Hf].
    rewrite (Hf w1 E). split; [reflexivity|]. split; [reflexivity|].
    eapply run_fulfilled_released. exact E.
  - intros w1 E. unfold MainTs.main. destruct (top_level_outcome (MainTs.run H) w) as [_ Hf].
    rewrite (Hf w1 E). split; [reflexivity|]. split; [reflexivity|].
    eapply MainTs_run_fulfilled_released. exact E.
Qed.

(** The claim without the amendments fails.  When the connection is
    refused, the error is logged but the exit code is 0 (and the host is
    left running); when the call that fails is a drop, its error is ignored
    like any other error of a drop and never reaches the handler (here the
    next step fails instead, because the collection is still there). *)
Lemma failure_is_logged_and_exit_code_is_zero :
  let refused := EngineFailure "connection refused" in
  (let w := world_failing_at 1 refused in
   fst (run plain_host w) = Rejected refused
   /\ stderr (snd (main plain_host w)) = [refused]
   /\ exit_code (fst (main plain_host w)) = 0
   /\ connected (snd (main plain_host w)) = false
   /\ host_running (snd (main plain_host w)) = true)
  /\ (let w := world_failing_at 5 refused in
      nth_error (calls (snd (run plain_host w))) 5 = Some OpDrop
      /\ stderr (snd (main plain_host w)) = [NamespaceExists "timeSeriesCollection"]).
Proof. vm_compute. repeat split; reflexivity. Qed.

Lemma errors_reach_the_top_level_handler_witness :
  let refused := EngineFailure "connection refused" in
  let w := world_failing_at 1 refused in
  run plain_host w = (Rejected refused, snd (run plain_host w))
  /\ stderr (snd (top_level (run plain_host) w)) = [refused]
  /\ exit_code (fst (top_level (run plain_host) w)) = 0
  /\ host_running (snd (run plain_host w)) = true.
Proof.
  intros refused w.
  assert (E : run plain_host w = (Rejected refused, snd (run plain_host w))).
  { rewrite (surjective_pairing (run plain_host w)) at 1. f_equal. }
  split; [exact E|].
  destruct (errors_reach_the_top_level_handler plain_host w) as (_ & Hr & Hhost & _).
  destruct (Hr (run plain_host) refused _ E) as [Ht Hc].
  split; [rewrite Ht; vm_compute; reflexivity|]. split; [exact Hc|].
  exact (proj1 (proj1 (Hhost eq_refl) refused _ E)).
Defined.
(** ** More on the repeated trials *)

(** A trial that is rejected ends the loop. *)
Lemma runMultipleTests_loop_rejected {T} H (f : Promise T) i k w rs w1 :
  Trials H f i k w rs w1 ->
  forall n acc e w2, (k < n)%nat ->
  f (put_stdout (" " +:+ Number_toString H (ofNat (i + k + 1))) w1) = (Rejected e, w2) ->
  runMultipleTests_loop H f n i acc w = (Rejected e, w2).
Proof.
  induction 1 as [i w|i k w w1 w2 r rs Hf Ht IH]; intros n acc e w3 Hlt Hrej.
  - destruct n as [|n]; [lia|]. cbn [runMultipleTests_loop].
    unfold process_stdout_write, modify. unfold bind at 1.
    rewrite Nat.add_0_r in Hrej. rewrite (bind_rejected _ _ _ _ _ Hrej). reflexivity.
  - destruct n as [|n]; [lia|]. cbn [runMultipleTests_loop].
    unfold process_stdout_write, modify. unfold bind at 1.
    rewrite (bind_fulfilled _ _ _ _ _ Hf). apply IH; [lia|].
    replace (S i + k + 1)%nat with (i + S k + 1)%nat by lia. exact Hrej.
Qed.

(** X10.  When the first [k] trials of [runMultipleTests] are fulfilled and
    the next one, number [k + 1 <= runs], is rejected, [runMultipleTests] is
    rejected with the error of that trial in the world that trial left: no
    further trial is made, the results so far are dropped and the closing
    mark is not written. *)
Theorem runMultipleTests_stops_at_first_failure (H : Host) (T : Type)
    (testFunction : Promise T) (runs k : nat) (description : string)
    (w w1 w2 : World) (results : list T) (e : Error) :
  (k < runs)%nat ->
  Trials H testFunction 0 k
    (put_stdout ("   執行 " +:+ description +:+ "...") w) results w1 ->
  testFunction (put_stdout (" " +:+ Number_toString H (ofNat (k + 1))) w1)
    = (Rejected e, w2) ->
  runMultipleTests H testFunction runs description w = (Rejected e, w2).
Proof.
  intros Hlt Ht Hrej. unfold runMultipleTests, process_stdout_write, modify.
  unfold bind at 1. apply bind_rejected.
  eapply runMultipleTests_loop_rejected; [exact Ht | exact Hlt | exact Hrej].
Qed.

Lemma runMultipleTests_stops_at_first_failure_witness :
  let w := world_with_clock (fun k => 1700000000000 + Z.of_nat k) in
  let f := measureInsertSpeed "generalCollection" [] in
  exists w2,
    runMultipleTests plain_host f 5 "insert" w = (Rejected EmptyBatch, w2)
    /\ calls w2 = [] /\ clock_reads w2 = 1%nat.
Proof.
  intros w f. eexists. split; [|split].
  - eapply (runMultipleTests_stops_at_first_failure plain_host _ f 5 0 "insert" w).
    + lia.
    + constructor.
    + reflexivity.
  - reflexivity.
  - reflexivity.
Defined.

(** *** The progress line *)

Lemma Number_toString_ofNat H n :
  (0 < n)%nat -> Z.of_nat n < 10 ^ 15 ->
  Number_toString H (ofNat n) = digits_of_N (N.of_nat n).
Proof.
  intros Hpos Hmax. unfold Number_toString, ofNat, ofZ. fold (Qc_ofZ (Z.of_nat n)).
  assert (Hs : Qc_sign (Qc_ofZ (Z.of_nat n)) = Gt).
  { apply Qc_sign_Gt. change qzero with (Qc_ofZ 0). apply Qc_ofZ_lt. lia. }
  rewrite Hs. unfold positive_toString.
  change 21%nat with (S 20). cbn [decimal_scale].
  rewrite Qc_is_integer_ofZ, Qc_floor_ofZ.
  assert (E1 : (Z.of_nat n <? 10 ^ 15) = true) by (apply Z.ltb_lt; exact Hmax).
  assert (E2 : Qc_leb (Q2Qc (1 # 1000000)) (Qc_ofZ (Z.of_nat n)) = true).
  { apply Qc_leb_true. eapply Qcle_trans; [|apply (Qc_ofZ_le 1); lia]. discriminate. }
  assert (E3 : Qc_ltb (Qc_ofZ (Z.of_nat n)) (Qc_pow10 21) = true).
  { apply Qc_ltb_true. unfold Qc_pow10. apply Qc_ofZ_lt.
    eapply Z.lt_trans; [exact Hmax|]. reflexivity. }
  rewrite E1, E2, E3. cbn [andb]. unfold point_digits. cbn [Nat.eqb].
  rewrite <- nat_N_Z, N2Z.id. reflexivity.
Qed.

Lemma same_stdout_refl w : same_stdout w w.
Proof. reflexivity. Qed.

Lemma same_stdout_trans w1 w2 w3 :
  same_stdout w1 w2 -> same_stdout w2 w3 -> same_stdout w1 w3.
Proof. unfold same_stdout. congruence. Qed.

Ltac quiet_frame :=
  repeat (frame_step same_stdout_refl same_stdout_trans);
  lazymatch goal with
  | |- keeps _ _ => idtac
  | |- _ => intros; reflexivity
  end.

Lemma quiet_insertMany collection data : keeps same_stdout (insertMany collection data).
Proof. unfold insertMany. quiet_frame. Qed.

Lemma quiet_find_toArray collection query :
  keeps same_stdout (find_toArray collection query).
Proof. unfold find_toArray. quiet_frame. Qed.

Lemma quiet_deleteMany collection query :
  keeps same_stdout (deleteMany collection query).
Proof. unfold deleteMany. quiet_frame. Qed.

Lemma Trials_stdout {T} H (f : Promise T) i n w rs w' :
  keeps same_stdout f ->
  Trials H f i n w rs w' ->
  stdout w'
  = stdout w ++ map (fun j => " " +:+ Number_toString H (ofNat (j + 1))) (seq i n).
Proof.
  intros Hq. induction 1 as [i w|i n w w1 w2 r rs Hf Ht IH].
  - cbn. rewrite app_nil_r. reflexivity.
  - rewrite IH. pose proof (Hq (put_stdout (" " +:+ Number_toString H (ofNat (i + 1))) w)) as Hs.
    rewrite Hf in Hs. unfold same_stdout in Hs. cbn [snd stdout put_stdout] in Hs.
    rewrite Hs. cbn [seq map]. rewrite <- app_assoc. reflexivity.
Qed.

(** X11.  When the operation writes nothing itself, a fulfilled
    [runMultipleTests] has added to the standard output exactly the heading
    with the description, the marks [" 1"], [" 2"], ... up to [runs], and
    the closing mark with a line end, in this order.  The three timed
    operations write nothing. *)
Theorem runMultipleTests_progress (H : Host) :
  (forall (T : Type) (testFunction : Promise T) (runs : nat) (description : string)
          (w w' : World) (results : list T),
     keeps same_stdout testFunction ->
     Z.of_nat runs < 10 ^ 15 ->
     runMultipleTests H testFunction runs description w = (Fulfilled results, w') ->
     stdout w'
     = stdout w ++ ["   執行 " +:+ description +:+ "..."] ++ progress_marks runs
       ++ [" ✅" +:+ newline])
  /\ (forall collection data, keeps same_stdout (measureInsertSpeed collection data))
  /\ (forall collection query, keeps same_stdout (measureQuerySpeed collection query))
  /\ (forall collection query, keeps same_stdout (measureDeleteSpeed collection query))
  /\ progress_marks 5 = [" 1"; " 2"; " 3"; " 4"; " 5"]%string.
Proof.
  split; [|split; [|split; [|split; [|reflexivity]]]].
  - intros T f runs description w w' results Hq Hmax E.
    apply runMultipleTests_Trials in E. destruct E as (w1 & Ht & ->).
    cbn [stdout put_stdout]. rewrite (Trials_stdout H f _ _ _ _ _ Hq Ht).
    cbn [stdout put_stdout]. rewrite <- !app_assoc. f_equal. f_equal. f_equal.
    unfold progress_marks. apply map_ext_in. intros j Hj. apply in_seq in Hj.
    replace (j + 1)%nat with (S j) by lia.
    rewrite Number_toString_ofNat by lia. reflexivity.
  - intros collection data. unfold measureInsertSpeed. quiet_frame. apply quiet_insertMany.
  - intros collection query. unfold measureQuerySpeed. quiet_frame. apply quiet_find_toArray.
  - intros collection query. unfold measureDeleteSpeed. quiet_frame. apply quiet_deleteMany.
Qed.

Lemma runMultipleTests_progress_witness :
  let w := world_with_clock (fun k => 1700000000000 + Z.of_nat k) in
  let f := measureQuerySpeed "generalCollection" MatchAll in
  keeps same_stdout f /\ 5 < 10 ^ 15
  /\ exists results w',
       runMultipleTests plain_host f 5 "find" w = (Fulfilled results, w')
       /\ stdout w' = ["   執行 find..."; " 1"; " 2"; " 3"; " 4"; " 5";
                        " ✅" +:+ newline]%string.
Proof.
  intros w f.
  destruct (runMultipleTests_progress plain_host) as (Hp & _ & Hq & _ & Hmarks).
  assert (Hf : keeps same_stdout f) by apply Hq.
  assert (Hmax : 5 < 10 ^ 15) by reflexivity.
  split; [exact Hf|]. split; [exact Hmax|].
  assert (Hnf : no_faults w) by (intros k; reflexivity).
  assert (Hful : fulfils f (fun _ => True)).
  { unfold f, measureQuerySpeed, find_toArray. fulfilment. }
  destruct (fulfils_runMultipleTests plain_host f 5 "find" Hful w Hnf)
    as (results & w' & E & _).
  exists results, w'. split; [exact E|].
  rewrite (Hp _ f 5%nat "find"%string w w' results Hf Hmax E), Hmarks. reflexivity.
Defined.

(** ** More on the generated records *)

(** X12.  For a count that is a valid array length, [generateData] is
    fulfilled with [count] records after reading the clock and the random
    source [count] times each; it calls no engine operation, writes nothing
    and leaves the database, the connection and the host as they are. *)
Theorem generateData_footprint (H : Host) (count : nat) (w : World) :
  Z.of_nat count <= 4294967295 ->
  exists data w',
    generateData H count w = (Fulfilled data, w')
    /\ length data = count
    /\ clock_reads w' = (clock_reads w + count)%nat
    /\ random_reads w' = (random_reads w + count)%nat
    /\ db w' = db w /\ calls w' = calls w
    /\ stdout w' = stdout w /\ stderr w' = stderr w
    /\ connected w' = connected w /\ host_running w' = host_running w.
Proof.
  intros Hmax. eexists _, _. split; [apply generateData_closed_form; exact Hmax|].
  split; [rewrite length_map, length_seq; reflexivity|].
  repeat split.
Qed.

Lemma generateData_footprint_witness :
  let w := world_with_clock (fun k => 1700000000000 + Z.of_nat k) in
  Z.of_nat 7 <= 4294967295
  /\ exists data w',
       generateData plain_host 7 w = (Fulfilled data, w')
       /\ length data = 7%nat /\ clock_reads w' = 7%nat /\ calls w' = [].
Proof.
  intros w. assert (Hmax : Z.of_nat 7 <= 4294967295) by (cbn; lia).
  split; [exact Hmax|].
  destruct (generateData_footprint plain_host 7 w Hmax)
    as (data & w' & E & Hlen & Hc & _ & _ & Hcalls & _).
  exists data, w'. repeat split; assumption.
Defined.

(** *** The records a query by time selects *)

Lemma Date_new_ofZ_outside z :
  z < - 8640000000000000 \/ 8640000000000000 < z -> Date_new (ofZ z) = NaN.
Proof.
  intros Hz. unfold Date_new, ofZ. fold (Qc_ofZ z). unfold qzero.
  change (Q2Qc 0) with (Qc_ofZ 0). rewrite Qc_ltb_ofZ.
  destruct (z <? 0) eqn:E.
  - apply Z.ltb_lt in E. rewrite Qc_opp_ofZ, Qc_ltb_ofZ.
    destruct (8640000000000000 <? - z) eqn:E'; [reflexivity|]. apply Z.ltb_ge in E'. lia.
  - apply Z.ltb_ge in E. rewrite Qc_ltb_ofZ.
    destruct (8640000000000000 <? z) eqn:E'; [reflexivity|]. apply Z.ltb_ge in E'. lia.
Qed.

Lemma Date_new_ofZ_cases z : Date_new (ofZ z) = ofZ z \/ Date_new (ofZ z) = NaN.
Proof.
  destruct (Z_le_gt_dec (- 8640000000000000) z) as [Hlo|Hlo];
    [destruct (Z_le_gt_dec z 8640000000000000) as [Hhi|Hhi]|].
  - left. apply Date_new_ofZ. lia.
  - right. apply Date_new_ofZ_outside. lia.
  - right. apply Date_new_ofZ_outside. lia.
Qed.

Lemma ltb_NaN_r x : ltb x NaN = false.
Proof. destruct x; reflexivity. Qed.

Lemma matches_newer_than H w i j T seconds :
  matches (newer_than T seconds) (record_at H w i j) = true ->
  T - 1000 * seconds < now w (clock_reads w + j) - 1000 * Z.of_nat i.
Proof.
  unfold newer_than, record_at, matches, gtb. cbn [timestamp]. unfold ofNat.
  rewrite !mul_ofZ, !sub_ofZ.
  replace (Z.of_nat i * 1000) with (1000 * Z.of_nat i) by lia.
  destruct (Date_new_ofZ_cases (T - 1000 * seconds)) as [-> | ->]; [|discriminate].
  destruct (Date_new_ofZ_cases (now w (clock_reads w + j) - 1000 * Z.of_nat i))
    as [-> | ->]; [|rewrite ltb_NaN_r; discriminate].
  apply ltb_ofZ.
Qed.

Lemma newer_than_matches H w i j T seconds :
  - 8640000000000000 <= T - 1000 * seconds <= 8640000000000000 ->
  - 8640000000000000 <= now w (clock_reads w + j) - 1000 * Z.of_nat i <= 8640000000000000 ->
  T - 1000 * seconds < now w (clock_reads w + j) - 1000 * Z.of_nat i ->
  matches (newer_than T seconds) (record_at H w i j) = true.
Proof.
  intros H1 H2 Hlt.
  unfold newer_than, record_at, matches, gtb. cbn [timestamp]. unfold ofNat.
  rewrite !mul_ofZ, !sub_ofZ.
  replace (Z.of_nat i * 1000) with (1000 * Z.of_nat i) by lia.
  rewrite !Date_new_ofZ by assumption. apply ltb_ofZ. exact Hlt.
Qed.

Lemma filter_length_bound {A} (f : A -> bool) (l : list A) :
  forall n : nat,
  (forall i x, nth_error l i = Some x -> f x = true -> (i < n)%nat) ->
  (length (List.filter f l) <= n)%nat.
Proof.
  induction l as [|x l IH]; intros n Hn; [cbn; lia|].
  cbn [List.filter]. destruct n as [|n].
  - destruct (f x) eqn:E; [specialize (Hn 0%nat x eq_refl E); lia|].
    apply IH. intros i y Hy Hf. specialize (Hn (S i) y Hy Hf). lia.
  - assert (Hl : (length (List.filter f l) <= n)%nat).
    { apply IH. intros i y Hy Hf. specialize (Hn (S i) y Hy Hf). lia. }
    destruct (f x); cbn [length]; lia.
Qed.

(** X13.  Of a batch made by [generateData] before the time [T] at which
    a query for the last [seconds] seconds is built, only records with an
    index below [seconds] can match the query, so at most [seconds] records
    of the batch match, whatever its size; and the record at index [i]
    does match when fewer than [1000 * (seconds - i)] milliseconds passed
    between its clock reading and [T] (all times being valid dates).  The
    scripts query for the last 100 seconds and, in the single-batch
    version, the last 1000. *)
Theorem query_selects_recent_records (H : Host) (w : World) (count : nat)
    (T : Z) (seconds : nat) (data : list SyntheticRecord) (w' : World) :
  generateData H count w = (Fulfilled data, w') ->
  (forall j, (j < count)%nat -> now w (clock_reads w + j) <= T) ->
  let query := newer_than T (Z.of_nat seconds) in
  (forall i d, nth_error data i = Some d -> matches query d = true -> (i < seconds)%nat)
  /\ (length (List.filter (matches query) data) <= seconds)%nat
  /\ (forall i d, nth_error data i = Some d ->
        - 8640000000000000 <= T - 1000 * Z.of_nat seconds ->
        T <= 8640000000000000 ->
        - 8640000000000000 <= now w (clock_reads w + i) - 1000 * Z.of_nat i ->
        T - now w (clock_reads w + i) < 1000 * (Z.of_nat seconds - Z.of_nat i) ->
        matches query d = true)
  /\ newer_than T 100
     = TimestampGt (Date_new (sub (ofZ T) (mul (ofZ 1000) (ofZ 100))))
  /\ newer_than T 1000
     = TimestampGt (Date_new (sub (ofZ T) (mul (ofZ 1000) (ofZ 1000)))).
Proof.
  intros E Hclock query.
  apply generateData_fulfilled_inv in E. destruct E as (-> & _ & _).
  assert (Hnth : forall i d,
            nth_error (map (fun j => record_at H w j j) (seq 0 count)) i = Some d ->
            (i < count)%nat /\ d = record_at H w i i).
  { intros i d Hd.
    assert (Hi : (i < count)%nat).
    { assert (Hs : nth_error (map (fun j => record_at H w j j) (seq 0 count)) i <> None)
        by congruence.
      apply nth_error_Some in Hs. rewrite length_map, length_seq in Hs. exact Hs. }
    split; [exact Hi|]. rewrite nth_error_generated in Hd by exact Hi. congruence. }
  assert (Hwin : forall i d,
            nth_error (map (fun j => record_at H w j j) (seq 0 count)) i = Some d ->
            matches query d = true -> (i < seconds)%nat).
  { intros i d Hd Hm. destruct (Hnth i d Hd) as [Hi ->].
    apply matches_newer_than in Hm. specialize (Hclock i Hi). lia. }
  split; [exact Hwin|]. split; [apply filter_length_bound; exact Hwin|].
  split; [|split; reflexivity].
  intros i d Hd H1 H2 H3 Hlt. destruct (Hnth i d Hd) as [Hi ->].
  specialize (Hclock i Hi). apply newer_than_matches; lia.
Qed.

Lemma query_selects_recent_records_witness :
  let w := world_with_clock (fun k => 1700000000000 + Z.of_nat k) in
  let T := 1700000000500 in
  exists data w',
    generateData plain_host 300 w = (Fulfilled data, w')
    /\ (forall j, (j < 300)%nat -> now w (clock_reads w + j) <= T)
    /\ (length (List.filter (matches (newer_than T 100)) data) <= 100)%nat.
Proof.
  intros w T.
  assert (Hg : Z.of_nat 300 <= 4294967295) by lia.
  assert (Hclock : forall j, (j < 300)%nat -> now w (clock_reads w + j) <= T).
  { intros j Hj. unfold w, T. cbn [now clock_reads world_with_clock sample_world]. lia. }
  eexists _, _. split; [apply generateData_closed_form; exact Hg|].
  split; [exact Hclock|].
  exact (proj1 (proj2 (query_selects_recent_records plain_host w 300 T 100 _ _
                         (generateData_closed_form plain_host 300 w Hg) Hclock))).
Defined.

(** ** The whole run *)

(** *** Where no engine call fails, the remaining steps are fulfilled *)

Lemma fulfils_find_toArray collection query :
  fulfils (find_toArray collection query) (fun _ => True).
Proof. unfold find_toArray. fulfilment. Qed.

Lemma fulfils_command_collStats name : fulfils (command_collStats name) (fun _ => True).
Proof. unfold command_collStats. fulfilment. Qed.

Lemma fulfils_command_buildInfo : fulfils command_buildInfo (fun _ => True).
Proof. unfold command_buildInfo. fulfilment. Qed.

#[local] Hint Resolve fulfils_find_toArray fulfils_command_collStats
  fulfils_command_buildInfo : fulfilment.

Lemma fulfils_getCollectionStats name : fulfils (getCollectionStats name) (fun _ => True).
Proof. unfold getCollectionStats. fulfilment. Qed.

Lemma fulfils_measureQuerySpeed collection query :
  fulfils (measureQuerySpeed collection query) (fun _ => True).
Proof. unfold measureQuerySpeed. fulfilment. Qed.

Lemma fulfils_measureDeleteSpeed collection query :
  fulfils (measureDeleteSpeed collection query) (fun _ => True).
Proof. unfold measureDeleteSpeed. fulfilment. Qed.

Lemma fulfils_printTitle title : fulfils (printTitle title) (fun _ => True).
Proof. unfold printTitle. fulfilment. Qed.

Lemma fulfils_MongoMemoryReplSet_create : fulfils MongoMemoryReplSet_create (fun _ => True).
Proof. unfold MongoMemoryReplSet_create. fulfilment. Qed.

Lemma fulfils_client_connect : fulfils client_connect (fun _ => True).
Proof. unfold client_connect. fulfilment. Qed.

Lemma fulfils_client_close : fulfils client_close (fun _ => True).
Proof. unfold client_close. fulfilment. Qed.

Lemma fulfils_replSet_stop : fulfils replSet_stop (fun _ => True).
Proof. unfold replSet_stop. fulfilment. Qed.

#[local] Hint Resolve fulfils_getCollectionStats fulfils_measureQuerySpeed
  fulfils_measureDeleteSpeed fulfils_printTitle fulfils_MongoMemoryReplSet_create
  fulfils_client_connect fulfils_client_close fulfils_replSet_stop : fulfilment.

Lemma fulfils_storage_report H : fulfils (storage_report H) (fun _ => True).
Proof. unfold storage_report. fulfilment. Qed.

Lemma fulfils_query_trials H collection :
  fulfils (query_trials H collection) (fun _ => True).
Proof. unfold query_trials. fulfilment. Qed.

Lemma fulfils_delete_trials H size :
  (0 < size)%nat -> Z.of_nat size <= 4294967295 ->
  fulfils (delete_trials H size "timeSeriesCollection") (fun _ => True).
Proof. intros Hpos Hmax. unfold delete_trials. fulfilment. Qed.

Lemma fulfils_insert_phase_handle H size :
  (0 < size)%nat -> Z.of_nat size <= 4294967295 ->
  fulfils (insert_phase H size) (fun h => h = "timeSeriesCollection"%string).
Proof.
  intros Hpos Hmax.
  unfold insert_phase, reset_collections.
  eapply fulfils_bind with (Q := fun h => h = "timeSeriesCollection"%string).
  - fulfilment.
  - intros h ->. unfold insert_trials, reload_collections.
    fulfilment.
Qed.

Lemma fulfils_run_size H size :
  (0 < size)%nat -> Z.of_nat size <= 4294967295 ->
  fulfils (run_size H size) (fun _ => True).
Proof.
  intros Hpos Hmax. unfold run_size.
  eapply fulfils_bind; [apply fulfils_insert_phase_handle; assumption|].
  intros h ->. pose proof (fulfils_storage_report H). pose proof (fulfils_query_trials H).
  pose proof (fulfils_delete_trials H size Hpos Hmax).
  fulfilment.
Qed.

Lemma fulfils_for_of {A} (l : list A) (body : A -> Promise unit) :
  Forall (fun x => fulfils (body x) (fun _ => True)) l ->
  fulfils (for_of l body) (fun _ => True).
Proof.
  induction 1 as [|x l Hx Hl IH]; cbn [for_of]; fulfilment; auto.
Qed.

(** *** The steps before the first collection is created *)

(** A step that is fulfilled where no engine call fails and that leaves
    the database as it is. *)
Lemma step_keeping_db {A B} (m : Promise A) (k : A -> Promise B)
    (Post : Settled B * World -> Prop) (w : World) :
  fulfils m (fun _ => True) -> keeps same_db m -> no_faults w ->
  (forall a w1, no_faults w1 -> db w1 = db w -> Post (k a w1)) ->
  Post (bind m k w).
Proof.
  intros Hm Hk Hnf Hpost. destruct (Hm w Hnf) as (a & w1 & E & Hnf1 & _).
  rewrite (bind_fulfilled _ _ _ _ _ E). apply Hpost; [exact Hnf1|].
  specialize (Hk w). rewrite E in Hk. exact Hk.
Qed.

Lemma same_db_MongoMemoryReplSet_create : keeps same_db MongoMemoryReplSet_create.
Proof.
  unfold MongoMemoryReplSet_create.
  repeat (frame_step same_db_refl same_db_trans); intros; reflexivity.
Qed.

Lemma same_db_client_connect : keeps same_db client_connect.
Proof.
  unfold client_connect.
  repeat (frame_step same_db_refl same_db_trans); intros; reflexivity.
Qed.

Lemma same_db_read {A} (f : World -> A) : keeps same_db (fun w => (Fulfilled (f w), w)).
Proof. intros w. reflexivity. Qed.

Lemma same_db_Date_now : keeps same_db Date_now.
Proof. intros w. reflexivity. Qed.

Ltac keeping_db :=
  first [ apply same_db_MongoMemoryReplSet_create | apply same_db_client_connect
        | apply same_db_read | apply same_db_Date_now
        | apply (keeps_command_buildInfo same_db); db_frame
        | apply (keeps_printTitle same_db); db_frame
        | apply (keeps_console_log same_db); db_frame
        | apply (keeps_generateData same_db); db_frame ].

(** The steps up to the first creation of a collection, one at a time. *)
Ltac to_first_creation Hnf Hdb :=
  repeat lazymatch goal with
  | |- _ (bind (createCollection _ _) _ _) => fail
  | |- _ (bind ?m _ _) =>
      let Hnf' := fresh "Hnf" in
      let Hdb' := fresh "Hdb" in
      apply step_keeping_db;
        [ solve [eauto 3 using fulfils_any, fulfils_read with fulfilment]
        | keeping_db
        | exact Hnf
        | intros ? ? Hnf' Hdb'; rewrite <- Hdb' in Hdb; clear Hdb';
          clear Hnf; rename Hnf' into Hnf; cbv beta ]
  end.

Lemma createCollection_fresh name options w :
  no_faults w -> db w !! name = None ->
  createCollection name options w
  = (Fulfilled name,
     set_db (insert name {| timeseries := options; docs := [] |})
       (record_call OpCreateCollection w)).
Proof.
  intros Hnf Hdb. unfold createCollection, bind, engine_call. rewrite Hnf.
  change (db (record_call OpCreateCollection w)) with (db w). rewrite Hdb. reflexivity.
Qed.

Lemma createCollection_taken name options w c :
  no_faults w -> db w !! name = Some c ->
  createCollection name options w
  = (Rejected (NamespaceExists name), record_call OpCreateCollection w).
Proof.
  intros Hnf Hdb. unfold createCollection, bind, engine_call. rewrite Hnf.
  change (db (record_call OpCreateCollection w)) with (db w). rewrite Hdb. reflexivity.
Qed.

Lemma no_faults_created name options w :
  no_faults w ->
  no_faults (set_db (insert name {| timeseries := options; docs := [] |})
               (record_call OpCreateCollection w)).
Proof. intros Hnf k. apply Hnf. Qed.

Lemma fulfils_run_sizes H : fulfils (for_of dataSizes (run_size H)) (fun _ => True).
Proof.
  apply fulfils_for_of. eapply List.Forall_impl; [|apply dataSizes_are_lengths].
  intros size [Hpos Hmax]. apply fulfils_run_size; assumption.
Qed.

Lemma fulfils_MainTs_run_size H size :
  (0 < size)%nat -> Z.of_nat size <= 4294967295 ->
  fulfils (MainTs.run_size H "timeSeriesCollection" size) (fun _ => True).
Proof. intros Hpos Hmax. unfold MainTs.run_size. fulfilment. Qed.

Lemma fulfils_MainTs_run_sizes H :
  fulfils (for_of dataSizes (MainTs.run_size H "timeSeriesCollection")) (fun _ => True).
Proof.
  apply fulfils_for_of. eapply List.Forall_impl; [|apply dataSizes_are_lengths].
  intros size [Hpos Hmax]. apply fulfils_MainTs_run_size; assumption.
Qed.

#[local] Hint Resolve fulfils_run_sizes fulfils_MainTs_run_sizes : fulfilment.

(** The steps after the creation, all at once. *)
Ltac from_first_creation Hnf Hdb :=
  rewrite (bind_fulfilled _ _ _ _ _ (createCollection_fresh _ _ _ Hnf Hdb)); cbv beta;
  lazymatch goal with
  | |- ?P (?m ?w) =>
      let Hrest := fresh "Hrest" in
      assert (Hrest : fulfils m (fun _ => True)) by fulfilment;
      let u := fresh "u" in
      let E := fresh "E" in
      destruct (Hrest w (no_faults_created _ _ _ Hnf)) as (u & ? & E & _);
      rewrite E; unfold P; destruct u; eexists; reflexivity
  end.

Lemma run_fulfilled_on_fresh_host H w :
  no_faults w -> db w !! "timeSeriesCollection" = None ->
  exists w', run H w = (Fulfilled tt, w').
Proof.
  intros Hnf Hdb.
  set (Post := fun r : Settled unit * World => exists w', r = (Fulfilled tt, w')).
  change (Post (run H w)). unfold run.
  to_first_creation Hnf Hdb.
  from_first_creation Hnf Hdb.
Qed.

Lemma MainTs_run_fulfilled_on_fresh_host H w :
  no_faults w -> db w !! "timeSeriesCollection" = None ->
  exists w', MainTs.run H w = (Fulfilled tt, w').
Proof.
  intros Hnf Hdb.
  set (Post := fun r : Settled unit * World => exists w', r = (Fulfilled tt, w')).
  change (Post (MainTs.run H w)). unfold MainTs.run.
  to_first_creation Hnf Hdb.
  from_first_creation Hnf Hdb.
Qed.

Lemma run_rejected_on_used_host H w c :
  no_faults w -> db w !! "timeSeriesCollection" = Some c ->
  fst (run H w) = Rejected (NamespaceExists "timeSeriesCollection")
  /\ fst (MainTs.run H w) = Rejected (NamespaceExists "timeSeriesCollection").
Proof.
  intros Hnf Hdb.
  set (Post := fun r : Settled unit * World =>
                 fst r = Rejected (NamespaceExists "timeSeriesCollection")).
  split.
  - change (Post (run H w)). unfold run. to_first_creation Hnf Hdb. unfold Post.
    rewrite (bind_rejected _ _ _ _ _ (createCollection_taken _ _ _ _ Hnf Hdb)). reflexivity.
  - change (Post (MainTs.run H w)). unfold MainTs.run. to_first_creation Hnf Hdb. unfold Post.
    rewrite (bind_rejected _ _ _ _ _ (createCollection_taken _ _ _ _ Hnf Hdb)). reflexivity.
Qed.

Lemma run_leaves_stderr H w : stderr (snd (run H w)) = stderr w.
Proof. destruct (et_run H w) as (_ & He & _). exact He. Qed.

Lemma MainTs_run_leaves_stderr H w : stderr (snd (MainTs.run H w)) = stderr w.
Proof. destruct (et_MainTs_run H w) as (_ & He & _). exact He. Qed.

(** X14.  Where no engine call fails and the host has no collection
    [timeSeriesCollection] yet, [run] is fulfilled in both the repeated and
    the single-trial version, with the connection closed, the host stopped
    and nothing written to the standard error.  Where the collection exists
    already, [run] is rejected in both with the error of the first
    [createCollection], a namespace that exists. *)
Theorem run_completes_on_fresh_host (H : Host) (w : World) :
  no_faults w ->
  (db w !! "timeSeriesCollection" = None ->
   (exists w', run H w = (Fulfilled tt, w')
      /\ connected w' = false /\ host_running w' = false /\ stderr w' = stderr w)
   /\ (exists w', MainTs.run H w = (Fulfilled tt, w')
         /\ connected w' = false /\ host_running w' = false /\ stderr w' = stderr w))
  /\ (forall c, db w !! "timeSeriesCollection" = Some c ->
        fst (run H w) = Rejected (NamespaceExists "timeSeriesCollection")
        /\ fst (MainTs.run H w) = Rejected (NamespaceExists "timeSeriesCollection")).
Proof.
  intros Hnf. split.
  - intros Hdb. split.
    + destruct (run_fulfilled_on_fresh_host H w Hnf Hdb) as (w' & E).
      exists w'. split; [exact E|].
      destruct (run_fulfilled_released H w tt w' E) as [Hc Hh].
      split; [exact Hc|]. split; [exact Hh|].
      pose proof (run_leaves_stderr H w) as Hs. rewrite E in Hs. exact Hs.
    + destruct (MainTs_run_fulfilled_on_fresh_host H w Hnf Hdb) as (w' & E).
      exists w'. split; [exact E|].
      destruct (MainTs_run_fulfilled_released H w tt w' E) as [Hc Hh].
      split; [exact Hc|]. split; [exact Hh|].
      pose proof (MainTs_run_leaves_stderr H w) as Hs. rewrite E in Hs. exact Hs.
  - intros c Hdb. apply (run_rejected_on_used_host H w c Hnf Hdb).
Qed.

Lemma run_completes_on_fresh_host_witness :
  let w := world_with_clock (fun k => 1700000000000 + Z.of_nat k) in
  no_faults w /\ db w !! "timeSeriesCollection" = None
  /\ exists w', run plain_host w = (Fulfilled tt, w') /\ host_running w' = false.
Proof.
  intros w.
  assert (Hnf : no_faults w) by (intros k; reflexivity).
  assert (Hdb : db w !! "timeSeriesCollection" = None) by reflexivity.
  split; [exact Hnf|]. split; [exact Hdb|].
  destruct (proj1 (proj1 (run_completes_on_fresh_host plain_host w Hnf) Hdb))
    as (w' & E & _ & Hh & _).
  exists w'. split; [exact E | exact Hh].
Defined.

(** ** The database at the end of a script *)

(** The database after a fulfilled step that leaves it as it is. *)
Lemma same_db_fulfilled {A} (m : Promise A) w a w1 :
  keeps same_db m -> m w = (Fulfilled a, w1) -> db w1 = db w.
Proof. intros Hk E. specialize (Hk w). rewrite E in Hk. exact Hk. Qed.

Lemma same_db_client_close : keeps same_db client_close.
Proof.
  unfold client_close.
  repeat (frame_step same_db_refl same_db_trans); intros; reflexivity.
Qed.

Lemma same_db_replSet_stop : keeps same_db replSet_stop.
Proof.
  unfold replSet_stop.
  repeat (frame_step same_db_refl same_db_trans); intros; reflexivity.
Qed.

Lemma same_db_find_toArray collection query : keeps same_db (find_toArray collection query).
Proof. apply (keeps_find_toArray same_db); db_frame. Qed.

Lemma same_db_MongoMemoryServer_create : keeps same_db SingleBatch.MongoMemoryServer_create.
Proof. exact same_db_MongoMemoryReplSet_create. Qed.

Lemma same_db_mongoServer_stop : keeps same_db SingleBatch.mongoServer_stop.
Proof. exact same_db_replSet_stop. Qed.

(** The steps that leave the database as it is, by their heads. *)
Ltac neutral_step :=
  lazymatch goal with
  | |- keeps _ MongoMemoryReplSet_create => apply same_db_MongoMemoryReplSet_create
  | |- keeps _ SingleBatch.MongoMemoryServer_create =>
      apply same_db_MongoMemoryServer_create
  | |- keeps _ client_connect => apply same_db_client_connect
  | |- keeps _ client_close => apply same_db_client_close
  | |- keeps _ replSet_stop => apply same_db_replSet_stop
  | |- keeps _ SingleBatch.mongoServer_stop => apply same_db_mongoServer_stop
  | |- keeps _ Date_now => apply same_db_Date_now
  | |- keeps _ (fun w => (Fulfilled _, w)) => apply same_db_read
  | |- keeps _ command_buildInfo => apply (keeps_command_buildInfo same_db); db_frame
  | |- keeps _ (printTitle _) => apply (keeps_printTitle same_db); db_frame
  | |- keeps _ (console_log _) => apply (keeps_console_log same_db); db_frame
  | |- keeps _ (printSeparator _ _) => apply (keeps_printSeparator same_db); db_frame
  | |- keeps _ (generateData _ _) => apply (keeps_generateData same_db); db_frame
  | |- keeps _ (find_toArray _ _) => apply same_db_find_toArray
  | |- keeps _ (measureQuerySpeed _ _) =>
      apply (keeps_measureQuerySpeed same_db); db_frame
  | |- keeps _ (getCollectionStats _) =>
      apply (keeps_getCollectionStats same_db); db_frame
  | |- keeps _ (storage_report _) => apply (keeps_storage_report same_db); db_frame
  | |- keeps _ (query_trials _ _) => apply (keeps_query_trials same_db); db_frame
  end.

(** A drop whose errors are ignored has removed the collection or left the
    database as it is. *)
Lemma drop_ignoring_errors_inv collection w r w' :
  drop_ignoring_errors collection w = (r, w') ->
  db w' = delete collection (db w) \/ db w' = db w.
Proof.
  unfold drop_ignoring_errors, catch, drop, bind, engine_call, ret.
  destruct (faults w (length (calls w))).
  - intros E. inversion E. right. reflexivity.
  - change (db (record_call OpDrop w)) with (db w).
    destruct (db w !! collection); intros E; inversion E; [left | right]; reflexivity.
Qed.

Lemma measureInsertSpeed_fulfilled_inv collection data w r w' :
  measureInsertSpeed collection data w = (Fulfilled r, w') ->
  db w' = <[collection := append_docs data (db w !! collection)]> (db w).
Proof.
  unfold measureInsertSpeed. intros E.
  apply bind_fulfilled_inv in E. destruct E as (? & w1 & E1 & E).
  apply bind_fulfilled_inv in E. destruct E as (? & w2 & E2 & E).
  apply bind_fulfilled_inv in E. destruct E as (? & w3 & E3 & E).
  unfold ret in E. inversion E. subst.
  apply (same_db_fulfilled _ _ _ _ same_db_Date_now) in E1, E3.
  apply insertMany_fulfilled_inv in E2. destruct E2 as [_ E2].
  rewrite E3, E2, E1. reflexivity.
Qed.

Lemma measureDeleteSpeed_fulfilled_inv collection query w r w' :
  measureDeleteSpeed collection query w = (Fulfilled r, w') ->
  db w' = alter (remove_docs query) collection (db w).
Proof.
  unfold measureDeleteSpeed. intros E.
  apply bind_fulfilled_inv in E. destruct E as (? & w1 & E1 & E).
  apply bind_fulfilled_inv in E. destruct E as (? & w2 & E2 & E).
  apply bind_fulfilled_inv in E. destruct E as (? & w3 & E3 & E).
  unfold ret in E. inversion E. subst.
  apply (same_db_fulfilled _ _ _ _ same_db_Date_now) in E1, E3.
  apply deleteMany_fulfilled_inv in E2.
  rewrite E3, E2, E1. reflexivity.
Qed.

(** What one fulfilled step has done to the database. *)
Ltac db_of_step E1 :=
  lazymatch type of E1 with
  | createCollection _ _ _ = _ =>
      apply createCollection_fulfilled_inv in E1; destruct E1 as [-> E1]
  | insertMany _ _ _ = _ =>
      apply insertMany_fulfilled_inv in E1; destruct E1 as [_ E1]
  | deleteMany _ _ _ = _ => apply deleteMany_fulfilled_inv in E1
  | measureInsertSpeed _ _ _ = _ => apply measureInsertSpeed_fulfilled_inv in E1
  | measureDeleteSpeed _ _ _ = _ => apply measureDeleteSpeed_fulfilled_inv in E1
  | drop_ignoring_errors _ _ = _ =>
      apply drop_ignoring_errors_inv in E1; destruct E1 as [E1 | E1]
  | generateData ?H ?n ?w0 = (Fulfilled ?d, ?w1) =>
      let Hd := fresh "Hdata" in
      let Hg := fresh "Hbatch" in
      pose proof (generateData_fulfilled_inv _ _ _ _ _ E1) as (_ & _ & Hd);
      assert (Hg : generated_batch H n d) by (exists w0, w1; exact E1);
      apply (same_db_fulfilled (generateData H n) _ _ _ ltac:(neutral_step)) in E1
  | ret _ _ = _ => unfold ret in E1; inversion E1; subst; clear E1
  | (if ?b then _ else _) _ = _ => destruct b; db_of_step E1
  | ?m _ = (_, _) =>
      apply (same_db_fulfilled m _ _ _ ltac:(neutral_step)) in E1
  end.

(** The steps of a fulfilled sequence, one at a time. *)
Ltac db_trace E :=
  repeat (cbv beta zeta in E;
          lazymatch type of E with
          | bind _ _ _ = _ =>
              let E1 := fresh "Estep" in
              apply bind_fulfilled_inv in E; destruct E as (? & ? & E1 & E);
              db_of_step E1
          end);
  cbv beta zeta in E; db_of_step E.

Ltac db_rewrite :=
  repeat match goal with
  | Hd : db ?x = _ |- _ => rewrite Hd; clear Hd
  end.

(** *** The single-batch script *)

Lemma fulfils_MongoMemoryServer_create :
  fulfils SingleBatch.MongoMemoryServer_create (fun _ => True).
Proof. exact fulfils_MongoMemoryReplSet_create. Qed.

Lemma fulfils_mongoServer_stop : fulfils SingleBatch.mongoServer_stop (fun _ => True).
Proof. exact fulfils_replSet_stop. Qed.

Lemma fulfils_batch H :
  fulfils (generateData H (Z.to_nat 10000)) (fun data => data <> []).
Proof. apply fulfils_generateData; lia. Qed.

#[local] Hint Resolve fulfils_MongoMemoryServer_create fulfils_mongoServer_stop
  fulfils_batch : fulfilment.

Lemma SingleBatch_run_fulfilled_on_fresh_host H w :
  no_faults w -> db w !! "timeSeriesCollection" = None ->
  exists w', SingleBatch.run H w = (Fulfilled tt, w').
Proof.
  intros Hnf Hdb.
  set (Post := fun r : Settled unit * World => exists w', r = (Fulfilled tt, w')).
  change (Post (SingleBatch.run H w)). unfold SingleBatch.run.
  rewrite batch_is_generateData.
  apply step_keeping_db;
    [apply fulfils_MongoMemoryServer_create | apply same_db_MongoMemoryServer_create
    | exact Hnf |].
  intros _ w1 Hnf1 Hdb1. rewrite <- Hdb1 in Hdb. clear Hdb1.
  to_first_creation Hnf1 Hdb.
  from_first_creation Hnf1 Hdb.
Qed.

Lemma SingleBatch_run_fulfilled_released H w u w' :
  SingleBatch.run H w = (Fulfilled u, w') -> connected w' = false /\ host_running w' = false.
Proof.
  intros E. unfold SingleBatch.run in E. peel_to_close E.
  eapply client_close_then_stop. exact E.
Qed.

(** X15.  Where no engine call fails and the host has no collection
    [timeSeriesCollection] yet, the single-batch script is fulfilled and
    leaves both of its collections in place and empty (the time-series one
    with its options), every other collection as it was, the connection
    closed and the host stopped. *)
Theorem SingleBatch_run_completes (H : Host) (w : World) :
  no_faults w -> db w !! "timeSeriesCollection" = None ->
  exists w',
    SingleBatch.run H w = (Fulfilled tt, w')
    /\ docs <$> (db w' !! "generalCollection") = Some []
    /\ db w' !! "timeSeriesCollection"
       = Some {| timeseries := timeSeriesOptions; docs := [] |}
    /\ (forall name : string,
          name <> "generalCollection" -> name <> "timeSeriesCollection" ->
          db w' !! name = db w !! name)
    /\ connected w' = false /\ host_running w' = false.
Proof.
  intros Hnf Hdb.
  destruct (SingleBatch_run_fulfilled_on_fresh_host H w Hnf Hdb) as (w' & E).
  exists w'. split; [exact E|].
  pose proof (SingleBatch_run_fulfilled_released H w tt w' E) as Hreleased.
  unfold SingleBatch.run in E. rewrite batch_is_generateData in E.
  db_trace E.
  eassert (Hfinal : db w' = _) by (db_rewrite; reflexivity).
  unfold generalCollection, db_collection in Hfinal.
  split; [|split; [|split; [|exact Hreleased]]].
  - rewrite Hfinal.
    rewrite lookup_alter_ne, lookup_alter_eq by discriminate.
    rewrite lookup_insert_ne, lookup_insert_eq by discriminate.
    cbn [fmap option_fmap option_map]. rewrite remove_docs_all. reflexivity.
  - rewrite Hfinal.
    rewrite lookup_alter_eq, lookup_alter_ne, lookup_insert_eq by discriminate.
    rewrite lookup_insert_ne, lookup_insert_eq by discriminate.
    cbn [fmap option_fmap option_map append_docs timeseries docs].
    unfold remove_docs. cbn [timeseries docs]. f_equal. f_equal.
    apply (remove_docs_all {| timeseries := None; docs := _ |}).
  - intros name Hg Ht. rewrite Hfinal.
    rewrite !lookup_alter_ne by congruence.
    rewrite !lookup_insert_ne by congruence. reflexivity.
Qed.

Lemma SingleBatch_run_completes_witness :
  let w := world_with_clock (fun k => 1700000000000 + Z.of_nat k) in
  no_faults w /\ db w !! "timeSeriesCollection" = None
  /\ exists w',
       SingleBatch.run plain_host w = (Fulfilled tt, w')
       /\ docs <$> (db w' !! "generalCollection") = Some [].
Proof.
  intros w.
  assert (Hnf : no_faults w) by (intros k; reflexivity).
  assert (Hdb : db w !! "timeSeriesCollection" = None) by reflexivity.
  split; [exact Hnf|]. split; [exact Hdb|].
  destruct (SingleBatch_run_completes plain_host w Hnf Hdb) as (w' & E & Hg & _).
  exists w'. split; [exact E | exact Hg].
Defined.

(** *** The single-trial script: what one data size leaves behind *)

Lemma docs_of_appended data (m : gmap string Collection) name query :
  docs <$> (remove_docs query <$> Some (append_docs data (m !! name)))
  = Some (survivors query
            (match m !! name with Some c => docs c | None => [] end ++ data)).
Proof.
  cbn [fmap option_fmap option_map]. unfold remove_docs, survivors. cbn [docs].
  destruct (m !! name); reflexivity.
Qed.

(** X16.  One data size of the single-trial script ([main.ts]) adds one
    batch of [size] records to what each collection held before and then
    deletes the documents with a value above 50: the collections are not
    emptied between the sizes, so the documents that survive the delete
    stay for the next size. *)
Theorem MainTs_run_size_accumulates (H : Host) (size : nat) (w w' : World) :
  MainTs.run_size H "timeSeriesCollection" size w = (Fulfilled tt, w') ->
  exists (data : list SyntheticRecord) (w0 : World),
    generateData H size w = (Fulfilled data, w0) /\ length data = size
    /\ docs <$> (db w' !! "generalCollection")
       = Some (survivors (ValueGt (ofZ 50)) (docs_of w "generalCollection" ++ data))
    /\ docs <$> (db w' !! "timeSeriesCollection")
       = Some (survivors (ValueGt (ofZ 50)) (docs_of w "timeSeriesCollection" ++ data)).
Proof.
  intros E. unfold MainTs.run_size in E.
  apply bind_fulfilled_inv in E. destruct E as (data & w0 & Eg & E).
  exists data, w0. split; [exact Eg|].
  pose proof (generateData_fulfilled_inv _ _ _ _ _ Eg) as (_ & _ & Hlen).
  split; [exact Hlen|].
  apply (same_db_fulfilled (generateData H size) _ _ _ ltac:(neutral_step)) in Eg.
  db_trace E.
  all: eassert (Hfinal : db w' = _) by (db_rewrite; reflexivity).
  all: unfold generalCollection, db_collection in Hfinal; unfold docs_of; split.
  all: rewrite Hfinal.
  all: first
    [ rewrite lookup_alter_ne, lookup_alter_eq, lookup_insert_ne, lookup_insert_eq
        by discriminate; apply docs_of_appended
    | rewrite lookup_alter_eq, lookup_alter_ne, lookup_insert_eq by discriminate;
      rewrite docs_of_appended, lookup_insert_ne by discriminate; reflexivity ].
Qed.

Lemma MainTs_run_size_accumulates_witness :
  let w := world_with_clock (fun k => 1700000000000 + Z.of_nat k) in
  exists w' data w0,
    MainTs.run_size plain_host "timeSeriesCollection" 3 w = (Fulfilled tt, w')
    /\ generateData plain_host 3 w = (Fulfilled data, w0)
    /\ docs <$> (db w' !! "generalCollection")
       = Some (survivors (ValueGt (ofZ 50)) (docs_of w "generalCollection" ++ data)).
Proof.
  intros w.
  assert (Hnf : no_faults w) by (intros k; reflexivity).
  destruct (fulfils_MainTs_run_size plain_host 3 ltac:(lia) ltac:(lia) w Hnf)
    as ([] & w' & E & _).
  destruct (MainTs_run_size_accumulates plain_host 3 w w' E) as (data & w0 & Eg & _ & Hg & _).
  exists w', data, w0. split; [exact E|]. split; [exact Eg | exact Hg].
Defined.

(** *** The script with repeated trials: what one data size leaves behind *)

(** The last of a positive number of trials ends in the world the trials
    end in. *)
Lemma Trials_last {T} H (f : Promise T) n : forall i w rs w',
  Trials H f i (S n) w rs w' -> exists w0 r, f w0 = (Fulfilled r, w').
Proof.
  induction n as [|n IH]; intros i w rs w' Ht;
    inversion Ht as [|? ? ? w1 ? r rs1 Hf Ht']; subst.
  - inversion Ht'; subst. eauto.
  - eapply IH. exact Ht'.
Qed.

(** What every trial and every progress mark keep, the trials keep. *)
Lemma Trials_keep {T} H (f : Promise T) (R : World -> World -> Prop) :
  (forall w, R w w) -> (forall w1 w2 w3, R w1 w2 -> R w2 w3 -> R w1 w3) ->
  (forall s w, R w (put_stdout s w)) ->
  (forall w r w', f w = (Fulfilled r, w') -> R w w') ->
  forall i n w rs w', Trials H f i n w rs w' -> R w w'.
Proof.
  intros Hrefl Htrans Hout Hf i n w rs w'.
  induction 1 as [i w|i n w w1 w2 r rs Hr Ht IH]; [apply Hrefl|].
  eapply Htrans; [apply Hout|]. eapply Htrans; [eapply Hf; exact Hr | exact IH].
Qed.

(** The lookups of a database known step by step. *)
Ltac db_lookup :=
  repeat first
    [ rewrite lookup_alter_eq | rewrite lookup_alter_ne by discriminate
    | rewrite lookup_insert_eq | rewrite lookup_insert_ne by discriminate
    | rewrite lookup_delete_eq | rewrite lookup_delete_ne by discriminate ].

Lemma no_survivors_of_all l :
  List.filter (fun doc => negb (matches MatchAll doc)) l = [].
Proof. induction l as [|x l IH]; [reflexivity | exact IH]. Qed.

Lemma survivors_of_fresh data (o : option Collection) query :
  docs <$> (remove_docs query
              <$> Some (append_docs data (remove_docs MatchAll <$> o)))
  = Some (survivors query data).
Proof.
  unfold survivors. destruct o as [c|];
    cbn [fmap option_fmap option_map append_docs remove_docs docs];
    [|reflexivity].
  rewrite no_survivors_of_all. reflexivity.
Qed.

(** One delete trial on the general collection. *)
Lemma general_delete_trial H size w r w' :
  (deleteMany generalCollection MatchAll ;;
   data <- generateData H size ;;
   insertMany generalCollection data ;;
   measureDeleteSpeed generalCollection (ValueGt (ofZ 50))) w = (Fulfilled r, w') ->
  exists data,
    generated_batch H size data /\ length data = size
    /\ docs <$> (db w' !! "generalCollection")
       = Some (survivors (ValueGt (ofZ 50)) data).
Proof.
  intros E. db_trace E.
  eexists; split; [eassumption|]; split; [eassumption|].
  eassert (Hfinal : db w' = _) by (db_rewrite; reflexivity).
  unfold generalCollection, db_collection in Hfinal. rewrite Hfinal.
  db_lookup. apply survivors_of_fresh.
Qed.

(** One delete trial on the time-series collection. *)
Lemma timeSeries_delete_trial H size w r w' :
  (drop_ignoring_errors "timeSeriesCollection" ;;
   tempCollection <- createCollection "timeSeriesCollection" timeSeriesOptions ;;
   data <- generateData H size ;;
   insertMany tempCollection data ;;
   measureDeleteSpeed tempCollection (ValueGt (ofZ 50))) w = (Fulfilled r, w') ->
  (exists data,
     generated_batch H size data /\ length data = size
     /\ docs <$> (db w' !! "timeSeriesCollection")
        = Some (survivors (ValueGt (ofZ 50)) data))
  /\ db w' !! "generalCollection" = db w !! "generalCollection".
Proof.
  intros E. db_trace E.
  all: split; [eexists; split; [eassumption|]; split; [eassumption|]|].
  all: eassert (Hfinal : db w' = _) by (db_rewrite; reflexivity).
  all: rewrite Hfinal; db_lookup; try reflexivity.
  all: cbn [fmap option_fmap option_map append_docs remove_docs docs]; reflexivity.
Qed.

Lemma same_general_refl (w : World) :
  db w !! "generalCollection" = db w !! "generalCollection".
Proof. reflexivity. Qed.

Lemma insert_phase_handle H size w h w' :
  insert_phase H size w = (Fulfilled h, w') -> h = "timeSeriesCollection"%string.
Proof.
  unfold insert_phase. intros E.
  apply bind_fulfilled_inv in E. destruct E as (h1 & w1 & Er & E).
  apply bind_fulfilled_inv in E. destruct E as (? & w2 & _ & E).
  apply reset_collections_handle in Er.
  destruct (reload_collections_populates H size h1 w2 h w' Er E) as (_ & _ & _ & _ & _ & _ & Hh).
  exact Hh.
Qed.

Lemma survivors_at_most query l :
  Forall (fun d => matches query d = false) (survivors query l)
  /\ (length (survivors query l) <= length l)%nat.
Proof.
  unfold survivors. split.
  - apply List.Forall_forall. intros d Hd. apply filter_In in Hd.
    destruct Hd as [_ Hd]. destruct (matches query d); [discriminate | reflexivity].
  - apply filter_length_le.
Qed.

Lemma delete_trials_leave_survivors (H : Host) (size : nat) (w w' : World) :
  delete_trials H size "timeSeriesCollection" w = (Fulfilled tt, w') ->
  exists dataG dataT : list SyntheticRecord,
    (generated_batch H size dataG /\ length dataG = size)
    /\ (generated_batch H size dataT /\ length dataT = size)
    /\ docs <$> (db w' !! "generalCollection")
       = Some (survivors (ValueGt (ofZ 50)) dataG)
    /\ docs <$> (db w' !! "timeSeriesCollection")
       = Some (survivors (ValueGt (ofZ 50)) dataT).
Proof.
  intros E. unfold delete_trials in E. cbv zeta in E.
  apply bind_fulfilled_inv in E. destruct E as (? & w1 & _ & E).
  apply bind_fulfilled_inv in E. destruct E as (rsG & w2 & EG & E).
  apply bind_fulfilled_inv in E. destruct E as (rsT & w3 & ET & E).
  apply runMultipleTests_Trials in EG. destruct EG as (w2' & HtG & ->).
  apply runMultipleTests_Trials in ET. destruct ET as (w3' & HtT & ->).
  unfold testRuns in HtG, HtT.
  destruct (Trials_last _ _ _ _ _ _ _ HtG) as (wg & rg & EgT).
  destruct (general_delete_trial _ _ _ _ _ EgT) as (dataG & HbG & HlenG & HG).
  destruct (Trials_last _ _ _ _ _ _ _ HtT) as (wt & rt & EtT).
  destruct (timeSeries_delete_trial _ _ _ _ _ EtT) as ((dataT & HbT & HlenT & HT) & _).
  eassert (Hkeep : db w3' !! "generalCollection" = db _ !! "generalCollection").
  { refine (Trials_keep H _
              (fun w w' => db w' !! "generalCollection" = db w !! "generalCollection")
              _ _ _ _ _ _ _ _ _ HtT).
    - reflexivity.
    - intros; congruence.
    - reflexivity.
    - intros w0 r0 w0' E0. apply (timeSeries_delete_trial _ _ _ _ _ E0). }
  db_trace E.
  exists dataG, dataT. split; [split; assumption|]. split; [split; assumption|].
  cbn [db put_stdout] in Hkeep.
  db_rewrite. cbn [db put_stdout]. split; [rewrite Hkeep; exact HG | exact HT].
Qed.

(** X17.  One data size of the script with repeated trials, when
    fulfilled, leaves in each of the two collections exactly the documents
    of one generated batch of [size] records that survived the last delete
    trial on that collection: no document with a value above 50, and at
    most [size] documents. *)
Theorem run_size_leaves_survivors (H : Host) (size : nat) (w w' : World) :
  run_size H size w = (Fulfilled tt, w') ->
  exists dataG dataT : list SyntheticRecord,
    (generated_batch H size dataG /\ length dataG = size)
    /\ (generated_batch H size dataT /\ length dataT = size)
    /\ docs <$> (db w' !! "generalCollection")
       = Some (survivors (ValueGt (ofZ 50)) dataG)
    /\ docs <$> (db w' !! "timeSeriesCollection")
       = Some (survivors (ValueGt (ofZ 50)) dataT)
    /\ Forall (fun d => gtb (value d) (ofZ 50) = false)
         (survivors (ValueGt (ofZ 50)) dataG ++ survivors (ValueGt (ofZ 50)) dataT)
    /\ (length (survivors (ValueGt (ofZ 50)) dataG) <= size)%nat
    /\ (length (survivors (ValueGt (ofZ 50)) dataT) <= size)%nat.
Proof.
  intros E. unfold run_size in E.
  apply bind_fulfilled_inv in E. destruct E as (h & w1 & Ei & E).
  apply insert_phase_handle in Ei. subst h.
  apply bind_fulfilled_inv in E. destruct E as (? & w2 & _ & E).
  apply bind_fulfilled_inv in E. destruct E as (? & w3 & _ & E).
  destruct (delete_trials_leave_survivors H size w3 w' E)
    as (dataG & dataT & [HbG HlenG] & [HbT HlenT] & HG & HT).
  exists dataG, dataT.
  destruct (survivors_at_most (ValueGt (ofZ 50)) dataG) as [HfG HleG].
  destruct (survivors_at_most (ValueGt (ofZ 50)) dataT) as [HfT HleT].
  split; [split; assumption|]. split; [split; assumption|].
  split; [exact HG|]. split; [exact HT|].
  split; [apply Forall_app; split; assumption|].
  split; [rewrite <- HlenG; exact HleG | rewrite <- HlenT; exact HleT].
Qed.

Lemma run_size_leaves_survivors_witness :
  let w := world_with_clock (fun k => 1700000000000 + Z.of_nat k) in
  exists w' dataG,
    run_size plain_host 3 w = (Fulfilled tt, w')
    /\ length dataG = 3%nat
    /\ docs <$> (db w' !! "generalCollection")
       = Some (survivors (ValueGt (ofZ 50)) dataG).
Proof.
  intros w.
  assert (Hnf : no_faults w) by (intros k; reflexivity).
  destruct (fulfils_run_size plain_host 3 ltac:(lia) ltac:(lia) w Hnf)
    as ([] & w' & E & _).
  destruct (run_size_leaves_survivors plain_host 3 w w' E)
    as (dataG & _ & [_ HlenG] & _ & HG & _).
  exists w', dataG. split; [exact E|]. split; [exact HlenG | exact HG].
Defined.

(** ** The storage report *)

Lemma getCollectionStats_fulfilled name w :
  faults w (length (calls w)) = None ->
  getCollectionStats name w
  = (Fulfilled {| stats_size := collection_size w name |}, record_call OpCommand w).
Proof.
  intros Hf. unfold getCollectionStats, command_collStats, bind, engine_call, ret.
  rewrite Hf. reflexivity.
Qed.

Lemma gtb_equal_sizes x :
  gtb (Double.mul (Double.div (Double.sub x x) x) (ofZ 100)) (ofZ 0) = false.
Proof.
  destruct x as [| | |a]; try reflexivity.
  unfold Double.sub. rewrite sub_Fin.
  replace (a - a)%Qc with qzero by (unfold qzero; ring).
  cbn [Double.rounded]. rewrite round_zero.
  unfold Double.div, div. change (Qc_sign qzero) with Eq.
  destruct (Qc_sign a) eqn:E; reflexivity.
Qed.

Lemma gtb_zero_baseline t :
  leb (ofZ 0) t = true ->
  gtb (Double.mul (Double.div (Double.sub (ofZ 0) t) (ofZ 0)) (ofZ 100)) (ofZ 0) = false.
Proof.
  destruct t as [| | |b]; try reflexivity; try discriminate.
  intros Hb. unfold ofZ in *. apply leb_Fin in Hb.
  unfold Double.sub. rewrite sub_Fin. cbn [Double.rounded].
  assert (Hle : (Q2Qc (inject_Z 0) - b <= qzero)%Qc).
  { revert Hb. generalize (Q2Qc (inject_Z 0)). intros z Hb. qc_to_q. lra. }
  pose proof (round_le _ _ is_double_zero Hle) as Hr.
  destruct (leb_Fin_inv _ _ Hr) as [-> | (c & -> & Hc)]; [reflexivity|].
  unfold Double.div, div. change (Qc_sign (Q2Qc (inject_Z 0))) with Eq.
  destruct (Qc_sign c) eqn:E; try reflexivity.
  exfalso. apply Qc_sign_Gt in E. exact (Qclt_not_le _ _ E Hc).
Qed.

(** X18.  Where no engine call fails, the storage report makes two
    [collStats] calls and writes four lines: the heading, the two sizes and
    one verdict, the percentage [(general - timeSeries) / general * 100]
    being computed in doubles.  The verdict is the saving line exactly when
    that percentage is above zero: for whole numbers of bytes and a positive
    general size, exactly when the time-series size is smaller.  Equal
    sizes, and a general size of zero with a time-series size that is not
    negative, give the line for a larger use. *)
Theorem storage_report_verdict (H : Host) (w : World) :
  no_faults w ->
  let g := collection_size w "generalCollection" in
  let t := collection_size w "timeSeriesCollection" in
  let p := Double.mul (Double.div (Double.sub g t) g) (ofZ 100) in
  (exists w',
     storage_report H w = (Fulfilled tt, w')
     /\ calls w' = calls w ++ [OpCommand; OpCommand]
     /\ stdout w'
        = stdout w
          ++ [ (newline +:+ "💾 儲存空間使用") +:+ newline;
               ("   一般 Collection       : " +:+ padStart (formatBytes H g) 12) +:+ newline;
               ("   Time Series Collection: " +:+ padStart (formatBytes H t) 12) +:+ newline;
               (if gtb p (ofZ 0)
                then "   空間節省: 🟢 " +:+ toFixed H p 1 +:+ "% (節省 "
                     +:+ formatBytes H (Double.sub g t) +:+ ")"
                else "   空間使用: 🔴 多使用 " +:+ toFixed H (Math_abs p) 1 +:+ "%")
               +:+ newline ])
  /\ (forall a b : Z, g = ofZ a -> t = ofZ b -> 0 < a <= 2 ^ 53 -> 0 <= b <= 2 ^ 53 ->
        (gtb p (ofZ 0) = true <-> b < a))
  /\ (g = t -> gtb p (ofZ 0) = false)
  /\ (g = ofZ 0 -> leb (ofZ 0) t = true -> gtb p (ofZ 0) = false).
Proof.
  intros Hnf g t p. split; [|split; [|split]].
  - unfold storage_report.
    rewrite (bind_fulfilled _ _ _ _ _ (getCollectionStats_fulfilled _ w (Hnf _))).
    rewrite (bind_fulfilled _ _ _ _ _
               (getCollectionStats_fulfilled _ (record_call OpCommand w) (Hnf _))).
    cbn [stats_size]. fold g.
    change (collection_size (record_call OpCommand w) "timeSeriesCollection") with t.
    cbv zeta. fold p.
    unfold console_log, modify, bind.
    destruct (gtb p (ofZ 0)); eexists; (split; [reflexivity|]);
      cbn [calls stdout put_stdout record_call]; rewrite <- !app_assoc; split; reflexivity.
  - intros a b Hg Ht Ha Hb. unfold p. rewrite Hg, Ht. split.
    + intros Hp. destruct (Z_lt_le_dec b a) as [Hlt|Hge]; [exact Hlt|]. exfalso.
      destruct (Z.eq_dec a b) as [->|Hne].
      * rewrite gtb_equal_sizes in Hp. discriminate Hp.
      * destruct (improvement_of_loss a b ltac:(lia) ltac:(lia)) as (q & Eq & Hq).
        rewrite Eq in Hp. unfold gtb, ofZ in Hp. cbn [ltb] in Hp.
        apply Qc_ltb_true in Hp. exact (Qclt_not_le _ _ Hp (Qclt_le_weak _ _ Hq)).
    + intros Hlt. destruct (improvement_of_saving a b Ha ltac:(lia)) as (q & Eq & Hq & _).
      rewrite Eq. unfold gtb, ofZ. cbn [ltb]. apply Qc_ltb_true. exact Hq.
  - intros E. unfold p. rewrite <- E. apply gtb_equal_sizes.
  - intros E Ht. unfold p. rewrite E. apply gtb_zero_baseline. exact Ht.
Qed.

Lemma storage_report_verdict_witness :
  let w := world_with_clock (fun k => 1700000000000 + Z.of_nat k) in
  no_faults w
  /\ exists w',
       storage_report plain_host w = (Fulfilled tt, w')
       /\ last (stdout w') = Some ("   空間使用: 🔴 多使用 NaN%" +:+ newline).
Proof.
  intros w. assert (Hnf : no_faults w) by (intros k; reflexivity).
  split; [exact Hnf|].
  destruct (proj1 (storage_report_verdict plain_host w Hnf)) as (w' & E & _ & Hout).
  exists w'. split; [exact E|]. rewrite Hout. reflexivity.
Defined.
